(** * OpenViking index engine: shallow embedding and verified properties

    The development models the C++ sources under [src/index] of the
    OpenViking reference engine:

    - [Bitmap]            : [scalar/bitmap_holder/bitmap.{h,cpp}]
    - [RangedMap]         : [scalar/bitmap_holder/ranged_map.{h,cpp}]
    - [Sparse]            : [vector/sparse_retrieval/sparse_distance_measure.h]
    - [BruteforceSearch]  : [vector/common/bruteforce.h]
    - [IndexManager]      : [index_manager_impl.cpp], [index_engine.cpp]
    - [StringUtils]       : [common/string_utils.h]
    - [DirIndex]          : [scalar/bitmap_holder/dir_index.{h,cpp}]
    - [FieldGroup]        : [scalar/bitmap_holder/bitmap_field_group.{h,cpp}]
    - [FieldGroupSet]     : [scalar/bitmap_holder/bitmap_field_group.{h,cpp}]
    - [SparseCSR]         : [vector/sparse_retrieval/sparse_dataset.h]
    - [SparseL2]          : [vector/sparse_retrieval/sparse_row_index.h]

    Fixed-width integers are integers of [Z] with the conversions written
    out; [std::unordered_map], [std::map] and [std::set] are [gmap] and
    [gset]; [std::vector] is [list].  The first half of the file holds the
    definitions, the second half the lemmas and the theorems. *)

From Stdlib Require Import ZArith Lia List Bool Permutation Sorted Ascii.
From stdpp Require Import gmap strings list fin_maps sorting.

Open Scope Z_scope.

(* ===================================================================== *)
(** * Machine integers                                                     *)
(* ===================================================================== *)

(** Conversion to an unsigned integer of [w] bits ([uint32_t], [size_t]). *)
Definition wrap (w z : Z) : Z := z mod 2 ^ w.

Definition to_uint32 (z : Z) : Z := wrap 32 z.
Definition to_uint64 (z : Z) : Z := wrap 64 z.

(** Conversion to [int] (two's complement, 32 bits). *)
Definition to_int (z : Z) : Z := (z + 2 ^ 31) mod 2 ^ 32 - 2 ^ 31.

(* ===================================================================== *)
(** * Floating point                                                       *)
(* ===================================================================== *)

(** The operations the sources use on [float] and [double].  Arithmetic is
    left uninterpreted; the comparisons are those of IEEE 754. *)
Class FloatOps (F : Type) := {
  fzero : F;
  fone : F;
  fnan : F;                       (* std::numeric_limits<double>::quiet_NaN() *)
  fadd : F -> F -> F;
  fsub : F -> F -> F;
  fmul : F -> F -> F;
  fltb : F -> F -> bool;          (* x < y *)
  fleb : F -> F -> bool;          (* x <= y *)
  feqb : F -> F -> bool;          (* x == y *)
  fis_nan : F -> bool;            (* std::isnan *)
}.

Definition fgtb {F} `{FloatOps F} (x y : F) : bool := fltb y x.
Definition fgeb {F} `{FloatOps F} (x y : F) : bool := fleb y x.
Definition fneb {F} `{FloatOps F} (x y : F) : bool := negb (feqb x y).

(** [std::min(a, b)] is [(b < a) ? b : a]; [std::max(a, b)] is
    [(a < b) ? b : a]. *)
Definition fmin {F} `{FloatOps F} (a b : F) : F := if fltb b a then b else a.
Definition fmax {F} `{FloatOps F} (a b : F) : F := if fltb a b then b else a.

(** IEEE 754 comparisons: a NaN is unordered with everything, and the
    other values are totally preordered ([+0] and [-0] compare equal);
    [frank] is the position of a value in that preorder. *)
Class FloatOrder (F : Type) `{FloatOps F} := {
  frank : F -> Z;
  fnan_is_nan : fis_nan fnan = true;
  fltb_nan_l : forall x y, fis_nan x = true -> fltb x y = false;
  fltb_nan_r : forall x y, fis_nan y = true -> fltb x y = false;
  fleb_nan_l : forall x y, fis_nan x = true -> fleb x y = false;
  fleb_nan_r : forall x y, fis_nan y = true -> fleb x y = false;
  feqb_nan_l : forall x y, fis_nan x = true -> feqb x y = false;
  feqb_nan_r : forall x y, fis_nan y = true -> feqb x y = false;
  fltb_rank : forall x y, fis_nan x = false -> fis_nan y = false ->
    fltb x y = (frank x <? frank y);
  fleb_rank : forall x y, fis_nan x = false -> fis_nan y = false ->
    fleb x y = (frank x <=? frank y);
  feqb_rank : forall x y, fis_nan x = false -> fis_nan y = false ->
    feqb x y = (frank x =? frank y);
}.

(** A small concrete instance, used to run the definitions: the values are
    the integers plus one NaN. *)
Inductive zfloat := ZNaN | ZNum (z : Z).

Definition zf_lift (f : Z -> Z -> Z) (x y : zfloat) : zfloat :=
  match x, y with ZNum a, ZNum b => ZNum (f a b) | _, _ => ZNaN end.
Definition zf_cmp (f : Z -> Z -> bool) (x y : zfloat) : bool :=
  match x, y with ZNum a, ZNum b => f a b | _, _ => false end.

#[export] Instance zfloat_ops : FloatOps zfloat := {|
  fzero := ZNum 0; fone := ZNum 1; fnan := ZNaN;
  fadd := zf_lift Z.add; fsub := zf_lift Z.sub; fmul := zf_lift Z.mul;
  fltb := zf_cmp Z.ltb; fleb := zf_cmp Z.leb; feqb := zf_cmp Z.eqb;
  fis_nan := fun x => match x with ZNaN => true | ZNum _ => false end;
|}.

#[export] Instance zfloat_order : FloatOrder zfloat := {|
  frank := fun x => match x with ZNum z => z | ZNaN => 0 end;
  fnan_is_nan := eq_refl;
  fltb_nan_l := fun x y => match x with ZNaN => fun _ => eq_refl
                                      | ZNum _ => fun K => match Bool.diff_false_true K with end end;
  fltb_nan_r := fun x y => match y with
                           | ZNaN => fun _ => match x with ZNaN => eq_refl | ZNum _ => eq_refl end
                           | ZNum _ => fun K => match Bool.diff_false_true K with end end;
  fleb_nan_l := fun x y => match x with ZNaN => fun _ => eq_refl
                                      | ZNum _ => fun K => match Bool.diff_false_true K with end end;
  fleb_nan_r := fun x y => match y with
                           | ZNaN => fun _ => match x with ZNaN => eq_refl | ZNum _ => eq_refl end
                           | ZNum _ => fun K => match Bool.diff_false_true K with end end;
  feqb_nan_l := fun x y => match x with ZNaN => fun _ => eq_refl
                                      | ZNum _ => fun K => match Bool.diff_false_true K with end end;
  feqb_nan_r := fun x y => match y with
                           | ZNaN => fun _ => match x with ZNaN => eq_refl | ZNum _ => eq_refl end
                           | ZNum _ => fun K => match Bool.diff_false_true K with end end;
  fltb_rank := fun x y => match x, y with
                          | ZNum _, ZNum _ => fun _ _ => eq_refl
                          | ZNaN, _ => fun K _ => match Bool.diff_true_false K with end
                          | ZNum _, ZNaN => fun _ K => match Bool.diff_true_false K with end
                          end;
  fleb_rank := fun x y => match x, y with
                          | ZNum _, ZNum _ => fun _ _ => eq_refl
                          | ZNaN, _ => fun K _ => match Bool.diff_true_false K with end
                          | ZNum _, ZNaN => fun _ K => match Bool.diff_true_false K with end
                          end;
  feqb_rank := fun x y => match x, y with
                          | ZNum _, ZNum _ => fun _ _ => eq_refl
                          | ZNaN, _ => fun K _ => match Bool.diff_true_false K with end
                          | ZNum _, ZNaN => fun _ K => match Bool.diff_true_false K with end
                          end;
|}.

(* ===================================================================== *)
(** * Bitmap  (bitmap.h, bitmap.cpp)                                       *)
(* ===================================================================== *)

Module Bitmap.

(** [roaring::Roaring] (CRoaring, not part of the repository) and
    [std::set<uint32_t>] are both finite sets of identifiers. *)
Record t := mk {
  roaring_ : gset Z;
  set_ : gset Z;
  is_roaring_ : bool;
  nbit_cache_ : Z;
  has_nbit_cache_ : bool;
}.

Definition kSetThreshold : nat := 32.

(** [Bitmap() = default] *)
Definition new : t := mk ∅ ∅ false 0 false.

Definition to_roaring (b : t) : t :=
  if is_roaring_ b then b
  else mk (roaring_ b ∪ set_ b) ∅ true (nbit_cache_ b) (has_nbit_cache_ b).

Definition invalidate (b : t) : t :=
  mk (roaring_ b) (set_ b) (is_roaring_ b) (nbit_cache_ b) false.

Definition Set_ (b : t) (id : Z) : t :=
  if is_roaring_ b then
    mk ({[id]} ∪ roaring_ b) (set_ b) true (nbit_cache_ b) false
  else
    let b1 := mk (roaring_ b) ({[id]} ∪ set_ b) false (nbit_cache_ b)
                 (has_nbit_cache_ b) in
    let b2 := if decide (kSetThreshold < size (set_ b1))%nat
              then to_roaring b1 else b1 in
    invalidate b2.

Definition Unset (b : t) (id : Z) : t :=
  if is_roaring_ b then
    mk (roaring_ b ∖ {[id]}) (set_ b) true (nbit_cache_ b) false
  else
    mk (roaring_ b) (set_ b ∖ {[id]}) false (nbit_cache_ b) false.

Definition Isset (b : t) (id : Z) : bool :=
  if is_roaring_ b then bool_decide (id ∈ roaring_ b)
  else bool_decide (id ∈ set_ b).

(** [roaring_.addRange(x, y)] adds the half-open range [[x, y)]. *)
Definition SetRange (b : t) (x y : Z) : t :=
  let b1 := to_roaring b in
  mk (roaring_ b1 ∪ list_to_set (seqZ x (y - x))) (set_ b1) (is_roaring_ b1)
     (nbit_cache_ b1) false.

Definition SetMany (b : t) (ids : list Z) : t :=
  match ids with
  | [] => invalidate b
  | _ =>
      let b1 := to_roaring b in
      mk (roaring_ b1 ∪ list_to_set ids) (set_ b1) (is_roaring_ b1)
         (nbit_cache_ b1) false
  end.

Definition nbit (b : t) : Z :=
  if is_roaring_ b then to_uint32 (Z.of_nat (size (roaring_ b)))
  else to_uint32 (Z.of_nat (size (set_ b))).

(** [get_cached_nbit] returns the count and fills the cache. *)
Definition get_cached_nbit (b : t) : Z * t :=
  if negb (has_nbit_cache_ b) then
    (nbit b, mk (roaring_ b) (set_ b) (is_roaring_ b) (nbit b) true)
  else (nbit_cache_ b, b).

Definition empty (b : t) : bool :=
  bool_decide (roaring_ b = ∅) && bool_decide (set_ b = ∅).

Definition clear (b : t) : t := mk ∅ ∅ false (nbit_cache_ b) false.

(** [copy(const Bitmap& other)]; the cache fields of [this] stay. *)
Definition copy (b other : t) : t :=
  mk (roaring_ other) (set_ other) (is_roaring_ other) (nbit_cache_ b) false.

Definition copy_ptr (b : t) (pother : option t) : t :=
  match pother with
  | Some other => invalidate (copy b other)
  | None => b
  end.

(** The elements in ascending order ([std::set] iteration order and
    [toUint32Array]). *)
Definition sorted_elements (s : gset Z) : list Z := merge_sort Z.le (elements s).

Definition Union (b other : t) : t :=
  if is_roaring_ other then
    let b1 := to_roaring b in
    mk (roaring_ b1 ∪ roaring_ other) (set_ b1) (is_roaring_ b1)
       (nbit_cache_ b1) false
  else
    invalidate (fold_left Set_ (sorted_elements (set_ other)) b).

(** [Exclude(const Bitmap& other)]: the first branch returns at once. *)
Definition Exclude (b other : t) : t :=
  if is_roaring_ b && is_roaring_ other then
    mk (roaring_ b ∖ roaring_ other) (set_ b) (is_roaring_ b) (nbit_cache_ b)
       (has_nbit_cache_ b)
  else if negb (is_roaring_ other) then
    invalidate (fold_left Unset (sorted_elements (set_ other)) b)
  else
    mk (roaring_ b) (filter (fun id => Isset other id = false) (set_ b))
       (is_roaring_ b) (nbit_cache_ b) false.

(** [Intersect(const Bitmap& other)]: the first branch returns at once. *)
Definition Intersect (b other : t) : t :=
  if is_roaring_ b && is_roaring_ other then
    mk (roaring_ b ∩ roaring_ other) (set_ b) (is_roaring_ b) (nbit_cache_ b)
       (has_nbit_cache_ b)
  else if is_roaring_ b then
    let s := filter (fun id => Isset b id = true) (set_ other) in
    mk ∅ s false (nbit_cache_ b) false
  else
    mk (roaring_ b) (filter (fun id => Isset other id = true) (set_ b))
       (is_roaring_ b) (nbit_cache_ b) false.

Definition sym_diff (a c : gset Z) : gset Z := (a ∖ c) ∪ (c ∖ a).

Definition Xor (b other : t) : t :=
  let b1 := to_roaring b in
  let r := if is_roaring_ other then roaring_ other
           else list_to_set (sorted_elements (set_ other)) in
  mk (sym_diff (roaring_ b1) r) (set_ b1) (is_roaring_ b1) (nbit_cache_ b1)
     false.

(** The overloads taking [const Bitmap*]. *)
Definition Union_ptr (b : t) (pother : option t) : t :=
  match pother with Some o => invalidate (Union b o) | None => b end.
Definition Exclude_ptr (b : t) (pother : option t) : t :=
  match pother with Some o => invalidate (Exclude b o) | None => b end.
Definition Intersect_ptr (b : t) (pother : option t) : t :=
  match pother with Some o => invalidate (Intersect b o) | None => b end.
Definition Xor_ptr (b : t) (pother : option t) : t :=
  match pother with Some o => invalidate (Xor b o) | None => b end.

(** The first loop of [FastUnion]: every roaring operand is or-ed into
    [roaring_] and removed from the vector by a swap with the back. *)
Fixpoint FastUnion_lazy (fuel : nat) (i : nat) (bitmaps : list t)
    (acc : gset Z) (lazy : bool) : list t * gset Z * bool :=
  match fuel with
  | O => (bitmaps, acc, lazy)
  | S fuel' =>
      match bitmaps !! i with
      | None => (bitmaps, acc, lazy)
      | Some bm =>
          if negb (is_roaring_ bm) then
            FastUnion_lazy fuel' (S i) bitmaps acc lazy
          else
            let back := List.last bitmaps bm in
            let swapped := <[i := back]> bitmaps in
            FastUnion_lazy fuel' i (removelast swapped)
                           (acc ∪ roaring_ bm) true
      end
  end.

Definition FastUnion (b : t) (bitmaps : list t) : t :=
  match bitmaps with
  | [] => b
  | [b0] => Union_ptr b (Some b0)
  | _ =>
      let b1 := to_roaring b in
      let '(rest, acc, _) :=
        FastUnion_lazy (length bitmaps) 0 bitmaps (roaring_ b1) false in
      let b2 := mk acc (set_ b1) (is_roaring_ b1) (nbit_cache_ b1)
                   (has_nbit_cache_ b1) in
      invalidate (fold_left (fun acc bm => Union_ptr acc (Some bm)) rest b2)
  end.

(** [Roaring::read] followed by the demotion of small sets; the argument
    is the set the serialised string denotes. *)
Definition to_set (b : t) : t :=
  if is_roaring_ b then
    mk ∅ (list_to_set (sorted_elements (roaring_ b))) false (nbit_cache_ b) false
  else b.

Definition ParseFromString (b : t) (s : gset Z) : t :=
  let b1 := clear b in
  let b2 := mk s (set_ b1) true (nbit_cache_ b1) (has_nbit_cache_ b1) in
  let b3 := if decide (size s <= kSetThreshold)%nat then to_set b2 else b2 in
  invalidate b3.

(** [get_set_list] of a bitmap of fewer than 2^32 identifiers:
    [result.resize(nbit(), 0)] then makes room for all the identifiers
    that [toUint32Array] writes.  With 2^32 identifiers [nbit()], a
    [uint32_t], is 0 and the write is out of bounds. *)
Definition get_set_list (b : t) : list Z :=
  if is_roaring_ b then sorted_elements (roaring_ b)
  else sorted_elements (set_ b).

(** [get_range_list(result, limit, offset)]: the count returned, the
    vector [result] after the call, and the bitmap, whose cache the call
    fills.  [result.resize(real_limit, 0)] keeps what the vector held;
    [rangeUint32Array] and [std::copy_n] then write the identifiers from
    rank [offset] on. *)
Definition get_range_list (b : t) (result : list Z) (limit offset : Z)
    : Z * list Z * t :=
  let '(max_num, b1) := get_cached_nbit b in
  let real_limit := Z.min (to_uint32 (max_num - offset)) limit in
  if (max_num <=? offset) || (real_limit <=? 0) then (0, result, b1)
  else
    let result1 :=
      if Z.of_nat (length result) =? real_limit then result
      else resize (Z.to_nat real_limit) 0 result in
    let page :=
      take (Z.to_nat real_limit) (drop (Z.to_nat offset) (get_set_list b1)) in
    let result2 := page ++ drop (length page) result1 in
    (to_uint32 (Z.of_nat (length result2)), result2, b1).

(** The identifiers a bitmap holds, whatever its representation. *)
Definition elems (b : t) : gset Z :=
  if is_roaring_ b then roaring_ b else set_ b.

(** The representation invariant: the unused side is empty. *)
Definition wf (b : t) : Prop :=
  if is_roaring_ b then set_ b = ∅ else roaring_ b = ∅.

(** The identifiers 0..32: one more than [kSetThreshold], so the bitmap
    is in its roaring representation. *)
Definition thirty_three : t := fold_left Set_ (seqZ 0 33) new.

End Bitmap.

(* ===================================================================== *)
(** * RangedMap  (ranged_map.h, ranged_map.cpp)                            *)
(* ===================================================================== *)

(** The two [double] constants of the scalar index that are not zero:
    the score of an offset outside the table, [-99999999.0], and the
    conversion of a [double] to the [float] of a [RecallResult]. *)
Class ScoreOps (F : Type) := {
  kMissingScore : F;
  to_float : F -> F;
}.

#[export] Instance zfloat_scores : ScoreOps zfloat := {|
  kMissingScore := ZNum (-99999999);
  to_float := fun x => x;
|}.

Module RangedMap.

(** [static int kRangedMapSlotSize = 10000] and
    [static double kRangedMapSortMultiplier = 2.0]. *)
Definition kRangedMapSlotSize : Z := 10000.
Definition kRangedMapSortMultiplier : Z := 2.

Section Map.
Context {F : Type} `{FloatOps F} `{ScoreOps F}.

Record SlotMeta := mkSlot {
  left : F;
  right : F;
  bitmap : Bitmap.t;
  value_vec : list F;
  offset_vec : list Z;
}.

Record t := mk {
  offset_to_value_ : list F;
  slots_ : list SlotMeta;
}.

Definition new : t := mk [] [].

(** [uint32_t size() const] *)
Definition size (m : t) : Z := to_uint32 (Z.of_nat (length (offset_to_value_ m))).

(** [v[i]] on a vector; the sources index inside the vector, the default
    stands for the reads the language leaves undefined. *)
Definition value_at (l : list F) (i : Z) : F := nth (Z.to_nat i) l fnan.
Definition offset_at (l : list Z) (i : Z) : Z := nth (Z.to_nat i) l 0.
Definition no_slot : SlotMeta := mkSlot fzero fzero Bitmap.new [] [].
Definition slot_at (slots : list SlotMeta) (i : Z) : SlotMeta :=
  nth (Z.to_nat i) slots no_slot.

Definition get_score_by_offset (m : t) (offset : Z) : F :=
  if offset <? Z.of_nat (length (offset_to_value_ m))
  then value_at (offset_to_value_ m) offset
  else kMissingScore.

(** [std::upper_bound(first, last, val)]: the first position whose element
    is greater than [val]; [std::lower_bound]: the first position whose
    element is not less than [val].  On the ranges the standard admits
    (partitioned with respect to [val]) this is the length of the prefix
    of the elements on the other side. *)
Fixpoint prefix_length {A} (p : A -> bool) (l : list A) : nat :=
  match l with
  | [] => O
  | x :: l' => if p x then S (prefix_length p l') else O
  end.

Definition upper_bound (vs : list F) (val : F) : Z :=
  Z.of_nat (prefix_length (fun e => negb (fltb val e)) vs).
Definition lower_bound (vs : list F) (val : F) : Z :=
  Z.of_nat (prefix_length (fun e => fltb e val) vs).

(** [v.insert(v.begin() + i, x)] and [v.erase(v.begin() + i)]. *)
Definition insert_at {A} (i : Z) (x : A) (l : list A) : list A :=
  take (Z.to_nat i) l ++ x :: drop (Z.to_nat i) l.
Definition erase_at {A} (i : Z) (l : list A) : list A :=
  take (Z.to_nat i) l ++ drop (S (Z.to_nat i)) l.

(** ** SlotMeta *)

Definition get_right_border (slot : SlotMeta) (lower_than : F) (include_le : bool) : Z :=
  if include_le then to_uint32 (upper_bound (value_vec slot) lower_than)
  else to_uint32 (lower_bound (value_vec slot) lower_than).

Definition get_left_border (slot : SlotMeta) (greater_than : F) (include_ge : bool) : Z :=
  if include_ge then to_uint32 (lower_bound (value_vec slot) greater_than)
  else to_uint32 (upper_bound (value_vec slot) greater_than).

(** The three readers set the offsets of a run of positions in [to] and
    return how many positions the run has, as a [uint32_t]. *)
Definition get_lower_than_data (slot : SlotMeta) (to : Bitmap.t)
    (lower_than : F) (include_le : bool) : Z * Bitmap.t :=
  let bound_idx := get_right_border slot lower_than include_le in
  (bound_idx,
   fold_left Bitmap.Set_ (take (Z.to_nat bound_idx) (offset_vec slot)) to).

Definition get_greater_than_data (slot : SlotMeta) (to : Bitmap.t)
    (greater_than : F) (include_ge : bool) : Z * Bitmap.t :=
  let bound_idx := get_left_border slot greater_than include_ge in
  (to_uint32 (Z.of_nat (length (offset_vec slot)) - bound_idx),
   fold_left Bitmap.Set_ (drop (Z.to_nat bound_idx) (offset_vec slot)) to).

Definition get_range_data (slot : SlotMeta) (to : Bitmap.t)
    (lower_than : F) (include_le : bool) (greater_than : F) (include_ge : bool)
    : Z * Bitmap.t :=
  let l_border := get_left_border slot greater_than include_ge in
  let r_border := get_right_border slot lower_than include_le in
  (to_uint32 (r_border - l_border),
   fold_left Bitmap.Set_
     (take (Z.to_nat (r_border - l_border))
           (drop (Z.to_nat l_border) (offset_vec slot))) to).

(** [split_half_to_new_slot]: the upper half of the slot moves to
    [new_slot]; the result is the flag, the slot and the new slot. *)
Definition split_half_to_new_slot (self new_slot : SlotMeta)
    : bool * SlotMeta * SlotMeta :=
  if (length (value_vec self) <? 2)%nat then (false, self, new_slot)
  else
    let split_idx := Nat.div (length (value_vec self)) 2 in
    let nv := drop split_idx (value_vec self) in
    let no := drop split_idx (offset_vec self) in
    let new_slot' :=
      mkSlot (List.hd fnan nv) (List.last nv fnan)
             (Bitmap.SetMany (bitmap new_slot) no) nv no in
    let v := take split_idx (value_vec self) in
    let o := take split_idx (offset_vec self) in
    let self' :=
      mkSlot (left self) (List.last v fnan)
             (Bitmap.SetMany (Bitmap.clear (bitmap self)) o) v o in
    (true, self', new_slot').

(** ** The binary searches over the slots *)

(** [while (l < r)] of [slot_lower_bound_idx] and [slot_upper_bound_idx],
    which differ in their two comparisons only: [past slot] sends the
    search to the right of [mid], [before slot] to its left, and the loop
    breaks at [mid] otherwise.  The interval shrinks at every turn, so
    [length slots_] turns are enough. *)
Fixpoint slot_bound_loop (fuel : nat) (slots : list SlotMeta)
    (past before : SlotMeta -> bool) (l r : Z) : Z :=
  match fuel with
  | O => l
  | S fuel' =>
      if l <? r then
        let mid := l + Z.quot (r - l) 2 in
        let slot := slot_at slots mid in
        if past slot then slot_bound_loop fuel' slots past before (mid + 1) r
        else if before slot then slot_bound_loop fuel' slots past before l mid
        else mid
      else l
  end.

(** [val > slot.right], [val <= slot.left] *)
Definition slot_lower_bound_idx (m : t) (val : F) : Z :=
  slot_bound_loop (length (slots_ m)) (slots_ m)
    (fun slot => fgtb val (right slot)) (fun slot => fleb val (left slot))
    0 (to_int (Z.of_nat (length (slots_ m)))).

(** [val >= slot.right], [val < slot.left] *)
Definition slot_upper_bound_idx (m : t) (val : F) : Z :=
  slot_bound_loop (length (slots_ m)) (slots_ m)
    (fun slot => fgeb val (right slot)) (fun slot => fltb val (left slot))
    0 (to_int (Z.of_nat (length (slots_ m)))).

Definition find_right_slot_index (m : t) (lower_than : F) (include_le : bool) : Z :=
  let last_idx := to_int (Z.of_nat (length (slots_ m))) - 1 in
  if include_le then
    let slot_idx := Z.min (slot_upper_bound_idx m lower_than) last_idx in
    if fltb lower_than (left (slot_at (slots_ m) slot_idx))
    then slot_idx - 1 else slot_idx
  else
    let slot_idx := Z.min (slot_lower_bound_idx m lower_than) last_idx in
    if fleb lower_than (left (slot_at (slots_ m) slot_idx))
    then slot_idx - 1 else slot_idx.

Definition find_left_slot_index (m : t) (greater_than : F) (include_ge : bool) : Z :=
  if include_ge then slot_lower_bound_idx m greater_than
  else slot_upper_bound_idx m greater_than.

(** ** Updates *)

(** [add_offset_and_score].  [offset] is a [uint32_t], so [offset + 1] is
    computed on 32 bits; when it wraps the vector is resized to nothing
    and the write that follows is outside it: [None]. *)
Definition add_offset_and_score (m : t) (offset : Z) (value : F) : option (Z * t) :=
  let otv := offset_to_value_ m in
  let n := Z.of_nat (length otv) in
  if (offset <? n) && negb (fis_nan (value_at otv offset)) then Some (-1, m)
  else
    let otv1 :=
      if offset >=? n then resize (Z.to_nat (to_uint32 (offset + 1))) fnan otv
      else otv in
    if Z.of_nat (length otv1) <=? offset then None
    else
      let otv2 := <[Z.to_nat offset := value]> otv1 in
      match slots_ m with
      | [] =>
          Some (0, mk otv2 [mkSlot value value (Bitmap.Set_ Bitmap.new offset)
                                   [value] [offset]])
      | _ =>
          let found := find_right_slot_index (mk otv2 (slots_ m)) value true in
          let slot_idx := if found =? -1 then 0 else found in
          let add_slot := slot_at (slots_ m) slot_idx in
          let vec_idx := upper_bound (value_vec add_slot) value in
          let add_slot' :=
            mkSlot (fmin value (left add_slot)) (fmax value (right add_slot))
                   (Bitmap.Set_ (bitmap add_slot) offset)
                   (insert_at vec_idx value (value_vec add_slot))
                   (insert_at vec_idx offset (offset_vec add_slot)) in
          if kRangedMapSlotSize * 2 <? Z.of_nat (length (value_vec add_slot')) then
            let '(_, lower, upper) :=
              split_half_to_new_slot add_slot'
                (mkSlot fzero fzero Bitmap.new [] []) in
            Some (0, mk otv2 (take (Z.to_nat slot_idx) (slots_ m)
                              ++ lower :: upper
                              :: drop (S (Z.to_nat slot_idx)) (slots_ m)))
          else
            Some (0, mk otv2 (<[Z.to_nat slot_idx := add_slot']> (slots_ m)))
      end.

(** [while (slot_idx < slots_.size() && !slots_[slot_idx].bitmap->Isset(offset))] *)
Fixpoint skip_slots (fuel : nat) (slots : list SlotMeta) (offset slot_idx : Z) : Z :=
  match fuel with
  | O => slot_idx
  | S fuel' =>
      if (slot_idx <? Z.of_nat (length slots))
         && negb (Bitmap.Isset (bitmap (slot_at slots slot_idx)) offset)
      then skip_slots fuel' slots offset (slot_idx + 1)
      else slot_idx
  end.

(** [while (offset_it != end && *offset_it != offset) offset_it++] *)
Fixpoint find_offset (fuel : nat) (offsets : list Z) (offset pos : Z) : Z :=
  match fuel with
  | O => pos
  | S fuel' =>
      if negb (pos =? Z.of_nat (length offsets))
         && negb (offset_at offsets pos =? offset)
      then find_offset fuel' offsets offset (pos + 1)
      else pos
  end.

Definition delete_offset (m : t) (offset : Z) : Z * t :=
  let otv := offset_to_value_ m in
  match slots_ m with
  | [] => (-1, m)
  | _ =>
      if (offset >=? Z.of_nat (length otv)) || fis_nan (value_at otv offset)
      then (-1, m)
      else
        let value := value_at otv offset in
        let otv' := <[Z.to_nat offset := fnan]> otv in
        let start := to_uint64 (find_left_slot_index m value true) in
        let slot_idx := skip_slots (S (length (slots_ m))) (slots_ m) offset start in
        if slot_idx >=? Z.of_nat (length (slots_ m)) then (-1, mk otv' (slots_ m))
        else
          let delete_slot := slot_at (slots_ m) slot_idx in
          let bitmap' := Bitmap.Unset (bitmap delete_slot) offset in
          let from := lower_bound (value_vec delete_slot) value in
          let vec_idx :=
            find_offset (S (length (offset_vec delete_slot)))
                        (offset_vec delete_slot) offset from in
          if vec_idx =? Z.of_nat (length (offset_vec delete_slot)) then
            (-1, mk otv' (<[Z.to_nat slot_idx :=
                             mkSlot (left delete_slot) (right delete_slot) bitmap'
                                    (value_vec delete_slot)
                                    (offset_vec delete_slot)]> (slots_ m)))
          else
            let offsets' := erase_at vec_idx (offset_vec delete_slot) in
            let values' := erase_at vec_idx (value_vec delete_slot) in
            match values' with
            | [] => (0, mk otv' (erase_at slot_idx (slots_ m)))
            | _ =>
                (0, mk otv' (<[Z.to_nat slot_idx :=
                               mkSlot (List.hd fnan values')
                                      (List.last values' fnan)
                                      bitmap' values' offsets']> (slots_ m)))
            end
  end.

(** ** Range queries *)

(** [for (int i = from; i < to; i++) { temp_p->Union(slots_[i].bitmap.get());
    cnt += slots_[i].offset_vec.size(); }] *)
Definition union_slots (slots : list SlotMeta) (from to : Z)
    (acc : Z * Bitmap.t) : Z * Bitmap.t :=
  fold_left
    (fun a i =>
       (to_uint32 (fst a + Z.of_nat (length (offset_vec (slot_at slots i)))),
        Bitmap.Union_ptr (snd a) (Some (bitmap (slot_at slots i)))))
    (seqZ from (to - from)) acc.

(** The part of [get_range_bitmap_with_slot_data] between the exchange of
    the two ends and the test of the counter: the two slot indices and the
    scan, which leaves the counter [cnt] and the bitmap [temp]. *)
Definition range_scan (m : t) (range_out : bool)
    (lower_than : F) (include_le : bool) (greater_than : F) (include_ge : bool)
    : Z * Bitmap.t :=
  let n := to_int (Z.of_nat (length (slots_ m))) in
  let r_index := find_right_slot_index m lower_than include_le in
  let l_index := find_left_slot_index m greater_than include_ge in
  let start := (0, Bitmap.new) in
  if negb range_out then
    let a1 := union_slots (slots_ m) (l_index + 1) r_index start in
    if negb (r_index =? -1) && negb (l_index =? n) then
      if l_index <? r_index then
        let '(c2, t2) :=
          get_lower_than_data (slot_at (slots_ m) r_index) (snd a1)
                              lower_than include_le in
        let '(c3, t3) :=
          get_greater_than_data (slot_at (slots_ m) l_index) t2
                                greater_than include_ge in
        (to_uint32 (to_uint32 (fst a1 + c2) + c3), t3)
      else if l_index =? r_index then
        let '(c2, t2) :=
          get_range_data (slot_at (slots_ m) r_index) (snd a1)
                         lower_than include_le greater_than include_ge in
        (to_uint32 (fst a1 + c2), t2)
      else a1
    else a1
  else
    let a1 := union_slots (slots_ m) 0 l_index start in
    let a2 :=
      if negb (l_index =? n) && negb (l_index =? -1) then
        let '(c, b) :=
          get_lower_than_data (slot_at (slots_ m) l_index) (snd a1)
                              greater_than (negb include_ge) in
        (to_uint32 (fst a1 + c), b)
      else a1 in
    let a3 := union_slots (slots_ m) (r_index + 1) n a2 in
    if negb (r_index =? -1) && negb (r_index =? n) then
      let '(c, b) :=
        get_greater_than_data (slot_at (slots_ m) r_index) (snd a3)
                              lower_than (negb include_le) in
      (to_uint32 (fst a3 + c), b)
    else a3.

(** [get_range_bitmap_with_slot_data]; [None] is the null pointer. *)
Definition get_range_bitmap_with_slot_data (m : t) (range_out : bool)
    (lower_than : F) (include_le : bool) (greater_than : F) (include_ge : bool)
    : option Bitmap.t :=
  match slots_ m with
  | [] => None
  | _ =>
      let swap := range_out && fltb lower_than greater_than in
      let lower_than' := if swap then greater_than else lower_than in
      let greater_than' := if swap then lower_than else greater_than in
      let include_le' := if swap then include_ge else include_le in
      let include_ge' := if swap then include_le else include_ge in
      let '(cnt, temp) :=
        range_scan m range_out lower_than' include_le' greater_than' include_ge' in
      if cnt <=? 0 then None else Some temp
  end.

Definition get_range_bitmap := get_range_bitmap_with_slot_data.

(** ** Top-k *)

(** [std::function<bool(uint32_t)>]: [None] is the empty function. *)
Definition offset_filter_t := option (Z -> bool).

Definition filtered (filter_func : offset_filter_t) (offset : Z) : bool :=
  match filter_func with Some f => f offset | None => false end.

Record RecallResult := mkRecall {
  scores : list F;
  offsets : list Z;
}.

(** The scan of one slot in [get_topk_result_with_slot_data]; the state
    is the counter and the two output vectors. *)
Fixpoint topk_slot_scan (fuel : nat) (slot : SlotMeta) (filter_func : offset_filter_t)
    (topk step offset_idx : Z) (st : Z * list F * list Z) : Z * list F * list Z :=
  match fuel with
  | O => st
  | S fuel' =>
      if (0 <=? offset_idx) && (offset_idx <? Z.of_nat (length (offset_vec slot))) then
        let '(cnt, temp_scores, temp_offsets) := st in
        if filtered filter_func (offset_at (offset_vec slot) offset_idx) then
          topk_slot_scan fuel' slot filter_func topk step (offset_idx + step) st
        else
          let st' := (cnt + 1,
                      temp_scores ++ [to_float (value_at (value_vec slot) offset_idx)],
                      temp_offsets ++ [offset_at (offset_vec slot) offset_idx]) in
          if cnt + 1 >=? topk then st'
          else topk_slot_scan fuel' slot filter_func topk step (offset_idx + step) st'
      else st
  end.

(** [get_topk_result_with_slot_data] for [0 <= topk]: a negative [topk]
    makes [temp_offsets.reserve(topk)] throw [std::length_error], and the
    call has no result. *)
Definition get_topk_result_with_slot_data (m : t) (topk : Z) (order_asc : bool)
    (filter_func : offset_filter_t) : RecallResult :=
  let visit st slot :=
    if fst (fst st) <? topk then
      topk_slot_scan (length (offset_vec slot)) slot filter_func topk
        (if order_asc then 1 else -1)
        (if order_asc then 0 else Z.of_nat (length (offset_vec slot)) - 1) st
    else st in
  let '(_, temp_scores, temp_offsets) :=
    fold_left visit (if order_asc then slots_ m else rev (slots_ m)) (0, [], []) in
  mkRecall temp_scores temp_offsets.

Definition get_topk_result := get_topk_result_with_slot_data.

(** [cond_func] of [sort_with_conditions]. *)
Fixpoint cond_rest (conditions : list (t * bool)) (idx_l idx_r : Z) : bool :=
  match conditions with
  | [] => false
  | (cmap, asc) :: rest =>
      let value_l := get_score_by_offset cmap idx_l in
      let value_r := get_score_by_offset cmap idx_r in
      if fneb value_l value_r then xorb (fgtb value_l value_r) asc
      else cond_rest rest idx_l idx_r
  end.

Definition cond_func (m : t) (this_order_asc : bool) (conditions : list (t * bool))
    (idx_l idx_r : Z) : bool :=
  let value_l := get_score_by_offset m idx_l in
  let value_r := get_score_by_offset m idx_r in
  if fneb value_l value_r then xorb (fgtb value_l value_r) this_order_asc
  else cond_rest conditions idx_l idx_r.

(** [std::sort(first, last, comp)]: the elements in an order in which no
    element is [comp]-before one that precedes it. *)
Definition not_after (comp : Z -> Z -> bool) (a b : Z) : Prop := comp b a = false.

#[global] Instance not_after_dec comp a b : Decision (not_after comp a b).
Proof. unfold not_after. apply _. Defined.

Definition std_sort (comp : Z -> Z -> bool) (l : list Z) : list Z :=
  merge_sort (not_after comp) l.

Definition sort_with_conditions (m : t) (offsets : list Z) (topk : Z)
    (this_order_asc : bool) (conditions : list (t * bool)) : RecallResult :=
  let sorted := std_sort (cond_func m this_order_asc conditions) offsets in
  let kept :=
    take (Z.to_nat (Z.min (Z.of_nat (length sorted)) (to_uint64 topk))) sorted in
  mkRecall (map (fun o => to_float (get_score_by_offset m o)) kept) kept.

(** The scan of one slot in
    [get_topk_result_with_slot_data_with_conditions]: the state is
    [cnt], [last_score] and [temp_offsets]. *)
Fixpoint conditions_slot_scan (fuel : nat) (slot : SlotMeta)
    (filter_func : offset_filter_t) (topk max_size step offset_to offset_idx : Z)
    (st : Z * F * list Z) : Z * F * list Z :=
  match fuel with
  | O => st
  | S fuel' =>
      if offset_idx =? offset_to then st
      else
        let '(cnt, last_score, temp_offsets) := st in
        if filtered filter_func (offset_at (offset_vec slot) offset_idx) then
          conditions_slot_scan fuel' slot filter_func topk max_size step offset_to
            (offset_idx + step) st
        else
          let this_score := value_at (value_vec slot) offset_idx in
          let temp_offsets' :=
            temp_offsets ++ [offset_at (offset_vec slot) offset_idx] in
          if cnt + 1 >=? max_size then (cnt + 1, last_score, temp_offsets')
          else if (cnt + 1 >? Z.max topk 1) && fneb last_score this_score then
            (cnt + 1, last_score, temp_offsets')
          else
            conditions_slot_scan fuel' slot filter_func topk max_size step
              offset_to (offset_idx + step) (cnt + 1, this_score, temp_offsets')
  end.

(** [get_topk_result_with_slot_data_with_conditions] for [0 <= topk] (a
    negative one makes [temp_offsets.reserve(max_size)] throw).
    [slot_from], [slot_to] and [step] are computed as in the source; the
    loop over the slots is [for (int slot_idx = 0; slot_idx <
    (int)slots_.size() && cnt < max_size; slot_idx++)]. *)
Definition get_topk_result_with_slot_data_with_conditions (m : t) (topk : Z)
    (this_order_asc : bool) (filter_func : offset_filter_t)
    (conditions : list (t * bool)) : RecallResult :=
  let max_size := topk * kRangedMapSortMultiplier in
  let n := to_int (Z.of_nat (length (slots_ m))) in
  let '(slot_from, slot_to, step) :=
    if this_order_asc then (0, n, 1) else (n - 1, -1, -1) in
  let visit st slot :=
    if fst (fst st) <? max_size then
      let size := to_int (Z.of_nat (length (offset_vec slot))) in
      let '(offset_from, offset_to) :=
        if this_order_asc then (0, size) else (size - 1, -1) in
      conditions_slot_scan (length (offset_vec slot)) slot filter_func topk
        max_size step offset_to offset_from st
    else st in
  let '(_, _, temp_offsets) := fold_left visit (slots_ m) (0, fzero, []) in
  sort_with_conditions m temp_offsets topk this_order_asc conditions.

Definition get_topk_result_with_conditions :=
  get_topk_result_with_slot_data_with_conditions.

(** ** RangedMap2D: a pair of maps, one per coordinate *)

Definition dist_square_to (x_ y_ : t) (x y : F) (offset : Z) : F :=
  let xdiff := fsub (value_at (offset_to_value_ x_) offset) x in
  let ydiff := fsub (value_at (offset_to_value_ y_) offset) y in
  fadd (fmul xdiff xdiff) (fmul ydiff ydiff).

Definition get_range2d_bitmap_with_slot_data (x_ y_ : t) (x y radius : F)
    : option Bitmap.t :=
  if fleb radius fzero then None
  else
    match get_range_bitmap_with_slot_data x_ false (fadd x radius) true
                                          (fsub x radius) true with
    | None => None
    | Some temp =>
        if Bitmap.empty temp then None
        else
          match get_range_bitmap_with_slot_data y_ false (fadd y radius) true
                                                (fsub y radius) true with
          | None => None
          | Some y_temp =>
              if Bitmap.empty y_temp then None
              else
                let temp1 := Bitmap.Intersect_ptr temp (Some y_temp) in
                let dist_square_max := fmul radius radius in
                let temp2 :=
                  fold_left
                    (fun b offset =>
                       if fgtb (dist_square_to x_ y_ x y offset) dist_square_max
                       then Bitmap.Unset b offset else b)
                    (Bitmap.get_set_list temp1) temp1 in
                if fst (Bitmap.get_cached_nbit temp2) <=? 0 then None
                else Some (snd (Bitmap.get_cached_nbit temp2))
          end
    end.

Definition get_range2d_bitmap := get_range2d_bitmap_with_slot_data.

(** ** The interval of a range query and the updates that reach a map *)

(** [v <= x] or [v < x]. *)
Definition below (x : F) (inclusive : bool) (v : F) : bool :=
  if inclusive then fleb v x else fltb v x.

(** [v] lies between [greater_than] and [lower_than], each end taken or
    not. *)
Definition inside (lower_than : F) (include_le : bool) (greater_than : F)
    (include_ge : bool) (v : F) : bool :=
  (if include_ge then fgeb v greater_than else fgtb v greater_than)
  && (if include_le then fleb v lower_than else fltb v lower_than).

Definition interval_predicate (range_out : bool) (lower_than : F)
    (include_le : bool) (greater_than : F) (include_ge : bool) (v : F) : bool :=
  if range_out then negb (inside lower_than include_le greater_than include_ge v)
  else inside lower_than include_le greater_than include_ge v.

(** The offsets a range query is about: those with a value that is not a
    NaN and satisfies the interval predicate. *)
Definition matches (m : t) (range_out : bool) (lower_than : F)
    (include_le : bool) (greater_than : F) (include_ge : bool) (o : Z) : Prop :=
  0 <= o < Z.of_nat (length (offset_to_value_ m)) /\
  fis_nan (value_at (offset_to_value_ m) o) = false /\
  interval_predicate range_out lower_than include_le greater_than include_ge
    (value_at (offset_to_value_ m) o) = true.

(** A result holds exactly the matching offsets and is null exactly when
    there is none. *)
Definition exact_range (m : t) (range_out : bool) (lower_than : F)
    (include_le : bool) (greater_than : F) (include_ge : bool)
    (res : option Bitmap.t) : Prop :=
  match res with
  | Some b =>
      (forall o, o ∈ Bitmap.elems b <->
                 matches m range_out lower_than include_le greater_than
                         include_ge o) /\
      exists o, matches m range_out lower_than include_le greater_than
                        include_ge o
  | None =>
      forall o, ~ matches m range_out lower_than include_le greater_than
                          include_ge o
  end.

(** The exchange of the two ends that [get_range_bitmap_with_slot_data]
    makes for [range_out] when [lower_than < greater_than]. *)
Definition exchanged (range_out : bool) (lower_than greater_than : F) : bool :=
  range_out && fltb lower_than greater_than.

(** The interval has a point: [greater_than < lower_than], or the two
    are equal and both ends are taken. *)
Definition has_point (lower_than : F) (include_le : bool) (greater_than : F)
    (include_ge : bool) : bool :=
  fltb greater_than lower_than
  || (feqb greater_than lower_than && include_le && include_ge).

Inductive call :=
| Add (offset : Z) (value : F)
| Delete (offset : Z).

Definition step (om : option t) (c : call) : option t :=
  match om with
  | None => None
  | Some m =>
      match c with
      | Add offset value => option_map snd (add_offset_and_score m offset value)
      | Delete offset => Some (snd (delete_offset m offset))
      end
  end.

Definition run (cs : list call) : option t := fold_left step cs (Some new).

(** The calls the amended claim admits: the values added are not NaN and
    the offsets stay below 2^29, which keeps the [uint32_t] counter of a
    range query from wrapping. *)
Definition admissible (c : call) : Prop :=
  match c with
  | Add offset value => 0 <= offset < 2 ^ 29 /\ fis_nan value = false
  | Delete offset => 0 <= offset < 2 ^ 32
  end.

(** A sequence of [add_offset_and_score] calls. *)
Definition add_all (l : list (Z * F)) (m : t) : option t :=
  fold_left
    (fun om p =>
       match om with
       | Some m0 => option_map snd (add_offset_and_score m0 (fst p) (snd p))
       | None => None
       end) l (Some m).

End Map.

(** ** The representation invariant *)
Section Invariant.
Context {F : Type} `{FloatOps F} `{!FloatOrder F} `{ScoreOps F}.

Definition rank_sorted (vs : list F) : Prop :=
  StronglySorted (fun a b => frank a <= frank b) vs.

(** A slot holds at least one value; its two vectors run in parallel,
    the values in ascending order and none of them a NaN; [left] and
    [right] compare equal to the first and the last value ([std::min] and
    [std::max] may keep either of two values that compare equal, such as
    the two zeros); the bitmap holds the offsets. *)
Record slot_ok (s : @SlotMeta F) : Prop := {
  so_nonempty : value_vec s <> [];
  so_length : length (value_vec s) = length (offset_vec s);
  so_nonnan : Forall (fun v => fis_nan v = false) (value_vec s);
  so_sorted : rank_sorted (value_vec s);
  so_left_nonnan : fis_nan (left s) = false;
  so_left : frank (left s) = frank (List.hd fnan (value_vec s));
  so_right_nonnan : fis_nan (right s) = false;
  so_right : frank (right s) = frank (List.last (value_vec s) fnan);
  so_wf : Bitmap.wf (bitmap s);
  so_bitmap : Bitmap.elems (bitmap s) = list_to_set (offset_vec s);
}.

Definition slot_before (s s' : @SlotMeta F) : Prop :=
  frank (right s) <= frank (left s').

(** The slot holds the offset [o] with the value [v]. *)
Definition slot_holds (s : @SlotMeta F) (o : Z) (v : F) : Prop :=
  exists j : nat, offset_vec s !! j = Some o /\ value_vec s !! j = Some v.

Definition entry_of (m : @t F) (o : Z) (v : F) : Prop :=
  exists s, s ∈ slots_ m /\ slot_holds s o v.

Definition all_offsets (m : @t F) : list Z := concat (map offset_vec (slots_ m)).

(** The slots are in ascending order and hold, each offset once, the
    entries of [offset_to_value_] that are not NaN. *)
Record Inv (m : @t F) : Prop := {
  inv_slots : Forall slot_ok (slots_ m);
  inv_order : StronglySorted slot_before (slots_ m);
  inv_nodup : NoDup (all_offsets m);
  inv_table : forall o v,
    entry_of m o v <->
    (0 <= o /\ offset_to_value_ m !! Z.to_nat o = Some v /\ fis_nan v = false);
  inv_size : Z.of_nat (length (offset_to_value_ m)) <= 2 ^ 29;
}.

(** The entries of a slot and of the map, in the order in which they are
    stored. *)
Definition slot_entries (s : @SlotMeta F) : list (Z * F) :=
  zip (offset_vec s) (value_vec s).

Definition entries (m : @t F) : list (Z * F) :=
  concat (map slot_entries (slots_ m)).

(** The first [topk] entries of a list whose offset the filter does not
    reject. *)
Definition first_unfiltered (filter_func : offset_filter_t) (topk : Z)
    (l : list (Z * F)) : list (Z * F) :=
  take (Z.to_nat topk)
       (List.filter (fun e => negb (filtered filter_func (fst e))) l).

(** The slot index of the search for the values that are [below x
    inclusive]. *)
Definition bound_idx (m : @t F) (x : F) (inclusive : bool) : Z :=
  if inclusive then slot_upper_bound_idx m x else slot_lower_bound_idx m x.

(** The number of offsets in the first [k] slots. *)
Definition offsets_upto (slots : list (@SlotMeta F)) (k : nat) : Z :=
  Z.of_nat (length (concat (map offset_vec (take k slots)))).

(** What the counter and the bitmap of a range query hold in the middle
    of the query: the bitmap holds the offsets of [X], and the counter is
    the [uint32_t] of a number [c] that is zero exactly when [X] is empty
    and at most [k] times the number of offsets of the map. *)
Definition collects (m : @t F) (X : Z -> Prop) (k : Z) (a : Z * Bitmap.t) : Prop :=
  exists c : Z,
    fst a = to_uint32 c /\
    0 <= c <= k * Z.of_nat (length (all_offsets m)) /\
    Bitmap.wf (snd a) /\
    (forall o, o ∈ Bitmap.elems (snd a) <-> X o) /\
    (0 < c <-> exists o, X o).

(** The offsets of the slots [from .. to-1]. *)
Definition in_slots (m : @t F) (from to : Z) (o : Z) : Prop :=
  exists (i : Z) (s : SlotMeta),
    from <= i < to /\ slots_ m !! Z.to_nat i = Some s /\ o ∈ offset_vec s.

(** The offsets of a slot whose value satisfies [P]. *)
Definition selected (s : @SlotMeta F) (P : F -> bool) (o : Z) : Prop :=
  exists v, slot_holds s o v /\ P v = true.

(** The offsets of the map whose value satisfies [P]. *)
Definition slot_selection (m : @t F) (P : F -> bool) (o : Z) : Prop :=
  exists s, s ∈ slots_ m /\ selected s P o.

(** The two guarded readers of the scan for [range_out]: the offsets
    of the slot [l] that satisfy [P], when there is such a slot, and the
    offsets of the slot [r] that do not. *)
Definition low_part (m : @t F) (P : F -> bool) (l : Z) (o : Z) : Prop :=
  exists sl, l <> Z.of_nat (length (slots_ m)) /\
             slots_ m !! Z.to_nat l = Some sl /\ selected sl P o.
Definition high_part (m : @t F) (P : F -> bool) (r : Z) (o : Z) : Prop :=
  exists sr, r <> -1 /\ slots_ m !! Z.to_nat r = Some sr /\
             selected sr (fun v => negb (P v)) o.

Definition slot_all (P : F -> bool) (s : @SlotMeta F) : Prop :=
  Forall (fun v => P v = true) (value_vec s).
Definition slot_none (P : F -> bool) (s : @SlotMeta F) : Prop :=
  Forall (fun v => P v = false) (value_vec s).

End Invariant.

(** The offsets [0 .. k-1], each with its own number as value, and the
    map with one slot that holds them. *)
Fixpoint count_from (start : Z) (n : nat) : list Z :=
  match n with
  | O => []
  | S n' => start :: count_from (start + 1) n'
  end.

Definition upto (k : Z) : list Z := count_from 0 (Z.to_nat k).

Definition ramp (k : Z) : list (Z * zfloat) := map (fun i => (i, ZNum i)) (upto k).

Definition ramp_bitmap (k : Z) : Bitmap.t := fold_left Bitmap.Set_ (upto k) Bitmap.new.

Definition ramp_map (k : Z) : t :=
  mk (map ZNum (upto k))
     [mkSlot (ZNum 0) (ZNum (k - 1)) (ramp_bitmap k) (map ZNum (upto k))
             (upto k)].

(** Three entries, one of them deleted again. *)
Definition sample_calls : list (@call zfloat) :=
  [Add 3 (ZNum 7); Add 1 (ZNum 2); Add 4 (ZNum 9); Delete 3].

End RangedMap.

(* ===================================================================== *)
(** * Sparse head  (sparse_distance_measure.h, sparse_dataset.h,
      sparse_row_index.h, sparse_data_holder.h)                            *)
(* ===================================================================== *)

Module Sparse.

(** [SparseDatapoint]: two vectors. *)
Record SparseDatapoint (F : Type) := mkDatapoint {
  dp_indices : list Z;
  dp_values : list F;
}.
Arguments mkDatapoint {F} _ _.
Arguments dp_indices {F} _.
Arguments dp_values {F} _.

(** [SparseDatapointView]: [nonzero_entries] index/value pairs read through
    two pointers; the view is the list of the pairs it covers. *)
Abbreviation SparseDatapointView F := (list (Z * F)).

Section Measure.
Context {F : Type} `{FloatOps F}.

Definition idx_at (a : SparseDatapointView F) (i : Z) : Z :=
  fst (nth (Z.to_nat i) a (0, fzero)).
Definition val_at (a : SparseDatapointView F) (i : Z) : F :=
  snd (nth (Z.to_nat i) a (0, fzero)).

(** [DotProductReduceTwo], [SquaredL2ReduceTwo], [SquaredL2ReduceOne] *)
Definition DotProductReduceTwo (acc a b : F) : F := fadd acc (fmul a b).
Definition SquaredL2ReduceTwo (acc a b : F) : F :=
  let diff := fsub a b in fadd acc (fmul diff diff).
Definition SquaredL2ReduceOne (acc a : F) : F := fadd acc (fmul a a).

Definition b2z (b : bool) : Z := if b then 1 else 0.

Section OnlyReduceTwo.
Variable reduce_two : F -> F -> F -> F.
Variables a1 a2 : SparseDatapointView F.

(** The pointer state of the main loop. *)
Record ptrs := mkPtrs {
  i1_front : Z; i2_front : Z; i1_back : Z; i2_back : Z; result : F;
}.

Definition loop_cond (p : ptrs) : bool :=
  (i1_front p <? i1_back p) && (i2_front p <? i2_back p).

(** One iteration of [while (i1_front < i1_back && i2_front < i2_back)]. *)
Definition loop_body (p : ptrs) : ptrs :=
  let to_add_front1 := b2z (idx_at a1 (i1_front p) <=? idx_at a2 (i2_front p)) in
  let to_add_front2 := b2z (idx_at a1 (i1_front p) >=? idx_at a2 (i2_front p)) in
  let to_sub_back2 := b2z (idx_at a1 (i1_back p) <=? idx_at a2 (i2_back p)) in
  let to_sub_back1 := b2z (idx_at a1 (i1_back p) >=? idx_at a2 (i2_back p)) in
  let r1 := if idx_at a1 (i1_front p) =? idx_at a2 (i2_front p)
            then reduce_two (result p) (val_at a1 (i1_front p))
                            (val_at a2 (i2_front p))
            else result p in
  let r2 := if idx_at a1 (i1_back p) =? idx_at a2 (i2_back p)
            then reduce_two r1 (val_at a1 (i1_back p)) (val_at a2 (i2_back p))
            else r1 in
  mkPtrs (to_uint64 (i1_front p + to_add_front1))
         (to_uint64 (i2_front p + to_add_front2))
         (to_uint64 (i1_back p - to_sub_back1))
         (to_uint64 (i2_back p - to_sub_back2))
         r2.

Fixpoint main_loop (fuel : nat) (p : ptrs) : ptrs :=
  match fuel with
  | O => p
  | S fuel' => if loop_cond p then main_loop fuel' (loop_body p) else p
  end.

(** [for (; i2_front <= i2_back; ++i2_front)] with the single remaining
    entry of the first view at [i1]; stops at the first match. *)
Fixpoint scan2 (fuel : nat) (i1 i2f i2b : Z) (res : F) : F :=
  match fuel with
  | O => res
  | S fuel' =>
      if i2f <=? i2b then
        if idx_at a1 i1 =? idx_at a2 i2f
        then reduce_two res (val_at a1 i1) (val_at a2 i2f)
        else scan2 fuel' i1 (to_uint64 (i2f + 1)) i2b res
      else res
  end.

(** [for (; i1_front <= i1_back; ++i1_front)] with the single remaining
    entry of the second view at [i2]. *)
Fixpoint scan1 (fuel : nat) (i2 i1f i1b : Z) (res : F) : F :=
  match fuel with
  | O => res
  | S fuel' =>
      if i1f <=? i1b then
        if idx_at a1 i1f =? idx_at a2 i2
        then reduce_two res (val_at a1 i1f) (val_at a2 i2)
        else scan1 fuel' i2 (to_uint64 (i1f + 1)) i1b res
      else res
  end.

Definition sparse_distance_measure_only_reduce_two : F :=
  let n1 := Z.of_nat (length a1) in
  let n2 := Z.of_nat (length a2) in
  if (n1 =? 0) || (n2 =? 0) then fzero
  else
    let p0 := mkPtrs 0 0 (to_uint64 (n1 - 1)) (to_uint64 (n2 - 1)) fzero in
    let p := main_loop (length a1 + length a2) p0 in
    if i1_front p =? i1_back p then
      scan2 (S (length a2)) (i1_front p) (i2_front p) (i2_back p) (result p)
    else if i2_front p =? i2_back p then
      scan1 (S (length a1)) (i2_front p) (i1_front p) (i1_back p) (result p)
    else result p.
End OnlyReduceTwo.

(** [sparse_distance_measure]: the general merge, with a reducer for the
    entries present on one side only.  [*Int(&v) &= -flag] keeps [v] when
    the flag is 1 and leaves the all-zero bit pattern, [+0.0], when it is
    0.  The counters are [ssize_t]; they stay far from its bounds. *)
Section Measure2.
Variable reduce_two : F -> F -> F -> F.
Variable reduce_one : F -> F -> F.
Variables a1 a2 : SparseDatapointView F.

Definition mask (flag : Z) (v : F) : F := if flag =? 0 then fzero else v.

Record ptrs2 := mkPtrs2 {
  j1_front : Z; j2_front : Z; j1_back : Z; j2_back : Z;
  result0 : F; result1 : F;
}.

Definition loop2_body (p : ptrs2) : ptrs2 :=
  let to_add_front1 := b2z (idx_at a1 (j1_front p) <=? idx_at a2 (j2_front p)) in
  let to_add_front2 := b2z (idx_at a1 (j1_front p) >=? idx_at a2 (j2_front p)) in
  let to_sub_back2 := b2z (idx_at a1 (j1_back p) <=? idx_at a2 (j2_back p)) in
  let to_sub_back1 := b2z (idx_at a1 (j1_back p) >=? idx_at a2 (j2_back p)) in
  let front_left := mask to_add_front1 (val_at a1 (j1_front p)) in
  let front_right := mask to_add_front2 (val_at a2 (j2_front p)) in
  let back_left := mask to_sub_back1 (val_at a1 (j1_back p)) in
  let back_right := mask to_sub_back2 (val_at a2 (j2_back p)) in
  mkPtrs2 (j1_front p + to_add_front1) (j2_front p + to_add_front2)
          (j1_back p - to_sub_back1) (j2_back p - to_sub_back2)
          (reduce_two (result0 p) front_left front_right)
          (reduce_two (result1 p) back_left back_right).

Fixpoint main_loop2 (fuel : nat) (p : ptrs2) : ptrs2 :=
  match fuel with
  | O => p
  | S fuel' =>
      if (j1_front p <? j1_back p) && (j2_front p <? j2_back p)
      then main_loop2 fuel' (loop2_body p) else p
  end.

(** [while (i1_front <= i1_back && i2_front <= i2_back)] *)
Fixpoint merge_loop2 (fuel : nat) (p : ptrs2) : ptrs2 :=
  match fuel with
  | O => p
  | S fuel' =>
      if (j1_front p <=? j1_back p) && (j2_front p <=? j2_back p) then
        if idx_at a1 (j1_front p) =? idx_at a2 (j2_front p) then
          merge_loop2 fuel'
            (mkPtrs2 (j1_front p + 1) (j2_front p + 1) (j1_back p) (j2_back p)
               (reduce_two (result0 p) (val_at a1 (j1_front p))
                           (val_at a2 (j2_front p)))
               (result1 p))
        else if idx_at a1 (j1_front p) <? idx_at a2 (j2_front p) then
          merge_loop2 fuel'
            (mkPtrs2 (j1_front p + 1) (j2_front p) (j1_back p) (j2_back p)
               (reduce_one (result0 p) (val_at a1 (j1_front p))) (result1 p))
        else
          merge_loop2 fuel'
            (mkPtrs2 (j1_front p) (j2_front p + 1) (j1_back p) (j2_back p)
               (reduce_one (result0 p) (val_at a2 (j2_front p))) (result1 p))
      else p
  end.

(** The tail loops: the entries left on one side. *)
Definition tail_reduce (a : SparseDatapointView F) (from to : Z) (r : F) : F :=
  fold_left (fun acc i => reduce_one acc (val_at a i))
            (seqZ from (to - from + 1)) r.

Definition sparse_distance_measure : F :=
  let n1 := Z.of_nat (length a1) in
  let n2 := Z.of_nat (length a2) in
  let p0 := mkPtrs2 0 0 (n1 - 1) (n2 - 1) fzero fzero in
  let p := main_loop2 (length a1 + length a2) p0 in
  let q := merge_loop2 (length a1 + length a2) p in
  let r0 :=
    if j1_front q >? j1_back q
    then tail_reduce a2 (j2_front q) (j2_back q) (result0 q)
    else tail_reduce a1 (j1_front q) (j1_back q) (result0 q) in
  fadd r0 (result1 q).
End Measure2.

(** [SparseRowIndex::sparse_squared_l2_reduce] *)
Definition sparse_squared_l2_reduce (x doc_ts : SparseDatapointView F) : F :=
  sparse_distance_measure SquaredL2ReduceTwo SquaredL2ReduceOne doc_ts x.

(** [SparseRowIndex::sparse_dot_product_reduce]: [sparse_distance] with
    [DotProductReduceTwo] and [DoNothingReduce], whose [is_noop()] selects
    [sparse_distance_measure_only_reduce_two]; [doc_ts] is the view of the
    stored row and [x] the query view. *)
Definition sparse_dot_product_reduce (x doc_ts : SparseDatapointView F) : F :=
  sparse_distance_measure_only_reduce_two DotProductReduceTwo doc_ts x.

(** The pairs of values whose products the claim sums: for every entry of
    [a1], the entries of [a2] with the same index. *)
Definition matching_row (e1 : Z * F) (a2 : SparseDatapointView F) : list (F * F) :=
  flat_map (fun e2 => if fst e1 =? fst e2 then [(snd e1, snd e2)] else []) a2.

Definition matching_products (a1 a2 : SparseDatapointView F) : list (F * F) :=
  flat_map (fun e1 => matching_row e1 a2) a1.

(** A reducer applied to a list of pairs, from zero. *)
Definition accumulate (reduce_two : F -> F -> F -> F) (l : list (F * F)) : F :=
  fold_left (fun acc p => reduce_two acc (fst p) (snd p)) l fzero.

(** The entries a pair of pointers still delimits: positions [f .. b]. *)
Definition seg (a : SparseDatapointView F) (f b : Z) : SparseDatapointView F :=
  firstn (Z.to_nat (b + 1 - f)) (skipn (Z.to_nat f) a).

(** Strictly increasing index array (sorted, unique). *)
Definition strictly_increasing (a : SparseDatapointView F) : Prop :=
  forall i j, (0 <= i)%Z -> (i < j)%Z -> (j < Z.of_nat (length a))%Z ->
    (idx_at a i < idx_at a j)%Z.

(** The same on the list. *)
Definition sorted_idx (a : SparseDatapointView F) : Prop :=
  StronglySorted (fun e e' => fst e < fst e') a.

(** The measure of the main loop. *)
Definition gap (p : ptrs) : Z := (i1_back p - i1_front p) + (i2_back p - i2_front p).

(** What the main loop maintains: the pointers delimit the entries not
    yet consumed, and the accumulator holds the reduction of the matching
    pairs consumed so far. *)
Record LoopInv (reduce_two : F -> F -> F -> F)
  (a1 a2 : SparseDatapointView F) (p : ptrs) : Prop := {
  li_f1 : 0 <= i1_front p;
  li_b1 : 0 <= i1_back p < Z.of_nat (length a1);
  li_x1 : i1_front p <= i1_back p + 1;
  li_f2 : 0 <= i2_front p;
  li_b2 : 0 <= i2_back p < Z.of_nat (length a2);
  li_x2 : i2_front p <= i2_back p + 1;
  li_done : exists done,
    result p = accumulate reduce_two done /\
    Permutation
      (done ++ matching_products (seg a1 (i1_front p) (i1_back p))
                                 (seg a2 (i2_front p) (i2_back p)))
      (matching_products a1 a2);
}.

(** [IndexT] is [uint32_t]. *)
Definition indices_in_range (a : SparseDatapointView F) : Prop :=
  forall e, In e a -> (0 <= fst e < 2 ^ 32)%Z.
End Measure.

(** [SparseDataset], compressed sparse rows: the list of its rows, each
    the list of its index/value pairs. *)
Abbreviation SparseDataset F := (list (list (Z * F))).

Section Dataset.
Context {F : Type}.

Definition row_of (dp : SparseDatapoint F) : SparseDatapointView F :=
  combine (dp_indices dp) (dp_values dp).

(** [append]: [-1] when the two vectors differ in length. *)
Definition append (d : SparseDataset F) (dp : SparseDatapoint F)
  : Z * SparseDataset F :=
  if negb (length (dp_values dp) =? length (dp_indices dp))%nat then (-1, d)
  else (0, d ++ [row_of dp]).

(** [update]: [None] is the exception "update out of bounds". *)
Definition update (d : SparseDataset F) (idx : Z) (dp : SparseDatapoint F)
  : option (Z * SparseDataset F) :=
  if idx >=? Z.of_nat (length d) then None
  else if negb (length (dp_values dp) =? length (dp_indices dp))%nat
       then Some (-1, d)
       else Some (0, <[Z.to_nat idx := row_of dp]> d).

(** [SparseDatapointView(indices, values, len)]: the number of entries of
    a view is a [DimensionIndex], which is [uint32_t], so a view made over
    [len] entries covers the first [len mod 2^32] of them. *)
Definition view_of (r : list (Z * F)) : SparseDatapointView F :=
  take (Z.to_nat (to_uint32 (Z.of_nat (length r)))) r.

(** [get_view], [get_row]: [None] is the out-of-bounds exception. *)
Definition get_view (d : SparseDataset F) (i : Z)
  : option (SparseDatapointView F) :=
  if i >=? Z.of_nat (length d) then None else view_of <$> d !! Z.to_nat i.

Definition get_row (d : SparseDataset F) (i : Z) : option (SparseDatapoint F) :=
  if i >=? Z.of_nat (length d) then None
  else
    match d !! Z.to_nat i with
    | Some r => Some (mkDatapoint (map fst r) (map snd r))
    | None => None
    end.

Definition pop_back (d : SparseDataset F) : SparseDataset F := removelast d.

Definition rows (d : SparseDataset F) : Z := Z.of_nat (length d).
End Dataset.

End Sparse.

(* ===================================================================== *)
(** * Brute-force vector store  (bruteforce.h)                             *)
(* ===================================================================== *)

Module BruteforceSearch.

(** The quantizer ([VectorQuantizer]), the metric of the space
    ([VectorSpace]) and the conversion of a caller's sparse terms are
    interfaces implemented in other files: [EncVec] is the encoded vector
    of a row ([vector_byte_size_] bytes), [LowLevel] is
    [FloatValSparseDatapointLowLevel], [uninit] is what freshly allocated
    memory holds. *)
Class Backend (F EncVec LowLevel : Type) := {
  uninit : EncVec;
  encode : list F -> EncVec;                   (* quantizer_->encode *)
  dist_func : EncVec -> EncVec -> F;           (* space_->get_metric_function() *)
  make_sparse_point_by_low_level :
    LowLevel -> option (Sparse.SparseDatapoint F);
  make_sparse_view_by_low_level :
    LowLevel -> option (Sparse.SparseDatapointView F);
}.

Section Store.
Context {F : Type} `{FloatOps F} {EncVec LowLevel : Type}
        `{Backend F EncVec LowLevel}.

(** One row of [data_buffer_]: the encoded vector, then the label
    ([uint64_t]) and the logical offset ([uint32_t]). *)
Record Row := mkRow { r_vec : EncVec; r_label : Z; r_offset : Z }.

Record t := mk {
  reverse_query_score_ : bool;                 (* distance_type == "l2" *)
  search_with_sparse_logit_alpha : F;          (* meta_ *)
  data_buffer_ : gmap Z Row;
  capacity_ : Z;
  current_count_ : Z;
  label_map_ : gmap Z Z;
  offset_map_ : gmap Z Z;
  sparse_index_ : option (Sparse.SparseDataset F);
  next_logical_offset_ : Z;
}.

(** The constructor. *)
Definition new (l2 : bool) (alpha : F) (max_element_count : Z)
           (enable_sparse : bool) : t :=
  mk l2 alpha ∅ (Z.max 1 max_element_count) 0 ∅ ∅
     (if enable_sparse then Some [] else None) 0.

(** The row at [data_buffer_ + idx * element_byte_size_]. *)
Definition row_at (s : t) (idx : Z) : Row :=
  default (mkRow uninit 0 0) (data_buffer_ s !! idx).

Definition set_buffer (s : t) (buf : gmap Z Row) : t :=
  mk (reverse_query_score_ s) (search_with_sparse_logit_alpha s) buf
     (capacity_ s) (current_count_ s) (label_map_ s) (offset_map_ s)
     (sparse_index_ s) (next_logical_offset_ s).

Definition write_offset (s : t) (idx off : Z) : t :=
  let r := row_at s idx in
  set_buffer s (<[idx := mkRow (r_vec r) (r_label r) off]> (data_buffer_ s)).
Definition write_label (s : t) (idx lbl : Z) : t :=
  let r := row_at s idx in
  set_buffer s (<[idx := mkRow (r_vec r) lbl (r_offset r)]> (data_buffer_ s)).
Definition write_vec (s : t) (idx : Z) (v : EncVec) : t :=
  let r := row_at s idx in
  set_buffer s (<[idx := mkRow v (r_label r) (r_offset r)]> (data_buffer_ s)).

Definition set_sparse (s : t) (sp : option (Sparse.SparseDataset F)) : t :=
  mk (reverse_query_score_ s) (search_with_sparse_logit_alpha s)
     (data_buffer_ s) (capacity_ s) (current_count_ s) (label_map_ s)
     (offset_map_ s) sp (next_logical_offset_ s).

Definition resize_buffer (s : t) (new_cap : Z) : t :=
  if new_cap <? current_count_ s then s
  else mk (reverse_query_score_ s) (search_with_sparse_logit_alpha s)
          (data_buffer_ s) new_cap (current_count_ s) (label_map_ s)
          (offset_map_ s) (sparse_index_ s) (next_logical_offset_ s).

(** A call either returns or throws [std::runtime_error]; both leave a
    store behind. *)
Inductive outcome := Returned (s : t) | Thrown (s : t).

Definition store_of (o : outcome) : t :=
  match o with Returned s => s | Thrown s => s end.

(** The tail of [add_point]: encode the vector and write the label. *)
Definition add_point_finish (s : t) (index : Z) (vector : option (list F))
           (label : Z) : t :=
  let ptr := to_uint64 index in
  let s1 := match vector with
            | Some v => write_vec s ptr (encode v)
            | None => s
            end in
  write_label s1 ptr label.

Definition add_point (s : t) (vector : option (list F)) (label : Z)
           (sparse_data : option LowLevel) : outcome :=
  let conv :=
    match sparse_index_ s, sparse_data with
    | Some _, Some sd =>
        match make_sparse_point_by_low_level sd with
        | Some dp => Some (Some dp)
        | None => None                          (* conversion failed *)
        end
    | _, _ => Some None
    end in
  match conv with
  | None => Thrown s
  | Some sparse_dp =>
      match label_map_ s !! label with
      | Some index =>
          match sparse_index_ s, sparse_dp with
          | Some sp, Some dp =>
              match Sparse.update sp (to_uint64 index) dp with
              | Some (0, sp') =>
                  Returned (add_point_finish (set_sparse s (Some sp')) index
                                             vector label)
              | _ => Thrown s
              end
          | _, _ => Returned (add_point_finish s index vector label)
          end
      | None =>
          let appended :=
            match sparse_index_ s with
            | Some sp =>
                if negb (current_count_ s =? Sparse.rows sp) then None
                else
                  let dp := match sparse_dp with
                            | Some dp => dp
                            | None => Sparse.mkDatapoint [] []
                            end in
                  match Sparse.append sp dp with
                  | (0, sp') => Some (set_sparse s (Some sp'))
                  | _ => None
                  end
            | None => Some s
            end in
          match appended with
          | None => Thrown s
          | Some s1 =>
              let s2 := if current_count_ s1 >=? capacity_ s1
                        then resize_buffer s1 (to_uint64 (current_count_ s1 * 2 + 1))
                        else s1 in
              let index := to_int (current_count_ s2) in
              let logical_offset := to_uint32 (next_logical_offset_ s2) in
              let s3 :=
                mk (reverse_query_score_ s2) (search_with_sparse_logit_alpha s2)
                   (data_buffer_ s2) (capacity_ s2) (current_count_ s2)
                   (<[label := index]> (label_map_ s2))
                   (<[logical_offset := index]> (offset_map_ s2))
                   (sparse_index_ s2)
                   (to_uint64 (next_logical_offset_ s2 + 1)) in
              let s4 := write_offset s3 (to_uint64 index) logical_offset in
              let s5 :=
                mk (reverse_query_score_ s4) (search_with_sparse_logit_alpha s4)
                   (data_buffer_ s4) (capacity_ s4)
                   (to_uint64 (current_count_ s4 + 1))
                   (label_map_ s4) (offset_map_ s4) (sparse_index_ s4)
                   (next_logical_offset_ s4) in
              Returned (add_point_finish s5 index vector label)
          end
      end
  end.

Definition remove_point (s : t) (label : Z) : outcome :=
  match label_map_ s !! label with
  | None => Returned s
  | Some it =>
      let idx_to_remove := to_uint64 it in
      let idx_last := to_uint64 (current_count_ s - 1) in
      let lm1 := delete label (label_map_ s) in
      let offset_to_remove := r_offset (row_at s idx_to_remove) in
      let om1 := delete offset_to_remove (offset_map_ s) in
      let s1 := mk (reverse_query_score_ s) (search_with_sparse_logit_alpha s)
                   (data_buffer_ s) (capacity_ s) (current_count_ s) lm1 om1
                   (sparse_index_ s) (next_logical_offset_ s) in
      let moved :=
        if (current_count_ s1 >? 0) && negb (idx_to_remove =? idx_last) then
          let buf := <[idx_to_remove := row_at s1 idx_last]> (data_buffer_ s1) in
          let label_moved := r_label (row_at s1 idx_last) in
          let offset_moved := r_offset (row_at s1 idx_last) in
          let s2 := mk (reverse_query_score_ s1)
                       (search_with_sparse_logit_alpha s1) buf (capacity_ s1)
                       (current_count_ s1)
                       (<[label_moved := to_int idx_to_remove]> (label_map_ s1))
                       (<[offset_moved := to_int idx_to_remove]> (offset_map_ s1))
                       (sparse_index_ s1) (next_logical_offset_ s1) in
          match sparse_index_ s2 with
          | Some sp =>
              match Sparse.get_row sp idx_last with
              | None => Thrown s2
              | Some last_row =>
                  match Sparse.update sp idx_to_remove last_row with
                  | None => Thrown s2
                  | Some (_, sp') => Returned (set_sparse s2 (Some sp'))
                  end
              end
          | None => Returned s2
          end
        else Returned s1 in
      match moved with
      | Thrown s2 => Thrown s2
      | Returned s2 =>
          let s3 := match sparse_index_ s2 with
                    | Some sp => set_sparse s2 (Some (Sparse.pop_back sp))
                    | None => s2
                    end in
          Returned
            (mk (reverse_query_score_ s3) (search_with_sparse_logit_alpha s3)
                (data_buffer_ s3) (capacity_ s3)
                (to_uint64 (current_count_ s3 - 1))
                (label_map_ s3) (offset_map_ s3) (sparse_index_ s3)
                (next_logical_offset_ s3))
      end
  end.

Definition get_data_num (s : t) : Z := current_count_ s.

(** [int get_offset_by_label(uint64_t label)] *)
Definition get_offset_by_label (s : t) (label : Z) : Z :=
  match label_map_ s !! label with
  | Some it => to_int (r_offset (row_at s (to_uint64 it)))
  | None => -1
  end.

(** [uint64_t get_label_by_offset(int offset)]; the key of the lookup is
    the argument converted to [uint32_t], a miss returns [(uint64_t)-1]. *)
Definition get_label_by_offset (s : t) (offset : Z) : Z :=
  match offset_map_ s !! to_uint32 offset with
  | Some idx => r_label (row_at s (to_uint64 idx))
  | None => to_uint64 (-1)
  end.

(** ** Search *)

Definition transform_sparse_query (s : t) (sparse : option LowLevel)
  : option (Sparse.SparseDatapointView F) :=
  match sparse, sparse_index_ s with
  | Some sd, Some _ =>
      if feqb (search_with_sparse_logit_alpha s) fzero then None
      else make_sparse_view_by_low_level sd
  | _, _ => None
  end.

(** [SparseDataHolder::sparse_head_output]: the holder was set up with
    [use_l2 = (distance_type == "l2")]. *)
Definition sparse_head_output (s : t) (sp : Sparse.SparseDataset F)
           (x : Sparse.SparseDatapointView F) (docid : Z) : option F :=
  match Sparse.get_view sp docid with
  | None => None
  | Some doc_ts =>
      Some (if reverse_query_score_ s
            then Sparse.sparse_squared_l2_reduce x doc_ts
            else Sparse.sparse_dot_product_reduce x doc_ts)
  end.

(** [compute_score]; [None] is the out-of-bounds exception of [get_view]. *)
Definition compute_score (s : t) (encoded_query : EncVec) (data : EncVec)
           (query_sparse_view : option (Sparse.SparseDatapointView F))
           (idx : Z) : option F :=
  let dense_raw := dist_func encoded_query data in
  let dense_score :=
    if reverse_query_score_ s then fsub fone dense_raw else dense_raw in
  match sparse_index_ s, query_sparse_view with
  | Some sp, Some view =>
      if fleb (search_with_sparse_logit_alpha s) fzero then Some dense_score
      else
        match sparse_head_output s sp view idx with
        | None => None
        | Some sparse_raw =>
            let sparse_score :=
              if reverse_query_score_ s then fsub fone sparse_raw
              else sparse_raw in
            let alpha := search_with_sparse_logit_alpha s in
            Some (fadd (fmul dense_score (fsub fone alpha))
                       (fmul sparse_score alpha))
        end
  | _, _ => Some dense_score
  end.

(** [std::pair<float, uint64_t>] under [operator<]. *)
Definition pair_lt (a b : F * Z) : bool :=
  fltb (fst a) (fst b) || (negb (fltb (fst b) (fst a)) && (snd a <? snd b)).

(** [std::priority_queue<ResultPair, ..., std::greater<ResultPair>>]
    (standard library): the ascending list of its elements; [top] is the
    head, [pop] drops it. *)
Fixpoint pq_emplace (x : F * Z) (pq : list (F * Z)) : list (F * Z) :=
  match pq with
  | [] => [x]
  | y :: r => if pair_lt x y then x :: y :: r else y :: pq_emplace x r
  end.

(** The body shared by the two scanning loops. *)
Definition offer (k : Z) (pq : list (F * Z)) (dist : F) (label : Z)
  : list (F * Z) :=
  if Z.of_nat (length pq) <? k then pq_emplace (dist, label) pq
  else match pq with
       | top :: rest =>
           if fgtb dist (fst top) then pq_emplace (dist, label) rest else pq
       | [] => pq
       end.

(** The physical rows a search visits, in order. *)
Definition candidates (s : t) (filter_bitmap : option Bitmap.t) : list Z :=
  match filter_bitmap with
  | None => seqZ 0 (current_count_ s)
  | Some bm =>
      omap (fun offset => to_uint64 <$> (offset_map_ s !! offset))
           (Bitmap.get_set_list bm)
  end.

Fixpoint scan (s : t) (q : EncVec)
         (view : option (Sparse.SparseDatapointView F)) (k : Z)
         (idxs : list Z) (pq : list (F * Z)) : option (list (F * Z)) :=
  match idxs with
  | [] => Some pq
  | idx :: rest =>
      match compute_score s q (r_vec (row_at s idx)) view idx with
      | None => None
      | Some dist => scan s q view k rest (offer k pq dist (r_label (row_at s idx)))
      end
  end.

(** The end of [search_knn]: [labels] and [scores] are resized to the
    size of the queue, and [for (int i = static_cast<int>(result_size) - 1;
    i >= 0; --i)] writes the elements popped from the queue from the index
    [i] down.  The subtraction overflows when the conversion gives the
    least [int]; the behaviour is then undefined, which is [None]. *)
Definition copy_out (pq : list (F * Z)) (labels : list Z) (scores : list F)
  : option (list Z * list F) :=
  let result_size := Z.of_nat (length pq) in
  let labels1 := resize (length pq) 0 labels in
  let scores1 := resize (length pq) fzero scores in
  if to_int result_size =? - 2 ^ 31 then None
  else
    let n := Z.to_nat (to_int result_size) in
    let out := rev (take n pq) in
    Some (map snd out ++ drop n labels1, map fst out ++ drop n scores1).

(** [search_knn]; the result is the new content of [labels] and
    [scores], [None] when an exception escapes or the behaviour is
    undefined. *)
Definition search_knn (s : t) (query_data : option (list F)) (k : Z)
           (filter_bitmap : option Bitmap.t) (sparse : option LowLevel)
           (labels : list Z) (scores : list F)
  : option (list Z * list F) :=
  match query_data with
  | None => Some (labels, scores)
  | Some query =>
      if k =? 0 then Some ([], [])
      else if current_count_ s =? 0 then Some (labels, scores)
      else
        let query_sparse_view := transform_sparse_query s sparse in
        let encoded_query := encode query in
        let empty_filter := match filter_bitmap with
                            | Some bm => Bitmap.empty bm
                            | None => false
                            end in
        if empty_filter then Some ([], [])
        else
          match scan s encoded_query query_sparse_view k
                     (candidates s filter_bitmap) [] with
          | None => None
          | Some pq => copy_out pq labels scores
          end
  end.
(** ** Sequences of calls *)

Inductive call :=
| AddPoint (vector : option (list F)) (label : Z) (sparse_data : option LowLevel)
| RemovePoint (label : Z).

Definition step (s : t) (c : call) : t :=
  match c with
  | AddPoint v l sd => store_of (add_point s v l sd)
  | RemovePoint l => store_of (remove_point s l)
  end.

Definition run (cs : list call) (s : t) : t := fold_left step cs s.

(** The bookkeeping of the claim: both round trips and the count.  A
    logical offset [o] reaches [get_label_by_offset] as the [int] it
    converts to. *)
Definition consistent (s : t) : Prop :=
  (forall l, is_Some (label_map_ s !! l) ->
     get_label_by_offset s (get_offset_by_label s l) = l) /\
  (forall o, is_Some (offset_map_ s !! o) ->
     get_offset_by_label s (get_label_by_offset s (to_int o)) = to_int o) /\
  get_data_num s = Z.of_nat (size (label_map_ s)).

(** A call stays within the 32-bit fields when an [add_point] of a new
    label finds a row index that fits [int] and a logical offset that
    fits [uint32_t]. *)
Definition fits (s : t) (c : call) : bool :=
  match c with
  | AddPoint _ l _ =>
      match label_map_ s !! l with
      | None => (current_count_ s <? 2 ^ 31) && (next_logical_offset_ s <? 2 ^ 32)
      | Some _ => true
      end
  | RemovePoint _ => true
  end.

Fixpoint within_limits (cs : list call) (s : t) : bool :=
  match cs with
  | [] => true
  | c :: rest => fits s c && within_limits rest (step s c)
  end.

(** The invariant behind [consistent]. *)
Record Inv (s : t) : Prop := {
  inv_count : 0 <= current_count_ s <= 2 ^ 31;
  inv_next : 0 <= next_logical_offset_ s <= 2 ^ 32;
  inv_label : forall l i, label_map_ s !! l = Some i ->
    0 <= i < current_count_ s /\ r_label (row_at s i) = l;
  inv_offset : forall o i, offset_map_ s !! o = Some i ->
    0 <= i < current_count_ s /\ r_offset (row_at s i) = o /\
    0 <= o < next_logical_offset_ s;
  inv_rows : forall i, 0 <= i < current_count_ s ->
    label_map_ s !! r_label (row_at s i) = Some i /\
    offset_map_ s !! r_offset (row_at s i) = Some i;
  inv_size : current_count_ s = Z.of_nat (size (label_map_ s));
  inv_sparse : forall sp, sparse_index_ s = Some sp ->
    Sparse.rows sp = current_count_ s;
}.
End Store.

(** A concrete backend to run the store on: vectors are stored as they
    come (the passthrough quantizer), the metric is the inner product, and
    the sparse terms arrive with their term identifiers. *)
Definition zdot (a b : list zfloat) : zfloat :=
  fold_left fadd (zip_with fmul a b) fzero.

#[global] Instance zbackend : Backend zfloat (list zfloat) (list (Z * zfloat)) := {|
  uninit := [];
  encode := fun v => v;
  dist_func := zdot;
  make_sparse_point_by_low_level :=
    fun l => Some (Sparse.mkDatapoint (map fst l) (map snd l));
  make_sparse_view_by_low_level := fun l => Some l;
|}.

Abbreviation zstore := (@t zfloat (list zfloat)).
Abbreviation zcall := (@call zfloat (list (Z * zfloat))).

(** An inner-product store without sparse head. *)
Definition znew : zstore := new false (ZNum 0) 0 false.

(** One label stays in the store while a second one is added and removed
    [n] times, then a third label is added. *)
Definition churn (n : nat) : list zcall :=
  [AddPoint None 0 None]
  ++ concat (repeat [AddPoint None 1 None; RemovePoint 1] n)
  ++ [AddPoint None 2 None].

(** The store after [AddPoint None 0 None] and [n >= 1] add/remove pairs. *)
Definition churned (n : Z) : zstore :=
  mk false (ZNum 0)
     (<[1 := mkRow [] 1 n]> (<[0 := mkRow [] 0 0]> ∅))
     3 1 (<[0 := 0]> ∅) (<[0 := 0]> ∅) None (n + 1).

End BruteforceSearch.


(* ===================================================================== *)
(** * Index manager  (index_manager_impl.cpp, index_engine.cpp,
      common_structs.h)                                                    *)
(* ===================================================================== *)

Module IndexManager.

(** [ScalarIndex] as the manager uses it. *)
Class ScalarIndexOps (S Fields : Type) := {
  add_row_data : S -> Z -> Fields -> Fields -> S;
  delete_row_data : S -> Z -> Fields -> S;
}.

(** [StateResult]; both fields default to 0. *)
Record StateResult := mkStateResult {
  update_timestamp : Z;
  element_count : Z;
}.

Definition StateResult_default : StateResult := mkStateResult 0 0.

Section Manager.
Context {F : Type} `{FloatOps F} {EncVec LowLevel : Type}
        `{BruteforceSearch.Backend F EncVec LowLevel}
        {S Fields : Type} `{ScalarIndexOps S Fields}.

Record AddDataRequest := mkAdd {
  add_label : Z;
  add_vector : list F;
  add_sparse : LowLevel;          (* sparse_raw_terms, sparse_values *)
  add_fields : Fields;            (* fields_str, parsed *)
  add_old_fields : Fields;        (* old_fields_str, parsed *)
}.

Record DeleteDataRequest := mkDelete {
  del_label : Z;
  del_old_fields : Fields;
}.

Record t := mk {
  manager_meta_update_timestamp : Z;         (* manager_meta_->update_timestamp *)
  scalar_index_ : S;
  vector_index_ : @BruteforceSearch.t F EncVec;
}.

(** The loop of [add_data]; [None] when [add_point] throws. *)
Fixpoint add_loop (data_list : list AddDataRequest) (sc : S)
    (vi : @BruteforceSearch.t F EncVec) (has_update : bool)
  : option (S * @BruteforceSearch.t F EncVec * bool) :=
  match data_list with
  | [] => Some (sc, vi, has_update)
  | data :: rest =>
      let vec := match add_vector data with [] => None | v => Some v end in
      match BruteforceSearch.add_point vi vec (add_label data)
              (Some (add_sparse data)) with
      | BruteforceSearch.Thrown _ => None
      | BruteforceSearch.Returned vi' =>
          let offset := BruteforceSearch.get_offset_by_label vi' (add_label data) in
          if offset <? 0 then add_loop rest sc vi' has_update
          else add_loop rest
                 (add_row_data sc offset (add_fields data) (add_old_fields data))
                 vi' true
      end
  end.

(** [add_data]; [now] is what the system clock reads, in nanoseconds. *)
Definition add_data (m : t) (data_list : list AddDataRequest) (now : Z)
  : option t :=
  match add_loop data_list (scalar_index_ m) (vector_index_ m) false with
  | None => None
  | Some (sc, vi, has_update) =>
      Some (mk (if has_update then to_uint64 now
                else manager_meta_update_timestamp m) sc vi)
  end.

Fixpoint delete_loop (data_list : list DeleteDataRequest) (sc : S)
    (vi : @BruteforceSearch.t F EncVec) (has_update : bool)
  : option (S * @BruteforceSearch.t F EncVec * bool) :=
  match data_list with
  | [] => Some (sc, vi, has_update)
  | data :: rest =>
      let offset := BruteforceSearch.get_offset_by_label vi (del_label data) in
      if offset <? 0 then delete_loop rest sc vi has_update
      else
        match BruteforceSearch.remove_point vi (del_label data) with
        | BruteforceSearch.Thrown _ => None
        | BruteforceSearch.Returned vi' =>
            delete_loop rest (delete_row_data sc offset (del_old_fields data))
                        vi' true
        end
  end.

Definition delete_data (m : t) (data_list : list DeleteDataRequest) (now : Z)
  : option t :=
  match delete_loop data_list (scalar_index_ m) (vector_index_ m) false with
  | None => None
  | Some (sc, vi, has_update) =>
      Some (mk (if has_update then to_uint64 now
                else manager_meta_update_timestamp m) sc vi)
  end.

(** [IndexManagerImpl::get_state(StateResult& state_result)]: the return
    code and the result object after the call. *)
Definition get_state (m : t) (state_result : StateResult) : Z * StateResult :=
  (0, mkStateResult (manager_meta_update_timestamp m)
                    (element_count state_result)).

(** [IndexEngine::get_state()] *)
Definition IndexEngine_get_state (m : t) : StateResult :=
  snd (get_state m StateResult_default).

(** The number of live records, as [handle_sorter_query] counts them. *)
Definition live_records (m : t) : Z :=
  BruteforceSearch.get_data_num (vector_index_ m).
End Manager.

(** A manager over the concrete backend, without scalar fields. *)
#[global] Instance no_scalar : ScalarIndexOps unit unit := {|
  add_row_data := fun s _ _ _ => s;
  delete_row_data := fun s _ _ => s;
|}.

Abbreviation zmanager :=
  (@t zfloat (list zfloat) unit).

Definition znew_manager : zmanager := mk 0 tt BruteforceSearch.znew.

Definition zadd (label : Z) (v : list zfloat)
  : @AddDataRequest zfloat (list (Z * zfloat)) unit :=
  mkAdd label v [] tt tt.

End IndexManager.


(* ===================================================================== *)
(** * String utilities  (common/string_utils.h)                            *)
(* ===================================================================== *)

Module StringUtils.

(** [std::string] is the list of its characters; [std::string::npos] is
    [None]. *)
Abbreviation str := (list Ascii.ascii).

(** [str.find_first_of(delimiters, pos)]; [s] is what [str] holds from
    [pos] on. *)
Fixpoint find_from (delimiters s : str) (pos : nat) : option nat :=
  match s with
  | [] => None
  | c :: r =>
      if bool_decide (c ∈ delimiters) then Some pos
      else find_from delimiters r (S pos)
  end.

Definition find_first_of (s delimiters : str) (pos : nat) : option nat :=
  find_from delimiters (drop pos s) pos.

(** The loop of [split] and what follows it; [end_] is what
    [find_first_of] gave last. *)
Fixpoint split_loop (fuel : nat) (tokens : list str) (s delimiters : str)
    (start : nat) (end_ : option nat) : list str :=
  match fuel with
  | O => tokens
  | S fuel' =>
      match end_ with
      | Some e =>
          let tokens' :=
            if (start <? e)%nat
            then tokens ++ [take (e - start) (drop start s)]
            else tokens in
          split_loop fuel' tokens' s delimiters (e + 1)
                     (find_first_of s delimiters (e + 1))
      | None =>
          if (start <? length s)%nat then tokens ++ [drop start s] else tokens
      end
  end.

(** [split(tokens, str, delimiters)]: the vector [tokens] after the call. *)
Definition split (tokens : list str) (s delimiters : str) : list str :=
  split_loop (S (length s)) tokens s delimiters 0 (find_first_of s delimiters 0).

(** The fields of a string between the delimiters, the empty ones
    included; [cur] is the field that is being read. *)
Fixpoint fields (delimiters s cur : str) : list str :=
  match s with
  | [] => [cur]
  | c :: r =>
      if bool_decide (c ∈ delimiters) then cur :: fields delimiters r []
      else fields delimiters r (cur ++ [c])
  end.

Definition nonempty (t : str) : bool :=
  match t with [] => false | _ => true end.

(** The strings of [ts] with [d] between them. *)
Fixpoint join (d : Ascii.ascii) (ts : list str) : str :=
  match ts with
  | [] => []
  | [t] => t
  | t :: r => t ++ d :: join d r
  end.

End StringUtils.


(* ===================================================================== *)
(** * Directory index  (dir_index.h, dir_index.cpp)                        *)
(* ===================================================================== *)

Module DirIndex.
Import StringUtils.

Definition slash : Ascii.ascii := "/"%char.

(** [TrieNode].  [children_] is an [std::unordered_map] from the segment
    of a child to the child; it is the list of the children here, each
    with its own [path_segment_], because the functions below recurse
    through it.  The order of the list stands for the iteration order of
    the map, which the results (sets of strings) do not depend on.
    [parent_] is never read. *)
#[warnings="-register-all"]
Inductive TrieNode :=
  Node (path_segment_ : str) (children_ : list TrieNode) (is_leaf_ : bool).

Definition path_segment_ (n : TrieNode) : str :=
  match n with Node s _ _ => s end.
Definition children_ (n : TrieNode) : list TrieNode :=
  match n with Node _ c _ => c end.
Definition is_leaf_ (n : TrieNode) : bool :=
  match n with Node _ _ l => l end.

(** [DirIndex]: [root_]. *)
Definition t := TrieNode.

Definition new : t := Node [] [] false.

(** [children_.find(segment)] *)
Fixpoint find_child (children : list TrieNode) (segment : str) : option TrieNode :=
  match children with
  | [] => None
  | n :: r =>
      if bool_decide (path_segment_ n = segment) then Some n
      else find_child r segment
  end.

(** [std::getline(ss, seg, '/')]: the segment read and what is left of
    the stream. *)
Fixpoint read_segment (rest : str) : str * str :=
  match rest with
  | [] => ([], [])
  | c :: r =>
      if bool_decide (c = slash) then ([], r)
      else let '(seg, r') := read_segment r in (c :: seg, r')
  end.

Fixpoint getline_loop (fuel : nat) (rest : str) (segments : list str) : list str :=
  match fuel with
  | O => segments
  | S fuel' =>
      match rest with
      | [] => segments
      | _ =>
          let '(seg, rest') := read_segment rest in
          getline_loop fuel' rest'
            (if nonempty seg then segments ++ [seg] else segments)
      end
  end.

Definition split_path (path : str) : list str :=
  if bool_decide (path = []) || bool_decide (path = [slash]) then []
  else
    let body := match path with
                | c :: r => if bool_decide (c = slash) then r else path
                | [] => path
                end in
    getline_loop (S (length body)) body [].

(** The walk of [add_key] from [node] along the segments. *)
Fixpoint add_segments (node : TrieNode) (segments : list str) : TrieNode :=
  match segments with
  | [] => Node (path_segment_ node) (children_ node) true
  | segment :: rest =>
      let fix descend (children : list TrieNode) : list TrieNode :=
        match children with
        | [] => [add_segments (Node segment [] false) rest]
        | n :: r =>
            if bool_decide (path_segment_ n = segment)
            then add_segments n rest :: r
            else n :: descend r
        end in
      Node (path_segment_ node) (descend (children_ node)) (is_leaf_ node)
  end.

Definition add_key (d : t) (key : str) : t := add_segments d (split_path key).

(** The walk of [find_node]; [None] is the null pointer. *)
Fixpoint find_segments (node : TrieNode) (segments : list str) : option TrieNode :=
  match segments with
  | [] => Some node
  | seg :: rest =>
      match find_child (children_ node) seg with
      | Some child => find_segments child rest
      | None => None
      end
  end.

Definition find_node (d : t) (path : str) : option TrieNode :=
  if bool_decide (path = []) || bool_decide (path = [slash]) then Some d
  else find_segments d (split_path path).

(** The name a leaf is listed under, and the buffer one segment further
    down. *)
Definition leaf_name (path_buffer : str) : str :=
  if bool_decide (path_buffer = []) || bool_decide (path_buffer = [slash])
  then [slash] else path_buffer.

Definition extend (path_buffer segment : str) : str :=
  if bool_decide (path_buffer = []) || bool_decide (path_buffer = [slash])
  then slash :: segment else path_buffer ++ slash :: segment.

Fixpoint collect_bitmaps_recursive_optimized (node : TrieNode)
    (current_depth max_depth : Z) (bitmaps : gset str) (path_buffer : str)
    {struct node} : gset str :=
  match node with
  | Node _ children is_leaf =>
      let bitmaps1 :=
        if is_leaf then {[ leaf_name path_buffer ]} ∪ bitmaps else bitmaps in
      if negb (max_depth =? -1) && (current_depth >=? max_depth) then bitmaps1
      else
        fold_left
          (fun acc child =>
             collect_bitmaps_recursive_optimized child
               (to_int (current_depth + 1)) max_depth acc
               (extend path_buffer (path_segment_ child)))
          children bitmaps1
  end.

(** [while (path_buffer.size() > 1 && path_buffer.back() == '/')
    path_buffer.pop_back();] *)
Fixpoint strip_trailing (fuel : nat) (path_buffer : str) : str :=
  match fuel with
  | O => path_buffer
  | S fuel' =>
      if (1 <? length path_buffer)%nat
         && bool_decide (List.last path_buffer slash = slash)
      then strip_trailing fuel' (removelast path_buffer)
      else path_buffer
  end.

(** The buffer [get_merged_bitmap] starts from. *)
Definition prefix_buffer (path_prefix : str) : str :=
  let b := match path_prefix with
           | [] => []
           | c :: _ => if bool_decide (c = slash) then path_prefix
                       else slash :: path_prefix
           end in
  strip_trailing (length b) b.

Definition get_merged_bitmap (d : t) (path_prefix : str) (depth : Z)
    (unique_bitmaps : gset str) : gset str :=
  match find_node d path_prefix with
  | None => unique_bitmaps
  | Some start_node =>
      collect_bitmaps_recursive_optimized start_node 0 depth unique_bitmaps
        (prefix_buffer path_prefix)
  end.

(** The segment lists that lead from a node to the leaves below it. *)
Fixpoint leaf_paths (node : TrieNode) : list (list str) :=
  match node with
  | Node _ children is_leaf =>
      (if is_leaf then [[]] else [])
      ++ flat_map (fun c => map (cons (path_segment_ c)) (leaf_paths c)) children
  end.

(** No two children of a node have the same segment. *)
Fixpoint unique_children (node : TrieNode) : Prop :=
  match node with
  | Node _ children _ =>
      NoDup (map path_segment_ children)
      /\ fold_right (fun c P => unique_children c /\ P) True children
  end.

End DirIndex.

(* ===================================================================== *)
(** * Field groups  (bitmap_field_group.h, bitmap_field_group.cpp)         *)
(* ===================================================================== *)

Module FieldGroup.
Import StringUtils.

Definition kBitmapGroupUnknown : Z := 0.
Definition kBitmapGroupBitmaps : Z := 1.
Definition kBitmapGroupRangedMap : Z := 2.
Definition kBitmapGroupBothBitmapsAndRange : Z := 3.
Definition kBitmapGroupDir : Z := 4.

Definition semicolon : Ascii.ascii := ";"%char.

(** [normalize_path_key] *)
Definition normalize_path_key (key : str) : str :=
  match key with
  | [] => key
  | c :: _ => if bool_decide (c = DirIndex.slash) then key
              else DirIndex.slash :: key
  end.

(** [operator<] of [std::string], the order of the keys of a
    [std::map]: the characters compare as unsigned bytes. *)
Fixpoint str_ltb (a b : str) : bool :=
  match a, b with
  | [], [] => false
  | [], _ :: _ => true
  | _ :: _, [] => false
  | x :: a', y :: b' =>
      if (Ascii.nat_of_ascii x <? Ascii.nat_of_ascii y)%nat then true
      else if (Ascii.nat_of_ascii y <? Ascii.nat_of_ascii x)%nat then false
      else str_ltb a' b'
  end.

Definition key_le {A} (p q : str * A) : Prop := str_ltb (fst q) (fst p) = false.

#[export] Instance key_le_dec {A} (p q : str * A) : Decision (key_le p q) :=
  decide (str_ltb (fst q) (fst p) = false).

(** The entries of a [std::map] in the order of its iteration. *)
Definition in_key_order {A} (m : gmap str A) : list (str * A) :=
  merge_sort key_le (map_to_list m).

(** [key.find(substring) != std::string::npos] *)
Fixpoint contains (key substring : str) : bool :=
  bool_decide (take (length substring) key = substring)
  || match key with
     | [] => false
     | _ :: r => contains r substring
     end.

(** [key.size() >= prefix.size() && key.compare(0, prefix.size(), prefix) == 0] *)
Definition starts_with (key prefix : str) : bool :=
  (length prefix <=? length key)%nat
  && bool_decide (take (length prefix) key = prefix).

Section Group.
Context {F : Type} `{FloatOps F} `{ScoreOps F}.

(** [BitmapGroupBase] together with the [element_size_] of
    [FieldBitmapGroup].  A [BitmapPtr] of [bitmap_group_] is never null:
    the map is only written by [get_editable_bitmap] and by the parser,
    both with a new bitmap. *)
Record t := mk {
  group_set_name_ : str;
  group_name_ : str;
  bitmap_group_ : gmap str Bitmap.t;
  rangedmap_ptr_ : option (@RangedMap.t F);
  dir_index_ : option DirIndex.t;
  type_id_ : Z;
  element_size_ : Z;
}.

Definition with_bitmaps (g : t) (m : gmap str Bitmap.t) : t :=
  mk (group_set_name_ g) (group_name_ g) m (rangedmap_ptr_ g) (dir_index_ g)
     (type_id_ g) (element_size_ g).
Definition with_rangedmap (g : t) (r : option (@RangedMap.t F)) : t :=
  mk (group_set_name_ g) (group_name_ g) (bitmap_group_ g) r (dir_index_ g)
     (type_id_ g) (element_size_ g).
Definition with_dir_index (g : t) (d : option DirIndex.t) : t :=
  mk (group_set_name_ g) (group_name_ g) (bitmap_group_ g) (rangedmap_ptr_ g) d
     (type_id_ g) (element_size_ g).
Definition with_element_size (g : t) (n : Z) : t :=
  mk (group_set_name_ g) (group_name_ g) (bitmap_group_ g) (rangedmap_ptr_ g)
     (dir_index_ g) (type_id_ g) n.

(** The constructor of [FieldBitmapGroup]. *)
Definition new (group_set_name field_name : str) (type_id : Z) : t :=
  mk group_set_name field_name ∅
     (if (type_id =? kBitmapGroupBothBitmapsAndRange)
         || (type_id =? kBitmapGroupRangedMap)
      then Some RangedMap.new else None)
     (if type_id =? kBitmapGroupDir then Some DirIndex.new else None)
     type_id 0.

Definition get_type_id (g : t) : Z :=
  if negb (type_id_ g =? kBitmapGroupUnknown) then type_id_ g
  else if bool_decide (is_Some (dir_index_ g)) then kBitmapGroupDir
  else if negb (bool_decide (bitmap_group_ g = ∅))
          && bool_decide (is_Some (rangedmap_ptr_ g))
       then kBitmapGroupBothBitmapsAndRange
  else if negb (bool_decide (bitmap_group_ g = ∅)) then kBitmapGroupBitmaps
  else if bool_decide (is_Some (rangedmap_ptr_ g)) then kBitmapGroupRangedMap
  else kBitmapGroupUnknown.

Definition get_editable_rangedmap (g : t) : @RangedMap.t F * t :=
  match rangedmap_ptr_ g with
  | Some m => (m, g)
  | None => (RangedMap.new, with_rangedmap g (Some RangedMap.new))
  end.

Definition exist_bitmap (g : t) (key : str) : bool :=
  bool_decide (is_Some (bitmap_group_ g !! key)).

(** [get_editable_bitmap]: the bitmap the pointer returned points to, and
    the group, to which a missing key is added with a new bitmap. *)
Definition get_editable_bitmap (g : t) (key : str) : Bitmap.t * t :=
  match bitmap_group_ g !! key with
  | Some b => (b, g)
  | None => (Bitmap.new, with_bitmaps g (<[key := Bitmap.new]> (bitmap_group_ g)))
  end.

Definition get_bitmap (g : t) (key : str) : Bitmap.t * t :=
  get_editable_bitmap g key.

Definition get_bitmap_copy (g : t) (key : str) : option Bitmap.t * t :=
  let '(temp, g1) := get_bitmap g key in
  (Some (Bitmap.copy_ptr Bitmap.new (Some temp)), g1).

(** [get_editable_bitmap(key)] and a call [f] on the bitmap it points
    to, which is the one of the group. *)
Definition edit_bitmap (g : t) (key : str) (f : Bitmap.t -> Bitmap.t) : t :=
  let '(b, g1) := get_editable_bitmap g key in
  with_bitmaps g1 (<[key := f b]> (bitmap_group_ g1)).

(** [dir_index_ ? normalize_path_key(key) : key] *)
Definition norm_key (g : t) (key : str) : str :=
  match dir_index_ g with
  | Some _ => normalize_path_key key
  | None => key
  end.

(** The keys of a field string: its pieces between semicolons when it
    holds one, the string itself otherwise. *)
Definition keys_of_field (field_str : str) : list str :=
  match find_first_of field_str [semicolon] 0 with
  | Some _ => split [] field_str [semicolon]
  | None => [field_str]
  end.

(** What [add_field_data] does with one key. *)
Definition add_key_data (offset : Z) (g : t) (key_i : str) : t :=
  let k := norm_key g key_i in
  let g1 :=
    if negb (exist_bitmap g k) then
      match dir_index_ g with
      | Some d => with_dir_index g (Some (DirIndex.add_key d k))
      | None => g
      end
    else g in
  edit_bitmap g1 k (fun b => Bitmap.Set_ b (to_uint32 offset)).

(** [static_cast<size_t>(offset + 1)] *)
Definition size_after (offset : Z) : Z := to_uint64 (to_int (offset + 1)).

(** [add_field_data(const std::string& field_str, int offset)] *)
Definition add_field_data (g : t) (field_str : str) (offset : Z) : Z * t :=
  let g1 := fold_left (add_key_data offset) (keys_of_field field_str) g in
  (0, with_element_size g1 (Z.max (size_after offset) (element_size_ g1))).

(** [add_field_data(double field_dbl, int offset)]; [None] where
    [add_offset_and_score] writes outside its vector. *)
Definition add_field_data_double (g : t) (field_dbl : F) (offset : Z)
    : option (Z * t) :=
  let '(temp, g1) := get_editable_rangedmap g in
  match RangedMap.add_offset_and_score temp (to_uint32 offset) field_dbl with
  | None => None
  | Some (ret, temp') =>
      let g2 := with_rangedmap g1 (Some temp') in
      if negb (ret =? 0) then Some (ret, g2)
      else Some (0, with_element_size g2
                      (Z.max (size_after offset) (element_size_ g2)))
  end.

Definition delete_key_data (offset : Z) (g : t) (key_i : str) : t :=
  edit_bitmap g (norm_key g key_i) (fun b => Bitmap.Unset b (to_uint32 offset)).

(** [delete_field_data(const std::string& field_str, int offset)] *)
Definition delete_field_data (g : t) (field_str : str) (offset : Z) : Z * t :=
  if to_uint64 offset >=? element_size_ g then (-1, g)
  else (0, fold_left (delete_key_data offset) (keys_of_field field_str) g).

(** [delete_field_data(double field_dbl, int offset)] *)
Definition delete_field_data_double (g : t) (field_dbl : F) (offset : Z)
    : Z * t :=
  if to_uint64 offset >=? element_size_ g then (-1, g)
  else
    let '(temp, g1) := get_editable_rangedmap g in
    let '(ret, temp') := RangedMap.delete_offset temp (to_uint32 offset) in
    (ret, with_rangedmap g1 (Some temp')).

(** The loop of [get_bitmap_by_prefix] and of [get_bitmap_by_contains]
    over the keys that [matches] accepts. *)
Definition union_matching (matches : str -> bool) (g : t) : option Bitmap.t :=
  if bool_decide (bitmap_group_ g = ∅) then None
  else
    fold_left
      (fun result kv =>
         if matches (fst kv) then
           match result with
           | None => Some (Bitmap.copy_ptr Bitmap.new (Some (snd kv)))
           | Some r => Some (Bitmap.Union_ptr r (Some (snd kv)))
           end
         else result)
      (in_key_order (bitmap_group_ g)) None.

Definition get_bitmap_by_prefix (g : t) (prefix : str) : option Bitmap.t :=
  union_matching (fun key => starts_with key prefix) g.

Definition get_bitmap_by_contains (g : t) (substring : str) : option Bitmap.t :=
  union_matching (fun key => contains key substring) g.

Definition comma : Ascii.ascii := ","%char.

(** [enum_bitmaps.insert({key, bitmap})] keeps the entry of a key the map
    has. *)
Definition insert_new (key : str) (b : Bitmap.t) (m : gmap str Bitmap.t)
    : gmap str Bitmap.t :=
  match m !! key with
  | Some _ => m
  | None => <[key := b]> m
  end.

(** [count_field_enums(enum_count, enum_bitmaps, valid_bitmap)]: the value
    returned, the two maps, the bitmap [valid_bitmap] points to, a bitmap
    of its own, and the group after the call.  The pointers of
    [bitmap_group_] are not null, so the branches for a null pointer are
    never taken, and [get_bitmap_copy] has a bitmap to return.  With a
    filter the bitmaps put in [enum_bitmaps] are new ones.  Without a
    filter the pointers put there are those of the group: the map is
    given with the bitmaps they point to when the call returns. *)
Definition count_field_enums (g : t) (enum_count : gmap str Z)
    (enum_bitmaps : gmap str Bitmap.t) (valid_bitmap : option Bitmap.t)
    : Z * gmap str Z * gmap str Bitmap.t * option Bitmap.t * t :=
  match valid_bitmap with
  | Some valid =>
      let '(ec1, eb1, g1) :=
        if bool_decide (bitmap_group_ g = ∅) then (enum_count, enum_bitmaps, g)
        else
          fold_left
            (fun st kv =>
               let '(ec, eb, g0) := st in
               let '(copy, g') := get_bitmap_copy g0 (fst kv) in
               match copy with
               | Some c =>
                   let key_bitmap := Bitmap.Intersect_ptr c (Some valid) in
                   let '(n, key_bitmap') := Bitmap.get_cached_nbit key_bitmap in
                   (<[fst kv := n]> ec, insert_new (fst kv) key_bitmap' eb, g')
               | None => (ec, eb, g')
               end)
            (in_key_order (bitmap_group_ g)) (enum_count, enum_bitmaps, g) in
      match rangedmap_ptr_ g1 with
      | Some _ =>
          let '(n, valid') := Bitmap.get_cached_nbit valid in
          (0, <[group_name_ g1 := n]> ec1, eb1, Some valid', g1)
      | None => (0, ec1, eb1, Some valid, g1)
      end
  | None =>
      let '(ec1, eb1, g1) :=
        if bool_decide (bitmap_group_ g = ∅) then (enum_count, enum_bitmaps, g)
        else
          fold_left
            (fun st kv =>
               let '(ec, eb, g0) := st in
               let '(n, b') := Bitmap.get_cached_nbit (snd kv) in
               (<[fst kv := n]> ec, insert_new (fst kv) b' eb,
                with_bitmaps g0 (<[fst kv := b']> (bitmap_group_ g0))))
            (in_key_order (bitmap_group_ g)) (enum_count, enum_bitmaps, g) in
      match rangedmap_ptr_ g1 with
      | Some m => (0, <[group_name_ g1 := RangedMap.size m]> ec1, eb1, None, g1)
      | None => (0, ec1, eb1, None, g1)
      end
  end.

(** [count_field_enums(enum_count, first_enum_bitmaps)], the overload
    that joins the keys of this group to those of a first field: the
    value returned, the counts, the bitmaps [first_enum_bitmaps] points
    to, none of them null, and the group after the call. *)
Definition count_field_enums_joint (g : t) (enum_count : gmap str Z)
    (first_enum_bitmaps : gmap str Bitmap.t)
    : Z * gmap str Z * gmap str Bitmap.t * t :=
  let '(ec2, fb2, g2) :=
    fold_left
      (fun st pkv =>
         let '(ec, fb, g0) := st in
         let valid := snd pkv in
         let prefix := fst pkv in
         let '(ec1, g1) :=
           if bool_decide (bitmap_group_ g0 = ∅) then (ec, g0)
           else
             fold_left
               (fun st1 kv =>
                  let '(ec0, g00) := st1 in
                  let full_key := prefix ++ comma :: fst kv in
                  let '(copy, g01) := get_bitmap_copy g00 (fst kv) in
                  match copy with
                  | Some c =>
                      let key_bitmap := Bitmap.Intersect_ptr c (Some valid) in
                      let cnt := fst (Bitmap.get_cached_nbit key_bitmap) in
                      (if 0 <? cnt then <[full_key := cnt]> ec0 else ec0, g01)
                  | None => (ec0, g01)
                  end)
               (in_key_order (bitmap_group_ g0)) (ec, g0) in
         match rangedmap_ptr_ g1 with
         | Some _ =>
             let '(n, valid') := Bitmap.get_cached_nbit valid in
             (<[prefix := n]> ec1, <[prefix := valid']> fb, g1)
         | None => (ec1, fb, g1)
         end)
      (in_key_order first_enum_bitmaps) (enum_count, first_enum_bitmaps, g) in
  (0, ec2, fb2, g2).

(** The identifiers of the bitmap of a key; none when the group has no
    such key. *)
Definition bits (g : t) (key : str) : gset Z :=
  match bitmap_group_ g !! key with
  | Some b => Bitmap.elems b
  | None => ∅
  end.

(** Every bitmap of the group is well formed. *)
Definition wf (g : t) : Prop :=
  forall key b, bitmap_group_ g !! key = Some b -> Bitmap.wf b.

(** The keys a field string stands for in a group. *)
Definition field_keys (g : t) (field_str : str) : list str :=
  map (norm_key g) (keys_of_field field_str).

(** A sequence of [add_field_data] calls, each a field string with an
    offset. *)
Definition add_all (calls : list (str * Z)) (g : t) : t :=
  fold_left (fun g0 c => snd (add_field_data g0 (fst c) (snd c))) calls g.

(** A key in the form the directory index gives its names in: a slash
    followed by the segments of the key with slashes between them. *)
Definition canonical (key : str) : Prop :=
  key = DirIndex.slash :: join DirIndex.slash (DirIndex.split_path key).

(** A call on a path field whose keys are canonical once
    [normalize_path_key] has put the slash in front, with an offset that
    [offset + 1] does not overflow on. *)
Definition path_call (c : str * Z) : Prop :=
  0 <= snd c < 2 ^ 31 - 1
  /\ Forall (fun key => canonical (normalize_path_key key)) (keys_of_field (fst c)).

(** A prefix of a path query: empty, or canonical with or without its
    first slash. *)
Definition path_prefix (p : str) : Prop :=
  p = [] \/ canonical (normalize_path_key p).

(** The bitmaps of a path field and its directory index hold the same
    keys, all of them canonical. *)
Record dir_ok (g : t) (keys : list str) : Prop := {
  dir_built : dir_index_ g = Some (fold_left DirIndex.add_key keys DirIndex.new);
  dir_keys : forall k, is_Some (bitmap_group_ g !! k) <-> k ∈ keys;
  dir_canonical : Forall canonical keys;
}.

(** The count [nbit] gives for a set of identifiers. *)
Definition card (X : gset Z) : Z := to_uint32 (Z.of_nat (size X)).

(** The identifiers of a set that pass the filter, all of them when there
    is none. *)
Definition filtered (valid_bitmap : option Bitmap.t) (X : gset Z) : gset Z :=
  match valid_bitmap with
  | Some valid => X ∩ Bitmap.elems valid
  | None => X
  end.

(** A count that a bitmap has cached is its count. *)
Definition cache_ok (b : Bitmap.t) : Prop :=
  Bitmap.has_nbit_cache_ b = true -> Bitmap.nbit_cache_ b = Bitmap.nbit b.

(** Every bitmap of the group is well formed, with a cache that is right. *)
Definition counted (g : t) : Prop :=
  forall key b, bitmap_group_ g !! key = Some b -> Bitmap.wf b /\ cache_ok b.

(** No key of the group has a comma. *)
Definition comma_free (g : t) : Prop :=
  forall key, is_Some (bitmap_group_ g !! key) -> comma ∉ key.

(** The counts of one field: each key of the group has the number of its
    identifiers that pass the filter; the name of a group with a ranged
    map has the number of identifiers of the filter or, without a filter,
    the size of the ranged map; every other key has the count it had. *)
Definition field_counts (g : t) (valid_bitmap : option Bitmap.t)
    (enum_count : gmap str Z) : gmap str Z :=
  let counts :=
    ((fun b => card (filtered valid_bitmap (Bitmap.elems b))) <$> bitmap_group_ g)
    ∪ enum_count in
  match rangedmap_ptr_ g with
  | Some m =>
      <[group_name_ g :=
          match valid_bitmap with
          | Some valid => card (Bitmap.elems valid)
          | None => RangedMap.size m
          end]> counts
  | None => counts
  end.

(** The counts of two fields: a key of the first group, a comma and a key
    of the second have the number of identifiers that pass the filter and
    that both keys hold, when there is one, and the count they had
    otherwise; when the second group has a ranged map, a key of the first
    has the number of its identifiers that pass the filter; every other
    key has the count it had. *)
Record joint_counts (g0 g1 : t) (valid_bitmap : option Bitmap.t)
    (enum_count enum_count' : gmap str Z) : Prop := {
  joint_pair : forall p k,
    is_Some (bitmap_group_ g0 !! p) -> is_Some (bitmap_group_ g1 !! k) ->
    enum_count' !! (p ++ comma :: k)
    = if 0 <? card (filtered valid_bitmap (bits g0 p) ∩ bits g1 k)
      then Some (card (filtered valid_bitmap (bits g0 p) ∩ bits g1 k))
      else enum_count !! (p ++ comma :: k);
  joint_first : forall p,
    is_Some (rangedmap_ptr_ g1) -> is_Some (bitmap_group_ g0 !! p) ->
    enum_count' !! p = Some (card (filtered valid_bitmap (bits g0 p)));
  joint_other : forall x,
    (forall p k, is_Some (bitmap_group_ g0 !! p) ->
                 is_Some (bitmap_group_ g1 !! k) -> x <> p ++ comma :: k) ->
    rangedmap_ptr_ g1 = None \/ bitmap_group_ g0 !! x = None ->
    enum_count' !! x = enum_count !! x;
}.

End Group.
End FieldGroup.

Module FieldGroupSet.
Import StringUtils.

Section GroupSet.
Context {F : Type} `{FloatOps F} `{ScoreOps F}.

(** [FieldBitmapGroupSet]; the groups are held by shared pointers, which
    nothing else keeps here. *)
Record t := mk {
  element_size_ : Z;
  group_set_name_ : str;
  field_names_ : gset str;
  range_field_names_ : gset str;
  enum_field_names_ : gset str;
  path_field_names_ : gset str;
  field_bitmap_groups_map_ : gmap str (@FieldGroup.t F);
}.

Definition with_groups (s : t) (m : gmap str (@FieldGroup.t F)) : t :=
  mk (element_size_ s) (group_set_name_ s) (field_names_ s)
     (range_field_names_ s) (enum_field_names_ s) (path_field_names_ s) m.
Definition with_element_size (s : t) (n : Z) : t :=
  mk n (group_set_name_ s) (field_names_ s) (range_field_names_ s)
     (enum_field_names_ s) (path_field_names_ s) (field_bitmap_groups_map_ s).

Definition new (grp_set_name : str) : t := mk 0 grp_set_name ∅ ∅ ∅ ∅ ∅.

Definition find_field_group (s : t) (field_name : str) : option (@FieldGroup.t F) :=
  field_bitmap_groups_map_ s !! field_name.

(** [add_field_group]; the argument is [None] for a null pointer. *)
Definition add_field_group (s : t) (field_bitmap_group : option (@FieldGroup.t F))
    : Z * t :=
  match field_bitmap_group with
  | None => (-1, s)
  | Some g =>
      let field_name := FieldGroup.group_name_ g in
      match field_bitmap_groups_map_ s !! field_name with
      | Some _ => (-2, s)
      | None =>
          let ty := FieldGroup.get_type_id g in
          (0, mk (element_size_ s) (group_set_name_ s)
                 ({[field_name]} ∪ field_names_ s)
                 (if (ty =? FieldGroup.kBitmapGroupRangedMap)
                     || (ty =? FieldGroup.kBitmapGroupBothBitmapsAndRange)
                  then {[field_name]} ∪ range_field_names_ s
                  else range_field_names_ s)
                 (if (ty =? FieldGroup.kBitmapGroupBitmaps)
                     || (ty =? FieldGroup.kBitmapGroupBothBitmapsAndRange)
                  then {[field_name]} ∪ enum_field_names_ s
                  else enum_field_names_ s)
                 (if ty =? FieldGroup.kBitmapGroupDir
                  then {[field_name]} ∪ path_field_names_ s
                  else path_field_names_ s)
                 (<[field_name := g]> (field_bitmap_groups_map_ s)))
      end
  end.

(** The loop of [add_field_data] over the entries of [str_kv_map], in
    the order of its iteration; [ret] is the result of the last call. *)
Fixpoint add_loop (kvs : list (str * str)) (offset : Z) (s : t) (ret : Z)
    : Z * t :=
  match kvs with
  | [] => (ret, s)
  | (field, value) :: rest =>
      if negb (bool_decide (field ∈ field_names_ s)) then add_loop rest offset s ret
      else
        match find_field_group s field with
        | None => add_loop rest offset s ret
        | Some g =>
            let '(ret', g') := FieldGroup.add_field_data g value offset in
            let s' := with_groups s (<[field := g']> (field_bitmap_groups_map_ s)) in
            if negb (ret' =? 0) then (ret', s') else add_loop rest offset s' ret'
        end
  end.

(** [add_field_data(str_kv_map, offset)] *)
Definition add_field_data (s : t) (str_kv_map : list (str * str)) (offset : Z)
    : Z * t :=
  let '(ret, s1) := add_loop str_kv_map offset s 0 in
  (ret, with_element_size s1
          (Z.max (element_size_ s1) (FieldGroup.size_after offset))).

Fixpoint delete_loop (kvs : list (str * str)) (offset : Z) (s : t) (ret : Z)
    : Z * t :=
  match kvs with
  | [] => (ret, s)
  | (field, value) :: rest =>
      match find_field_group s field with
      | None => delete_loop rest offset s ret
      | Some g =>
          let '(ret', g') := FieldGroup.delete_field_data g value offset in
          delete_loop rest offset
            (with_groups s (<[field := g']> (field_bitmap_groups_map_ s))) ret'
      end
  end.

(** [delete_field_data(str_kv_map, offset)] *)
Definition delete_field_data (s : t) (str_kv_map : list (str * str)) (offset : Z)
    : Z * t :=
  if to_uint64 offset >=? element_size_ s then (-1, s)
  else delete_loop str_kv_map offset s 0.

(** [get_editable_bitmap(field, key)]: [None] is the null pointer. *)
Definition get_editable_bitmap (s : t) (field key : str) : option Bitmap.t * t :=
  match field_bitmap_groups_map_ s !! field with
  | None => (None, s)
  | Some g =>
      let '(b, g') := FieldGroup.get_editable_bitmap g key in
      (Some b, with_groups s (<[field := g']> (field_bitmap_groups_map_ s)))
  end.

Definition get_bitmap (s : t) (field key : str) : option Bitmap.t * t :=
  get_editable_bitmap s field key.

(** [make_full_temp]: [SetRange] takes two [uint32_t]. *)
Definition make_full_temp (s : t) : Bitmap.t :=
  Bitmap.SetRange Bitmap.new 0 (to_uint32 (element_size_ s)).

(** [make_field_copy(field, key)] *)
Definition make_field_copy_one (s : t) (field key : str) : option Bitmap.t * t :=
  match field_bitmap_groups_map_ s !! field with
  | None => (None, s)
  | Some g =>
      let '(r, g') := FieldGroup.get_bitmap_copy g key in
      (r, with_groups s (<[field := g']> (field_bitmap_groups_map_ s)))
  end.

(** The loop that gathers the bitmaps of the keys; a null pointer is
    left out. *)
Definition gather (field : str) (acc : list Bitmap.t * t) (key : str)
    : list Bitmap.t * t :=
  let '(to_unions, s) := acc in
  match get_bitmap s field key with
  | (None, s') => (to_unions, s')
  | (Some temp_i, s') => (to_unions ++ [temp_i], s')
  end.

(** [make_field_copy(field, keys)] *)
Definition make_field_copy (s : t) (field : str) (keys : list str)
    : option Bitmap.t * t :=
  match keys with
  | [] => (None, s)
  | [key] => make_field_copy_one s field key
  | _ =>
      let '(to_unions, s') := fold_left (gather field) keys ([], s) in
      (Some (match to_unions with
             | [] => Bitmap.new
             | _ => Bitmap.FastUnion Bitmap.new to_unions
             end), s')
  end.

(** [make_path_field_copy(field, keys, depth)].  The names gathered in
    the [std::unordered_set] are visited in the order of [elements]; the
    identifiers of the result do not depend on the order. *)
Definition make_path_field_copy (s : t) (field : str) (keys : list str)
    (depth : Z) : option Bitmap.t * t :=
  match field_bitmap_groups_map_ s !! field with
  | None => (None, s)
  | Some group =>
      if (depth =? -1)
         && existsb (fun path_prefix =>
                       bool_decide (path_prefix = [DirIndex.slash])
                       || bool_decide (path_prefix = [])) keys
      then (Some (make_full_temp s), s)
      else
        match FieldGroup.dir_index_ group with
        | None => (None, s)
        | Some dip =>
            let all_unique_bitmaps : gset str :=
              fold_left
                (fun acc path_prefix =>
                   acc ∪ DirIndex.get_merged_bitmap dip path_prefix depth ∅)
                keys ∅ in
            let '(bitmaps_to_union, group') :=
              fold_left
                (fun acc bitmap_key =>
                   let '(bm, g') := FieldGroup.get_bitmap (snd acc) bitmap_key in
                   (fst acc ++ [bm], g'))
                (elements all_unique_bitmaps) ([], group) in
            (Some (match bitmaps_to_union with
                   | [] => Bitmap.new
                   | _ => Bitmap.FastUnion Bitmap.new bitmaps_to_union
                   end),
             with_groups s (<[field := group']> (field_bitmap_groups_map_ s)))
        end
  end.

(** [pres->Exclude(p.get())] on the result of a copy. *)
Definition make_path_field_exclude_copy (s : t) (field : str) (keys : list str)
    (depth : Z) : Bitmap.t * t :=
  let pres := make_full_temp s in
  let '(r, s') := make_path_field_copy s field keys depth in
  (Bitmap.Exclude_ptr pres r, s').

(** [make_field_exclude_copy(field, keys)] *)
Definition make_field_exclude_copy (s : t) (field : str) (keys : list str)
    : Bitmap.t * t :=
  let pres := make_full_temp s in
  match keys with
  | [] => (pres, s)
  | [key] =>
      let '(temp_p, s') := get_bitmap s field key in
      (Bitmap.Exclude_ptr pres temp_p, s')
  | _ =>
      let '(temp, s') := make_field_copy s field keys in
      (Bitmap.Exclude_ptr pres temp, s')
  end.

Definition is_path_field_name (s : t) (field_name : str) : bool :=
  bool_decide (field_name ∈ path_field_names_ s).

(** [make_field_prefix_copy(field, prefix)] *)
Definition make_field_prefix_copy (s : t) (field prefix : str) : option Bitmap.t :=
  match field_bitmap_groups_map_ s !! field with
  | None => None
  | Some g =>
      let search_prefix :=
        if is_path_field_name s field then
          match prefix with
          | [] => prefix
          | c :: _ => if bool_decide (c = DirIndex.slash) then prefix
                      else DirIndex.slash :: prefix
          end
        else prefix in
      FieldGroup.get_bitmap_by_prefix g search_prefix
  end.

(** [make_field_contains_copy(field, substring)] *)
Definition make_field_contains_copy (s : t) (field substring : str)
    : option Bitmap.t :=
  match field_bitmap_groups_map_ s !! field with
  | None => None
  | Some g => FieldGroup.get_bitmap_by_contains g substring
  end.

(** [count_field_enums(field, enum_count, valid_bitmap)]: the value
    returned, the counts, the bitmap [valid_bitmap] points to and the set
    after the call. *)
Definition count_field_enums (s : t) (field : str) (enum_count : gmap str Z)
    (valid_bitmap : option Bitmap.t) : Z * gmap str Z * option Bitmap.t * t :=
  match field_bitmap_groups_map_ s !! field with
  | None => (-1, enum_count, valid_bitmap, s)
  | Some g =>
      let '(ret, ec, _, valid', g') :=
        FieldGroup.count_field_enums g enum_count ∅ valid_bitmap in
      (ret, ec, valid',
       with_groups s (<[field := g']> (field_bitmap_groups_map_ s)))
  end.

(** [count_field_enums(fields, enum_count, valid_bitmap)].  Without a
    filter the bitmaps of the local [enum_bitmaps] are those of the group
    of [fields[0]], so what the second call does to them is done to that
    group; with a filter they are dropped at the end. *)
Definition count_field_enums_fields (s : t) (fields : list str)
    (enum_count : gmap str Z) (valid_bitmap : option Bitmap.t)
    : Z * gmap str Z * option Bitmap.t * t :=
  match fields with
  | [field] => count_field_enums s field enum_count valid_bitmap
  | [field0; field1] =>
      match field_bitmap_groups_map_ s !! field0 with
      | None => (-3, enum_count, valid_bitmap, s)
      | Some g0 =>
          match field_bitmap_groups_map_ s !! field1 with
          | None => (-4, enum_count, valid_bitmap, s)
          | Some _ =>
              let '(ret, _, enum_bitmaps, valid', g0') :=
                FieldGroup.count_field_enums g0 ∅ ∅ valid_bitmap in
              let s1 :=
                with_groups s (<[field0 := g0']> (field_bitmap_groups_map_ s)) in
              if negb (ret =? 0) then (ret, enum_count, valid', s1)
              else
                match field_bitmap_groups_map_ s1 !! field1 with
                | None => (ret, enum_count, valid', s1)
                | Some g1 =>
                    let '(ret2, ec, enum_bitmaps', g1') :=
                      FieldGroup.count_field_enums_joint g1 enum_count
                        enum_bitmaps in
                    let s2 :=
                      with_groups s1
                        (<[field1 := g1']> (field_bitmap_groups_map_ s1)) in
                    let s3 :=
                      match valid_bitmap, field_bitmap_groups_map_ s2 !! field0 with
                      | None, Some g =>
                          with_groups s2
                            (<[field0 :=
                                 FieldGroup.with_bitmaps g
                                   (enum_bitmaps' ∪ FieldGroup.bitmap_group_ g)]>
                               (field_bitmap_groups_map_ s2))
                      | _, _ => s2
                      end in
                    (ret2, ec, valid', s3)
                end
          end
      end
  | _ => (-2, enum_count, valid_bitmap, s)
  end.

(** The identifiers of the bitmap of a key of a field; none when the
    set has no such field or the field no such key. *)
Definition bits (s : t) (field key : str) : gset Z :=
  match field_bitmap_groups_map_ s !! field with
  | Some g => FieldGroup.bits g key
  | None => ∅
  end.

(** Every bitmap of every field is well formed. *)
Definition wf (s : t) : Prop :=
  forall field g, field_bitmap_groups_map_ s !! field = Some g -> FieldGroup.wf g.

(** Every bitmap of every field is well formed, with a cache that is
    right. *)
Definition counted (s : t) : Prop :=
  forall field g, field_bitmap_groups_map_ s !! field = Some g -> FieldGroup.counted g.

End GroupSet.

(** A path field after three calls, and a set that holds it. *)
Definition chars (s : string) : str := String.list_ascii_of_string s.

Definition sample_calls : list (str * Z) :=
  [(chars "/a/b", 0); (chars "a/c;/d", 1); (chars "/a", 2)].

Definition sample_group : @FieldGroup.t zfloat :=
  FieldGroup.add_all sample_calls
    (FieldGroup.new [] (chars "path") FieldGroup.kBitmapGroupDir).

Definition sample_set : @t zfloat :=
  snd (add_field_group (new []) (Some sample_group)).

(** Two fields of keys, a set that holds them, and a filter. *)
Definition sample_bitmap (ids : list Z) : Bitmap.t :=
  fold_left Bitmap.Set_ ids Bitmap.new.

Definition sample_color : @FieldGroup.t zfloat :=
  FieldGroup.mk [] (chars "color")
    (<[chars "red" := sample_bitmap [0; 2]]>
       (<[chars "blue" := sample_bitmap [1]]> ∅))
    None None FieldGroup.kBitmapGroupBitmaps 3.

Definition sample_size : @FieldGroup.t zfloat :=
  FieldGroup.mk [] (chars "size")
    (<[chars "l" := sample_bitmap [0]]>
       (<[chars "s" := sample_bitmap [1; 2]]> ∅))
    None None FieldGroup.kBitmapGroupBitmaps 3.

Definition sample_enum_set : @t zfloat :=
  snd (add_field_group (snd (add_field_group (new []) (Some sample_color)))
         (Some sample_size)).

Definition sample_valid : Bitmap.t := sample_bitmap [0; 1].

End FieldGroupSet.

(* ===================================================================== *)
(** * The sparse dataset as compressed sparse rows  (sparse_dataset.h)     *)
(* ===================================================================== *)

Module SparseCSR.
Import Sparse.

(** Conversion to [long] (two's complement, 64 bits), and
    [std::numeric_limits<size_t>::max()]. *)
Definition to_long (z : Z) : Z := (z + 2 ^ 63) mod 2 ^ 64 - 2 ^ 63.
Definition size_max : Z := 2 ^ 64 - 1.

(** [std::copy(src.begin(), src.end(), v.begin() + pos)]: the elements of
    [v] from [pos] on are overwritten; the sources copy inside [v]. *)
Definition copy_at {A} (src v : list A) (pos : Z) : list A :=
  take (Z.to_nat pos) v ++ src ++ drop (Z.to_nat pos + length src) v.

(** [v.insert(v.begin() + pos, n, x)] *)
Definition insert_fill {A} (v : list A) (pos n : Z) (x : A) : list A :=
  take (Z.to_nat pos) v ++ replicate (Z.to_nat n) x ++ drop (Z.to_nat pos) v.

(** [v.erase(v.begin() + first, v.begin() + last)] *)
Definition erase_range {A} (v : list A) (first last : Z) : list A :=
  take (Z.to_nat first) v ++ drop (Z.to_nat last) v.

(** The elements of [v] from position [first] up to [last]. *)
Definition slice {A} (v : list A) (first last : Z) : list A :=
  take (Z.to_nat last - Z.to_nat first) (drop (Z.to_nat first) v).

Section CSR.
Context {F : Type} `{FloatOps F}.

Record t := mk {
  entries_ : Z;
  flat_indices_ : list Z;
  flat_values_ : list F;
  offsets_ : list Z;
}.

(** The constructor: one offset, 0. *)
Definition new : t := mk 0 [] [] [0].

(** [offsets_[i]] *)
Definition offset_at (d : t) (i : Z) : Z := nth (Z.to_nat i) (offsets_ d) 0.

(** [size()]: [offsets_.size() - 1] on [size_t]. *)
Definition size (d : t) : Z := to_uint64 (Z.of_nat (length (offsets_ d)) - 1).

(** [size(idx)] *)
Definition size_of_row (d : t) (idx : Z) : Z :=
  to_uint64 (offset_at d (idx + 1) - offset_at d idx).

Definition entries (d : t) : Z := entries_ d.

(** [append(indices, values)] through [append(dp)]. *)
Definition append (d : t) (dp : SparseDatapoint F) : Z * t :=
  let indices := dp_indices dp in
  let values := dp_values dp in
  if negb (length values =? length indices)%nat then (-1, d)
  else if to_uint64 (entries_ d + Z.of_nat (length indices)) >? size_max
  then (-2, d)
  else
    let entries' := to_uint64 (entries_ d + Z.of_nat (length indices)) in
    (0, mk entries' (flat_indices_ d ++ indices) (flat_values_ d ++ values)
           (offsets_ d ++ [entries'])).

(** [update(idx, indices, values)] through [update(idx, dp)]; [None] is
    the exception "update out of bounds". *)
Definition update (d : t) (idx : Z) (dp : SparseDatapoint F) : option (Z * t) :=
  let indices := dp_indices dp in
  let values := dp_values dp in
  if idx >=? size d then None
  else if negb (length values =? length indices)%nat then Some (-1, d)
  else
    let old_start := offset_at d idx in
    let old_end := offset_at d (idx + 1) in
    let old_len := to_uint64 (old_end - old_start) in
    let new_len := Z.of_nat (length indices) in
    let diff := to_long (to_long new_len - to_long old_len) in
    if (diff >? 0) && (to_uint64 (entries_ d + diff) >? size_max)
    then Some (-2, d)
    else if new_len =? old_len then
      Some (0, mk (entries_ d)
                  (copy_at indices (flat_indices_ d) old_start)
                  (copy_at values (flat_values_ d) old_start)
                  (offsets_ d))
    else
      let fi :=
        if diff >? 0 then insert_fill (flat_indices_ d) old_end diff 0
        else erase_range (flat_indices_ d) (old_start + new_len) old_end in
      let fv :=
        if diff >? 0 then insert_fill (flat_values_ d) old_end diff fzero
        else erase_range (flat_values_ d) (old_start + new_len) old_end in
      Some (0, mk (to_uint64 (entries_ d + diff))
                  (copy_at indices fi old_start)
                  (copy_at values fv old_start)
                  (take (Z.to_nat (idx + 1)) (offsets_ d)
                   ++ map (fun o => to_uint64 (o + diff))
                          (drop (Z.to_nat (idx + 1)) (offsets_ d)))).

(** [get_view(i)]: the pairs the view covers; [None] is the exception.
    The view is made with [len] as its [uint32_t] count of entries. *)
Definition get_view (d : t) (i : Z) : option (SparseDatapointView F) :=
  if i >=? size d then None
  else
    let start := offset_at d i in
    let len := to_uint64 (offset_at d (i + 1) - start) in
    let nonzero_entries := to_uint32 len in
    Some (if len =? 0 then []
          else take (Z.to_nat nonzero_entries)
                    (combine (slice (flat_indices_ d) start (start + len))
                             (slice (flat_values_ d) start (start + len)))).

(** [get_row(i)] *)
Definition get_row (d : t) (i : Z) : option (SparseDatapoint F) :=
  if i >=? size d then None
  else
    let start := offset_at d i in
    let end_ := offset_at d (i + 1) in
    Some (if start <? end_
          then mkDatapoint (slice (flat_indices_ d) start end_)
                           (slice (flat_values_ d) start end_)
          else mkDatapoint [] []).

(** [pop_back()] *)
Definition pop_back (d : t) : Z * t :=
  if (length (offsets_ d) <=? 1)%nat then (0, d)
  else
    let last_start := offset_at d (Z.of_nat (length (offsets_ d)) - 2) in
    let last_end := List.last (offsets_ d) 0 in
    let count := to_uint64 (last_end - last_start) in
    (0, mk (to_uint64 (entries_ d - count))
           (if count >? 0 then take (Z.to_nat last_start) (flat_indices_ d)
            else flat_indices_ d)
           (if count >? 0 then take (Z.to_nat last_start) (flat_values_ d)
            else flat_values_ d)
           (removelast (offsets_ d))).

Definition clear (d : t) : t := mk 0 [] [] [0].

(** The offsets at which the rows end, the first row starting at
    [start]. *)
Fixpoint ends (start : Z) (rs : SparseDataset F) : list Z :=
  match rs with
  | [] => []
  | r :: rs' =>
      (start + Z.of_nat (length r)) :: ends (start + Z.of_nat (length r)) rs'
  end.

(** The number of entries of all rows. *)
Definition total (rs : SparseDataset F) : Z := Z.of_nat (length (concat rs)).

(** The arrays hold the rows [rs] one after the other. *)
Record holds (d : t) (rs : SparseDataset F) : Prop := {
  holds_indices : flat_indices_ d = map fst (concat rs);
  holds_values : flat_values_ d = map snd (concat rs);
  holds_offsets : offsets_ d = 0 :: ends 0 rs;
  holds_entries : entries_ d = total rs;
}.

End CSR.

(** A dataset with two rows. *)
Definition sample_rows : SparseDataset zfloat :=
  [[(1, ZNum 5); (4, ZNum 6)]; [(2, ZNum 7)]].

Definition sample : @t zfloat :=
  mk 3 [1; 4; 2] [ZNum 5; ZNum 6; ZNum 7] [0; 2; 3].

End SparseCSR.

(* ===================================================================== *)
(** * The terms of a sparse distance  (sparse_distance_measure.h)          *)
(* ===================================================================== *)

Module SparseL2.
Import Sparse.

(** What one index contributes to a distance: the two values when both
    views have the index, the one value otherwise. *)
Inductive term (F : Type) :=
  | Both (a b : F)
  | OnlyLeft (a : F)
  | OnlyRight (b : F).
Arguments Both {F} _ _.
Arguments OnlyLeft {F} _.
Arguments OnlyRight {F} _.

Section Terms.
Context {F : Type} `{FloatOps F}.

(** The entries of [a] whose index no entry of [b] has. *)
Definition unmatched (a b : SparseDatapointView F) : SparseDatapointView F :=
  List.filter (fun e => forallb (fun e' => negb (fst e =? fst e')) b) a.

(** One term for every index of either view. *)
Definition all_terms (a1 a2 : SparseDatapointView F) : list (term F) :=
  map (fun p => Both (fst p) (snd p)) (matching_products a1 a2)
  ++ map (fun e => OnlyLeft (snd e)) (unmatched a1 a2)
  ++ map (fun e => OnlyRight (snd e)) (unmatched a2 a1).

(** The terms in the order of their indices: the merge of the two views,
    an index of both giving one term. *)
Fixpoint merge_terms (a1 a2 : SparseDatapointView F) {struct a1}
    : list (term F) :=
  let fix inner (a2 : SparseDatapointView F) : list (term F) :=
    match a1, a2 with
    | [], _ => map (fun e => OnlyRight (snd e)) a2
    | _, [] => map (fun e => OnlyLeft (snd e)) a1
    | e1 :: r1, e2 :: r2 =>
        if fst e1 =? fst e2 then Both (snd e1) (snd e2) :: merge_terms r1 r2
        else if fst e1 <? fst e2 then OnlyLeft (snd e1) :: merge_terms r1 a2
        else OnlyRight (snd e2) :: inner r2
    end in
  inner a2.

(** The square a term adds to a squared distance: as the first loop
    computes it, with a zero for the value that is not there, and as the
    later loops do. *)
Definition masked_square (t : term F) : F :=
  match t with
  | Both a b => fmul (fsub a b) (fsub a b)
  | OnlyLeft a => fmul (fsub a fzero) (fsub a fzero)
  | OnlyRight b => fmul (fsub fzero b) (fsub fzero b)
  end.

Definition plain_square (t : term F) : F :=
  match t with
  | Both a b => fmul (fsub a b) (fsub a b)
  | OnlyLeft a => fmul a a
  | OnlyRight b => fmul b b
  end.

(** The term of the smaller of two front entries, and of the greater of
    two back entries. *)
Definition front_term (a1 a2 : SparseDatapointView F) (f1 f2 : Z) : term F :=
  if idx_at a1 f1 =? idx_at a2 f2 then Both (val_at a1 f1) (val_at a2 f2)
  else if idx_at a1 f1 <? idx_at a2 f2 then OnlyLeft (val_at a1 f1)
  else OnlyRight (val_at a2 f2).

Definition back_term (a1 a2 : SparseDatapointView F) (b1 b2 : Z) : term F :=
  if idx_at a1 b1 =? idx_at a2 b2 then Both (val_at a1 b1) (val_at a2 b2)
  else if idx_at a2 b2 <? idx_at a1 b1 then OnlyLeft (val_at a1 b1)
  else OnlyRight (val_at a2 b2).

Section Reducers.
Variable reduce_two : F -> F -> F -> F.
Variable reduce_one : F -> F -> F.

(** A term as the first loop adds it, the value of the side that is not
    there masked to zero, and as the later loops add it. *)
Definition masked (acc : F) (t : term F) : F :=
  match t with
  | Both a b => reduce_two acc a b
  | OnlyLeft a => reduce_two acc a fzero
  | OnlyRight b => reduce_two acc fzero b
  end.

Definition plain (acc : F) (t : term F) : F :=
  match t with
  | Both a b => reduce_two acc a b
  | OnlyLeft a => reduce_one acc a
  | OnlyRight b => reduce_one acc b
  end.

(** What the first loop of [sparse_distance_measure] maintains: the
    pointers delimit the entries not yet consumed, [result0] holds the
    terms [d0] taken at the front, in their order, and [result1] the terms
    [d1] taken at the back, the last one first; every turn takes one term
    at each end. *)
Record LoopInv2 (a1 a2 : SparseDatapointView F) (p : ptrs2) : Prop := {
  l2_f1 : 0 <= j1_front p;
  l2_b1 : j1_back p < Z.of_nat (length a1);
  l2_x1 : j1_front p <= j1_back p + 1;
  l2_f2 : 0 <= j2_front p;
  l2_b2 : j2_back p < Z.of_nat (length a2);
  l2_x2 : j2_front p <= j2_back p + 1;
  l2_done : exists d0 d1 : list (term F),
    result0 p = fold_left masked d0 fzero /\
    result1 p = fold_left masked d1 fzero /\
    length d0 = length d1 /\
    merge_terms a1 a2
    = d0 ++ merge_terms (seg a1 (j1_front p) (j1_back p))
                        (seg a2 (j2_front p) (j2_back p))
         ++ rev d1;
}.

End Reducers.
End Terms.
End SparseL2.

(* ===================================================================== *)
(** * Machine integers: the conversions are the identity in range          *)
(* ===================================================================== *)

Lemma to_uint64_small z : 0 <= z < 2 ^ 64 -> to_uint64 z = z.
Proof. intros Hz. unfold to_uint64, wrap. apply Z.mod_small. exact Hz. Qed.

Lemma to_uint32_small z : 0 <= z < 2 ^ 32 -> to_uint32 z = z.
Proof. intros Hz. unfold to_uint32, wrap. apply Z.mod_small. exact Hz. Qed.

Lemma to_int_small z : - 2 ^ 31 <= z < 2 ^ 31 -> to_int z = z.
Proof.
  intros Hz. unfold to_int.
  rewrite Z.mod_small; lia.
Qed.

Lemma to_uint32_to_int o : 0 <= o < 2 ^ 32 -> to_uint32 (to_int o) = o.
Proof.
  intros Ho. unfold to_uint32, wrap, to_int.
  rewrite Zminus_mod_idemp_l.
  replace (o + 2 ^ 31 - 2 ^ 31) with o by lia.
  apply Z.mod_small. exact Ho.
Qed.


(* ===================================================================== *)
(** * Bitmap: the set a bitmap denotes                                     *)
(* ===================================================================== *)

Module BitmapFacts.
Import Bitmap.

Lemma wf_new : wf new.
Proof. reflexivity. Qed.

Lemma elems_new : elems new = ∅.
Proof. reflexivity. Qed.

Lemma elems_invalidate b : elems (invalidate b) = elems b.
Proof. reflexivity. Qed.

Lemma wf_invalidate b : wf b -> wf (invalidate b).
Proof. intros Hb. exact Hb. Qed.

Lemma wf_to_roaring b : wf b -> wf (to_roaring b).
Proof.
  unfold wf, to_roaring. destruct (is_roaring_ b) eqn:E; simpl.
  - rewrite E. trivial.
  - reflexivity.
Qed.

Lemma elems_to_roaring b : wf b -> elems (to_roaring b) = elems b.
Proof.
  unfold wf, elems, to_roaring. destruct (is_roaring_ b) eqn:E; simpl.
  - rewrite E. reflexivity.
  - intros ->. set_solver.
Qed.

Lemma Set_spec b id : wf b -> wf (Set_ b id) /\ elems (Set_ b id) = {[id]} ∪ elems b.
Proof.
  unfold wf, elems, Set_. destruct (is_roaring_ b) eqn:E; simpl.
  - intros Hb. split; [exact Hb|reflexivity].
  - intros Hb. destruct (decide _); simpl.
    + split; [reflexivity|]. rewrite Hb. set_solver.
    + split; [exact Hb|reflexivity].
Qed.

Lemma Unset_spec b id : wf b -> wf (Unset b id) /\ elems (Unset b id) = elems b ∖ {[id]}.
Proof.
  unfold wf, elems, Unset. destruct (is_roaring_ b) eqn:E; simpl; rewrite ?E;
    intros Hb; (split; [exact Hb|reflexivity]).
Qed.

Lemma Isset_spec b id : Isset b id = bool_decide (id ∈ elems b).
Proof. unfold Isset, elems. destruct (is_roaring_ b); reflexivity. Qed.

Lemma fold_Set_spec (l : list Z) b :
  wf b ->
  wf (fold_left Set_ l b) /\ elems (fold_left Set_ l b) = list_to_set l ∪ elems b.
Proof.
  revert b. induction l as [|x l IH]; intros b Hb; simpl.
  - split; [exact Hb|set_solver].
  - destruct (Set_spec b x Hb) as [Hw He].
    destruct (IH _ Hw) as [Hw' He']. split; [exact Hw'|].
    rewrite He', He. set_solver.
Qed.

Lemma sorted_elements_set (s : gset Z) : list_to_set (sorted_elements s) = s.
Proof.
  unfold sorted_elements. apply set_eq. intros x.
  rewrite elem_of_list_to_set, merge_sort_Permutation, elem_of_elements.
  reflexivity.
Qed.

Lemma Union_spec b other :
  wf b -> wf other ->
  wf (Union b other) /\ elems (Union b other) = elems b ∪ elems other.
Proof.
  intros Hb Ho. unfold Union. destruct (is_roaring_ other) eqn:E.
  - pose proof (wf_to_roaring b Hb) as Hw.
    pose proof (elems_to_roaring b Hb) as He.
    assert (Hr : is_roaring_ (to_roaring b) = true).
    { unfold to_roaring. destruct (is_roaring_ b) eqn:Eb; [exact Eb|reflexivity]. }
    unfold wf, elems in *. simpl. rewrite Hr in *. rewrite E.
    split; [exact Hw|]. rewrite He. reflexivity.
  - destruct (fold_Set_spec (sorted_elements (set_ other)) b Hb) as [Hw He].
    split; [exact Hw|]. rewrite elems_invalidate, He, sorted_elements_set.
    unfold elems at 3. rewrite E. set_solver.
Qed.

Lemma Union_ptr_spec b other :
  wf b -> wf other ->
  wf (Union_ptr b (Some other)) /\
  elems (Union_ptr b (Some other)) = elems b ∪ elems other.
Proof.
  intros Hb Ho. destruct (Union_spec b other Hb Ho) as [Hw He].
  split; [exact Hw|exact He].
Qed.

Lemma clear_spec b : wf (clear b) /\ elems (clear b) = ∅.
Proof. split; reflexivity. Qed.

Lemma SetMany_spec b (ids : list Z) :
  wf b -> wf (SetMany b ids) /\ elems (SetMany b ids) = elems b ∪ list_to_set ids.
Proof.
  intros Hb. unfold SetMany. destruct ids as [|i ids].
  - split; [exact Hb|]. rewrite elems_invalidate. set_solver.
  - pose proof (wf_to_roaring b Hb) as Hw.
    pose proof (elems_to_roaring b Hb) as He.
    assert (Hr : is_roaring_ (to_roaring b) = true).
    { unfold to_roaring. destruct (is_roaring_ b) eqn:Eb; [exact Eb|reflexivity]. }
    unfold wf, elems in *. simpl is_roaring_. rewrite Hr in *. simpl.
    split; [exact Hw|]. rewrite He. reflexivity.
Qed.

Lemma empty_spec b : wf b -> empty b = bool_decide (elems b = ∅).
Proof.
  unfold wf, empty, elems. destruct (is_roaring_ b); intros ->.
  - rewrite (bool_decide_eq_true_2 (∅ = ∅)) by reflexivity.
    rewrite andb_true_r. reflexivity.
  - rewrite (bool_decide_eq_true_2 (∅ = ∅)) by reflexivity. reflexivity.
Qed.

End BitmapFacts.

(* ===================================================================== *)
(** * Brute-force vector store: label/offset bookkeeping                   *)
(* ===================================================================== *)

Module BruteforceFacts.
Import BruteforceSearch.

Section Facts.
Context {F : Type} `{FloatOps F} {EncVec LowLevel : Type}
        `{Backend F EncVec LowLevel}.

Local Abbreviation store := (@BruteforceSearch.t F EncVec).

(** The invariant only looks at the counters, the two maps and the label
    and offset fields of the rows. *)
Lemma Inv_ext (s s' : store) :
  current_count_ s' = current_count_ s ->
  next_logical_offset_ s' = next_logical_offset_ s ->
  label_map_ s' = label_map_ s ->
  offset_map_ s' = offset_map_ s ->
  (forall sp, sparse_index_ s' = Some sp -> Sparse.rows sp = current_count_ s) ->
  (forall i, 0 <= i < current_count_ s ->
     r_label (row_at s' i) = r_label (row_at s i) /\
     r_offset (row_at s' i) = r_offset (row_at s i)) ->
  Inv s -> Inv s'.
Proof.
  intros Hc Hn Hl Ho Hs Hr [I1 I2 I3 I4 I5 I6 I7].
  split; rewrite ?Hc, ?Hn, ?Hl, ?Ho; try assumption.
  - intros l i Hli. destruct (I3 l i Hli) as [Hi Hlab].
    split; [exact Hi|]. destruct (Hr i Hi) as [-> _]. exact Hlab.
  - intros o i Hoi. destruct (I4 o i Hoi) as (Hi & Hoff & Hlt).
    split; [exact Hi|]. destruct (Hr i Hi) as [_ ->]. auto.
  - intros i Hi. destruct (Hr i Hi) as [-> ->]. apply I5. exact Hi.
Qed.

Lemma update_rows (sp sp' : Sparse.SparseDataset F) idx dp r :
  Sparse.update sp idx dp = Some (r, sp') -> Sparse.rows sp' = Sparse.rows sp.
Proof.
  unfold Sparse.update, Sparse.rows.
  destruct (idx >=? _); [discriminate|].
  destruct (negb _); intros [= <- <-]; [reflexivity|].
  rewrite length_insert. reflexivity.
Qed.

Lemma append_rows (sp sp' : Sparse.SparseDataset F) dp :
  Sparse.append sp dp = (0, sp') -> Sparse.rows sp' = Sparse.rows sp + 1.
Proof.
  unfold Sparse.append, Sparse.rows.
  destruct (negb _); intros [= <-].
  rewrite length_app. simpl. lia.
Qed.

Lemma row_at_write_vec (s : store) idx v i :
  r_label (row_at (write_vec s idx v) i) = r_label (row_at s i) /\
  r_offset (row_at (write_vec s idx v) i) = r_offset (row_at s i).
Proof.
  unfold write_vec, BruteforceSearch.row_at; simpl.
  destruct (decide (idx = i)) as [->|Hne].
  - rewrite lookup_insert_eq. simpl. auto.
  - rewrite lookup_insert_ne by exact Hne. auto.
Qed.

Lemma row_at_write_label (s : store) idx lbl i :
  r_label (row_at (write_label s idx lbl) i)
    = (if decide (idx = i) then lbl else r_label (row_at s i)) /\
  r_offset (row_at (write_label s idx lbl) i) = r_offset (row_at s i).
Proof.
  unfold write_label, BruteforceSearch.row_at; simpl.
  destruct (decide (idx = i)) as [->|Hne].
  - rewrite lookup_insert_eq. simpl. auto.
  - rewrite lookup_insert_ne by exact Hne. auto.
Qed.

Lemma row_at_write_offset (s : store) idx off i :
  r_label (row_at (write_offset s idx off) i) = r_label (row_at s i) /\
  r_offset (row_at (write_offset s idx off) i)
    = (if decide (idx = i) then off else r_offset (row_at s i)).
Proof.
  unfold write_offset, BruteforceSearch.row_at; simpl.
  destruct (decide (idx = i)) as [->|Hne].
  - rewrite lookup_insert_eq. simpl. auto.
  - rewrite lookup_insert_ne by exact Hne. auto.
Qed.

Lemma row_at_finish (s : store) index vector label i :
  r_label (row_at (add_point_finish s index vector label) i)
    = (if decide (to_uint64 index = i) then label else r_label (row_at s i)) /\
  r_offset (row_at (add_point_finish s index vector label) i)
    = r_offset (row_at s i).
Proof.
  unfold add_point_finish.
  destruct vector as [v|].
  - destruct (row_at_write_label (write_vec s (to_uint64 index) (encode v))
                (to_uint64 index) label i) as [-> ->].
    destruct (row_at_write_vec s (to_uint64 index) (encode v) i) as [-> ->].
    auto.
  - apply row_at_write_label.
Qed.

Lemma finish_fields (s : store) index vector label :
  current_count_ (add_point_finish s index vector label) = current_count_ s /\
  next_logical_offset_ (add_point_finish s index vector label)
    = next_logical_offset_ s /\
  label_map_ (add_point_finish s index vector label) = label_map_ s /\
  offset_map_ (add_point_finish s index vector label) = offset_map_ s /\
  sparse_index_ (add_point_finish s index vector label) = sparse_index_ s.
Proof. unfold add_point_finish. destruct vector; simpl; auto. Qed.

(** Overwriting the row of a label that is already stored. *)
Lemma Inv_finish_existing (s : store) index vector label :
  Inv s -> label_map_ s !! label = Some index ->
  Inv (add_point_finish s index vector label).
Proof.
  intros HI Hl.
  destruct (finish_fields s index vector label) as (Hc & Hn & Hlm & Hom & Hsp).
  apply (Inv_ext s); auto.
  - intros sp. rewrite Hsp. apply (inv_sparse s HI).
  - intros i Hi.
    destruct (row_at_finish s index vector label i) as [-> ->].
    split; [|reflexivity].
    destruct (decide (to_uint64 index = i)) as [<-|]; [|reflexivity].
    destruct HI as [I1 _ I3 _ _ _ _].
    destruct (I3 label index Hl) as [Hidx Hlab].
    rewrite to_uint64_small by lia. symmetry. exact Hlab.
Qed.

Lemma Inv_set_sparse (s : store) sp :
  Inv s -> Sparse.rows sp = current_count_ s -> Inv (set_sparse s (Some sp)).
Proof.
  intros HI Hrows. apply (Inv_ext s); auto.
  simpl. intros sp' [= <-]. exact Hrows.
Qed.

Lemma Inv_resize (s : store) cap : Inv s -> Inv (resize_buffer s cap).
Proof.
  intros HI. unfold resize_buffer.
  destruct (cap <? current_count_ s); [exact HI|].
  apply (Inv_ext s); auto. simpl. apply (inv_sparse s HI).
Qed.

(** Appending the row of a new label; the sparse side already has its
    new row. *)
Lemma Inv_add_fresh (s : store) vector label :
  Inv (set_sparse s None) ->
  (forall sp, sparse_index_ s = Some sp ->
     Sparse.rows sp = current_count_ s + 1) ->
  label_map_ s !! label = None ->
  current_count_ s < 2 ^ 31 -> next_logical_offset_ s < 2 ^ 32 ->
  let index := to_int (current_count_ s) in
  let logical_offset := to_uint32 (next_logical_offset_ s) in
  let s3 := mk (reverse_query_score_ s) (search_with_sparse_logit_alpha s)
               (data_buffer_ s) (capacity_ s) (current_count_ s)
               (<[label := index]> (label_map_ s))
               (<[logical_offset := index]> (offset_map_ s))
               (sparse_index_ s) (to_uint64 (next_logical_offset_ s + 1)) in
  let s4 := write_offset s3 (to_uint64 index) logical_offset in
  let s5 := mk (reverse_query_score_ s4) (search_with_sparse_logit_alpha s4)
               (data_buffer_ s4) (capacity_ s4)
               (to_uint64 (current_count_ s4 + 1))
               (label_map_ s4) (offset_map_ s4) (sparse_index_ s4)
               (next_logical_offset_ s4) in
  Inv (add_point_finish s5 index vector label).
Proof.
  intros HI Hsparse Hfresh Hcnt Hnext index logical_offset s3 s4 s5.
  destruct HI as [I1 I2 I3 I4 I5 I6 _].
  change (current_count_ (set_sparse s None)) with (current_count_ s) in *.
  change (next_logical_offset_ (set_sparse s None))
    with (next_logical_offset_ s) in *.
  change (label_map_ (set_sparse s None)) with (label_map_ s) in *.
  change (offset_map_ (set_sparse s None)) with (offset_map_ s) in *.
  assert (Erow : forall j, row_at (set_sparse s None) j = row_at s j)
    by reflexivity.
  assert (Hindex : index = current_count_ s)
    by (unfold index; apply to_int_small; lia).
  assert (Hoff : logical_offset = next_logical_offset_ s)
    by (unfold logical_offset; apply to_uint32_small; lia).
  assert (Hu : to_uint64 index = current_count_ s)
    by (rewrite Hindex; apply to_uint64_small; lia).
  assert (Hofresh : offset_map_ s !! next_logical_offset_ s = None).
  { destruct (offset_map_ s !! next_logical_offset_ s) as [i|] eqn:E; [|reflexivity].
    destruct (I4 _ _ E) as (_ & _ & ?). lia. }
  destruct (finish_fields s5 index vector label) as (Hc & Hn & Hlm & Hom & Hsp).
  change (current_count_ s5) with (to_uint64 (current_count_ s + 1)) in Hc.
  change (next_logical_offset_ s5)
    with (to_uint64 (next_logical_offset_ s + 1)) in Hn.
  change (label_map_ s5) with (<[label := index]> (label_map_ s)) in Hlm.
  change (offset_map_ s5)
    with (<[logical_offset := index]> (offset_map_ s)) in Hom.
  change (sparse_index_ s5) with (sparse_index_ s) in Hsp.
  assert (Hrow : forall i,
    r_label (row_at (add_point_finish s5 index vector label) i)
      = (if decide (current_count_ s = i) then label else r_label (row_at s i)) /\
    r_offset (row_at (add_point_finish s5 index vector label) i)
      = (if decide (current_count_ s = i) then next_logical_offset_ s
         else r_offset (row_at s i))).
  { intros i.
    destruct (row_at_finish s5 index vector label i) as [-> ->].
    rewrite Hu.
    assert (E5 : forall j, row_at s5 j = row_at s4 j) by reflexivity.
    rewrite !E5. unfold s4.
    destruct (row_at_write_offset s3 (to_uint64 index) logical_offset i) as [-> ->].
    rewrite Hu, Hoff.
    assert (E3 : forall j, row_at s3 j = row_at s j) by reflexivity.
    rewrite !E3. auto. }
  set (s' := add_point_finish s5 index vector label) in *.
  assert (Hc' : current_count_ s' = current_count_ s + 1)
    by (rewrite Hc; apply to_uint64_small; lia).
  assert (Hn' : next_logical_offset_ s' = next_logical_offset_ s + 1)
    by (rewrite Hn; apply to_uint64_small; lia).
  clear Hc Hn.
  split.
  - lia.
  - lia.
  - intros l i. rewrite Hlm, Hc'.
    rewrite lookup_insert_Some. intros [[<- <-]|[Hne Hl]].
    + rewrite Hindex. split; [lia|].
      destruct (Hrow (current_count_ s)) as [-> _].
      destruct (decide _); [reflexivity|congruence].
    + destruct (I3 _ _ Hl) as [Hi Hlab]. split; [lia|].
      destruct (Hrow i) as [-> _].
      destruct (decide _); [lia|]. rewrite <- Erow. exact Hlab.
  - intros o i. rewrite Hom, Hc', Hn'.
    rewrite lookup_insert_Some. intros [[<- <-]|[Hne Ho]].
    + rewrite Hindex, Hoff. split; [lia|].
      destruct (Hrow (current_count_ s)) as [_ ->].
      destruct (decide _); [split; [reflexivity|lia]|congruence].
    + destruct (I4 _ _ Ho) as (Hi & Hoffs & Hlt). split; [lia|].
      destruct (Hrow i) as [_ ->].
      destruct (decide _); [lia|]. rewrite <- Erow. split; [exact Hoffs|lia].
  - intros i. rewrite Hc', Hlm, Hom. intros Hi.
    destruct (Hrow i) as [-> ->].
    destruct (decide (current_count_ s = i)) as [<-|Hne].
    + rewrite Hoff, Hindex, !lookup_insert_eq. auto.
    + destruct (I5 i ltac:(lia)) as [Hl Ho]. rewrite Erow in Hl, Ho.
      rewrite !lookup_insert_ne; [auto| |].
      * rewrite Hoff. intros E. rewrite <- E in Ho. congruence.
      * intros E. rewrite <- E in Hl. congruence.
  - rewrite Hc', Hlm.
    rewrite map_size_insert_None by exact Hfresh. lia.
  - intros sp. rewrite Hsp, Hc'. apply Hsparse.
Qed.

Lemma Inv_drop_sparse (s : store) : Inv s -> Inv (set_sparse s None).
Proof. intros HI. apply (Inv_ext s); auto. simpl. discriminate. Qed.

Lemma Inv_add_point (s : store) vector label sparse_data :
  Inv s ->
  (label_map_ s !! label = None ->
     current_count_ s < 2 ^ 31 /\ next_logical_offset_ s < 2 ^ 32) ->
  Inv (store_of (add_point s vector label sparse_data)).
Proof.
  intros HI Hfit. unfold BruteforceSearch.add_point.
  match goal with |- context [match ?c with Some _ => _ | None => Thrown s end] =>
    destruct c as [sparse_dp|] eqn:Econv end; [|exact HI].
  destruct (label_map_ s !! label) as [index|] eqn:El.
  - destruct (sparse_index_ s) as [sp|] eqn:Esp;
      [destruct sparse_dp as [dp|]|].
    + destruct (Sparse.update sp (to_uint64 index) dp) as [[[| |] sp']|] eqn:Eu;
        simpl; try exact HI.
      apply Inv_finish_existing; [|exact El].
      apply Inv_set_sparse; [exact HI|].
      rewrite (update_rows _ _ _ _ _ Eu). apply (inv_sparse s HI). exact Esp.
    + simpl. apply Inv_finish_existing; assumption.
    + simpl. apply Inv_finish_existing; assumption.
  - destruct (Hfit eq_refl) as [Hc Hn].
    match goal with |- context [match ?a with Some _ => _ | None => Thrown s end] =>
      destruct a as [s1|] eqn:Eapp end; [|exact HI].
    assert (H1 : Inv (set_sparse s1 None) /\ label_map_ s1 = label_map_ s /\
                 current_count_ s1 = current_count_ s /\
                 next_logical_offset_ s1 = next_logical_offset_ s /\
                 (forall sp, sparse_index_ s1 = Some sp ->
                    Sparse.rows sp = current_count_ s + 1)).
    { destruct (sparse_index_ s) as [sp|] eqn:Esp.
      - destruct (negb _); [discriminate|].
        destruct (Sparse.append sp _) as [[| |] sp'] eqn:Ea; try discriminate.
        injection Eapp as <-.
        split; [apply (Inv_drop_sparse s HI)|].
        repeat split; auto.
        simpl. intros sp0 [= <-]. rewrite (append_rows _ _ _ Ea).
        rewrite (inv_sparse s HI sp Esp). reflexivity.
      - injection Eapp as <-.
        split; [apply (Inv_drop_sparse s HI)|].
        repeat split; auto. rewrite Esp. discriminate. }
    destruct H1 as (HI1 & Hl1 & Hc1 & Hn1 & Hs1).
    set (s2 := if current_count_ s1 >=? capacity_ s1
               then resize_buffer s1 (to_uint64 (current_count_ s1 * 2 + 1))
               else s1).
    assert (H2 : Inv (set_sparse s2 None) /\ label_map_ s2 = label_map_ s1 /\
                 current_count_ s2 = current_count_ s1 /\
                 next_logical_offset_ s2 = next_logical_offset_ s1 /\
                 sparse_index_ s2 = sparse_index_ s1).
    { unfold s2. destruct (current_count_ s1 >=? capacity_ s1).
      - unfold resize_buffer. destruct (_ <? _); simpl; [auto|].
        split; [|auto]. apply (Inv_ext (set_sparse s1 None)); auto.
        simpl. discriminate.
      - auto. }
    destruct H2 as (HI2 & Hl2 & Hc2 & Hn2 & Hs2).
    simpl. apply Inv_add_fresh.
    + exact HI2.
    + intros sp. rewrite Hs2, Hc2, Hc1. apply Hs1.
    + rewrite Hl2, Hl1. exact El.
    + lia.
    + lia.
Qed.

Lemma length_removelast {A} (l : list A) :
  length (removelast l) = pred (length l).
Proof.
  induction l as [|a [|b l] IH]; simpl in *; auto.
Qed.

Lemma pop_back_rows (sp : Sparse.SparseDataset F) :
  0 < Sparse.rows sp -> Sparse.rows (Sparse.pop_back sp) = Sparse.rows sp - 1.
Proof.
  unfold Sparse.rows, Sparse.pop_back. rewrite length_removelast. lia.
Qed.

(** The bookkeeping of [remove_point] once the label is found at row
    [it]: what is left when the row was the last one. *)
Lemma Inv_remove_last (s s' : store) label it :
  Inv s -> label_map_ s !! label = Some it ->
  it = current_count_ s - 1 ->
  current_count_ s' = current_count_ s - 1 ->
  next_logical_offset_ s' = next_logical_offset_ s ->
  label_map_ s' = delete label (label_map_ s) ->
  offset_map_ s' = delete (r_offset (row_at s it)) (offset_map_ s) ->
  data_buffer_ s' = data_buffer_ s ->
  (forall sp, sparse_index_ s' = Some sp ->
     Sparse.rows sp = current_count_ s - 1) ->
  Inv s'.
Proof.
  intros [I1 I2 I3 I4 I5 I6 I7] Hl Hit Hc Hn Hlm Hom Hbuf Hsp.
  assert (Erow : forall j, row_at s' j = row_at s j)
    by (intros j; unfold BruteforceSearch.row_at; rewrite Hbuf; reflexivity).
  destruct (I3 _ _ Hl) as [Hrange Hlab].
  destruct (I5 it Hrange) as [_ Hoff].
  split; rewrite ?Hc, ?Hn, ?Hlm, ?Hom.
  - lia.
  - lia.
  - intros l i [Hne Hli]%lookup_delete_Some.
    destruct (I3 _ _ Hli) as [Hi Hl']. rewrite Erow. split; [|exact Hl'].
    assert (i <> it) by (intros ->; congruence). lia.
  - intros o i [Hne Hoi]%lookup_delete_Some.
    destruct (I4 _ _ Hoi) as (Hi & Ho' & Hlt). rewrite Erow.
    split; [|auto].
    assert (i <> it) by (intros ->; congruence). lia.
  - intros i Hi. rewrite Erow.
    destruct (I5 i ltac:(lia)) as [Hli Hoi].
    split; rewrite lookup_delete_ne; auto.
    + intros E. rewrite <- E in Hli. assert (i = it) by congruence. lia.
    + intros E. rewrite <- E in Hoi. assert (i = it) by congruence. lia.
  - rewrite map_size_delete_Some by eauto. lia.
  - exact Hsp.
Qed.

(** ... and when the last row was moved into the freed row. *)
Lemma Inv_remove_move (s s' : store) label it :
  Inv s -> label_map_ s !! label = Some it ->
  it <> current_count_ s - 1 ->
  let last := row_at s (current_count_ s - 1) in
  current_count_ s' = current_count_ s - 1 ->
  next_logical_offset_ s' = next_logical_offset_ s ->
  label_map_ s' = <[r_label last := it]> (delete label (label_map_ s)) ->
  offset_map_ s'
    = <[r_offset last := it]> (delete (r_offset (row_at s it)) (offset_map_ s)) ->
  data_buffer_ s' = <[it := last]> (data_buffer_ s) ->
  (forall sp, sparse_index_ s' = Some sp ->
     Sparse.rows sp = current_count_ s - 1) ->
  Inv s'.
Proof.
  intros [I1 I2 I3 I4 I5 I6 I7] Hl Hit last Hc Hn Hlm Hom Hbuf Hsp.
  assert (Erow : forall j, row_at s' j = if decide (it = j) then last else row_at s j).
  { intros j; unfold BruteforceSearch.row_at; rewrite Hbuf.
    destruct (decide (it = j)) as [->|Hne].
    - rewrite lookup_insert_eq. reflexivity.
    - rewrite lookup_insert_ne by exact Hne. reflexivity. }
  destruct (I3 _ _ Hl) as [Hrange Hlab].
  destruct (I5 it Hrange) as [_ Hoff].
  destruct (I5 (current_count_ s - 1) ltac:(lia)) as [Hll Hlo].
  fold last in Hll, Hlo.
  assert (Hlne : r_label last <> label)
    by (intros E; rewrite E in Hll; assert (it = current_count_ s - 1) by congruence; lia).
  assert (Hone : r_offset last <> r_offset (row_at s it))
    by (intros E; rewrite E in Hlo; assert (it = current_count_ s - 1) by congruence; lia).
  split; rewrite ?Hc, ?Hn, ?Hlm, ?Hom.
  - lia.
  - lia.
  - intros l i [[<- <-]|[Hne [Hne' Hli]%lookup_delete_Some]]%lookup_insert_Some.
    + rewrite Erow. destruct (decide _); [|congruence]. split; [lia|reflexivity].
    + destruct (I3 _ _ Hli) as [Hi Hl'].
      assert (i <> it) by (intros ->; congruence).
      assert (i <> current_count_ s - 1) by (intros ->; fold last in Hl'; congruence).
      rewrite Erow. destruct (decide _); [congruence|]. split; [lia|exact Hl'].
  - intros o i [[<- <-]|[Hne [Hne' Hoi]%lookup_delete_Some]]%lookup_insert_Some.
    + rewrite Erow. destruct (decide _); [|congruence]. split; [lia|].
      split; [reflexivity|]. apply (I4 _ _ Hlo).
    + destruct (I4 _ _ Hoi) as (Hi & Ho' & Hlt).
      assert (i <> it) by (intros ->; congruence).
      assert (i <> current_count_ s - 1) by (intros ->; fold last in Ho'; congruence).
      rewrite Erow. destruct (decide _); [congruence|]. split; [lia|auto].
  - intros i Hi. rewrite Erow.
    destruct (decide (it = i)) as [<-|Hne].
    + rewrite !lookup_insert_eq. auto.
    + destruct (I5 i ltac:(lia)) as [Hli Hoi].
      split; rewrite lookup_insert_ne, lookup_delete_ne; auto.
      * intros E. rewrite <- E in Hli. congruence.
      * intros E. rewrite E in Hll. assert (i = current_count_ s - 1) by congruence. lia.
      * intros E. rewrite <- E in Hoi. congruence.
      * intros E. rewrite E in Hlo. assert (i = current_count_ s - 1) by congruence. lia.
  - rewrite map_size_insert_Some.
    + rewrite map_size_delete_Some by eauto. lia.
    + exists (current_count_ s - 1). rewrite lookup_delete_ne by auto. exact Hll.
  - exact Hsp.
Qed.

Lemma Inv_remove_point (s : store) label :
  Inv s -> Inv (store_of (remove_point s label)).
Proof.
  intros HI. unfold BruteforceSearch.remove_point.
  destruct (label_map_ s !! label) as [it|] eqn:El; [|exact HI].
  pose proof HI as [I1 I2 I3 I4 I5 I6 I7].
  destruct (I3 _ _ El) as [Hrange _].
  rewrite (to_uint64_small it) by lia.
  rewrite (to_uint64_small (current_count_ s - 1)) by lia.
  cbn [current_count_ sparse_index_ data_buffer_ label_map_ offset_map_
       reverse_query_score_ search_with_sparse_logit_alpha capacity_
       next_logical_offset_].
  destruct (it =? current_count_ s - 1) eqn:Elast.
  - apply Z.eqb_eq in Elast.
    rewrite andb_false_r.
    cbn [negb store_of].
    destruct (sparse_index_ s) as [sp|] eqn:Esp.
    + cbn. apply (Inv_remove_last s _ label it); auto; cbn.
      * apply to_uint64_small; lia.
      * intros sp0 [= <-]. rewrite pop_back_rows; rewrite (I7 _ eq_refl); lia.
    + cbn. apply (Inv_remove_last s _ label it); auto; cbn.
      * apply to_uint64_small; lia.
      * intros sp0 [=].
  - apply Z.eqb_neq in Elast.
    replace (current_count_ s >? 0) with true by (symmetry; apply Z.gtb_lt; lia).
    cbn [negb andb].
    rewrite (to_int_small it) by lia.
    change (row_at (mk (reverse_query_score_ s) (search_with_sparse_logit_alpha s)
                       (data_buffer_ s) (capacity_ s) (current_count_ s)
                       (delete label (label_map_ s))
                       (delete (r_offset (row_at s it)) (offset_map_ s))
                       (sparse_index_ s) (next_logical_offset_ s))
                   (current_count_ s - 1))
      with (row_at s (current_count_ s - 1)).
    destruct (sparse_index_ s) as [sp|] eqn:Esp.
    + assert (Hrows := I7 _ eq_refl).
      unfold Sparse.get_row, Sparse.get_view.
      replace (current_count_ s - 1 >=? Z.of_nat (length sp)) with false
        by (symmetry; rewrite Z.geb_leb; apply Z.leb_gt; unfold Sparse.rows in Hrows; lia).
      destruct (sp !! Z.to_nat (current_count_ s - 1)) as [r|] eqn:Er.
      2:{ apply lookup_ge_None in Er. unfold Sparse.rows in Hrows. lia. }
      match goal with |- context [Sparse.update sp it ?dp] =>
        destruct (Sparse.update sp it dp) as [[rc sp']|] eqn:Eu end.
      2:{ unfold Sparse.update in Eu.
          replace (it >=? Z.of_nat (length sp)) with false in Eu
            by (symmetry; rewrite Z.geb_leb; apply Z.leb_gt; unfold Sparse.rows in Hrows; lia).
          destruct (negb _); discriminate. }
      cbn. apply (Inv_remove_move s _ label it); auto; cbn.
      * apply to_uint64_small; lia.
      * intros sp0 [= <-]. rewrite pop_back_rows;
          rewrite (update_rows _ _ _ _ _ Eu), Hrows; lia.
    + cbn.
      apply (Inv_remove_move s _ label it); auto; cbn.
      * apply to_uint64_small; lia.
      * intros sp0 [=].
Qed.

Lemma Inv_new l2 (alpha : F) cap sparse :
  Inv (BruteforceSearch.new (EncVec := EncVec) l2 alpha cap sparse).
Proof.
  split; cbn; try lia.
  - intros l i. rewrite lookup_empty. discriminate.
  - intros o i. rewrite lookup_empty. discriminate.
  - rewrite map_size_empty. reflexivity.
  - destruct sparse; [intros sp [= <-]; reflexivity|discriminate].
Qed.

Lemma Inv_consistent (s : store) : Inv s -> consistent s.
Proof.
  intros [I1 I2 I3 I4 I5 I6 I7].
  unfold consistent, get_label_by_offset, get_offset_by_label, get_data_num.
  split; [|split].
  - intros l [i Hl]. rewrite Hl.
    destruct (I3 _ _ Hl) as [Hi Hlab].
    rewrite (to_uint64_small i) by lia.
    destruct (I5 i Hi) as [_ Ho].
    destruct (I4 _ _ Ho) as (_ & _ & Hlt).
    rewrite to_uint32_to_int by lia. rewrite Ho.
    rewrite (to_uint64_small i) by lia. exact Hlab.
  - intros o [i Ho].
    destruct (I4 _ _ Ho) as (Hi & Hoff & Hlt).
    rewrite to_uint32_to_int by lia. rewrite Ho.
    rewrite (to_uint64_small i) by lia.
    destruct (I5 i Hi) as [Hl _]. rewrite Hl.
    rewrite (to_uint64_small i) by lia. rewrite Hoff. reflexivity.
  - exact I6.
Qed.

Lemma Inv_run cs : forall s : store,
  Inv s -> within_limits cs s = true -> Inv (run cs s).
Proof.
  induction cs as [|c cs IH]; intros s HI Hw; [exact HI|].
  simpl in Hw. apply andb_prop in Hw as [Hfit Hw].
  simpl. apply IH; [|exact Hw].
  destruct c as [v l sd|l]; simpl.
  - apply Inv_add_point; [exact HI|].
    intros Hnone. unfold fits in Hfit. rewrite Hnone in Hfit.
    apply andb_prop in Hfit as [?%Z.ltb_lt ?%Z.ltb_lt]. auto.
  - apply Inv_remove_point. exact HI.
Qed.
End Facts.

End BruteforceFacts.

Module BruteforceClaims.
Import BruteforceSearch BruteforceFacts.

(** ** What one call does to a store without sparse head *)

Section Exec.
Context {F : Type} `{FloatOps F} {EncVec LowLevel : Type}
        `{Backend F EncVec LowLevel}.
Local Abbreviation store := (@BruteforceSearch.t F EncVec).

Lemma add_point_fresh_eq (s : store) label :
  sparse_index_ s = None -> label_map_ s !! label = None ->
  (current_count_ s >=? capacity_ s) = false ->
  store_of (add_point s None label None)
  = mk (reverse_query_score_ s) (search_with_sparse_logit_alpha s)
       (<[to_uint64 (to_int (current_count_ s)) :=
            mkRow (r_vec (row_at s (to_uint64 (to_int (current_count_ s)))))
                  label (to_uint32 (next_logical_offset_ s))]> (data_buffer_ s))
       (capacity_ s) (to_uint64 (current_count_ s + 1))
       (<[label := to_int (current_count_ s)]> (label_map_ s))
       (<[to_uint32 (next_logical_offset_ s) := to_int (current_count_ s)]>
          (offset_map_ s))
       None (to_uint64 (next_logical_offset_ s + 1)).
Proof.
  intros Hsp Hl Hcap. unfold BruteforceSearch.add_point.
  rewrite Hsp, Hl. cbv beta iota zeta. rewrite Hcap.
  unfold store_of, add_point_finish, write_label, write_offset, set_buffer.
  cbn [sparse_index_ label_map_ current_count_ capacity_ next_logical_offset_
     offset_map_ data_buffer_ reverse_query_score_
     search_with_sparse_logit_alpha].
  unfold BruteforceSearch.row_at.
  cbn [data_buffer_]. rewrite !lookup_insert_eq. cbn.
  rewrite insert_insert_eq. rewrite Hsp. reflexivity.
Qed.

Lemma remove_point_last_eq (s : store) label :
  sparse_index_ s = None ->
  label_map_ s !! label = Some (current_count_ s - 1) ->
  0 < current_count_ s < 2 ^ 64 ->
  store_of (remove_point s label)
  = mk (reverse_query_score_ s) (search_with_sparse_logit_alpha s)
       (data_buffer_ s) (capacity_ s) (current_count_ s - 1)
       (delete label (label_map_ s))
       (delete (r_offset (row_at s (current_count_ s - 1))) (offset_map_ s))
       None (next_logical_offset_ s).
Proof.
  intros Hsp Hl Hc. unfold BruteforceSearch.remove_point.
  rewrite Hl. rewrite (to_uint64_small (current_count_ s - 1)) by lia.
  cbv beta iota zeta.
  cbn [sparse_index_ label_map_ current_count_ capacity_ next_logical_offset_
     offset_map_ data_buffer_ reverse_query_score_
     search_with_sparse_logit_alpha].
  rewrite Z.eqb_refl, andb_false_r. cbv beta iota zeta.
  cbn [sparse_index_ label_map_ current_count_ capacity_ next_logical_offset_
     offset_map_ data_buffer_ reverse_query_score_
     search_with_sparse_logit_alpha negb store_of].
  rewrite Hsp.
  cbn [sparse_index_ label_map_ current_count_ capacity_ next_logical_offset_
     offset_map_ data_buffer_ reverse_query_score_
     search_with_sparse_logit_alpha negb store_of].
  rewrite (to_uint64_small (current_count_ s - 1)) by lia.
  reflexivity.
Qed.
End Exec.


(** ** The 32-bit logical offset wraps *)

Lemma churn_first :
  run [AddPoint None 1 None; RemovePoint 1] (run [AddPoint None 0 None] znew)
  = churned 1.
Proof. vm_compute. reflexivity. Qed.

Lemma churn_pair (n : Z) :
  1 <= n -> n + 1 < 2 ^ 32 ->
  run [AddPoint None 1 None; RemovePoint 1] (churned n) = churned (n + 1).
Proof.
  intros H1 H2.
  assert (Hoff : to_uint32 (n + 1) = n + 1) by (apply to_uint32_small; lia).
  assert (Hnext : to_uint64 (n + 1 + 1) = n + 1 + 1)
    by (apply to_uint64_small; lia).
  unfold run. cbn [fold_left]. unfold step.
  rewrite add_point_fresh_eq by reflexivity.
  change (current_count_ (churned n)) with 1.
  change (next_logical_offset_ (churned n)) with (n + 1).
  change (label_map_ (churned n)) with (<[0 := 0]> (∅ : gmap Z Z)).
  change (offset_map_ (churned n)) with (<[0 := 0]> (∅ : gmap Z Z)).
  change (capacity_ (churned n)) with 3.
  change (to_int 1) with 1. change (to_uint64 1) with 1.
  change (to_uint64 (1 + 1)) with 2.
  change (r_vec (row_at (churned n) 1)) with (@nil zfloat).
  change (data_buffer_ (churned n))
    with (<[1 := mkRow [] 1 n]> (<[0 := mkRow (@nil zfloat) 0 0]> (∅ : gmap Z (@Row (list zfloat))))).
  change (reverse_query_score_ (churned n)) with false.
  change (search_with_sparse_logit_alpha (churned n)) with (ZNum 0).
  rewrite Hoff, Hnext, insert_insert_eq.
  rewrite remove_point_last_eq; [|reflexivity|reflexivity|cbn; lia].
  cbn [sparse_index_ label_map_ current_count_ capacity_ next_logical_offset_
       offset_map_ data_buffer_ reverse_query_score_
       search_with_sparse_logit_alpha].
  unfold BruteforceSearch.row_at. cbn [data_buffer_].
  change (2 - 1) with 1.
  rewrite lookup_insert_eq. cbn [default r_offset].
  unfold churned. f_equal.
  all: apply delete_insert_id; rewrite ?lookup_insert_ne by lia; reflexivity.
Qed.

Lemma concat_repeat_snoc {A} (x : list A) (n : nat) :
  concat (repeat x n) ++ x = x ++ concat (repeat x n).
Proof.
  induction n as [|n IH]; simpl.
  - rewrite app_nil_r. reflexivity.
  - rewrite <- app_assoc, IH. reflexivity.
Qed.

Lemma run_app (l1 l2 : list zcall) (s : zstore) :
  run (l1 ++ l2) s = run l2 (run l1 s).
Proof. apply fold_left_app. Qed.

Lemma churn_pairs (k : nat) :
  Z.of_nat k + 1 < 2 ^ 32 ->
  run (concat (repeat [AddPoint None 1 None; RemovePoint 1] (S k)))
      (run [AddPoint None 0 None] znew)
  = churned (Z.of_nat (S k)).
Proof.
  induction k as [|k IH]; intros Hk.
  - exact churn_first.
  - change (repeat ?x (S (S k))) with (x :: repeat x (S k)).
    rewrite concat_cons, <- concat_repeat_snoc, run_app.
    rewrite IH by lia.
    rewrite churn_pair by lia.
    f_equal. lia.
Qed.

Lemma run_churn (k : nat) :
  Z.of_nat k + 1 < 2 ^ 32 ->
  run (churn (S k)) znew
  = store_of (add_point (churned (Z.of_nat (S k))) None 2 None).
Proof.
  intros Hk. unfold churn. rewrite !run_app, churn_pairs by exact Hk.
  reflexivity.
Qed.

(** The number of pairs is too large to be run; the lemmas above are
    instantiated instead. *)
Lemma churn_final :
  run (churn (Z.to_nat (2 ^ 32 - 1))) znew
  = store_of (add_point (churned (2 ^ 32 - 1)) None 2 None).
Proof.
  assert (E : Z.to_nat (2 ^ 32 - 1) = S (Z.to_nat (2 ^ 32 - 2))).
  { replace (2 ^ 32 - 1) with (Z.succ (2 ^ 32 - 2)) by reflexivity.
    apply Z2Nat.inj_succ. apply Z.leb_le. reflexivity. }
  assert (Hle : 0 <= 2 ^ 32 - 2) by (apply Z.leb_le; reflexivity).
  rewrite E, run_churn.
  - rewrite Nat2Z.inj_succ, Z2Nat.id by exact Hle. reflexivity.
  - rewrite Z2Nat.id by exact Hle. reflexivity.
Qed.

(** ** The claim *)

Section Claim.
Context {F : Type} `{FloatOps F} {EncVec LowLevel : Type}
        `{Backend F EncVec LowLevel}.

(** C1 (as amended).  For every sequence of [add_point] and
    [remove_point] calls on a new store in which every [add_point] of a
    new label finds fewer than 2^31 rows stored and fewer than 2^32
    logical offsets handed out, the bookkeeping is a bijection: for every
    live label [l], [get_label_by_offset (get_offset_by_label l) = l]; for
    every live logical offset [o],
    [get_offset_by_label (get_label_by_offset o) = o]; and
    [get_data_num ()] is the number of entries of the label map. *)
Theorem C1_bookkeeping_within_limits
    (cs : list (@call F LowLevel)) l2 alpha cap sparse :
  within_limits cs (new (EncVec := EncVec) l2 alpha cap sparse) = true ->
  consistent (run cs (new (EncVec := EncVec) l2 alpha cap sparse)).
Proof.
  intros Hw. apply Inv_consistent. apply Inv_run; [apply Inv_new|exact Hw].
Qed.
End Claim.

(** Two labels added, one removed and added again. *)
Lemma C1_bookkeeping_within_limits_witness :
  let cs : list zcall :=
    [AddPoint (Some [ZNum 1; ZNum 2]) 7 None;
     AddPoint (Some [ZNum 3; ZNum 4]) 9 None;
     RemovePoint 7;
     AddPoint (Some [ZNum 5; ZNum 6]) 7 None] in
  within_limits cs znew = true /\ consistent (run cs znew).
Proof.
  intros cs. split.
  - reflexivity.
  - apply (C1_bookkeeping_within_limits cs false (ZNum 0) 0 false).
    reflexivity.
Defined.

(** C1 as stated fails: after 2^32 - 1 add/remove pairs the next logical
    offset is 2^32, which converts to the [uint32_t] 0, the offset of the
    label 0 that is still stored; [offset_map_[0]] then leads to the new
    label. *)
Lemma C1_offset_wrap_counterexample :
  ~ consistent (run (churn (Z.to_nat (2 ^ 32 - 1))) znew).
Proof.
  rewrite churn_final. intros [Hlabel _].
  specialize (Hlabel 0).
  assert (Hlive : is_Some
    (label_map_ (store_of (add_point (churned (2 ^ 32 - 1)) None 2 None)) !! 0)).
  { exists 0. vm_compute. reflexivity. }
  specialize (Hlabel Hlive). vm_compute in Hlabel. discriminate.
Qed.

End BruteforceClaims.

(* ===================================================================== *)
(** * Bitmap: the cached cardinality                                       *)
(* ===================================================================== *)

Module BitmapCache.
Import Bitmap.

(** When the cache is invalid, [get_cached_nbit] recomputes. *)
Lemma get_cached_nbit_fresh (b : Bitmap.t) :
  has_nbit_cache_ b = false -> fst (get_cached_nbit b) = nbit b.
Proof. intros Hc. unfold get_cached_nbit. rewrite Hc. reflexivity. Qed.

(** The operations that do invalidate the cache. *)
Lemma Set_invalidates b id : has_nbit_cache_ (Set_ b id) = false.
Proof.
  unfold Set_. destruct (is_roaring_ b); [reflexivity|].
  destruct (decide _); reflexivity.
Qed.

Lemma Unset_invalidates b id : has_nbit_cache_ (Unset b id) = false.
Proof. unfold Unset. destruct (is_roaring_ b); reflexivity. Qed.

Lemma SetRange_invalidates b x y : has_nbit_cache_ (SetRange b x y) = false.
Proof. reflexivity. Qed.

Lemma SetMany_invalidates b ids : has_nbit_cache_ (SetMany b ids) = false.
Proof. destruct ids; reflexivity. Qed.

Lemma Union_invalidates b other : has_nbit_cache_ (Union b other) = false.
Proof. unfold Union. destruct (is_roaring_ other); reflexivity. Qed.

Lemma Xor_invalidates b other : has_nbit_cache_ (Xor b other) = false.
Proof. reflexivity. Qed.

Lemma clear_invalidates b : has_nbit_cache_ (clear b) = false.
Proof. reflexivity. Qed.

Lemma copy_invalidates b other : has_nbit_cache_ (copy b other) = false.
Proof. reflexivity. Qed.

Lemma ParseFromString_invalidates b s :
  has_nbit_cache_ (ParseFromString b s) = false.
Proof. reflexivity. Qed.

Lemma Exclude_ptr_invalidates b other :
  has_nbit_cache_ (Exclude_ptr b (Some other)) = false.
Proof. reflexivity. Qed.

Lemma Intersect_ptr_invalidates b other :
  has_nbit_cache_ (Intersect_ptr b (Some other)) = false.
Proof. reflexivity. Qed.

(** [Exclude(const Bitmap&)] and [Intersect(const Bitmap&)] keep the cache
    flag when both bitmaps are roaring. *)
Lemma Exclude_roaring_keeps_cache b other :
  is_roaring_ b = true -> is_roaring_ other = true ->
  has_nbit_cache_ (Exclude b other) = has_nbit_cache_ b /\
  nbit_cache_ (Exclude b other) = nbit_cache_ b.
Proof. intros Hb Ho. unfold Exclude. rewrite Hb, Ho. split; reflexivity. Qed.

Lemma Intersect_roaring_keeps_cache b other :
  is_roaring_ b = true -> is_roaring_ other = true ->
  has_nbit_cache_ (Intersect b other) = has_nbit_cache_ b /\
  nbit_cache_ (Intersect b other) = nbit_cache_ b.
Proof. intros Hb Ho. unfold Intersect. rewrite Hb, Ho. split; reflexivity. Qed.

(** C7 at the failing input: a bitmap of 33 identifiers whose cardinality
    was read once, then [Exclude(const Bitmap&)] with a roaring bitmap of
    the same identifiers: the set is empty and [get_cached_nbit()] still
    answers 33; the same with [Intersect(const Bitmap&)] and a disjoint
    roaring bitmap. *)
Theorem C7_stale_cache_after_exclude :
  let b := snd (get_cached_nbit thirty_three) in
  is_roaring_ thirty_three = true /\
  fst (get_cached_nbit thirty_three) = 33 /\
  nbit (Exclude b thirty_three) = 0 /\
  fst (get_cached_nbit (Exclude b thirty_three)) = 33 /\
  nbit (Intersect b (SetRange new 100 140)) = 0 /\
  fst (get_cached_nbit (Intersect b (SetRange new 100 140))) = 33.
Proof. vm_compute. repeat split; reflexivity. Qed.

End BitmapCache.

(* ===================================================================== *)
(** * Index manager: get_state                                             *)
(* ===================================================================== *)

Module ManagerState.
Import IndexManager.

Section Facts.
Context {F : Type} `{FloatOps F} {EncVec LowLevel : Type}
        `{BruteforceSearch.Backend F EncVec LowLevel}
        {S Fields : Type} `{ScalarIndexOps S Fields}.

(** [get_state] fills the timestamp ... *)
Lemma get_state_timestamp (m : @IndexManager.t F EncVec S) :
  update_timestamp (IndexEngine_get_state m) = manager_meta_update_timestamp m.
Proof. reflexivity. Qed.

(** ... and leaves [element_count] at its default, whatever the index
    holds. *)
Lemma get_state_element_count (m : @IndexManager.t F EncVec S) :
  element_count (IndexEngine_get_state m) = 0.
Proof. reflexivity. Qed.
End Facts.

(** C8 at the failing input: one record added to a new index at clock
    reading 1700000000; the index holds one live record, [get_state()]
    reports the timestamp and an element count of 0. *)
Theorem C8_get_state_element_count_default :
  exists m : zmanager,
    add_data znew_manager [zadd 1001 [ZNum 1; ZNum 1; ZNum 1; ZNum 1]] 1700000000
      = Some m /\
    live_records m = 1 /\
    IndexEngine_get_state m = mkStateResult 1700000000 0.
Proof. eexists. vm_compute. repeat split; reflexivity. Qed.

End ManagerState.

(* ===================================================================== *)
(** * Sparse head: the two-ended merge                                     *)
(* ===================================================================== *)

Module SparseMerge.
Import Sparse.


Section Lists.
Context {F : Type} `{FloatOps F}.

(** ** Matching products of sorted lists *)

Lemma matching_row_none (e1 : Z * F) (a2 : SparseDatapointView F) :
  Forall (fun e2 => fst e1 <> fst e2) a2 -> matching_row e1 a2 = [].
Proof.
  induction 1 as [|e2 a2 Hne _ IH]; [reflexivity|].
  unfold matching_row in *. simpl. rewrite IH.
  destruct (Z.eqb_spec (fst e1) (fst e2)); [contradiction|reflexivity].
Qed.

Lemma matching_row_app (e1 : Z * F) (l l' : SparseDatapointView F) :
  matching_row e1 (l ++ l') = matching_row e1 l ++ matching_row e1 l'.
Proof. unfold matching_row. apply flat_map_app. Qed.

Lemma matching_products_cons (e1 : Z * F) (t1 a2 : SparseDatapointView F) :
  matching_products (e1 :: t1) a2 = matching_row e1 a2 ++ matching_products t1 a2.
Proof. reflexivity. Qed.

Lemma matching_products_snoc (s1 : SparseDatapointView F) (x1 : Z * F) a2 :
  matching_products (s1 ++ [x1]) a2 = matching_products s1 a2 ++ matching_row x1 a2.
Proof.
  unfold matching_products. rewrite flat_map_app. simpl.
  rewrite app_nil_r. reflexivity.
Qed.

Lemma matching_products_nil_r (a1 : SparseDatapointView F) :
  matching_products a1 [] = [].
Proof. induction a1 as [|e a1 IH]; [reflexivity|]. simpl. exact IH. Qed.

(** An entry of the second list that matches nothing can be dropped. *)
Lemma matching_products_drop_head (a1 : SparseDatapointView F) (h2 : Z * F) t2 :
  Forall (fun e1 => fst e1 <> fst h2) a1 ->
  matching_products a1 (h2 :: t2) = matching_products a1 t2.
Proof.
  induction 1 as [|e1 a1 Hne _ IH]; [reflexivity|].
  rewrite !matching_products_cons, IH. f_equal.
  unfold matching_row. simpl.
  destruct (Z.eqb_spec (fst e1) (fst h2)); [contradiction|reflexivity].
Qed.

Lemma matching_products_drop_last (a1 : SparseDatapointView F) s2 (x2 : Z * F) :
  Forall (fun e1 => fst e1 <> fst x2) a1 ->
  matching_products a1 (s2 ++ [x2]) = matching_products a1 s2.
Proof.
  induction 1 as [|e1 a1 Hne _ IH]; [reflexivity|].
  rewrite !matching_products_cons, IH. f_equal.
  rewrite matching_row_app. unfold matching_row at 2. simpl.
  destruct (Z.eqb_spec (fst e1) (fst x2)); [contradiction|].
  rewrite app_nil_r. reflexivity.
Qed.

Lemma sorted_idx_head_lt (h : Z * F) t :
  sorted_idx (h :: t) -> Forall (fun e => fst h < fst e) t.
Proof. intros Hs. apply StronglySorted_cons in Hs. apply Hs. Qed.

Lemma sorted_idx_last_gt (s : SparseDatapointView F) (x : Z * F) :
  sorted_idx (s ++ [x]) -> Forall (fun e => fst e < fst x) s.
Proof.
  intros Hs. apply StronglySorted_app in Hs as (Hall & _ & _).
  apply Forall_forall. intros e He. apply Hall; [exact He|]. left.
Qed.

Lemma sorted_idx_tail (h : Z * F) t : sorted_idx (h :: t) -> sorted_idx t.
Proof. intros Hs. apply StronglySorted_cons in Hs. apply Hs. Qed.

Lemma sorted_idx_init (s : SparseDatapointView F) x :
  sorted_idx (s ++ [x]) -> sorted_idx s.
Proof. apply StronglySorted_app_1_l. Qed.

(** The three outcomes of the comparison of the two front entries. *)
Lemma front_lt (h1 h2 : Z * F) t1 t2 :
  sorted_idx (h2 :: t2) -> fst h1 < fst h2 ->
  matching_products (h1 :: t1) (h2 :: t2) = matching_products t1 (h2 :: t2).
Proof.
  intros Hs Hlt. rewrite matching_products_cons, matching_row_none; [reflexivity|].
  constructor; [lia|].
  eapply Forall_impl; [apply (sorted_idx_head_lt _ _ Hs)|].
  simpl. intros; lia.
Qed.

Lemma front_gt (h1 h2 : Z * F) t1 t2 :
  sorted_idx (h1 :: t1) -> fst h2 < fst h1 ->
  matching_products (h1 :: t1) (h2 :: t2) = matching_products (h1 :: t1) t2.
Proof.
  intros Hs Hlt. apply matching_products_drop_head.
  constructor; [lia|].
  eapply Forall_impl; [apply (sorted_idx_head_lt _ _ Hs)|].
  simpl. intros; lia.
Qed.

Lemma front_eq (h1 h2 : Z * F) t1 t2 :
  sorted_idx (h1 :: t1) -> sorted_idx (h2 :: t2) -> fst h1 = fst h2 ->
  matching_products (h1 :: t1) (h2 :: t2)
  = (snd h1, snd h2) :: matching_products t1 t2.
Proof.
  intros Hs1 Hs2 Heq. rewrite matching_products_cons.
  change (h2 :: t2) with ([h2] ++ t2) at 1. rewrite matching_row_app.
  rewrite (matching_row_none h1 t2).
  2:{ eapply Forall_impl; [apply (sorted_idx_head_lt _ _ Hs2)|].
      simpl. intros; lia. }
  unfold matching_row at 1. simpl. rewrite Heq, Z.eqb_refl. simpl.
  f_equal. apply matching_products_drop_head.
  eapply Forall_impl; [apply (sorted_idx_head_lt _ _ Hs1)|].
  simpl. intros; lia.
Qed.

(** ... and of the two back entries. *)
Lemma back_gt (s1 s2 : SparseDatapointView F) (x1 x2 : Z * F) :
  sorted_idx (s2 ++ [x2]) -> fst x2 < fst x1 ->
  matching_products (s1 ++ [x1]) (s2 ++ [x2]) = matching_products s1 (s2 ++ [x2]).
Proof.
  intros Hs Hlt. rewrite matching_products_snoc, matching_row_none.
  - apply app_nil_r.
  - apply Forall_app. split.
    + eapply Forall_impl; [apply (sorted_idx_last_gt _ _ Hs)|].
      simpl. intros; lia.
    + constructor; [lia|constructor].
Qed.

Lemma back_lt (s1 s2 : SparseDatapointView F) (x1 x2 : Z * F) :
  sorted_idx (s1 ++ [x1]) -> fst x1 < fst x2 ->
  matching_products (s1 ++ [x1]) (s2 ++ [x2]) = matching_products (s1 ++ [x1]) s2.
Proof.
  intros Hs Hlt. apply matching_products_drop_last.
  apply Forall_app. split.
  - eapply Forall_impl; [apply (sorted_idx_last_gt _ _ Hs)|].
    simpl. intros; lia.
  - constructor; [lia|constructor].
Qed.

Lemma back_eq (s1 s2 : SparseDatapointView F) (x1 x2 : Z * F) :
  sorted_idx (s1 ++ [x1]) -> sorted_idx (s2 ++ [x2]) -> fst x1 = fst x2 ->
  matching_products (s1 ++ [x1]) (s2 ++ [x2])
  = matching_products s1 s2 ++ [(snd x1, snd x2)].
Proof.
  intros Hs1 Hs2 Heq. rewrite matching_products_snoc, matching_row_app.
  rewrite (matching_row_none x1 s2).
  2:{ eapply Forall_impl; [apply (sorted_idx_last_gt _ _ Hs2)|].
      simpl. intros; lia. }
  unfold matching_row. simpl. rewrite Heq, Z.eqb_refl. simpl.
  f_equal. apply matching_products_drop_last.
  eapply Forall_impl; [apply (sorted_idx_last_gt _ _ Hs1)|].
  simpl. intros; lia.
Qed.

(** ** Segments *)

Lemma seg_nil (a : SparseDatapointView F) f b : b < f -> seg a f b = [].
Proof.
  intros Hlt. unfold seg. replace (Z.to_nat (b + 1 - f)) with 0%nat by lia.
  reflexivity.
Qed.

Lemma seg_head (a : SparseDatapointView F) f b :
  0 <= f <= b -> b < Z.of_nat (length a) ->
  seg a f b = nth (Z.to_nat f) a (0, fzero) :: seg a (f + 1) b.
Proof.
  intros Hf Hb. unfold seg.
  destruct (nth_lookup_or_length a (Z.to_nat f) (0, fzero)) as [Hl|Hl]; [|lia].
  rewrite (drop_S _ _ _ Hl).
  replace (Z.to_nat (b + 1 - f)) with (S (Z.to_nat (b + 1 - (f + 1)))) by lia.
  replace (Z.to_nat (f + 1)) with (S (Z.to_nat f)) by lia.
  reflexivity.
Qed.

Lemma seg_last (a : SparseDatapointView F) f b :
  0 <= f <= b -> b < Z.of_nat (length a) ->
  seg a f b = seg a f (b - 1) ++ [nth (Z.to_nat b) a (0, fzero)].
Proof.
  intros Hf Hb. unfold seg.
  replace (Z.to_nat (b + 1 - f)) with (S (Z.to_nat (b - 1 + 1 - f))) by lia.
  apply take_S_r. rewrite lookup_drop.
  replace (Z.to_nat f + Z.to_nat (b - 1 + 1 - f))%nat with (Z.to_nat b) by lia.
  destruct (nth_lookup_or_length a (Z.to_nat b) (0, fzero)) as [Hl|Hl]; [exact Hl|lia].
Qed.

Lemma seg_full (a : SparseDatapointView F) :
  seg a 0 (Z.of_nat (length a) - 1) = a.
Proof.
  unfold seg. simpl. rewrite drop_0. apply take_ge. lia.
Qed.

Lemma sorted_idx_seg (a : SparseDatapointView F) f b :
  sorted_idx a -> sorted_idx (seg a f b).
Proof.
  intros Hs. unfold seg, sorted_idx in *.
  rewrite <- (take_drop (Z.to_nat f) a) in Hs.
  apply StronglySorted_app_1_r in Hs.
  rewrite <- (take_drop (Z.to_nat (b + 1 - f)) (drop (Z.to_nat f) a)) in Hs.
  apply StronglySorted_app_1_l in Hs. exact Hs.
Qed.

Lemma strictly_increasing_sorted (a : SparseDatapointView F) :
  strictly_increasing a -> sorted_idx a.
Proof.
  induction a as [|e a IH]; intros Hinc; [constructor|].
  apply StronglySorted_cons. split.
  - apply Forall_forall. intros x Hx.
    apply list_elem_of_In in Hx.
    destruct (In_nth a x (0, fzero) Hx) as (j & Hj & Hnth).
    specialize (Hinc 0 (Z.of_nat (S j)) ltac:(lia) ltac:(lia)
                  ltac:(simpl length; lia)).
    unfold idx_at in Hinc. rewrite Nat2Z.id in Hinc. simpl in Hinc.
    rewrite Hnth in Hinc. exact Hinc.
  - apply IH. intros i j Hi Hij Hj.
    specialize (Hinc (i + 1) (j + 1) ltac:(lia) ltac:(lia)
                  ltac:(simpl length; lia)).
    unfold idx_at in *.
    replace (Z.to_nat (i + 1)) with (S (Z.to_nat i)) in Hinc by lia.
    replace (Z.to_nat (j + 1)) with (S (Z.to_nat j)) in Hinc by lia.
    exact Hinc.
Qed.

(** ** One step at each end *)

Lemma front_step (a1 a2 : SparseDatapointView F) f1 b1 f2 b2 :
  sorted_idx a1 -> sorted_idx a2 ->
  0 <= f1 <= b1 -> b1 < Z.of_nat (length a1) ->
  0 <= f2 <= b2 -> b2 < Z.of_nat (length a2) ->
  matching_products (seg a1 f1 b1) (seg a2 f2 b2)
  = (if idx_at a1 f1 =? idx_at a2 f2 then [(val_at a1 f1, val_at a2 f2)] else [])
    ++ matching_products
         (seg a1 (f1 + b2z (idx_at a1 f1 <=? idx_at a2 f2)) b1)
         (seg a2 (f2 + b2z (idx_at a1 f1 >=? idx_at a2 f2)) b2).
Proof.
  intros Hs1 Hs2 Hf1 Hb1 Hf2 Hb2.
  pose proof (sorted_idx_seg a1 f1 b1 Hs1) as Hg1.
  pose proof (sorted_idx_seg a2 f2 b2 Hs2) as Hg2.
  rewrite (seg_head a1 f1 b1) in * by lia.
  rewrite (seg_head a2 f2 b2) in * by lia.
  unfold idx_at, val_at.
  set (h1 := nth (Z.to_nat f1) a1 (0, fzero)) in *.
  set (h2 := nth (Z.to_nat f2) a2 (0, fzero)) in *.
  destruct (Z.compare_spec (fst h1) (fst h2)) as [Heq|Hlt|Hgt].
  - rewrite Heq, Z.eqb_refl, Z.leb_refl.
    replace (fst h2 >=? fst h2) with true by (symmetry; apply Z.geb_le; lia).
    simpl b2z. apply front_eq; assumption.
  - replace (fst h1 =? fst h2) with false by (symmetry; apply Z.eqb_neq; lia).
    replace (fst h1 <=? fst h2) with true by (symmetry; apply Z.leb_le; lia).
    replace (fst h1 >=? fst h2) with false
      by (symmetry; rewrite Z.geb_leb; apply Z.leb_gt; lia).
    simpl b2z. rewrite Z.add_0_r.
    rewrite (seg_head a2 f2 b2) by lia. fold h2.
    apply front_lt; assumption.
  - replace (fst h1 =? fst h2) with false by (symmetry; apply Z.eqb_neq; lia).
    replace (fst h1 <=? fst h2) with false by (symmetry; apply Z.leb_gt; lia).
    replace (fst h1 >=? fst h2) with true by (symmetry; apply Z.geb_le; lia).
    simpl b2z. rewrite Z.add_0_r.
    rewrite (seg_head a1 f1 b1) by lia. fold h1.
    apply front_gt; assumption.
Qed.

Lemma back_step (a1 a2 : SparseDatapointView F) f1 b1 f2 b2 :
  sorted_idx a1 -> sorted_idx a2 ->
  0 <= f1 <= b1 -> b1 < Z.of_nat (length a1) ->
  0 <= f2 <= b2 -> b2 < Z.of_nat (length a2) ->
  matching_products (seg a1 f1 b1) (seg a2 f2 b2)
  = matching_products
      (seg a1 f1 (b1 - b2z (idx_at a1 b1 >=? idx_at a2 b2)))
      (seg a2 f2 (b2 - b2z (idx_at a1 b1 <=? idx_at a2 b2)))
    ++ (if idx_at a1 b1 =? idx_at a2 b2 then [(val_at a1 b1, val_at a2 b2)] else []).
Proof.
  intros Hs1 Hs2 Hf1 Hb1 Hf2 Hb2.
  pose proof (sorted_idx_seg a1 f1 b1 Hs1) as Hg1.
  pose proof (sorted_idx_seg a2 f2 b2 Hs2) as Hg2.
  rewrite (seg_last a1 f1 b1) in * by lia.
  rewrite (seg_last a2 f2 b2) in * by lia.
  unfold idx_at, val_at.
  set (x1 := nth (Z.to_nat b1) a1 (0, fzero)) in *.
  set (x2 := nth (Z.to_nat b2) a2 (0, fzero)) in *.
  destruct (Z.compare_spec (fst x1) (fst x2)) as [Heq|Hlt|Hgt].
  - rewrite Heq, Z.eqb_refl, Z.leb_refl.
    replace (fst x2 >=? fst x2) with true by (symmetry; apply Z.geb_le; lia).
    simpl b2z. apply back_eq; assumption.
  - replace (fst x1 =? fst x2) with false by (symmetry; apply Z.eqb_neq; lia).
    replace (fst x1 <=? fst x2) with true by (symmetry; apply Z.leb_le; lia).
    replace (fst x1 >=? fst x2) with false
      by (symmetry; rewrite Z.geb_leb; apply Z.leb_gt; lia).
    simpl b2z. rewrite Z.sub_0_r, app_nil_r.
    rewrite (seg_last a1 f1 b1) by lia. fold x1.
    apply back_lt; assumption.
  - replace (fst x1 =? fst x2) with false by (symmetry; apply Z.eqb_neq; lia).
    replace (fst x1 <=? fst x2) with false by (symmetry; apply Z.leb_gt; lia).
    replace (fst x1 >=? fst x2) with true by (symmetry; apply Z.geb_le; lia).
    simpl b2z. rewrite Z.sub_0_r, app_nil_r.
    rewrite (seg_last a2 f2 b2) by lia. fold x2.
    apply back_gt; assumption.
Qed.
End Lists.

Section Loop.
Context {F : Type} `{FloatOps F}.
Variable reduce_two : F -> F -> F -> F.
Variables a1 a2 : SparseDatapointView F.
Hypothesis Hs1 : sorted_idx a1.
Hypothesis Hs2 : sorted_idx a2.
Hypothesis Hn1 : Z.of_nat (length a1) < 2 ^ 64.
Hypothesis Hn2 : Z.of_nat (length a2) < 2 ^ 64.

Local Abbreviation n1 := (Z.of_nat (length a1)).
Local Abbreviation n2 := (Z.of_nat (length a2)).
Local Abbreviation red :=
  (fun (acc : F) (p : F * F) => reduce_two acc (fst p) (snd p)).

Lemma b2z_range b : 0 <= b2z b <= 1.
Proof. destruct b; simpl; lia. Qed.

Lemma front_moves x y : 1 <= b2z (x <=? y) + b2z (x >=? y).
Proof.
  destruct (Z.leb_spec x y); simpl.
  - destruct (x >=? y); simpl; lia.
  - replace (x >=? y) with true by (symmetry; apply Z.geb_le; lia). simpl. lia.
Qed.

Lemma loop_body_inv (p : ptrs) :
  LoopInv reduce_two a1 a2 p -> loop_cond p = true ->
  LoopInv reduce_two a1 a2 (loop_body reduce_two a1 a2 p) /\
  gap (loop_body reduce_two a1 a2 p) < gap p.
Proof.
  intros [Hf1 Hb1 Hx1 Hf2 Hb2 Hx2 (done & Hres & Hperm)] Hcond.
  unfold loop_cond in Hcond. apply andb_prop in Hcond as [Hc1 Hc2].
  apply Z.ltb_lt in Hc1, Hc2.
  unfold loop_body.
  set (f1 := i1_front p) in *. set (b1 := i1_back p) in *.
  set (f2 := i2_front p) in *. set (b2 := i2_back p) in *.
  set (af1 := b2z (idx_at a1 f1 <=? idx_at a2 f2)).
  set (af2 := b2z (idx_at a1 f1 >=? idx_at a2 f2)).
  set (sb2 := b2z (idx_at a1 b1 <=? idx_at a2 b2)).
  set (sb1 := b2z (idx_at a1 b1 >=? idx_at a2 b2)).
  pose proof (b2z_range (idx_at a1 f1 <=? idx_at a2 f2)) as Raf1. fold af1 in Raf1.
  pose proof (b2z_range (idx_at a1 f1 >=? idx_at a2 f2)) as Raf2. fold af2 in Raf2.
  pose proof (b2z_range (idx_at a1 b1 <=? idx_at a2 b2)) as Rsb2. fold sb2 in Rsb2.
  pose proof (b2z_range (idx_at a1 b1 >=? idx_at a2 b2)) as Rsb1. fold sb1 in Rsb1.
  pose proof (front_moves (idx_at a1 f1) (idx_at a2 f2)) as Hmove.
  fold af1 af2 in Hmove.
  rewrite !to_uint64_small by lia.
  split.
  - split; cbn [i1_front i1_back i2_front i2_back result]; try lia.
    set (front := if idx_at a1 f1 =? idx_at a2 f2
                  then [(val_at a1 f1, val_at a2 f2)] else []).
    set (back := if idx_at a1 b1 =? idx_at a2 b2
                 then [(val_at a1 b1, val_at a2 b2)] else []).
    exists (done ++ front ++ back). split.
    + unfold accumulate in *. rewrite !fold_left_app, <- Hres.
      unfold front, back.
      destruct (idx_at a1 f1 =? idx_at a2 f2), (idx_at a1 b1 =? idx_at a2 b2);
        reflexivity.
    + rewrite <- Hperm.
      rewrite (front_step a1 a2 f1 b1 f2 b2) by (assumption || lia).
      fold front af1 af2.
      rewrite (back_step a1 a2 (f1 + af1) b1 (f2 + af2) b2) by (assumption || lia).
      fold back sb1 sb2.
      rewrite <- !app_assoc. apply Permutation_app_head.
      apply Permutation_app_head. apply Permutation_app_comm.
  - unfold gap. cbn [i1_front i1_back i2_front i2_back]. lia.
Qed.

(** The fuel of [main_loop] is never used up: the loop stops because its
    condition fails. *)
Lemma main_loop_exit (fuel : nat) (p : ptrs) :
  LoopInv reduce_two a1 a2 p -> gap p < Z.of_nat fuel ->
  LoopInv reduce_two a1 a2 (main_loop reduce_two a1 a2 fuel p) /\
  loop_cond (main_loop reduce_two a1 a2 fuel p) = false.
Proof.
  revert p. induction fuel as [|fuel IH]; intros p HI Hgap.
  - split; [exact HI|]. simpl. unfold loop_cond, gap in *.
    apply andb_false_iff.
    destruct (Z.ltb_spec (i1_front p) (i1_back p)); [right|left; reflexivity].
    apply Z.ltb_ge. simpl in Hgap. lia.
  - simpl. destruct (loop_cond p) eqn:Hc.
    + destruct (loop_body_inv p HI Hc) as [HI' Hlt].
      apply IH; [exact HI'|lia].
    + split; [exact HI|exact Hc].
Qed.

(** The scan for the one entry left in the first view. *)
Lemma scan2_spec (fuel : nat) (i1 f b : Z) (res : F) :
  0 <= i1 < n1 -> 0 <= f -> b < n2 -> f <= b + 1 ->
  b + 1 - f < Z.of_nat fuel ->
  scan2 reduce_two a1 a2 fuel i1 f b res
  = fold_left red (matching_products (seg a1 i1 i1) (seg a2 f b)) res.
Proof.
  intros Hi1. revert f res.
  induction fuel as [|fuel IH]; intros f res Hf Hb Hfb Hfuel; [lia|].
  simpl. destruct (Z.leb_spec f b) as [Hle|Hgt].
  - pose proof (sorted_idx_seg a2 f b Hs2) as Hg.
    rewrite (seg_head a1 i1 i1) by lia. rewrite (seg_nil a1 (i1 + 1) i1) by lia.
    rewrite (seg_head a2 f b) in * by lia.
    rewrite matching_products_cons. simpl (matching_products [] _).
    rewrite app_nil_r.
    change (?h :: ?t) with ([h] ++ t) at 1. rewrite matching_row_app.
    unfold matching_row at 1. simpl flat_map. unfold idx_at, val_at.
    set (e := nth (Z.to_nat i1) a1 (0, fzero)).
    set (h := nth (Z.to_nat f) a2 (0, fzero)) in *.
    destruct (Z.eqb_spec (fst e) (fst h)) as [Heq|Hne].
    + rewrite matching_row_none; [reflexivity|].
      eapply Forall_impl; [apply (sorted_idx_head_lt _ _ Hg)|].
      simpl. intros; lia.
    + simpl app. rewrite to_uint64_small by lia.
      rewrite IH by lia.
      rewrite (seg_head a1 i1 i1) by lia. rewrite (seg_nil a1 (i1 + 1) i1) by lia.
      rewrite matching_products_cons. simpl (matching_products [] _).
      rewrite app_nil_r. reflexivity.
  - rewrite (seg_nil a2 f b) by lia. rewrite matching_products_nil_r.
    reflexivity.
Qed.

(** The scan for the one entry left in the second view. *)
Lemma scan1_spec (fuel : nat) (i2 f b : Z) (res : F) :
  0 <= i2 < n2 -> 0 <= f -> b < n1 -> f <= b + 1 ->
  b + 1 - f < Z.of_nat fuel ->
  scan1 reduce_two a1 a2 fuel i2 f b res
  = fold_left red (matching_products (seg a1 f b) (seg a2 i2 i2)) res.
Proof.
  intros Hi2. revert f res.
  induction fuel as [|fuel IH]; intros f res Hf Hb Hfb Hfuel; [lia|].
  simpl. destruct (Z.leb_spec f b) as [Hle|Hgt].
  - pose proof (sorted_idx_seg a1 f b Hs1) as Hg.
    rewrite (seg_head a2 i2 i2) by lia. rewrite (seg_nil a2 (i2 + 1) i2) by lia.
    rewrite (seg_head a1 f b) in * by lia.
    rewrite matching_products_cons.
    unfold matching_row at 1. simpl flat_map. unfold idx_at, val_at.
    set (e := nth (Z.to_nat i2) a2 (0, fzero)).
    set (h := nth (Z.to_nat f) a1 (0, fzero)) in *.
    destruct (Z.eqb_spec (fst h) (fst e)) as [Heq|Hne].
    + rewrite matching_products_drop_head.
      * rewrite matching_products_nil_r. reflexivity.
      * eapply Forall_impl; [apply (sorted_idx_head_lt _ _ Hg)|].
        simpl. intros; lia.
    + simpl app. rewrite to_uint64_small by lia.
      rewrite IH by lia.
      rewrite (seg_head a2 i2 i2) by lia. rewrite (seg_nil a2 (i2 + 1) i2) by lia.
      reflexivity.
  - rewrite (seg_nil a1 f b) by lia. reflexivity.
Qed.

(** The reduction the function returns, over the matching pairs in the
    order it meets them. *)
Lemma only_reduce_two_spec :
  exists l,
    Permutation l (matching_products a1 a2) /\
    sparse_distance_measure_only_reduce_two reduce_two a1 a2
    = accumulate reduce_two l.
Proof.
  unfold sparse_distance_measure_only_reduce_two.
  destruct (Z.eqb_spec n1 0) as [E1|E1].
  { exists []. split; [|reflexivity].
    destruct a1; [reflexivity|simpl in E1; lia]. }
  destruct (Z.eqb_spec n2 0) as [E2|E2].
  { exists []. split; [|reflexivity].
    destruct a2; [|simpl in E2; lia]. rewrite matching_products_nil_r.
    reflexivity. }
  cbn [orb].
  rewrite !to_uint64_small by lia.
  set (p0 := mkPtrs 0 0 (n1 - 1) (n2 - 1) fzero).
  assert (HI0 : LoopInv reduce_two a1 a2 p0).
  { split; cbn; try lia. exists []. split; [reflexivity|].
    rewrite !seg_full. reflexivity. }
  destruct (main_loop_exit (length a1 + length a2) p0 HI0) as [HI Hexit].
  { unfold gap, p0. cbn. lia. }
  set (p := main_loop reduce_two a1 a2 (length a1 + length a2) p0) in *.
  destruct HI as [Hf1 Hb1 Hx1 Hf2 Hb2 Hx2 (done & Hres & Hperm)].
  unfold loop_cond in Hexit. apply andb_false_iff in Hexit.
  destruct (Z.eqb_spec (i1_front p) (i1_back p)) as [Eq1|Ne1].
  - rewrite scan2_spec by lia.
    exists (done ++ matching_products (seg a1 (i1_front p) (i1_front p))
                                     (seg a2 (i2_front p) (i2_back p))).
    split.
    + rewrite <- Hperm, <- Eq1. reflexivity.
    + unfold accumulate in *. rewrite fold_left_app, <- Hres. reflexivity.
  - destruct (Z.eqb_spec (i2_front p) (i2_back p)) as [Eq2|Ne2].
    + rewrite scan1_spec by lia.
      exists (done ++ matching_products (seg a1 (i1_front p) (i1_back p))
                                       (seg a2 (i2_front p) (i2_front p))).
      split.
      * rewrite <- Hperm, <- Eq2. reflexivity.
      * unfold accumulate in *. rewrite fold_left_app, <- Hres. reflexivity.
    + exists done. split; [|exact Hres].
      rewrite <- Hperm.
      destruct Hexit as [Hex|Hex]; apply Z.ltb_ge in Hex.
      * rewrite (seg_nil a1) by lia. simpl. rewrite app_nil_r. reflexivity.
      * rewrite (seg_nil a2) by lia. rewrite matching_products_nil_r, app_nil_r.
        reflexivity.
Qed.
End Loop.

Section Claim.
Context {F : Type} `{FloatOps F}.

(** A reducer that does not depend on the order of its pairs gives the
    same value on every permutation. *)
Lemma accumulate_Permutation (reduce_two : F -> F -> F -> F) (l l' : list (F * F)) :
  (forall acc p q, reduce_two (reduce_two acc (fst p) (snd p)) (fst q) (snd q)
                   = reduce_two (reduce_two acc (fst q) (snd q)) (fst p) (snd p)) ->
  Permutation l l' -> accumulate reduce_two l = accumulate reduce_two l'.
Proof.
  intros Hcomm Hperm. unfold accumulate. generalize fzero.
  induction Hperm as [|x l l' _ IH|x y l|l l' l'' _ IH1 _ IH2]; intros acc.
  - reflexivity.
  - simpl. apply IH.
  - simpl. rewrite Hcomm. reflexivity.
  - rewrite IH1. apply IH2.
Qed.

(** With an addition whose order of summands is immaterial, the dot
    product is the left-to-right sum over the matching pairs. *)
Lemma sparse_dot_product_reduce_ordered (x doc : SparseDatapointView F) :
  (forall a b c, fadd (fadd a b) c = fadd (fadd a c) b) ->
  strictly_increasing doc -> strictly_increasing x ->
  Z.of_nat (length doc) < 2 ^ 64 -> Z.of_nat (length x) < 2 ^ 64 ->
  sparse_dot_product_reduce x doc
  = accumulate DotProductReduceTwo (matching_products doc x).
Proof.
  intros Hadd Hd Hx Hnd Hnx.
  destruct (only_reduce_two_spec DotProductReduceTwo doc x
              (strictly_increasing_sorted doc Hd)
              (strictly_increasing_sorted x Hx) Hnd Hnx) as (l & Hperm & Hres).
  unfold sparse_dot_product_reduce. rewrite Hres.
  apply accumulate_Permutation; [|exact Hperm].
  intros acc p q. unfold DotProductReduceTwo. apply Hadd.
Qed.

(** C9.  For a stored row [doc] and a query view [x] whose index arrays
    are strictly increasing, [sparse_dot_product_reduce] returns the sum
    [((0 + a1 * b1) + a2 * b2) + ...] of the products of the two values at
    every matching index, every matching pair entering the sum exactly
    once: the pairs [(a, b)] whose products [fmul a b] it adds up with
    [fadd], from [fzero], are a permutation of all the matching pairs (the
    merge works from both ends, so the floating-point additions are made in
    its own order). *)
Theorem C9_dot_product_sums_matching_pairs (x doc : SparseDatapointView F) :
  strictly_increasing doc -> strictly_increasing x ->
  Z.of_nat (length doc) < 2 ^ 64 -> Z.of_nat (length x) < 2 ^ 64 ->
  exists l : list (F * F),
    Permutation l (matching_products doc x) /\
    sparse_dot_product_reduce x doc
    = fold_left (fun acc p => fadd acc (fmul (fst p) (snd p))) l fzero.
Proof.
  intros Hd Hx Hnd Hnx.
  destruct (only_reduce_two_spec DotProductReduceTwo doc x
              (strictly_increasing_sorted doc Hd)
              (strictly_increasing_sorted x Hx) Hnd Hnx) as (l & Hperm & Hres).
  exists l. split; [exact Hperm|].
  unfold sparse_dot_product_reduce. rewrite Hres. reflexivity.
Qed.
End Claim.

Lemma C9_dot_product_sums_matching_pairs_witness :
  exists l : list (zfloat * zfloat),
    Permutation l (matching_products [(1, ZNum 2); (3, ZNum 4); (7, ZNum 1)]
                                     [(3, ZNum 5); (7, ZNum 6)]) /\
    sparse_dot_product_reduce [(3, ZNum 5); (7, ZNum 6)]
                              [(1, ZNum 2); (3, ZNum 4); (7, ZNum 1)]
    = fold_left (fun acc p => fadd acc (fmul (fst p) (snd p))) l fzero.
Proof.
  apply (C9_dot_product_sums_matching_pairs
           [(3, ZNum 5); (7, ZNum 6)] [(1, ZNum 2); (3, ZNum 4); (7, ZNum 1)]).
  - intros i j Hi Hij Hj. simpl in Hj.
    assert (Hc : (i = 0 /\ j = 1) \/ (i = 0 /\ j = 2) \/ (i = 1 /\ j = 2)) by lia.
    destruct Hc as [[-> ->]|[[-> ->]|[-> ->]]]; reflexivity.
  - intros i j Hi Hij Hj. simpl in Hj.
    assert (Hc : i = 0 /\ j = 1) by lia.
    destruct Hc as [-> ->]. reflexivity.
  - reflexivity.
  - reflexivity.
Defined.
End SparseMerge.

(* ===================================================================== *)
(** * RangedMap2D: the radius guard                                        *)
(* ===================================================================== *)

Module Range2D.
Import RangedMap.

(** C10.  A two-dimensional radius query whose radius is not greater than
    zero returns the null pointer, whatever the two maps hold and whatever
    the centre is. *)
Theorem C10_radius_not_positive_is_null {F : Type} `{FloatOps F} `{ScoreOps F}
    (x_ y_ : RangedMap.t) (x y radius : F) :
  fleb radius fzero = true ->
  get_range2d_bitmap x_ y_ x y radius = None.
Proof.
  intros Hr. unfold get_range2d_bitmap, get_range2d_bitmap_with_slot_data.
  rewrite Hr. reflexivity.
Qed.

(** The offset 0 sits exactly on the centre (5, 7): with radius 0 the
    query is null, and with radius 1 it finds the offset. *)
Lemma C10_radius_not_positive_is_null_witness :
  exists x_ y_ : RangedMap.t,
    add_offset_and_score new 0 (ZNum 5) = Some (0, x_) /\
    add_offset_and_score new 0 (ZNum 7) = Some (0, y_) /\
    dist_square_to x_ y_ (ZNum 5) (ZNum 7) 0 = ZNum 0 /\
    get_range2d_bitmap x_ y_ (ZNum 5) (ZNum 7) (ZNum 0) = None.
Proof.
  eexists _, _. split; [reflexivity|]. split; [reflexivity|].
  split; [reflexivity|].
  apply (C10_radius_not_positive_is_null _ _ (ZNum 5) (ZNum 7) (ZNum 0)).
  reflexivity.
Defined.

Lemma radius_positive_finds_centre :
  forall x_ y_ : RangedMap.t,
    add_offset_and_score new 0 (ZNum 5) = Some (0, x_) ->
    add_offset_and_score new 0 (ZNum 7) = Some (0, y_) ->
    option_map Bitmap.get_set_list
      (get_range2d_bitmap x_ y_ (ZNum 5) (ZNum 7) (ZNum 1)) = Some [0].
Proof.
  intros x_ y_ Hx Hy. vm_compute in Hx, Hy.
  injection Hx as <-. injection Hy as <-. vm_compute. reflexivity.
Qed.

End Range2D.

(* ===================================================================== *)
(** * RangedMap: order, borders and the searches over the slots           *)
(* ===================================================================== *)

Module RangedOrder.
Import RangedMap.

Section Order.
Context {F : Type} `{FloatOps F} `{!FloatOrder F} `{ScoreOps F}.

Local Abbreviation nonnan := (fun v : F => fis_nan v = false).

Lemma below_rank (x : F) (inclusive : bool) (v : F) :
  fis_nan x = false -> fis_nan v = false ->
  below x inclusive v
  = if inclusive then frank v <=? frank x else frank v <? frank x.
Proof.
  intros Hx Hv. unfold below. destruct inclusive.
  - apply fleb_rank; assumption.
  - apply fltb_rank; assumption.
Qed.

(** [below] is closed downwards. *)
Lemma below_down (x : F) (inclusive : bool) (v v' : F) :
  fis_nan x = false -> fis_nan v = false -> fis_nan v' = false ->
  frank v' <= frank v -> below x inclusive v = true -> below x inclusive v' = true.
Proof.
  intros Hx Hv Hv' Hle. rewrite !below_rank by assumption.
  destruct inclusive; intros Hb.
  - apply Z.leb_le in Hb. apply Z.leb_le. lia.
  - apply Z.ltb_lt in Hb. apply Z.ltb_lt. lia.
Qed.

Lemma below_up (x : F) (inclusive : bool) (v v' : F) :
  fis_nan x = false -> fis_nan v = false -> fis_nan v' = false ->
  frank v <= frank v' -> below x inclusive v = false -> below x inclusive v' = false.
Proof.
  intros Hx Hv Hv' Hle Hb. destruct (below x inclusive v') eqn:E; [|reflexivity].
  rewrite (below_down x inclusive v' v) in Hb by assumption. discriminate.
Qed.

(** ** Prefix lengths *)

Lemma prefix_length_le {A} (p : A -> bool) (l : list A) :
  (prefix_length p l <= length l)%nat.
Proof. induction l as [|x l IH]; simpl; [lia|]. destruct (p x); simpl; lia. Qed.

Lemma prefix_length_ext {A} (p q : A -> bool) (l : list A) :
  Forall (fun x => p x = q x) l -> prefix_length p l = prefix_length q l.
Proof.
  induction 1 as [|x l Hx _ IH]; simpl; [reflexivity|].
  rewrite Hx, IH. reflexivity.
Qed.

Lemma prefix_length_mono {A} (p q : A -> bool) (l : list A) :
  Forall (fun x => p x = true -> q x = true) l ->
  (prefix_length p l <= prefix_length q l)%nat.
Proof.
  induction 1 as [|x l Hx _ IH]; simpl; [lia|].
  destruct (p x); [rewrite Hx by reflexivity; lia|lia].
Qed.

(** On a list in which [p] is closed downwards the prefix is all of the
    elements that satisfy [p]. *)
Lemma prefix_length_cut {A} (p : A -> bool) (l : list A) :
  StronglySorted (fun a b => p b = true -> p a = true) l ->
  Forall (fun x => p x = true) (take (prefix_length p l) l) /\
  Forall (fun x => p x = false) (drop (prefix_length p l) l).
Proof.
  induction l as [|x l IH]; intros Hs; simpl.
  - split; constructor.
  - apply StronglySorted_inv in Hs as [Hs Hx].
    destruct (p x) eqn:E; simpl.
    + destruct (IH Hs) as [H1 H2]. split; [constructor; assumption|exact H2].
    + split; [constructor|]. constructor; [exact E|].
      eapply Forall_impl; [exact Hx|]. simpl. intros y Hy.
      destruct (p y); [|reflexivity]. specialize (Hy eq_refl). discriminate.
Qed.

Lemma cut_lookup {A} (p : A -> bool) (l : list A) (c j : nat) (v : A) :
  Forall (fun x => p x = true) (take c l) ->
  Forall (fun x => p x = false) (drop c l) ->
  l !! j = Some v -> (p v = true <-> (j < c)%nat).
Proof.
  intros H1 H2 Hj. split.
  - intros Hp. destruct (Nat.lt_ge_cases j c) as [Hlt|Hge]; [exact Hlt|].
    rewrite Forall_forall in H2. rewrite (H2 v) in Hp; [discriminate|].
    apply list_elem_of_lookup. exists (j - c)%nat.
    rewrite lookup_drop. replace (c + (j - c))%nat with j by lia. exact Hj.
  - intros Hlt. rewrite Forall_forall in H1. apply H1.
    apply list_elem_of_lookup. exists j. rewrite lookup_take_lt by lia. exact Hj.
Qed.

Lemma sorted_below (x : F) (inclusive : bool) (vs : list F) :
  fis_nan x = false -> Forall nonnan vs -> rank_sorted vs ->
  StronglySorted (fun a b => below x inclusive b = true -> below x inclusive a = true) vs.
Proof.
  intros Hx Hn Hs. induction Hs as [|a l Hs IH Ha]; [constructor|].
  apply Forall_cons in Hn as [Hna Hn].
  constructor; [apply IH; exact Hn|].
  rewrite Forall_forall in *. intros b Hb Hbb.
  eapply below_down; [exact Hx|apply Hn; exact Hb|exact Hna|apply Ha; exact Hb|exact Hbb].
Qed.

(** ** Borders of a slot *)

Lemma upper_bound_below (vs : list F) (x : F) :
  fis_nan x = false -> Forall nonnan vs ->
  upper_bound vs x = Z.of_nat (prefix_length (below x true) vs).
Proof.
  intros Hx Hn. unfold upper_bound. f_equal. apply prefix_length_ext.
  eapply Forall_impl; [exact Hn|]. simpl. intros v Hv. unfold below.
  rewrite fltb_rank, fleb_rank by assumption.
  destruct (Z.ltb_spec (frank x) (frank v)), (Z.leb_spec (frank v) (frank x));
    simpl; (reflexivity || lia).
Qed.

Lemma lower_bound_below (vs : list F) (x : F) :
  fis_nan x = false -> Forall nonnan vs ->
  lower_bound vs x = Z.of_nat (prefix_length (below x false) vs).
Proof. intros Hx Hn. reflexivity. Qed.

Lemma right_border_below (s : SlotMeta) (x : F) (inclusive : bool) :
  fis_nan x = false -> Forall nonnan (value_vec s) ->
  Z.of_nat (length (value_vec s)) < 2 ^ 32 ->
  get_right_border s x inclusive
  = Z.of_nat (prefix_length (below x inclusive) (value_vec s)).
Proof.
  intros Hx Hn Hlen. unfold get_right_border.
  pose proof (prefix_length_le (below x inclusive) (value_vec s)).
  destruct inclusive.
  - rewrite upper_bound_below by assumption. apply to_uint32_small. lia.
  - rewrite lower_bound_below by assumption. apply to_uint32_small. lia.
Qed.

Lemma left_border_below (s : SlotMeta) (x : F) (inclusive : bool) :
  fis_nan x = false -> Forall nonnan (value_vec s) ->
  Z.of_nat (length (value_vec s)) < 2 ^ 32 ->
  get_left_border s x inclusive
  = Z.of_nat (prefix_length (below x (negb inclusive)) (value_vec s)).
Proof.
  intros Hx Hn Hlen. unfold get_left_border.
  pose proof (prefix_length_le (below x (negb inclusive)) (value_vec s)).
  destruct inclusive; simpl negb in *.
  - rewrite lower_bound_below by assumption. apply to_uint32_small. lia.
  - rewrite upper_bound_below by assumption. apply to_uint32_small. lia.
Qed.

(** ** Values of a slot and of its neighbours *)

Lemma hd_elem_of {A} (d : A) (l : list A) : l <> [] -> List.hd d l ∈ l.
Proof. destruct l; [congruence|]. intros _. simpl. apply list_elem_of_here. Qed.

Lemma last_elem_of {A} (d : A) (l : list A) : l <> [] -> List.last l d ∈ l.
Proof.
  induction l as [|x l IH]; [congruence|]. intros _.
  destruct l as [|y l]; [apply list_elem_of_here|].
  change (List.last (x :: y :: l) d) with (List.last (y :: l) d).
  apply list_elem_of_further. apply IH. discriminate.
Qed.

Lemma sorted_hd_le (vs : list F) (v : F) :
  rank_sorted vs -> v ∈ vs -> frank (List.hd fnan vs) <= frank v.
Proof.
  intros Hs Hv. destruct Hs as [|a l Hs Ha]; [inversion Hv|].
  simpl. apply elem_of_cons in Hv as [->|Hv]; [lia|].
  rewrite Forall_forall in Ha. apply Ha. exact Hv.
Qed.

Lemma sorted_le_last (vs : list F) (v : F) :
  rank_sorted vs -> v ∈ vs -> frank v <= frank (List.last vs fnan).
Proof.
  intros Hs. induction Hs as [|a l Hs IH Ha]; intros Hv; [inversion Hv|].
  destruct l as [|b l].
  - apply elem_of_cons in Hv as [->|Hv]; [simpl; lia|inversion Hv].
  - change (List.last (a :: b :: l) fnan) with (List.last (b :: l) fnan).
    apply elem_of_cons in Hv as [->|Hv]; [|apply IH; exact Hv].
    rewrite Forall_forall in Ha. apply Ha. apply last_elem_of. discriminate.
Qed.

Lemma slot_value_nonnan (s : SlotMeta) (v : F) :
  slot_ok s -> v ∈ value_vec s -> fis_nan v = false.
Proof.
  intros Hs Hv. pose proof (so_nonnan s Hs) as Hn.
  rewrite Forall_forall in Hn. apply Hn. exact Hv.
Qed.

Lemma slot_value_between (s : SlotMeta) (v : F) :
  slot_ok s -> v ∈ value_vec s ->
  frank (left s) <= frank v <= frank (right s).
Proof.
  intros Hs Hv. rewrite (so_left s Hs), (so_right s Hs). split.
  - apply sorted_hd_le; [apply (so_sorted s Hs)|exact Hv].
  - apply sorted_le_last; [apply (so_sorted s Hs)|exact Hv].
Qed.

Lemma slot_left_le_right (s : SlotMeta) :
  slot_ok s -> frank (left s) <= frank (right s).
Proof.
  intros Hs.
  pose proof (slot_value_between s _ Hs (hd_elem_of fnan _ (so_nonempty s Hs))).
  lia.
Qed.

(** The values of the slots before [s] are at most [left s], those of the
    slots after it at least [right s]. *)
Lemma slots_around (pre post : list SlotMeta) (s : SlotMeta) :
  Forall slot_ok (pre ++ s :: post) ->
  StronglySorted slot_before (pre ++ s :: post) ->
  (forall s' v, s' ∈ pre -> v ∈ value_vec s' -> frank v <= frank (left s)) /\
  (forall s' v, s' ∈ post -> v ∈ value_vec s' -> frank (right s) <= frank v).
Proof.
  intros Hok Hsorted. rewrite Forall_app, Forall_cons in Hok.
  destruct Hok as (Hpre & Hs & Hpost).
  apply StronglySorted_app in Hsorted as (Hcross & _ & Hsp).
  apply StronglySorted_inv in Hsp as [_ Hsp].
  rewrite Forall_forall in Hpre, Hpost, Hsp. split.
  - intros s' v Hs' Hv.
    pose proof (slot_value_between s' v (Hpre _ Hs') Hv).
    pose proof (Hcross s' s Hs' (list_elem_of_here _ _)) as Hb.
    unfold slot_before in Hb. lia.
  - intros s' v Hs' Hv.
    pose proof (slot_value_between s' v (Hpost _ Hs') Hv).
    pose proof (Hsp s' Hs') as Hb. unfold slot_before in Hb. lia.
Qed.

(** ** The binary searches *)

Section Search.
Variable B : F -> bool.
Hypothesis Bdown : forall v v', fis_nan v = false -> fis_nan v' = false ->
  frank v' <= frank v -> B v = true -> B v' = true.

Lemma Bup (v v' : F) : fis_nan v = false -> fis_nan v' = false ->
  frank v <= frank v' -> B v = false -> B v' = false.
Proof.
  intros Hv Hv' Hle Hb. destruct (B v') eqn:E; [|reflexivity].
  rewrite (Bdown v' v) in Hb by assumption. discriminate.
Qed.

Lemma slot_all_of_right (s : SlotMeta) :
  slot_ok s -> B (right s) = true -> slot_all B s.
Proof.
  intros Hs Hb. apply Forall_forall. intros v Hv.
  apply (Bdown (right s) v);
    [apply (so_right_nonnan s Hs)|eapply slot_value_nonnan; eassumption| |exact Hb].
  apply slot_value_between; assumption.
Qed.

Lemma slot_none_of_left (s : SlotMeta) :
  slot_ok s -> B (left s) = false -> slot_none B s.
Proof.
  intros Hs Hb. apply Forall_forall. intros v Hv.
  apply (Bup (left s) v);
    [apply (so_left_nonnan s Hs)|eapply slot_value_nonnan; eassumption| |exact Hb].
  apply slot_value_between; assumption.
Qed.

Lemma slots_before_all (pre post : list SlotMeta) (s : SlotMeta) :
  Forall slot_ok (pre ++ s :: post) ->
  StronglySorted slot_before (pre ++ s :: post) ->
  B (left s) = true -> Forall (slot_all B) pre.
Proof.
  intros Hok Hsorted Hb.
  destruct (slots_around pre post s Hok Hsorted) as [Hpre _].
  rewrite Forall_app, Forall_cons in Hok. destruct Hok as (Hokpre & Hs & _).
  rewrite Forall_forall in Hokpre.
  apply Forall_forall. intros s' Hs'. apply Forall_forall. intros v Hv.
  apply (Bdown (left s) v);
    [apply (so_left_nonnan s Hs)
    |eapply slot_value_nonnan; [apply Hokpre; exact Hs'|exact Hv]| |exact Hb].
  eapply Hpre; eassumption.
Qed.

Lemma slots_after_none (pre post : list SlotMeta) (s : SlotMeta) :
  Forall slot_ok (pre ++ s :: post) ->
  StronglySorted slot_before (pre ++ s :: post) ->
  B (right s) = false -> Forall (slot_none B) post.
Proof.
  intros Hok Hsorted Hb.
  destruct (slots_around pre post s Hok Hsorted) as [_ Hpost].
  rewrite Forall_app, Forall_cons in Hok. destruct Hok as (_ & Hs & Hokpost).
  rewrite Forall_forall in Hokpost.
  apply Forall_forall. intros s' Hs'. apply Forall_forall. intros v Hv.
  apply (Bup (right s) v);
    [apply (so_right_nonnan s Hs)
    |eapply slot_value_nonnan; [apply Hokpost; exact Hs'|exact Hv]| |exact Hb].
  eapply Hpost; eassumption.
Qed.

Lemma slot_all_left (s : SlotMeta) : slot_ok s -> slot_all B s -> B (left s) = true.
Proof.
  intros Hs Ha. unfold slot_all in Ha. rewrite Forall_forall in Ha.
  pose proof (hd_elem_of fnan _ (so_nonempty s Hs)) as Hin.
  apply (Bdown (List.hd fnan (value_vec s)) (left s));
    [eapply slot_value_nonnan; eassumption|apply (so_left_nonnan s Hs)| |apply Ha, Hin].
  rewrite (so_left s Hs). lia.
Qed.

Lemma slot_none_right (s : SlotMeta) : slot_ok s -> slot_none B s -> B (right s) = false.
Proof.
  intros Hs Ha. unfold slot_none in Ha. rewrite Forall_forall in Ha.
  pose proof (last_elem_of fnan _ (so_nonempty s Hs)) as Hin.
  apply (Bup (List.last (value_vec s) fnan) (right s));
    [eapply slot_value_nonnan; eassumption|apply (so_right_nonnan s Hs)| |apply Ha, Hin].
  rewrite (so_right s Hs). lia.
Qed.

Lemma slot_bound_loop_spec (slots : list SlotMeta) (past before : SlotMeta -> bool)
    (fuel : nat) (l r : Z) :
  Forall slot_ok slots -> StronglySorted slot_before slots ->
  (forall s, s ∈ slots -> past s = B (right s)) ->
  (forall s, s ∈ slots -> before s = negb (B (left s))) ->
  0 <= l <= r -> r <= Z.of_nat (length slots) -> r - l <= Z.of_nat fuel ->
  Forall (slot_all B) (take (Z.to_nat l) slots) ->
  Forall (slot_none B) (drop (Z.to_nat r) slots) ->
  let u := slot_bound_loop fuel slots past before l r in
  l <= u <= r /\
  Forall (slot_all B) (take (Z.to_nat u) slots) /\
  Forall (slot_none B) (drop (S (Z.to_nat u)) slots).
Proof.
  intros Hok Hsorted Hpast Hbefore. revert l r.
  assert (Hstop : forall l r, 0 <= l <= r -> r <= l ->
            Forall (slot_all B) (take (Z.to_nat l) slots) ->
            Forall (slot_none B) (drop (Z.to_nat r) slots) ->
            l <= l <= r /\ Forall (slot_all B) (take (Z.to_nat l) slots) /\
            Forall (slot_none B) (drop (S (Z.to_nat l)) slots)).
  { intros l r Hlr Hrl Ha Hn. split; [lia|]. split; [exact Ha|].
    replace r with l in Hn by lia.
    replace (S (Z.to_nat l)) with (Z.to_nat l + 1)%nat by lia.
    rewrite <- drop_drop. apply Forall_drop. exact Hn. }
  induction fuel as [|fuel IH]; intros l r Hlr Hr Hfuel Ha Hn.
  - simpl. apply Hstop; (assumption || lia).
  - simpl. destruct (Z.ltb_spec l r) as [Hlt|Hge]; [|apply Hstop; (assumption || lia)].
    set (mid := l + Z.quot (r - l) 2).
    assert (Hmid : l <= mid < r).
    { unfold mid. pose proof (Z.quot_pos (r - l) 2 ltac:(lia) ltac:(lia)).
      pose proof (Z.quot_lt_upper_bound (r - l) 2 (r - l) ltac:(lia) ltac:(lia)
                    ltac:(lia)). lia. }
    destruct (lookup_lt_is_Some_2 slots (Z.to_nat mid) ltac:(lia)) as [s Hs].
    assert (Hat : slot_at slots mid = s).
    { unfold slot_at. apply nth_lookup_Some. exact Hs. }
    rewrite Hat.
    assert (Hin : s ∈ slots) by (eapply list_elem_of_lookup_2; exact Hs).
    pose proof (take_drop_middle slots _ s Hs) as Hsplit.
    assert (Hoks : slot_ok s) by (rewrite Forall_forall in Hok; apply Hok, Hin).
    rewrite (Hpast s Hin), (Hbefore s Hin).
    rewrite <- Hsplit in Hok, Hsorted.
    destruct (B (right s)) eqn:Eright.
    + (* to the right of mid *)
      assert (Hall : Forall (slot_all B) (take (Z.to_nat (mid + 1)) slots)).
      { replace (Z.to_nat (mid + 1)) with (S (Z.to_nat mid)) by lia.
        rewrite (take_S_r slots _ s Hs). apply Forall_app. split.
        - eapply slots_before_all; [exact Hok|exact Hsorted|].
          apply slot_all_left; [exact Hoks|].
          apply slot_all_of_right; assumption.
        - constructor; [|constructor]. apply slot_all_of_right; assumption. }
      rewrite Hsplit in Hok, Hsorted.
      destruct (IH (mid + 1) r ltac:(lia) Hr ltac:(lia) Hall Hn) as (H1 & H2 & H3).
      split; [lia|]. split; assumption.
    + destruct (B (left s)) eqn:Eleft; simpl negb; cbv iota.
      * (* the loop breaks at mid *)
        split; [lia|]. split.
        -- eapply slots_before_all; [exact Hok|exact Hsorted|exact Eleft].
        -- eapply slots_after_none; [exact Hok|exact Hsorted|exact Eright].
      * (* to the left of mid *)
        assert (Hnone : Forall (slot_none B) (drop (Z.to_nat mid) slots)).
        { rewrite (drop_S slots s _ Hs). constructor.
          - apply slot_none_of_left; assumption.
          - eapply slots_after_none; [exact Hok|exact Hsorted|exact Eright]. }
        rewrite Hsplit in Hok, Hsorted.
        destruct (IH l mid ltac:(lia) ltac:(lia) ltac:(lia) Ha Hnone)
          as (H1 & H2 & H3).
        split; [lia|]. split; assumption.
Qed.
End Search.

Lemma not_below_rank (x v : F) (inclusive : bool) :
  fis_nan x = false -> fis_nan v = false ->
  (if inclusive then fltb x v else fleb x v) = negb (below x inclusive v).
Proof.
  intros Hx Hv. rewrite below_rank by assumption. destruct inclusive.
  - rewrite fltb_rank by assumption.
    destruct (Z.ltb_spec (frank x) (frank v)), (Z.leb_spec (frank v) (frank x));
      simpl; (reflexivity || lia).
  - rewrite fleb_rank by assumption.
    destruct (Z.leb_spec (frank x) (frank v)), (Z.ltb_spec (frank v) (frank x));
      simpl; (reflexivity || lia).
Qed.

Lemma bound_idx_spec (m : RangedMap.t) (x : F) (inclusive : bool) :
  Forall slot_ok (slots_ m) -> StronglySorted slot_before (slots_ m) ->
  fis_nan x = false -> Z.of_nat (length (slots_ m)) < 2 ^ 31 ->
  0 <= bound_idx m x inclusive <= Z.of_nat (length (slots_ m)) /\
  Forall (slot_all (below x inclusive))
         (take (Z.to_nat (bound_idx m x inclusive)) (slots_ m)) /\
  Forall (slot_none (below x inclusive))
         (drop (S (Z.to_nat (bound_idx m x inclusive))) (slots_ m)).
Proof.
  intros Hok Hsorted Hx Hlen.
  assert (Hdown : forall v v', fis_nan v = false -> fis_nan v' = false ->
            frank v' <= frank v -> below x inclusive v = true ->
            below x inclusive v' = true).
  { intros v v' Hv Hv'. apply below_down; assumption. }
  assert (Hbefore : forall s, s ∈ slots_ m ->
            (if inclusive then fltb x (left s) else fleb x (left s))
            = negb (below x inclusive (left s))).
  { intros s Hs. apply not_below_rank; [exact Hx|].
    rewrite Forall_forall in Hok. apply (so_left_nonnan s), Hok, Hs. }
  pose proof (to_int_small (Z.of_nat (length (slots_ m))) ltac:(lia)) as Hn.
  unfold bound_idx, slot_upper_bound_idx, slot_lower_bound_idx. rewrite Hn.
  destruct inclusive.
  - destruct (slot_bound_loop_spec (below x true) Hdown (slots_ m)
                (fun slot => fgeb x (right slot)) (fun slot => fltb x (left slot))
                (length (slots_ m)) 0 (Z.of_nat (length (slots_ m)))
                Hok Hsorted) as (H1 & H2 & H3);
      try lia; try (intros; reflexivity); try exact Hbefore.
    + constructor.
    + rewrite Nat2Z.id, drop_all. constructor.
    + split; [lia|]. split; assumption.
  - destruct (slot_bound_loop_spec (below x false) Hdown (slots_ m)
                (fun slot => fgtb x (right slot)) (fun slot => fleb x (left slot))
                (length (slots_ m)) 0 (Z.of_nat (length (slots_ m)))
                Hok Hsorted) as (H1 & H2 & H3);
      try lia; try (intros; reflexivity); try exact Hbefore.
    + constructor.
    + rewrite Nat2Z.id, drop_all. constructor.
    + split; [lia|]. split; assumption.
Qed.

Lemma find_left_slot_index_spec (m : RangedMap.t) (x : F) (inclusive : bool) :
  Forall slot_ok (slots_ m) -> StronglySorted slot_before (slots_ m) ->
  fis_nan x = false -> Z.of_nat (length (slots_ m)) < 2 ^ 31 ->
  let u := find_left_slot_index m x inclusive in
  0 <= u <= Z.of_nat (length (slots_ m)) /\
  Forall (slot_all (below x (negb inclusive))) (take (Z.to_nat u) (slots_ m)) /\
  Forall (slot_none (below x (negb inclusive))) (drop (S (Z.to_nat u)) (slots_ m)).
Proof.
  intros Hok Hsorted Hx Hlen.
  replace (find_left_slot_index m x inclusive)
    with (bound_idx m x (negb inclusive))
    by (destruct inclusive; reflexivity).
  apply bound_idx_spec; assumption.
Qed.

Lemma find_right_slot_index_spec (m : RangedMap.t) (x : F) (inclusive : bool) :
  Forall slot_ok (slots_ m) -> StronglySorted slot_before (slots_ m) ->
  fis_nan x = false -> 0 < Z.of_nat (length (slots_ m)) < 2 ^ 31 ->
  let r := find_right_slot_index m x inclusive in
  -1 <= r < Z.of_nat (length (slots_ m)) /\
  Forall (slot_all (below x inclusive)) (take (Z.to_nat r) (slots_ m)) /\
  Forall (slot_none (below x inclusive)) (drop (Z.to_nat (r + 1)) (slots_ m)).
Proof.
  intros Hok Hsorted Hx Hlen.
  destruct (bound_idx_spec m x inclusive Hok Hsorted Hx ltac:(lia))
    as (Hu & Hall & Hnone).
  pose proof (to_int_small (Z.of_nat (length (slots_ m))) ltac:(lia)) as Hn.
  assert (Hfr : find_right_slot_index m x inclusive
                = let idx := Z.min (bound_idx m x inclusive)
                                   (Z.of_nat (length (slots_ m)) - 1) in
                  if negb (below x inclusive (left (slot_at (slots_ m) idx)))
                  then idx - 1 else idx).
  { unfold find_right_slot_index. rewrite Hn.
    assert (Hgen : forall idx, 0 <= idx < Z.of_nat (length (slots_ m)) ->
              (if inclusive then fltb x (left (slot_at (slots_ m) idx))
               else fleb x (left (slot_at (slots_ m) idx)))
              = negb (below x inclusive (left (slot_at (slots_ m) idx)))).
    { intros idx Hidx.
      destruct (lookup_lt_is_Some_2 (slots_ m) (Z.to_nat idx) ltac:(lia)) as [s Hs].
      assert (Hat : slot_at (slots_ m) idx = s)
        by (unfold slot_at; apply nth_lookup_Some; exact Hs).
      assert (Hin : s ∈ slots_ m) by (eapply list_elem_of_lookup_2; exact Hs).
      rewrite Forall_forall in Hok. rewrite Hat.
      apply not_below_rank; [exact Hx|].
      apply (so_left_nonnan s), Hok, Hin. }
    unfold bound_idx in *. cbv zeta.
    destruct inclusive; rewrite <- Hgen by lia; reflexivity. }
  rewrite Hfr. cbv zeta. clear Hfr.
  set (u := bound_idx m x inclusive) in *.
  set (idx := Z.min u (Z.of_nat (length (slots_ m)) - 1)).
  assert (Hidx : 0 <= idx < Z.of_nat (length (slots_ m))) by (unfold idx; lia).
  destruct (lookup_lt_is_Some_2 (slots_ m) (Z.to_nat idx) ltac:(lia)) as [s Hs].
  assert (Hat : slot_at (slots_ m) idx = s)
    by (unfold slot_at; apply nth_lookup_Some; exact Hs).
  assert (Hin : s ∈ slots_ m) by (eapply list_elem_of_lookup_2; exact Hs).
  assert (Hoks : slot_ok s) by (rewrite Forall_forall in Hok; apply Hok, Hin).
  assert (Hdown : forall v v', fis_nan v = false -> fis_nan v' = false ->
            frank v' <= frank v -> below x inclusive v = true ->
            below x inclusive v' = true).
  { intros v v' Hv Hv'. apply below_down; assumption. }
  rewrite Hat.
  destruct (below x inclusive (left s)) eqn:Eleft; simpl negb; cbv iota.
  - (* the slot found holds a value of the range *)
    split; [lia|]. split.
    + apply (Forall_take _ (Z.to_nat idx)) in Hall.
      rewrite take_take in Hall.
      replace (Z.to_nat idx `min` Z.to_nat u)%nat with (Z.to_nat idx) in Hall
        by (unfold idx; lia).
      exact Hall.
    + destruct (Z.eq_dec u (Z.of_nat (length (slots_ m)))) as [Hun|Hun].
      * rewrite drop_ge by (unfold idx; lia). constructor.
      * replace (Z.to_nat (idx + 1)) with (S (Z.to_nat u)) by (unfold idx; lia).
        exact Hnone.
  - (* it holds none: one slot back *)
    assert (Hult : u < Z.of_nat (length (slots_ m))).
    { destruct (Z.eq_dec u (Z.of_nat (length (slots_ m)))) as [Hun|Hun]; [|lia].
      exfalso.
      assert (Hs' : s ∈ take (Z.to_nat u) (slots_ m)).
      { apply elem_of_take. exists (Z.to_nat idx). split; [exact Hs|lia]. }
      rewrite Forall_forall in Hall. specialize (Hall s Hs').
      rewrite (slot_all_left _ Hdown s Hoks Hall) in Eleft. discriminate. }
    assert (Hiu : idx = u) by (unfold idx; lia).
    split; [lia|]. split.
    + apply (Forall_take _ (Z.to_nat (idx - 1))) in Hall.
      rewrite take_take in Hall.
      replace (Z.to_nat (idx - 1) `min` Z.to_nat u)%nat
        with (Z.to_nat (idx - 1)) in Hall by lia.
      exact Hall.
    + replace (Z.to_nat (idx - 1 + 1)) with (Z.to_nat idx) by lia.
      rewrite (drop_S _ s _ Hs). constructor.
      * apply (slot_none_of_left _ Hdown); assumption.
      * rewrite Hiu. exact Hnone.
Qed.

End Order.
End RangedOrder.

(* ===================================================================== *)
(** * RangedMap: what a range query collects                               *)
(* ===================================================================== *)

Module RangedQuery.
Import RangedMap RangedOrder BitmapFacts.

Section Query.
Context {F : Type} `{FloatOps F} `{!FloatOrder F} `{ScoreOps F}.

Lemma Forall_take_lookup {A} (P : A -> Prop) (l : list A) (k i : nat) (x : A) :
  Forall P (take k l) -> l !! i = Some x -> (i < k)%nat -> P x.
Proof.
  intros Hall Hi Hlt. rewrite Forall_forall in Hall. apply Hall.
  apply elem_of_take. exists i. split; assumption.
Qed.

Lemma elem_of_drop_lookup {A} (x : A) (n : nat) (l : list A) :
  x ∈ drop n l <-> exists i, l !! i = Some x /\ (n <= i)%nat.
Proof.
  rewrite list_elem_of_lookup. split.
  - intros [i Hi]. rewrite lookup_drop in Hi. exists (n + i)%nat. split; [exact Hi|lia].
  - intros (i & Hi & Hle). exists (i - n)%nat. rewrite lookup_drop.
    replace (n + (i - n))%nat with i by lia. exact Hi.
Qed.

Lemma Forall_drop_lookup {A} (P : A -> Prop) (l : list A) (k i : nat) (x : A) :
  Forall P (drop k l) -> l !! i = Some x -> (k <= i)%nat -> P x.
Proof.
  intros Hall Hi Hle. rewrite Forall_forall in Hall. apply Hall.
  apply elem_of_drop_lookup. exists i. split; assumption.
Qed.

(** ** The offsets a border selects *)

Section Cuts.
Variable s : @SlotMeta F.
Hypothesis Hlen : length (value_vec s) = length (offset_vec s).

Lemma value_of_offset (j : nat) (o : Z) :
  offset_vec s !! j = Some o -> exists v, value_vec s !! j = Some v.
Proof.
  intros Hj. apply lookup_lt_Some in Hj.
  destruct (lookup_lt_is_Some_2 (value_vec s) j ltac:(lia)) as [v Hv].
  exists v. exact Hv.
Qed.

Lemma selected_take (P : F -> bool) (c : nat) :
  Forall (fun v => P v = true) (take c (value_vec s)) ->
  Forall (fun v => P v = false) (drop c (value_vec s)) ->
  forall o, o ∈ take c (offset_vec s) <-> selected s P o.
Proof.
  intros H1 H2 o. rewrite elem_of_take. split.
  - intros (j & Hj & Hlt). destruct (value_of_offset j o Hj) as [v Hv].
    exists v. split; [exists j; split; assumption|].
    apply (cut_lookup P _ c j v H1 H2 Hv). exact Hlt.
  - intros (v & (j & Hj & Hv) & HP). exists j. split; [exact Hj|].
    apply (cut_lookup P _ c j v H1 H2 Hv). exact HP.
Qed.

Lemma selected_drop (P : F -> bool) (c : nat) :
  Forall (fun v => P v = true) (take c (value_vec s)) ->
  Forall (fun v => P v = false) (drop c (value_vec s)) ->
  forall o, o ∈ drop c (offset_vec s) <-> selected s (fun v => negb (P v)) o.
Proof.
  intros H1 H2 o. rewrite elem_of_drop_lookup. split.
  - intros (j & Hj & Hle). destruct (value_of_offset j o Hj) as [v Hv].
    exists v. split; [exists j; split; assumption|].
    destruct (P v) eqn:E; [|reflexivity].
    apply (cut_lookup P _ c j v H1 H2 Hv) in E. lia.
  - intros (v & (j & Hj & Hv) & HP). exists j. split; [exact Hj|].
    destruct (Nat.lt_ge_cases j c) as [Hlt|Hge]; [|exact Hge].
    apply (cut_lookup P _ c j v H1 H2 Hv) in Hlt. rewrite Hlt in HP.
    discriminate.
Qed.

Lemma selected_between (P Q : F -> bool) (cp cq : nat) :
  Forall (fun v => P v = true) (take cp (value_vec s)) ->
  Forall (fun v => P v = false) (drop cp (value_vec s)) ->
  Forall (fun v => Q v = true) (take cq (value_vec s)) ->
  Forall (fun v => Q v = false) (drop cq (value_vec s)) ->
  forall o, o ∈ take (cq - cp) (drop cp (offset_vec s))
            <-> selected s (fun v => Q v && negb (P v)) o.
Proof.
  intros HP1 HP2 HQ1 HQ2 o. rewrite elem_of_take. split.
  - intros (j & Hj & Hlt). rewrite lookup_drop in Hj.
    destruct (value_of_offset _ o Hj) as [v Hv].
    exists v. split; [exists (cp + j)%nat; split; assumption|].
    apply andb_true_intro. split.
    + apply (cut_lookup Q _ cq _ v HQ1 HQ2 Hv). lia.
    + destruct (P v) eqn:E; [|reflexivity].
      apply (cut_lookup P _ cp _ v HP1 HP2 Hv) in E. lia.
  - intros (v & (j & Hj & Hv) & HPQ). apply andb_prop in HPQ as [HQ HP].
    apply (cut_lookup Q _ cq j v HQ1 HQ2 Hv) in HQ.
    assert (Hge : (cp <= j)%nat).
    { destruct (Nat.lt_ge_cases j cp) as [Hlt|Hge]; [|exact Hge].
      apply (cut_lookup P _ cp j v HP1 HP2 Hv) in Hlt. rewrite Hlt in HP.
      discriminate. }
    exists (j - cp)%nat. rewrite lookup_drop.
    replace (cp + (j - cp))%nat with j by lia. split; [exact Hj|lia].
Qed.
End Cuts.

(** ** Partial sums of the slot sizes *)

Lemma offsets_upto_0 (slots : list (@SlotMeta F)) : offsets_upto slots 0 = 0.
Proof. reflexivity. Qed.

Lemma offsets_upto_S (slots : list (@SlotMeta F)) (k : nat) (s : SlotMeta) :
  slots !! k = Some s ->
  offsets_upto slots (S k) = offsets_upto slots k + Z.of_nat (length (offset_vec s)).
Proof.
  intros Hk. unfold offsets_upto. rewrite (take_S_r _ _ _ Hk).
  rewrite map_app, concat_app, length_app. simpl. rewrite app_nil_r. lia.
Qed.

Lemma offsets_upto_all (slots : list (@SlotMeta F)) (k : nat) :
  (length slots <= k)%nat ->
  offsets_upto slots k = Z.of_nat (length (concat (map offset_vec slots))).
Proof. intros Hk. unfold offsets_upto. rewrite take_ge by lia. reflexivity. Qed.

Lemma offsets_upto_mono (slots : list (@SlotMeta F)) (j k : nat) :
  (j <= k)%nat -> offsets_upto slots j <= offsets_upto slots k.
Proof.
  intros Hjk. induction Hjk as [|k Hjk IH]; [lia|].
  destruct (slots !! k) as [s|] eqn:Hk.
  - rewrite (offsets_upto_S _ _ _ Hk). lia.
  - apply lookup_ge_None in Hk.
    rewrite (offsets_upto_all slots (S k)) by lia.
    rewrite (offsets_upto_all slots k) in IH by lia. exact IH.
Qed.

Lemma offsets_upto_total (slots : list (@SlotMeta F)) (k : nat) :
  0 <= offsets_upto slots k <= Z.of_nat (length (concat (map offset_vec slots))).
Proof.
  split; [unfold offsets_upto; lia|].
  rewrite <- (offsets_upto_all slots (Nat.max k (length slots))) by lia.
  apply offsets_upto_mono. lia.
Qed.

Lemma slot_length_le_total (slots : list (@SlotMeta F)) (s : SlotMeta) :
  s ∈ slots ->
  Z.of_nat (length (offset_vec s)) <= Z.of_nat (length (concat (map offset_vec slots))).
Proof.
  intros Hs. apply list_elem_of_lookup in Hs as [k Hk].
  pose proof (offsets_upto_S _ _ _ Hk) as HS.
  pose proof (offsets_upto_total slots (S k)).
  pose proof (offsets_upto_total slots k). lia.
Qed.

Lemma to_uint32_add_l (a b : Z) : to_uint32 (to_uint32 a + b) = to_uint32 (a + b).
Proof. unfold to_uint32, wrap. apply Zplus_mod_idemp_l. Qed.

Lemma length_pos_elem {A} (l : list A) : (0 < length l)%nat <-> exists x, x ∈ l.
Proof.
  destruct l as [|x l]; simpl; split.
  - lia.
  - intros [x Hx]. inversion Hx.
  - intros _. exists x. apply list_elem_of_here.
  - intros _. lia.
Qed.

(** ** The three readers of a slot *)

Section Readers.
Variable s : @SlotMeta F.
Hypothesis Hs : slot_ok s.
Hypothesis Hsize : Z.of_nat (length (value_vec s)) < 2 ^ 32.

Lemma below_cut (x : F) (inclusive : bool) :
  fis_nan x = false ->
  Forall (fun v => below x inclusive v = true)
         (take (prefix_length (below x inclusive) (value_vec s)) (value_vec s)) /\
  Forall (fun v => below x inclusive v = false)
         (drop (prefix_length (below x inclusive) (value_vec s)) (value_vec s)).
Proof.
  intros Hx. apply prefix_length_cut.
  apply sorted_below; [exact Hx|apply (so_nonnan s Hs)|apply (so_sorted s Hs)].
Qed.

Lemma lower_than_data_facts (to : Bitmap.t) (x : F) (inclusive : bool) :
  fis_nan x = false -> Bitmap.wf to ->
  let r := get_lower_than_data s to x inclusive in
  0 <= fst r <= Z.of_nat (length (offset_vec s)) /\
  Bitmap.wf (snd r) /\
  (forall o, o ∈ Bitmap.elems (snd r)
             <-> o ∈ Bitmap.elems to \/ selected s (below x inclusive) o) /\
  (0 < fst r <-> exists o, selected s (below x inclusive) o).
Proof.
  intros Hx Hto. unfold get_lower_than_data. cbv zeta. cbn [fst snd].
  rewrite right_border_below by (assumption || apply (so_nonnan s Hs)).
  rewrite Nat2Z.id.
  set (c := prefix_length (below x inclusive) (value_vec s)).
  destruct (below_cut x inclusive Hx) as [H1 H2]. fold c in H1, H2.
  pose proof (prefix_length_le (below x inclusive) (value_vec s)) as Hle.
  fold c in Hle. pose proof (so_length s Hs) as Hlen.
  destruct (fold_Set_spec (take c (offset_vec s)) to Hto) as [Hw He].
  pose proof (selected_take s Hlen _ c H1 H2) as Hsel.
  split; [lia|]. split; [exact Hw|]. split.
  - intros o. rewrite He, elem_of_union, elem_of_list_to_set, Hsel. tauto.
  - rewrite <- (Nat2Z.inj_lt 0).
    replace c with (length (take c (offset_vec s))) at 1
      by (rewrite length_take; lia).
    rewrite length_pos_elem. split; intros [o Ho]; exists o; apply Hsel, Ho.
Qed.

Lemma greater_than_data_facts (to : Bitmap.t) (x : F) (inclusive : bool) :
  fis_nan x = false -> Bitmap.wf to ->
  let r := get_greater_than_data s to x inclusive in
  0 <= fst r <= Z.of_nat (length (offset_vec s)) /\
  Bitmap.wf (snd r) /\
  (forall o, o ∈ Bitmap.elems (snd r)
             <-> o ∈ Bitmap.elems to
                 \/ selected s (fun v => negb (below x (negb inclusive) v)) o) /\
  (0 < fst r
   <-> exists o, selected s (fun v => negb (below x (negb inclusive) v)) o).
Proof.
  intros Hx Hto. unfold get_greater_than_data. cbv zeta. cbn [fst snd].
  rewrite left_border_below by (assumption || apply (so_nonnan s Hs)).
  rewrite Nat2Z.id.
  set (c := prefix_length (below x (negb inclusive)) (value_vec s)).
  destruct (below_cut x (negb inclusive) Hx) as [H1 H2]. fold c in H1, H2.
  pose proof (prefix_length_le (below x (negb inclusive)) (value_vec s)) as Hle.
  fold c in Hle. pose proof (so_length s Hs) as Hlen.
  destruct (fold_Set_spec (drop c (offset_vec s)) to Hto) as [Hw He].
  pose proof (selected_drop s Hlen _ c H1 H2) as Hsel.
  rewrite to_uint32_small by lia.
  split; [lia|]. split; [exact Hw|]. split.
  - intros o. rewrite He, elem_of_union, elem_of_list_to_set, Hsel. tauto.
  - replace (Z.of_nat (length (offset_vec s)) - Z.of_nat c)
      with (Z.of_nat (length (drop c (offset_vec s))))
      by (rewrite length_drop; lia).
    rewrite <- (Nat2Z.inj_lt 0).
    rewrite length_pos_elem. split; intros [o Ho]; exists o; apply Hsel, Ho.
Qed.

Lemma range_data_facts (to : Bitmap.t) (lower_than : F) (include_le : bool)
    (greater_than : F) (include_ge : bool) :
  fis_nan lower_than = false -> fis_nan greater_than = false -> Bitmap.wf to ->
  let r := get_range_data s to lower_than include_le greater_than include_ge in
  let P := fun v => below lower_than include_le v
                    && negb (below greater_than (negb include_ge) v) in
  Bitmap.wf (snd r) /\
  (forall o, o ∈ Bitmap.elems (snd r) <-> o ∈ Bitmap.elems to \/ selected s P o) /\
  ((forall v, v ∈ value_vec s ->
      below greater_than (negb include_ge) v = true ->
      below lower_than include_le v = true) ->
   0 <= fst r <= Z.of_nat (length (offset_vec s)) /\
   (0 < fst r <-> exists o, selected s P o)) /\
  0 <= fst r < 2 ^ 32 /\
  (fst r = 0 -> forall o, ~ selected s P o).
Proof.
  intros Hlt Hgt Hto. unfold get_range_data. cbv zeta. cbn [fst snd].
  rewrite left_border_below, right_border_below
    by (assumption || apply (so_nonnan s Hs)).
  set (cl := prefix_length (below greater_than (negb include_ge)) (value_vec s)).
  set (cr := prefix_length (below lower_than include_le) (value_vec s)).
  destruct (below_cut greater_than (negb include_ge) Hgt) as [L1 L2].
  destruct (below_cut lower_than include_le Hlt) as [R1 R2].
  fold cl in L1, L2. fold cr in R1, R2.
  pose proof (prefix_length_le (below lower_than include_le) (value_vec s)) as Hle.
  fold cr in Hle. pose proof (so_length s Hs) as Hlen.
  replace (Z.to_nat (Z.of_nat cr - Z.of_nat cl)) with (cr - cl)%nat by lia.
  rewrite Nat2Z.id.
  destruct (fold_Set_spec (take (cr - cl) (drop cl (offset_vec s))) to Hto)
    as [Hw He].
  pose proof (selected_between s Hlen _ _ cl cr L1 L2 R1 R2) as Hsel.
  split; [exact Hw|]. split; [|split; [|split]].
  - intros o. rewrite He, elem_of_union, elem_of_list_to_set, Hsel. tauto.
  - intros Himp.
    assert (Hclr : (cl <= cr)%nat).
    { apply prefix_length_mono. apply Forall_forall. exact Himp. }
    rewrite to_uint32_small by lia. split; [lia|].
    replace (Z.of_nat cr - Z.of_nat cl)
      with (Z.of_nat (length (take (cr - cl) (drop cl (offset_vec s)))))
      by (rewrite length_take, length_drop; lia).
    rewrite <- (Nat2Z.inj_lt 0).
    rewrite length_pos_elem. split; intros [o Ho]; exists o; apply Hsel, Ho.
  - unfold to_uint32, wrap. apply Z.mod_pos_bound. lia.
  - intros Hzero o Ho. apply Hsel in Ho.
    destruct (Nat.le_gt_cases cl cr) as [Hclr|Hclr].
    + rewrite to_uint32_small in Hzero by lia.
      replace (cr - cl)%nat with 0%nat in Ho by lia. inversion Ho.
    + pose proof (prefix_length_le (below greater_than (negb include_ge))
                    (value_vec s)) as Hlel. fold cl in Hlel.
      unfold to_uint32, wrap in Hzero.
      rewrite <- (Z.mod_unique (Z.of_nat cr - Z.of_nat cl) (2 ^ 32) (-1)
                    (Z.of_nat cr - Z.of_nat cl + 2 ^ 32)) in Hzero by lia.
      lia.
Qed.
End Readers.

(** ** The accumulator *)

Section Collect.
Variable m : @RangedMap.t F.
Hypothesis Hok : Forall slot_ok (slots_ m).

Local Abbreviation total := (Z.of_nat (length (all_offsets m))).

Lemma collects_start : collects m (fun _ => False) 0 (0, Bitmap.new).
Proof.
  exists 0. cbn [fst snd]. split; [reflexivity|]. split; [lia|].
  split; [apply wf_new|]. split.
  - intros o. rewrite elems_new. set_solver.
  - split; [lia|]. intros [_ []].
Qed.

Lemma collects_add (X Y : Z -> Prop) (k : Z) (a : Z * Bitmap.t) (cy : Z)
    (b : Bitmap.t) :
  collects m X k a -> 0 <= cy <= total -> Bitmap.wf b ->
  (forall o, o ∈ Bitmap.elems b <-> o ∈ Bitmap.elems (snd a) \/ Y o) ->
  (0 < cy <-> exists o, Y o) ->
  collects m (fun o => X o \/ Y o) (k + 1) (to_uint32 (fst a + cy), b).
Proof.
  intros (c & Hfst & Hc & Hwf & Hel & Hpos) Hcy Hb Helb Hposy.
  exists (c + cy). cbn [fst snd]. split.
  - rewrite Hfst. apply to_uint32_add_l.
  - split; [lia|]. split; [exact Hb|]. split.
    + intros o. rewrite Helb, Hel. reflexivity.
    + split.
      * intros Hlt. destruct (Z.lt_ge_cases 0 c) as [Hc0|Hc0].
        -- apply Hpos in Hc0 as [o Ho]. exists o. left. exact Ho.
        -- assert (Hy : 0 < cy) by lia. apply Hposy in Hy as [o Ho].
           exists o. right. exact Ho.
      * intros [o [Ho|Ho]].
        -- assert (0 < c) by (apply Hpos; exists o; exact Ho). lia.
        -- assert (0 < cy) by (apply Hposy; exists o; exact Ho). lia.
Qed.

Lemma collects_ext (X Y : Z -> Prop) (k : Z) (a : Z * Bitmap.t) :
  (forall o, X o <-> Y o) -> collects m X k a -> collects m Y k a.
Proof.
  intros Hxy (c & Hfst & Hc & Hwf & Hel & Hpos).
  exists c. split; [exact Hfst|]. split; [exact Hc|]. split; [exact Hwf|]. split.
  - intros o. rewrite Hel. apply Hxy.
  - rewrite Hpos. split; intros [o Ho]; exists o; apply Hxy, Ho.
Qed.

Lemma collects_more (X : Z -> Prop) (k k' : Z) (a : Z * Bitmap.t) :
  k <= k' -> collects m X k a -> collects m X k' a.
Proof.
  intros Hk (c & Hfst & Hc & Hrest). exists c. split; [exact Hfst|].
  split; [nia|exact Hrest].
Qed.

Lemma collects_zero (X : Z -> Prop) (k : Z) (a : Z * Bitmap.t) :
  collects m X k a -> (forall o, ~ X o) -> fst a = 0.
Proof.
  intros (c & Hfst & Hc & Hwf & Hel & Hpos) Hno.
  destruct (Z.lt_ge_cases 0 c) as [Hlt|Hge].
  - apply Hpos in Hlt as [o Ho]. destruct (Hno o Ho).
  - rewrite Hfst. replace c with 0 by lia. reflexivity.
Qed.

(** The outcome of the test [cnt <= 0]. *)
Lemma collects_null (X : Z -> Prop) (k : Z) (a : Z * Bitmap.t) :
  collects m X k a -> k * total < 2 ^ 32 ->
  ((fst a <=? 0) = true <-> forall o, ~ X o).
Proof.
  intros (c & Hfst & Hc & Hwf & Hel & Hpos) Hk.
  rewrite Hfst, to_uint32_small by lia. rewrite Z.leb_le. split.
  - intros Hle o Ho. assert (0 < c) by (apply Hpos; exists o; exact Ho). lia.
  - intros Hno. destruct (Z.lt_ge_cases 0 c) as [Hlt|Hge]; [|lia].
    apply Hpos in Hlt as [o Ho]. destruct (Hno o Ho).
Qed.

Lemma offset_has_value (s : @SlotMeta F) (o : Z) :
  slot_ok s -> (o ∈ offset_vec s <-> exists v, slot_holds s o v).
Proof.
  intros Hs. rewrite list_elem_of_lookup. split.
  - intros [j Hj]. destruct (value_of_offset s (so_length s Hs) j o Hj) as [v Hv].
    exists v, j. split; assumption.
  - intros (v & j & Hj & _). exists j. exact Hj.
Qed.

Lemma union_slots_facts (j : nat) (from to : Z) (a : Z * Bitmap.t) (c0 : Z) :
  Z.to_nat (to - from) = j -> 0 <= from -> to <= Z.of_nat (length (slots_ m)) ->
  fst a = to_uint32 c0 -> Bitmap.wf (snd a) ->
  let r := union_slots (slots_ m) from to a in
  fst r = to_uint32 (c0 + (offsets_upto (slots_ m) (Z.to_nat (Z.max from to))
                           - offsets_upto (slots_ m) (Z.to_nat from))) /\
  Bitmap.wf (snd r) /\
  (forall o, o ∈ Bitmap.elems (snd r)
             <-> o ∈ Bitmap.elems (snd a) \/ in_slots m from to o).
Proof.
  revert from a c0. induction j as [|j IH]; intros from a c0 Hj Hfrom Hto Hfst Hwf.
  - assert (Hle : to <= from) by lia.
    unfold union_slots. replace (seqZ from (to - from)) with (@nil Z)
      by (symmetry; apply seqZ_nil; lia).
    cbn [fold_left]. rewrite Z.max_l by lia. split; [rewrite Hfst; f_equal; lia|].
    split; [exact Hwf|]. intros o. split; [tauto|].
    intros [Ho|(i & s & Hi & _)]; [exact Ho|lia].
  - assert (Hlt : from < to) by lia.
    unfold union_slots. rewrite seqZ_cons by lia. cbn [fold_left].
    replace (Z.succ from) with (from + 1) by lia.
    replace (Z.pred (to - from)) with (to - (from + 1)) by lia.
    destruct (lookup_lt_is_Some_2 (slots_ m) (Z.to_nat from) ltac:(lia)) as [s Hs].
    assert (Hat : slot_at (slots_ m) from = s)
      by (unfold slot_at; apply nth_lookup_Some; exact Hs).
    rewrite Hat.
    assert (Hoks : slot_ok s).
    { rewrite Forall_forall in Hok. apply Hok. eapply list_elem_of_lookup_2, Hs. }
    destruct (Union_ptr_spec (snd a) (bitmap s) Hwf (so_wf s Hoks)) as [Hw He].
    set (a1 := (to_uint32 (fst a + Z.of_nat (length (offset_vec s))),
                Bitmap.Union_ptr (snd a) (Some (bitmap s)))).
    destruct (IH (from + 1) a1 (c0 + Z.of_nat (length (offset_vec s)))
                ltac:(lia) ltac:(lia) Hto) as (H1 & H2 & H3).
    { unfold a1. cbn [fst]. rewrite Hfst. apply to_uint32_add_l. }
    { exact Hw. }
    fold (union_slots (slots_ m) (from + 1) to a1).
    split; [|split; [exact H2|]].
    + rewrite H1. f_equal.
      replace (Z.to_nat (from + 1)) with (S (Z.to_nat from)) by lia.
      rewrite (offsets_upto_S _ _ _ Hs).
      replace (Z.max (from + 1) to) with (Z.max from to) by lia. lia.
    + intros o. rewrite H3. unfold a1. cbn [snd].
      rewrite He, elem_of_union, (so_bitmap s Hoks), elem_of_list_to_set.
      split.
      * intros [[Ho|Ho]|(i & s' & Hi & Hs' & Ho)].
        -- left. exact Ho.
        -- right. exists from, s. split; [lia|]. split; assumption.
        -- right. exists i, s'. split; [lia|]. split; assumption.
      * intros [Ho|(i & s' & Hi & Hs' & Ho)]; [left; left; exact Ho|].
        destruct (Z.eq_dec i from) as [->|Hne].
        -- rewrite Hs in Hs'. injection Hs' as <-. left. right. exact Ho.
        -- right. exists i, s'. split; [lia|]. split; assumption.
Qed.

Lemma offsets_upto_strict (j k : nat) :
  (j < k)%nat -> (k <= length (slots_ m))%nat ->
  offsets_upto (slots_ m) j < offsets_upto (slots_ m) k.
Proof.
  intros Hjk Hk.
  destruct (lookup_lt_is_Some_2 (slots_ m) j ltac:(lia)) as [s Hs].
  assert (Hoks : slot_ok s).
  { rewrite Forall_forall in Hok. apply Hok. eapply list_elem_of_lookup_2, Hs. }
  pose proof (offsets_upto_S _ _ _ Hs) as HS.
  pose proof (offsets_upto_mono (slots_ m) (S j) k ltac:(lia)).
  pose proof (so_nonempty s Hoks) as Hne. pose proof (so_length s Hoks) as Hlen.
  destruct (value_vec s); [congruence|]. simpl in Hlen. lia.
Qed.

Lemma collects_union (X : Z -> Prop) (k : Z) (a : Z * Bitmap.t) (from to : Z) :
  0 <= from -> to <= Z.of_nat (length (slots_ m)) -> 0 <= k ->
  collects m X k a ->
  collects m (fun o => X o \/ in_slots m from to o) (k + 1)
           (union_slots (slots_ m) from to a).
Proof.
  intros Hfrom Hto Hk (c & Hfst & Hc & Hwf & Hel & Hpos).
  destruct (union_slots_facts _ from to a c eq_refl Hfrom Hto Hfst Hwf)
    as (H1 & H2 & H3).
  set (d := offsets_upto (slots_ m) (Z.to_nat (Z.max from to))
            - offsets_upto (slots_ m) (Z.to_nat from)) in *.
  assert (Hd : 0 <= d <= total).
  { unfold d. pose proof (offsets_upto_total (slots_ m) (Z.to_nat (Z.max from to))).
    pose proof (offsets_upto_total (slots_ m) (Z.to_nat from)).
    pose proof (offsets_upto_mono (slots_ m) (Z.to_nat from)
                  (Z.to_nat (Z.max from to)) ltac:(lia)).
    unfold all_offsets. lia. }
  assert (Hdpos : 0 < d <-> exists o, in_slots m from to o).
  { split.
    - intros Hlt. assert (Hft : from < to).
      { destruct (Z.lt_ge_cases from to) as [Hft|Hft]; [exact Hft|].
        unfold d in Hlt. rewrite Z.max_l in Hlt by lia. lia. }
      destruct (lookup_lt_is_Some_2 (slots_ m) (Z.to_nat from) ltac:(lia)) as [s Hs].
      assert (Hoks : slot_ok s).
      { rewrite Forall_forall in Hok. apply Hok. eapply list_elem_of_lookup_2, Hs. }
      pose proof (so_nonempty s Hoks) as Hne. pose proof (so_length s Hoks) as Hlen.
      destruct (offset_vec s) as [|o os] eqn:Eo.
      + destruct (value_vec s); [congruence|discriminate].
      + exists o, from, s. split; [lia|]. split; [exact Hs|].
        rewrite Eo. apply list_elem_of_here.
    - intros (o & i & s & Hi & Hs & Ho). unfold d.
      pose proof (offsets_upto_strict (Z.to_nat from) (Z.to_nat (Z.max from to))
                    ltac:(lia) ltac:(lia)). lia. }
  exists (c + d). split; [exact H1|]. split; [nia|]. split; [exact H2|]. split.
  - intros o. rewrite H3, Hel. reflexivity.
  - split.
    + intros Hlt. destruct (Z.lt_ge_cases 0 c) as [Hc0|Hc0].
      * apply Hpos in Hc0 as [o Ho]. exists o. left. exact Ho.
      * assert (Hy : 0 < d) by lia. apply Hdpos in Hy as [o Ho].
        exists o. right. exact Ho.
    + intros [o [Ho|Ho]].
      * assert (0 < c) by (apply Hpos; exists o; exact Ho). lia.
      * assert (0 < d) by (apply Hdpos; exists o; exact Ho). lia.
Qed.

End Collect.

End Query.
End RangedQuery.

(* ===================================================================== *)
(** * RangedMap: the scan of a range query                                 *)
(* ===================================================================== *)

Module RangedScan.
Import RangedMap RangedOrder RangedQuery BitmapFacts.

Section Scan.
Context {F : Type} `{FloatOps F} `{!FloatOrder F} `{ScoreOps F}.
Variable m : @RangedMap.t F.
Variables (lower_than : F) (include_le : bool) (greater_than : F) (include_ge : bool).
Hypothesis Hok : Forall slot_ok (slots_ m).

Local Abbreviation slots := (slots_ m).
Local Abbreviation n := (Z.of_nat (length (slots_ m))).
Local Abbreviation U := (below lower_than include_le).
Local Abbreviation L := (below greater_than (negb include_ge)).
Local Abbreviation Pin := (fun v : F => U v && negb (L v)).
Local Abbreviation Pout := (fun v : F => negb (U v && negb (L v))).

Lemma slot_at_lookup (i : Z) (s : SlotMeta) :
  slots !! Z.to_nat i = Some s -> slot_at slots i = s.
Proof. intros Hs. unfold slot_at. apply nth_lookup_Some. exact Hs. Qed.

Lemma lookup_slot_ok (i : nat) (s : SlotMeta) : slots !! i = Some s -> slot_ok s.
Proof.
  intros Hs. rewrite Forall_forall in Hok. apply Hok.
  eapply list_elem_of_lookup_2, Hs.
Qed.

Lemma selected_value (s : SlotMeta) (P : F -> bool) (o : Z) :
  selected s P o -> exists v, v ∈ value_vec s /\ slot_holds s o v /\ P v = true.
Proof.
  intros (v & (j & Hj & Hv) & HP). exists v. split.
  - eapply list_elem_of_lookup_2, Hv.
  - split; [exists j; split; assumption|exact HP].
Qed.

Lemma selected_impl (s : SlotMeta) (P Q : F -> bool) (o : Z) :
  (forall v, v ∈ value_vec s -> P v = true -> Q v = true) ->
  selected s P o -> selected s Q o.
Proof.
  intros Himp Hsel. apply selected_value in Hsel as (v & Hin & Hh & HP).
  exists v. split; [exact Hh|]. apply Himp; assumption.
Qed.

Lemma selected_whole (s : SlotMeta) (P : F -> bool) (o : Z) :
  slot_ok s -> (forall v, v ∈ value_vec s -> P v = true) ->
  o ∈ offset_vec s -> selected s P o.
Proof.
  intros Hs Hall Ho. apply (offset_has_value s o Hs) in Ho as (v & j & Hj & Hv).
  exists v. split; [exists j; split; assumption|].
  apply Hall. eapply list_elem_of_lookup_2, Hv.
Qed.

Lemma selected_offset (s : SlotMeta) (P : F -> bool) (o : Z) :
  selected s P o -> o ∈ offset_vec s.
Proof. intros (v & (j & Hj & _) & _). eapply list_elem_of_lookup_2, Hj. Qed.

Lemma all_true (P : F -> bool) (s : SlotMeta) (v : F) :
  slot_all P s -> v ∈ value_vec s -> P v = true.
Proof. unfold slot_all. rewrite Forall_forall. intros Ha Hv. apply Ha, Hv. Qed.

Lemma none_false (P : F -> bool) (s : SlotMeta) (v : F) :
  slot_none P s -> v ∈ value_vec s -> P v = false.
Proof. unfold slot_none. rewrite Forall_forall. intros Ha Hv. apply Ha, Hv. Qed.

Lemma selection_by_index (P : F -> bool) (o : Z) :
  slot_selection m P o
  <-> exists (i : Z) (s : SlotMeta),
        0 <= i < n /\ slots !! Z.to_nat i = Some s /\ selected s P o.
Proof.
  split.
  - intros (s & Hs & Hsel). apply list_elem_of_lookup in Hs as [j Hj].
    exists (Z.of_nat j), s. pose proof (lookup_lt_Some _ _ _ Hj).
    rewrite Nat2Z.id. split; [lia|]. split; assumption.
  - intros (i & s & _ & Hs & Hsel). exists s. split; [|exact Hsel].
    eapply list_elem_of_lookup_2, Hs.
Qed.

(** ** What the two slot indices separate *)

Section Indices.
Variables l r : Z.
Hypothesis Hl : 0 <= l <= n.
Hypothesis Hr : -1 <= r < n.
Hypothesis HLall : Forall (slot_all L) (take (Z.to_nat l) slots).
Hypothesis HLnone : Forall (slot_none L) (drop (S (Z.to_nat l)) slots).
Hypothesis HUall : Forall (slot_all U) (take (Z.to_nat r) slots).
Hypothesis HUnone : Forall (slot_none U) (drop (Z.to_nat (r + 1)) slots).

Lemma before_l (i : Z) (s : SlotMeta) :
  slots !! Z.to_nat i = Some s -> 0 <= i < l -> slot_all L s.
Proof. intros Hs Hi. eapply Forall_take_lookup; [exact HLall|exact Hs|lia]. Qed.

Lemma after_l (i : Z) (s : SlotMeta) :
  slots !! Z.to_nat i = Some s -> l < i -> slot_none L s.
Proof. intros Hs Hi. eapply Forall_drop_lookup; [exact HLnone|exact Hs|lia]. Qed.

Lemma before_r (i : Z) (s : SlotMeta) :
  slots !! Z.to_nat i = Some s -> 0 <= i < r -> slot_all U s.
Proof. intros Hs Hi. eapply Forall_take_lookup; [exact HUall|exact Hs|lia]. Qed.

Lemma after_r (i : Z) (s : SlotMeta) :
  slots !! Z.to_nat i = Some s -> 0 <= i -> r < i -> slot_none U s.
Proof. intros Hs Hi0 Hi. eapply Forall_drop_lookup; [exact HUnone|exact Hs|lia]. Qed.

(** The slots strictly between the two indices hold values inside the
    interval only. *)
Lemma inside_middle (o : Z) :
  in_slots m (l + 1) r o ->
  exists (i : Z) (s : SlotMeta),
    l < i < r /\ slots !! Z.to_nat i = Some s /\ selected s Pin o.
Proof.
  intros (i & s & Hi & Hs & Ho). exists i, s. split; [lia|]. split; [exact Hs|].
  apply selected_whole; [eapply lookup_slot_ok, Hs| |exact Ho].
  intros v Hv. rewrite (all_true U s v) by (try assumption; eapply before_r; eauto; lia).
  rewrite (none_false L s v) by (try assumption; eapply after_l; eauto; lia).
  reflexivity.
Qed.

Lemma inside_lt (sl sr : SlotMeta) (o : Z) :
  l < r -> slots !! Z.to_nat l = Some sl -> slots !! Z.to_nat r = Some sr ->
  (((False \/ in_slots m (l + 1) r o) \/ selected sr U o)
   \/ selected sl (fun v => negb (L v)) o)
  <-> slot_selection m Pin o.
Proof.
  intros Hlr Hsl Hsr. rewrite selection_by_index. split.
  - intros [[[[]|Hmid]|Hsel]|Hsel].
    + destruct (inside_middle o Hmid) as (i & s & Hi & Hs & Hsel).
      exists i, s. split; [lia|]. split; assumption.
    + exists r, sr. split; [lia|]. split; [exact Hsr|].
      eapply selected_impl; [|exact Hsel]. intros v Hv HU. cbv beta.
      rewrite HU, (none_false L sr v) by (try assumption; eapply after_l; eauto; lia).
      reflexivity.
    + exists l, sl. split; [lia|]. split; [exact Hsl|].
      eapply selected_impl; [|exact Hsel]. intros v Hv HL. cbv beta.
      rewrite HL, (all_true U sl v) by (try assumption; eapply before_r; eauto; lia).
      reflexivity.
  - intros (i & s & Hi & Hs & Hsel).
    apply selected_value in Hsel as (v & Hv & Hh & HP).
    apply andb_prop in HP as [HU HL].
    destruct (Z.lt_trichotomy i l) as [Hil|[->|Hil]].
    + rewrite (all_true L s v) in HL by (try assumption; eapply before_l; eauto; lia).
      discriminate.
    + rewrite Hsl in Hs. injection Hs as <-. right. exists v. split; assumption.
    + destruct (Z.lt_trichotomy i r) as [Hir|[->|Hir]].
      * left. left. right. exists i, s. split; [lia|]. split; [exact Hs|].
        destruct Hh as (j & Hj & _). eapply list_elem_of_lookup_2, Hj.
      * rewrite Hsr in Hs. injection Hs as <-. left. right.
        exists v. split; assumption.
      * rewrite (none_false U s v) in HU
          by (try assumption; eapply after_r; eauto; lia).
        discriminate.
Qed.

Lemma inside_eq (sr : SlotMeta) (o : Z) :
  l = r -> slots !! Z.to_nat r = Some sr ->
  ((False \/ in_slots m (l + 1) r o) \/ selected sr Pin o)
  <-> slot_selection m Pin o.
Proof.
  intros Hlr Hsr. rewrite selection_by_index. split.
  - intros [[[]|(i & s & Hi & _)]|Hsel]; [lia|].
    exists r, sr. split; [lia|]. split; assumption.
  - intros (i & s & Hi & Hs & Hsel).
    destruct (Z.lt_trichotomy i r) as [Hir|[->|Hir]].
    + apply selected_value in Hsel as (v & Hv & Hh & HP).
      apply andb_prop in HP as [HU HL].
      rewrite (all_true L s v) in HL by (try assumption; eapply before_l; eauto; lia).
      discriminate.
    + rewrite Hsr in Hs. injection Hs as <-. right. exact Hsel.
    + apply selected_value in Hsel as (v & Hv & Hh & HP).
      apply andb_prop in HP as [HU HL].
      rewrite (none_false U s v) in HU
        by (try assumption; eapply after_r; eauto; lia).
      discriminate.
Qed.

Lemma inside_none (o : Z) :
  r < l \/ r = -1 \/ l = n ->
  (False \/ in_slots m (l + 1) r o) <-> slot_selection m Pin o.
Proof.
  intros Hlr. rewrite selection_by_index. split.
  - intros [[]|(i & s & Hi & _)]. lia.
  - intros (i & s & Hi & Hs & Hsel).
    apply selected_value in Hsel as (v & Hv & Hh & HP).
    apply andb_prop in HP as [HU HL]. exfalso.
    destruct (Z.lt_ge_cases r i) as [Hri|Hri].
    + rewrite (none_false U s v) in HU
        by (try assumption; eapply after_r; eauto; lia).
      discriminate.
    + rewrite (all_true L s v) in HL by (try assumption; eapply before_l; eauto; lia).
      discriminate.
Qed.

Lemma outside_parts (o : Z) :
  ((((False \/ in_slots m 0 l o) \/ low_part m L l o) \/ in_slots m (r + 1) n o)
   \/ high_part m U r o)
  <-> slot_selection m Pout o.
Proof.
  rewrite selection_by_index. split.
  - intros [[[[[]|(i & s & Hi & Hs & Ho)]|(sl & Hln & Hsl & Hsel)]
            |(i & s & Hi & Hs & Ho)]|(sr & Hrn & Hsr & Hsel)].
    + exists i, s. split; [lia|]. split; [exact Hs|].
      apply selected_whole; [eapply lookup_slot_ok, Hs| |exact Ho].
      intros v Hv. rewrite (all_true L s v)
        by (try assumption; eapply before_l; eauto; lia).
      rewrite andb_false_r. reflexivity.
    + exists l, sl. split; [lia|]. split; [exact Hsl|].
      eapply selected_impl; [|exact Hsel]. intros v Hv HL. cbv beta.
      rewrite HL, andb_false_r. reflexivity.
    + exists i, s. split; [lia|]. split; [exact Hs|].
      apply selected_whole; [eapply lookup_slot_ok, Hs| |exact Ho].
      intros v Hv. rewrite (none_false U s v)
        by (try assumption; eapply after_r; eauto; lia).
      reflexivity.
    + exists r, sr. split; [lia|]. split; [exact Hsr|].
      eapply selected_impl; [|exact Hsel]. intros v Hv HU. cbv beta in *.
      apply negb_true_iff in HU. rewrite HU. reflexivity.
  - intros (i & s & Hi & Hs & Hsel).
    apply selected_value in Hsel as (v & Hv & Hh & HP).
    assert (Ho : o ∈ offset_vec s).
    { destruct Hh as (j & Hj & _). eapply list_elem_of_lookup_2, Hj. }
    destruct (L v) eqn:HL.
    + destruct (Z.lt_trichotomy i l) as [Hil|[->|Hil]].
      * left. left. left. right. exists i, s. split; [lia|]. split; assumption.
      * left. left. right. exists s. split; [lia|]. split; [exact Hs|].
        exists v. split; assumption.
      * rewrite (none_false L s v) in HL
          by (try assumption; eapply after_l; eauto; lia).
        discriminate.
    + rewrite andb_true_r in HP. 
      destruct (Z.lt_trichotomy i r) as [Hir|[->|Hir]].
      * rewrite (all_true U s v) in HP
          by (try assumption; eapply before_r; eauto; lia).
        discriminate.
      * right. exists s. split; [lia|]. split; [exact Hs|].
        exists v. split; assumption.
      * left. right. exists i, s. split; [lia|]. split; assumption.
Qed.
End Indices.

(** ** The scan *)

Hypothesis Hsorted : StronglySorted slot_before slots.
Hypothesis Hn : 0 < n < 2 ^ 31.
Hypothesis Htotal : Z.of_nat (length (all_offsets m)) <= 2 ^ 29.
Hypothesis Hlt : fis_nan lower_than = false.
Hypothesis Hgt : fis_nan greater_than = false.

Lemma collects_gathers (X : Z -> Prop) (k : Z) (a : Z * Bitmap.t) :
  collects m X k a ->
  Bitmap.wf (snd a) /\ (forall o, o ∈ Bitmap.elems (snd a) <-> X o).
Proof. intros (c & _ & _ & Hwf & Hel & _). split; assumption. Qed.

Lemma slot_size (i : nat) (s : SlotMeta) :
  slots !! i = Some s ->
  Z.of_nat (length (value_vec s)) < 2 ^ 32 /\
  Z.of_nat (length (offset_vec s)) <= Z.of_nat (length (all_offsets m)).
Proof.
  intros Hs. pose proof (lookup_slot_ok i s Hs) as Hoks.
  pose proof (slot_length_le_total slots s ltac:(eapply list_elem_of_lookup_2, Hs)).
  rewrite (so_length s Hoks). unfold all_offsets in *. lia.
Qed.

Lemma scan_inside :
  let a := range_scan m false lower_than include_le greater_than include_ge in
  Bitmap.wf (snd a) /\
  (forall o, o ∈ Bitmap.elems (snd a) <-> slot_selection m Pin o) /\
  ((fst a <=? 0) = true -> forall o, ~ slot_selection m Pin o) /\
  ((forall v, fis_nan v = false -> L v = true -> U v = true) ->
   collects m (slot_selection m Pin) 3 a).
Proof.
  unfold range_scan. rewrite (to_int_small n) by lia. cbn [negb].
  destruct (find_right_slot_index_spec m lower_than include_le Hok Hsorted Hlt Hn)
    as (Hr & HUall & HUnone).
  destruct (find_left_slot_index_spec m greater_than include_ge Hok Hsorted Hgt
              ltac:(lia)) as (Hl & HLall & HLnone).
  set (r := find_right_slot_index m lower_than include_le) in *.
  set (l := find_left_slot_index m greater_than include_ge) in *.
  pose proof (collects_union m Hok _ 0 _ (l + 1) r ltac:(lia) ltac:(lia)
                ltac:(lia) (collects_start m Hok)) as Ha1.
  cbn [Z.add] in Ha1.
  set (a1 := union_slots slots (l + 1) r (0, Bitmap.new)) in *.
  assert (Hfull : forall a, collects m (slot_selection m Pin) 3 a ->
            Bitmap.wf (snd a) /\
            (forall o, o ∈ Bitmap.elems (snd a) <-> slot_selection m Pin o) /\
            ((fst a <=? 0) = true -> forall o, ~ slot_selection m Pin o) /\
            ((forall v, fis_nan v = false -> L v = true -> U v = true) ->
             collects m (slot_selection m Pin) 3 a)).
  { intros a Hc. destruct (collects_gathers _ _ _ Hc) as [Hw He].
    split; [exact Hw|]. split; [exact He|]. split; [|intros _; exact Hc].
    apply (collects_null m _ 3 a Hc). lia. }
  assert (Hnone : r < l \/ r = -1 \/ l = n ->
            collects m (slot_selection m Pin) 3 a1).
  { intros Hcase. apply (collects_more m _ 1 3); [lia|].
    eapply collects_ext; [|exact Ha1].
    intros o. apply (inside_none l r Hl Hr HLall HUnone o Hcase). }
  destruct (Z.eqb_spec r (-1)) as [Er|Er]; [apply Hfull, Hnone; lia|].
  destruct (Z.eqb_spec l n) as [El|El]; [apply Hfull, Hnone; lia|].
  cbn [negb andb].
  destruct (lookup_lt_is_Some_2 slots (Z.to_nat r) ltac:(lia)) as [sr Hsr].
  destruct (lookup_lt_is_Some_2 slots (Z.to_nat l) ltac:(lia)) as [sl Hsl].
  rewrite (slot_at_lookup r sr Hsr), (slot_at_lookup l sl Hsl).
  pose proof (lookup_slot_ok _ _ Hsr) as Hoksr.
  pose proof (lookup_slot_ok _ _ Hsl) as Hoksl.
  destruct (slot_size _ _ Hsr) as [Hsz_r Hle_r].
  destruct (slot_size _ _ Hsl) as [Hsz_l Hle_l].
  destruct (collects_gathers _ _ _ Ha1) as [Hw1 He1].
  destruct (Z.ltb_spec l r) as [Hlr|Hlr].
  - (* two border slots *)
    destruct (lower_than_data_facts sr Hoksr Hsz_r (snd a1) lower_than include_le
                Hlt Hw1) as (Hc2 & Hw2 & He2 & Hp2).
    destruct (get_lower_than_data sr (snd a1) lower_than include_le)
      as [c2 t2] eqn:E2. cbn [fst snd] in Hc2, Hw2, He2, Hp2.
    pose proof (collects_add m _ _ 1 a1 c2 t2 Ha1 ltac:(lia) Hw2 He2 Hp2) as Ha2.
    destruct (greater_than_data_facts sl Hoksl Hsz_l t2 greater_than include_ge
                Hgt Hw2) as (Hc3 & Hw3 & He3 & Hp3).
    destruct (get_greater_than_data sl t2 greater_than include_ge)
      as [c3 t3] eqn:E3. cbn [fst snd] in Hc3, Hw3, He3, Hp3.
    pose proof (collects_add m _ _ (1 + 1) (to_uint32 (fst a1 + c2), t2) c3 t3
                  Ha2 ltac:(lia) Hw3 He3 Hp3) as Ha3.
    cbn [fst snd] in Ha3.
    apply Hfull.
    eapply collects_ext; [|exact Ha3].
    intros o. apply (inside_lt l r Hl Hr HLall HLnone HUall HUnone sl sr o Hlr Hsl Hsr).
  - destruct (Z.eqb_spec l r) as [Elr|Elr]; [|apply Hfull, Hnone; lia].
    (* one slot holds both borders *)
    destruct (range_data_facts sr Hoksr Hsz_r (snd a1) lower_than include_le
                greater_than include_ge Hlt Hgt Hw1)
      as (Hw2 & He2 & Hcond & Hrange & Hzero).
    destruct (get_range_data sr (snd a1) lower_than include_le greater_than
                include_ge) as [c2 t2] eqn:E2.
    cbn [fst snd] in Hw2, He2, Hcond, Hrange, Hzero.
    assert (Hmid : forall o, ~ (False \/ in_slots m (l + 1) r o)).
    { intros o [[]|(i & s & Hi & _)]. lia. }
    split; [exact Hw2|]. split; [|split].
    + intros o. rewrite He2, He1.
      apply (inside_eq l r Hl Hr HLall HUnone sr o Elr Hsr).
    + rewrite (collects_zero m _ _ _ Ha1 Hmid). cbn [Z.add].
      rewrite to_uint32_small by lia. intros Hle o Hsel.
      apply Z.leb_le in Hle. cbn [fst] in Hle.
      apply (inside_eq l r Hl Hr HLall HUnone sr o Elr Hsr) in Hsel.
      destruct Hsel as [Hsel|Hsel]; [exact (Hmid o Hsel)|].
      assert (Hc0 : c2 = 0) by lia. apply (Hzero Hc0 o Hsel).
    + intros Himp. destruct Hcond as [Hc2 Hp2].
      { intros v Hv. apply Himp. apply (slot_value_nonnan sr); assumption. }
      pose proof (collects_add m _ _ 1 a1 c2 t2 Ha1 ltac:(lia) Hw2 He2 Hp2) as Ha2.
      apply (collects_more m _ (1 + 1) 3); [lia|].
      eapply collects_ext; [|exact Ha2].
      intros o. apply (inside_eq l r Hl Hr HLall HUnone sr o Elr Hsr).
Qed.

Lemma scan_outside :
  collects m (slot_selection m Pout) 4
    (range_scan m true lower_than include_le greater_than include_ge).
Proof.
  unfold range_scan. rewrite (to_int_small n) by lia. cbn [negb].
  destruct (find_right_slot_index_spec m lower_than include_le Hok Hsorted Hlt Hn)
    as (Hr & HUall & HUnone).
  destruct (find_left_slot_index_spec m greater_than include_ge Hok Hsorted Hgt
              ltac:(lia)) as (Hl & HLall & HLnone).
  set (r := find_right_slot_index m lower_than include_le) in *.
  set (l := find_left_slot_index m greater_than include_ge) in *.
  pose proof (collects_union m Hok _ 0 _ 0 l ltac:(lia) ltac:(lia)
                ltac:(lia) (collects_start m Hok)) as Ha1.
  set (a1 := union_slots slots 0 l (0, Bitmap.new)) in *.
  destruct (collects_gathers _ _ _ Ha1) as [Hw1 He1].
  (* the slot of the lower end *)
  set (a2 := if negb (l =? n) && negb (l =? -1) then _ else a1).
  assert (Ha2 : collects m (fun o => (False \/ in_slots m 0 l o)
                                     \/ low_part m L l o) 2 a2).
  { unfold a2. destruct (Z.eqb_spec l n) as [El|El]; cbn [negb andb].
    - apply (collects_more m _ (0 + 1) 2); [lia|].
      eapply collects_ext; [|exact Ha1]. intros o. split; [tauto|].
      intros [Ho|(sl & Hln & _)]; [exact Ho|lia].
    - destruct (Z.eqb_spec l (-1)) as [El1|El1]; [lia|]. cbn [negb].
      destruct (lookup_lt_is_Some_2 slots (Z.to_nat l) ltac:(lia)) as [sl Hsl].
      rewrite (slot_at_lookup l sl Hsl).
      pose proof (lookup_slot_ok _ _ Hsl) as Hoksl.
      destruct (slot_size _ _ Hsl) as [Hsz_l Hle_l].
      destruct (lower_than_data_facts sl Hoksl Hsz_l (snd a1) greater_than
                  (negb include_ge) Hgt Hw1) as (Hc & Hw & He & Hp).
      destruct (get_lower_than_data sl (snd a1) greater_than (negb include_ge))
        as [c b] eqn:E. cbn [fst snd] in Hc, Hw, He, Hp.
      pose proof (collects_add m _ _ (0 + 1) a1 c b Ha1 ltac:(lia) Hw He Hp) as Hadd.
      apply (collects_more m _ (0 + 1 + 1) 2); [lia|].
      eapply collects_ext; [|exact Hadd]. intros o. cbv beta.
      assert (Hlow : selected sl L o <-> low_part m L l o).
      { split.
        - intros Hsel. exists sl. split; [exact El|]. split; assumption.
        - intros (sl' & _ & Hsl' & Hsel). rewrite Hsl in Hsl'.
          injection Hsl' as <-. exact Hsel. }
      rewrite Hlow. reflexivity. }
  clearbody a2.
  pose proof (collects_union m Hok _ 2 a2 (r + 1) n ltac:(lia) ltac:(lia)
                ltac:(lia) Ha2) as Ha3.
  set (a3 := union_slots slots (r + 1) n a2) in *.
  destruct (collects_gathers _ _ _ Ha3) as [Hw3 He3].
  destruct (Z.eqb_spec r (-1)) as [Er|Er]; cbn [negb andb].
  - apply (collects_more m _ (2 + 1) 4); [lia|].
    eapply collects_ext; [|exact Ha3]. intros o.
    rewrite <- (outside_parts l r Hl Hr HLall HLnone HUall HUnone o).
    split; [tauto|]. intros [Ho|(sr & Hrn & _)]; [exact Ho|lia].
  - destruct (Z.eqb_spec r n) as [Ern|Ern]; [lia|]. cbn [negb].
    destruct (lookup_lt_is_Some_2 slots (Z.to_nat r) ltac:(lia)) as [sr Hsr].
    rewrite (slot_at_lookup r sr Hsr).
    pose proof (lookup_slot_ok _ _ Hsr) as Hoksr.
    destruct (slot_size _ _ Hsr) as [Hsz_r Hle_r].
    destruct (greater_than_data_facts sr Hoksr Hsz_r (snd a3) lower_than
                (negb include_le) Hlt Hw3) as (Hc & Hw & He & Hp).
    rewrite negb_involutive in He, Hp.
    destruct (get_greater_than_data sr (snd a3) lower_than (negb include_le))
      as [c b] eqn:E. cbn [fst snd] in Hc, Hw, He, Hp.
    pose proof (collects_add m _ _ (2 + 1) a3 c b Ha3 ltac:(lia) Hw He Hp) as Hadd.
    apply (collects_more m _ (2 + 1 + 1) 4); [lia|].
    eapply collects_ext; [|exact Hadd]. intros o. cbv beta.
    rewrite <- (outside_parts l r Hl Hr HLall HLnone HUall HUnone o).
    assert (Hhigh : selected sr (fun v => negb (U v)) o <-> high_part m U r o).
    { split.
      - intros Hsel. exists sr. split; [exact Er|]. split; assumption.
      - intros (sr' & _ & Hsr' & Hsel). rewrite Hsr in Hsr'.
        injection Hsr' as <-. exact Hsel. }
    rewrite Hhigh. reflexivity.
Qed.

End Scan.
End RangedScan.

(* ===================================================================== *)
(** * RangedMap: range queries on a map that satisfies the invariant       *)
(* ===================================================================== *)

Module RangedRange.
Import RangedMap RangedOrder RangedQuery RangedScan BitmapFacts.

Section Range.
Context {F : Type} `{FloatOps F} `{!FloatOrder F} `{ScoreOps F}.

Lemma Inv_total (m : @RangedMap.t F) :
  Inv m ->
  Z.of_nat (length (all_offsets m)) <= Z.of_nat (length (offset_to_value_ m)).
Proof.
  intros HI.
  assert (Hsub : all_offsets m ⊆+ seqZ 0 (Z.of_nat (length (offset_to_value_ m)))).
  { apply NoDup_submseteq; [apply (inv_nodup m HI)|].
    intros o Ho. apply elem_of_seqZ.
    apply list_elem_of_In, in_concat in Ho as (os & Hos & Ho).
    apply in_map_iff in Hos as (s & <- & Hs).
    apply list_elem_of_In in Ho, Hs.
    assert (Hoks : slot_ok s).
    { pose proof (inv_slots m HI) as Hok. rewrite Forall_forall in Hok.
      apply Hok, Hs. }
    apply (offset_has_value s o Hoks) in Ho as [v Hv].
    destruct (proj1 (inv_table m HI o v)) as (Ho0 & Hlook & _).
    { exists s. split; assumption. }
    apply lookup_lt_Some in Hlook. lia. }
  apply submseteq_length in Hsub. rewrite length_seqZ in Hsub. lia.
Qed.

Lemma slots_le_total (m : @RangedMap.t F) :
  Forall slot_ok (slots_ m) ->
  Z.of_nat (length (slots_ m)) <= Z.of_nat (length (all_offsets m)).
Proof.
  intros Hok.
  assert (Hk : forall k, (k <= length (slots_ m))%nat ->
                 Z.of_nat k <= offsets_upto (slots_ m) k).
  { induction k as [|k IH]; intros Hle; [rewrite offsets_upto_0; lia|].
    pose proof (offsets_upto_strict m Hok k (S k) ltac:(lia) Hle). lia. }
  specialize (Hk _ (Nat.le_refl _)).
  rewrite offsets_upto_all in Hk by lia. exact Hk.
Qed.

(** For a value that is not a NaN, the interval test is the conjunction
    of the two [below] tests of the scan. *)
Lemma inside_below (lower_than : F) (include_le : bool) (greater_than : F)
    (include_ge : bool) (v : F) :
  fis_nan lower_than = false -> fis_nan greater_than = false ->
  fis_nan v = false ->
  inside lower_than include_le greater_than include_ge v
  = below lower_than include_le v && negb (below greater_than (negb include_ge) v).
Proof.
  intros Hlt Hgt Hv. unfold inside. rewrite andb_comm. f_equal.
  unfold fgeb, fgtb.
  rewrite (below_rank greater_than (negb include_ge) v) by assumption.
  destruct include_ge; simpl negb.
  - rewrite fleb_rank by assumption.
    destruct (Z.leb_spec (frank greater_than) (frank v)),
             (Z.ltb_spec (frank v) (frank greater_than)); simpl;
      (reflexivity || lia).
  - rewrite fltb_rank by assumption.
    destruct (Z.ltb_spec (frank greater_than) (frank v)),
             (Z.leb_spec (frank v) (frank greater_than)); simpl;
      (reflexivity || lia).
Qed.

Lemma value_at_lookup (l : list F) (o : Z) (v : F) :
  l !! Z.to_nat o = Some v -> value_at l o = v.
Proof. intros Hl. unfold value_at. apply nth_lookup_Some. exact Hl. Qed.

(** The offsets a query is about are those the slots hold with a value
    that satisfies the test. *)
Lemma matches_selection (m : @RangedMap.t F) (range_out : bool)
    (lower_than : F) (include_le : bool) (greater_than : F) (include_ge : bool)
    (o : Z) :
  Inv m -> fis_nan lower_than = false -> fis_nan greater_than = false ->
  matches m range_out lower_than include_le greater_than include_ge o
  <-> slot_selection m
        (fun v => if range_out
                  then negb (below lower_than include_le v
                             && negb (below greater_than (negb include_ge) v))
                  else below lower_than include_le v
                       && negb (below greater_than (negb include_ge) v)) o.
Proof.
  intros HI Hlt Hgt. unfold matches, slot_selection, selected. split.
  - intros (Ho & Hnan & Hpred).
    destruct (lookup_lt_is_Some_2 (offset_to_value_ m) (Z.to_nat o) ltac:(lia))
      as [v Hv].
    rewrite (value_at_lookup _ _ _ Hv) in Hnan, Hpred.
    destruct (proj2 (inv_table m HI o v)) as (s & Hs & Hh).
    { split; [lia|]. split; assumption. }
    exists s. split; [exact Hs|]. exists v. split; [exact Hh|].
    unfold interval_predicate in Hpred.
    rewrite inside_below in Hpred by assumption. exact Hpred.
  - intros (s & Hs & v & Hh & Hpred).
    destruct (proj1 (inv_table m HI o v)) as (Ho0 & Hlook & Hnan).
    { exists s. split; assumption. }
    pose proof (lookup_lt_Some _ _ _ Hlook) as Hlen.
    rewrite (value_at_lookup _ _ _ Hlook).
    split; [lia|]. split; [exact Hnan|].
    unfold interval_predicate. rewrite inside_below by assumption. exact Hpred.
Qed.

Lemma has_point_nested (lower_than : F) (include_le : bool) (greater_than : F)
    (include_ge : bool) (v : F) :
  fis_nan lower_than = false -> fis_nan greater_than = false ->
  has_point lower_than include_le greater_than include_ge = true ->
  fis_nan v = false ->
  below greater_than (negb include_ge) v = true ->
  below lower_than include_le v = true.
Proof.
  intros Hlt Hgt Hp Hv. unfold has_point in Hp.
  rewrite fltb_rank, feqb_rank in Hp by assumption.
  rewrite !below_rank by assumption.
  intros Hb.
  destruct include_ge, include_le; simpl negb in *; cbv iota in *;
    repeat match goal with
    | K : context [?a <? ?b] |- _ => destruct (Z.ltb_spec a b)
    | K : context [?a <=? ?b] |- _ => destruct (Z.leb_spec a b)
    | K : context [?a =? ?b] |- _ => destruct (Z.eqb_spec a b)
    | |- context [?a <? ?b] => destruct (Z.ltb_spec a b)
    | |- context [?a <=? ?b] => destruct (Z.leb_spec a b)
    end; simpl in *; try reflexivity; try discriminate; lia.
Qed.

(** A range query on a map that satisfies the invariant. *)
Lemma range_bitmap_under_inv (m : @RangedMap.t F) (range_out : bool)
    (lower_than : F) (include_le : bool) (greater_than : F) (include_ge : bool) :
  Inv m -> fis_nan lower_than = false -> fis_nan greater_than = false ->
  let swap := exchanged range_out lower_than greater_than in
  let lt' := if swap then greater_than else lower_than in
  let gt' := if swap then lower_than else greater_than in
  let ile' := if swap then include_ge else include_le in
  let ige' := if swap then include_le else include_ge in
  match get_range_bitmap m range_out lower_than include_le greater_than
                         include_ge with
  | Some b =>
      Bitmap.wf b /\
      (forall o, o ∈ Bitmap.elems b <-> matches m range_out lt' ile' gt' ige' o) /\
      (range_out = true
       \/ has_point lower_than include_le greater_than include_ge = true ->
       exists o, matches m range_out lt' ile' gt' ige' o)
  | None => forall o, ~ matches m range_out lt' ile' gt' ige' o
  end.
Proof.
  intros HI Hlt Hgt. cbv zeta.
  unfold get_range_bitmap, get_range_bitmap_with_slot_data.
  destruct (slots_ m) as [|s0 rest] eqn:Eslots.
  { intros o Hm. apply matches_selection in Hm; try assumption.
    - destruct Hm as (s & Hs & _). rewrite Eslots in Hs. inversion Hs.
    - destruct (exchanged _ _ _); assumption.
    - destruct (exchanged _ _ _); assumption. }
  fold (exchanged range_out lower_than greater_than).
  set (swap := exchanged range_out lower_than greater_than).
  set (lt' := if swap then greater_than else lower_than).
  set (gt' := if swap then lower_than else greater_than).
  set (ile' := if swap then include_ge else include_le).
  set (ige' := if swap then include_le else include_ge).
  assert (Hlt' : fis_nan lt' = false) by (unfold lt'; destruct swap; assumption).
  assert (Hgt' : fis_nan gt' = false) by (unfold gt'; destruct swap; assumption).
  pose proof (inv_slots m HI) as Hok. pose proof (inv_order m HI) as Hsorted.
  pose proof (Inv_total m HI) as Htot. pose proof (inv_size m HI) as Hsize.
  pose proof (slots_le_total m Hok) as Hslots.
  assert (Hn : 0 < Z.of_nat (length (slots_ m)) < 2 ^ 31).
  { rewrite Eslots in *. simpl length in *. lia. }
  assert (Htotal : Z.of_nat (length (all_offsets m)) <= 2 ^ 29) by lia.
  destruct range_out.
  - (* outside the interval *)
    pose proof (scan_outside m lt' ile' gt' ige' Hok Hsorted Hn Htotal Hlt' Hgt')
      as Hc.
    destruct (range_scan m true lt' ile' gt' ige') as [cnt temp] eqn:Escan.
    pose proof (collects_null m _ 4 _ Hc ltac:(lia)) as Hnull.
    destruct (collects_gathers m _ _ _ Hc) as [Hw He].
    cbn [fst snd] in Hnull, Hw, He.
    destruct (cnt <=? 0) eqn:Ecnt.
    + intros o Hm. apply (proj1 Hnull eq_refl o).
      apply (matches_selection m true) in Hm; assumption.
    + split; [exact Hw|]. split.
      * intros o. rewrite He. symmetry.
        apply (matches_selection m true); assumption.
      * intros _. destruct Hc as (c & Hfst & Hcb & _ & _ & Hpos).
        cbn [fst] in Hfst. rewrite to_uint32_small in Hfst by lia.
        apply Z.leb_gt in Ecnt.
        destruct (proj1 Hpos ltac:(lia)) as [o Ho]. exists o.
        apply (matches_selection m true); assumption.
  - (* inside the interval *)
    assert (Hswap : swap = false) by reflexivity.
    destruct (scan_inside m lt' ile' gt' ige' Hok Hsorted Hn Htotal Hlt' Hgt')
      as (Hw & He & Hnull & Hcoll).
    destruct (range_scan m false lt' ile' gt' ige') as [cnt temp] eqn:Escan.
    cbn [fst snd] in Hw, He, Hnull, Hcoll.
    destruct (cnt <=? 0) eqn:Ecnt.
    + intros o Hm. apply (Hnull eq_refl o).
      apply (matches_selection m false) in Hm; assumption.
    + split; [exact Hw|]. split.
      * intros o. rewrite He. symmetry.
        apply (matches_selection m false); assumption.
      * intros [Hro|Hp]; [discriminate|].
        destruct Hcoll as (c & Hfst & Hcb & _ & _ & Hpos).
        { intros v Hv. unfold lt', gt', ile', ige'. rewrite Hswap.
          apply has_point_nested; assumption. }
        cbn [fst] in Hfst. rewrite to_uint32_small in Hfst by lia.
        apply Z.leb_gt in Ecnt.
        destruct (proj1 Hpos ltac:(lia)) as [o Ho]. exists o.
        apply (matches_selection m false); assumption.
Qed.

End Range.
End RangedRange.

(* ===================================================================== *)
(** * RangedMap: the updates keep the invariant                            *)
(* ===================================================================== *)

Module RangedUpdate.
Import RangedMap RangedOrder RangedQuery RangedScan RangedRange BitmapFacts.

Section Lists.
Context {A B : Type}.

Lemma zip_take_cons_drop (c : nat) (a : A) (b : B) (la : list A) (lb : list B) :
  length la = length lb ->
  zip (take c la ++ a :: drop c la) (take c lb ++ b :: drop c lb)
  = take c (zip la lb) ++ (a, b) :: drop c (zip la lb).
Proof.
  intros Hlen. rewrite zip_with_app by (rewrite !length_take; lia).
  cbn [zip_with]. rewrite zip_with_take, zip_with_drop. reflexivity.
Qed.

Lemma zip_take_drop_S (j : nat) (la : list A) (lb : list B) :
  length la = length lb ->
  zip (take j la ++ drop (S j) la) (take j lb ++ drop (S j) lb)
  = take j (zip la lb) ++ drop (S j) (zip la lb).
Proof.
  intros Hlen. rewrite zip_with_app by (rewrite !length_take; lia).
  rewrite zip_with_take, zip_with_drop. reflexivity.
Qed.

Lemma elem_of_take_cons_drop (x a : A) (c : nat) (l : list A) :
  x ∈ take c l ++ a :: drop c l <-> x = a \/ x ∈ l.
Proof.
  rewrite elem_of_app, elem_of_cons.
  assert (Hl : x ∈ l <-> x ∈ take c l \/ x ∈ drop c l).
  { rewrite <- elem_of_app, take_drop. reflexivity. }
  rewrite Hl. tauto.
Qed.

Lemma Permutation_take_cons_drop (a : A) (c : nat) (l : list A) :
  take c l ++ a :: drop c l ≡ₚ a :: l.
Proof.
  rewrite <- Permutation_middle. rewrite take_drop. reflexivity.
Qed.

Lemma Permutation_erase (j : nat) (l : list A) (y : A) :
  l !! j = Some y -> l ≡ₚ y :: (take j l ++ drop (S j) l).
Proof.
  intros Hj. rewrite Permutation_middle. rewrite (take_drop_middle l j y Hj).
  reflexivity.
Qed.

Lemma hd_take_app (d : A) (c : nat) (l k : list A) :
  (0 < c)%nat -> l <> [] -> List.hd d (take c l ++ k) = List.hd d l.
Proof. intros Hc Hl. destruct l; [congruence|]. destruct c; [lia|]. reflexivity. Qed.

Lemma last_app_cons (d x : A) (l k : list A) :
  List.last (l ++ x :: k) d = List.last (x :: k) d.
Proof.
  induction l as [|y l IH]; [reflexivity|].
  change ((y :: l) ++ x :: k) with (y :: (l ++ x :: k)).
  destruct (l ++ x :: k) eqn:E; [destruct l; discriminate|].
  rewrite <- E in *. simpl. rewrite E. rewrite <- E. exact IH.
Qed.

Lemma last_drop (d : A) (c : nat) (l : list A) :
  (c < length l)%nat -> List.last (drop c l) d = List.last l d.
Proof.
  intros Hc. rewrite <- (take_drop c l) at 2.
  destruct (drop c l) as [|x k] eqn:E.
  - apply (f_equal length) in E. rewrite length_drop in E. simpl in E. lia.
  - symmetry. apply last_app_cons.
Qed.

Lemma last_cons_nonempty (d x : A) (k : list A) :
  k <> [] -> List.last (x :: k) d = List.last k d.
Proof. destruct k; [congruence|]. reflexivity. Qed.
End Lists.

Section Update.
Context {F : Type} `{FloatOps F} `{!FloatOrder F} `{ScoreOps F}.

Lemma holds_zip (s : @SlotMeta F) (o : Z) (v : F) :
  slot_holds s o v <-> (o, v) ∈ zip (offset_vec s) (value_vec s).
Proof.
  unfold slot_holds. rewrite elem_of_lookup_zip_with. split.
  - intros (j & Ho & Hv). exists j, o, v. split; [reflexivity|]. split; assumption.
  - intros (j & x & y & [= -> ->] & Ho & Hv). exists j. split; assumption.
Qed.

Lemma sorted_take (vs : list F) (c : nat) : rank_sorted vs -> rank_sorted (take c vs).
Proof.
  intros Hs. unfold rank_sorted in *. rewrite <- (take_drop c vs) in Hs.
  apply StronglySorted_app in Hs as (_ & Hs & _). exact Hs.
Qed.

Lemma sorted_drop (vs : list F) (c : nat) : rank_sorted vs -> rank_sorted (drop c vs).
Proof.
  intros Hs. unfold rank_sorted in *. rewrite <- (take_drop c vs) in Hs.
  apply StronglySorted_app in Hs as (_ & _ & Hs). exact Hs.
Qed.

Lemma sorted_across (vs : list F) (c : nat) (x y : F) :
  rank_sorted vs -> x ∈ take c vs -> y ∈ drop c vs -> frank x <= frank y.
Proof.
  intros Hs Hx Hy. unfold rank_sorted in *. rewrite <- (take_drop c vs) in Hs.
  apply StronglySorted_app in Hs as (Hcross & _ & _). apply Hcross; assumption.
Qed.

Lemma sorted_insert (vs : list F) (v : F) (c : nat) :
  rank_sorted vs ->
  Forall (fun x => frank x <= frank v) (take c vs) ->
  Forall (fun x => frank v <= frank x) (drop c vs) ->
  rank_sorted (take c vs ++ v :: drop c vs).
Proof.
  intros Hs H1 H2. unfold rank_sorted. apply StronglySorted_app_2.
  - intros x y Hx Hy. rewrite Forall_forall in H1, H2.
    apply elem_of_cons in Hy as [->|Hy]; [apply H1, Hx|].
    eapply sorted_across; eassumption.
  - apply sorted_take, Hs.
  - apply StronglySorted_cons. split; [exact H2|apply sorted_drop, Hs].
Qed.

Lemma sorted_erase (vs : list F) (j : nat) :
  rank_sorted vs -> rank_sorted (take j vs ++ drop (S j) vs).
Proof.
  intros Hs. unfold rank_sorted. apply StronglySorted_app_2.
  - intros x y Hx Hy. apply (sorted_across vs j x y Hs Hx).
    apply elem_of_drop_lookup in Hy as (i & Hi & Hle).
    apply elem_of_drop_lookup. exists i. split; [exact Hi|lia].
  - apply sorted_take, Hs.
  - apply sorted_drop, Hs.
Qed.

Lemma fmin_rank (a b : F) :
  fis_nan a = false -> fis_nan b = false ->
  fis_nan (fmin a b) = false /\ frank (fmin a b) = Z.min (frank a) (frank b).
Proof.
  intros Ha Hb. unfold fmin. rewrite fltb_rank by assumption.
  destruct (Z.ltb_spec (frank b) (frank a)); (split; [assumption|lia]).
Qed.

Lemma fmax_rank (a b : F) :
  fis_nan a = false -> fis_nan b = false ->
  fis_nan (fmax a b) = false /\ frank (fmax a b) = Z.max (frank a) (frank b).
Proof.
  intros Ha Hb. unfold fmax. rewrite fltb_rank by assumption.
  destruct (Z.ltb_spec (frank a) (frank b)); (split; [assumption|lia]).
Qed.

Lemma below_true_rank (x v : F) :
  fis_nan x = false -> fis_nan v = false ->
  (below x true v = true <-> frank v <= frank x) /\
  (below x true v = false <-> frank x < frank v).
Proof.
  intros Hx Hv. rewrite below_rank by assumption.
  destruct (Z.leb_spec (frank v) (frank x)); split; split;
    intros; try reflexivity; try discriminate; lia.
Qed.

Lemma below_false_rank (x v : F) :
  fis_nan x = false -> fis_nan v = false ->
  (below x false v = true <-> frank v < frank x) /\
  (below x false v = false <-> frank x <= frank v).
Proof.
  intros Hx Hv. rewrite below_rank by assumption.
  destruct (Z.ltb_spec (frank v) (frank x)); split; split;
    intros; try reflexivity; try discriminate; lia.
Qed.

(** The cut of a slot at a value: the values before it are at most the
    value, those after it are greater. *)
Lemma upper_cut (s : @SlotMeta F) (v : F) :
  slot_ok s -> fis_nan v = false ->
  let c := prefix_length (below v true) (value_vec s) in
  (c <= length (value_vec s))%nat /\
  Forall (fun x => frank x <= frank v) (take c (value_vec s)) /\
  Forall (fun x => frank v < frank x) (drop c (value_vec s)).
Proof.
  intros Hs Hv c.
  destruct (below_cut s Hs v true Hv) as [H1 H2]. fold c in H1, H2.
  pose proof (so_nonnan s Hs) as Hn.
  split; [apply prefix_length_le|]. split.
  - apply Forall_forall. intros x Hx. rewrite Forall_forall in H1, Hn.
    apply (below_true_rank v x Hv); [|apply H1, Hx].
    apply Hn. apply elem_of_take in Hx as (i & Hi & _).
    eapply list_elem_of_lookup_2, Hi.
  - apply Forall_forall. intros x Hx. rewrite Forall_forall in H2, Hn.
    apply (below_true_rank v x Hv); [|apply H2, Hx].
    apply Hn. apply elem_of_drop_lookup in Hx as (i & Hi & _).
    eapply list_elem_of_lookup_2, Hi.
Qed.

Lemma slot_insert_ok (s : @SlotMeta F) (o : Z) (v : F) :
  slot_ok s -> fis_nan v = false ->
  let c := prefix_length (below v true) (value_vec s) in
  let s' := mkSlot (fmin v (left s)) (fmax v (right s))
                   (Bitmap.Set_ (bitmap s) o)
                   (insert_at (Z.of_nat c) v (value_vec s))
                   (insert_at (Z.of_nat c) o (offset_vec s)) in
  slot_ok s' /\
  (forall o' v', slot_holds s' o' v' <-> (o' = o /\ v' = v) \/ slot_holds s o' v') /\
  offset_vec s' ≡ₚ o :: offset_vec s /\
  frank (left s') = Z.min (frank v) (frank (left s)) /\
  frank (right s') = Z.max (frank v) (frank (right s)).
Proof.
  intros Hs Hv c s'.
  destruct (upper_cut s v Hs Hv) as (Hc & Hlow & Hhigh). fold c in Hc, Hlow, Hhigh.
  pose proof (so_length s Hs) as Hlen. pose proof (so_nonnan s Hs) as Hn.
  pose proof (so_nonempty s Hs) as Hne.
  destruct (fmin_rank v (left s) Hv (so_left_nonnan s Hs)) as [Hminn Hmin].
  destruct (fmax_rank v (right s) Hv (so_right_nonnan s Hs)) as [Hmaxn Hmax].
  destruct (Set_spec (bitmap s) o (so_wf s Hs)) as [Hw He].
  assert (Hvs : value_vec s' = take c (value_vec s) ++ v :: drop c (value_vec s)).
  { unfold s', insert_at. cbn [value_vec]. rewrite Nat2Z.id. reflexivity. }
  assert (Hos : offset_vec s' = take c (offset_vec s) ++ o :: drop c (offset_vec s)).
  { unfold s', insert_at. cbn [offset_vec]. rewrite Nat2Z.id. reflexivity. }
  assert (Hhd : frank (List.hd fnan (value_vec s'))
                = Z.min (frank v) (frank (left s))).
  { rewrite Hvs, (so_left s Hs). destruct c as [|c'] eqn:Ec.
    - rewrite take_0, drop_0. cbn [app List.hd].
      rewrite drop_0 in Hhigh. rewrite Forall_forall in Hhigh.
      pose proof (Hhigh _ (hd_elem_of fnan _ Hne)). lia.
    - rewrite hd_take_app by (assumption || lia).
      rewrite Forall_forall in Hlow.
      assert (Hin : List.hd fnan (value_vec s) ∈ take (S c') (value_vec s)).
      { destruct (value_vec s); [congruence|]. cbn. apply list_elem_of_here. }
      pose proof (Hlow _ Hin). lia. }
  assert (Hlast : frank (List.last (value_vec s') fnan)
                  = Z.max (frank v) (frank (right s))).
  { rewrite Hvs, (so_right s Hs), last_app_cons.
    destruct (Nat.eq_dec c (length (value_vec s))) as [Ec|Ec].
    - rewrite drop_ge by lia. cbn [List.last].
      rewrite take_ge in Hlow by lia. rewrite Forall_forall in Hlow.
      pose proof (Hlow _ (last_elem_of fnan _ Hne)). lia.
    - assert (Hdne : drop c (value_vec s) <> []).
      { intros E. apply (f_equal length) in E. rewrite length_drop in E.
        simpl in E. lia. }
      rewrite last_cons_nonempty by exact Hdne.
      rewrite last_drop by lia. rewrite Forall_forall in Hhigh.
      assert (Hin : List.last (value_vec s) fnan ∈ drop c (value_vec s)).
      { rewrite <- (last_drop fnan c) by lia. apply last_elem_of, Hdne. }
      pose proof (Hhigh _ Hin). lia. }
  split; [|split; [|split; [|split]]].
  - constructor.
    + rewrite Hvs. intros E. destruct (take c (value_vec s)); discriminate.
    + rewrite Hvs, Hos. rewrite !length_app, !length_take. cbn [length].
      rewrite !length_drop. lia.
    + rewrite Hvs. apply Forall_app. split; [apply Forall_take, Hn|].
      constructor; [exact Hv|apply Forall_drop, Hn].
    + rewrite Hvs. apply sorted_insert; [apply (so_sorted s Hs)|exact Hlow|].
      eapply Forall_impl; [exact Hhigh|]. simpl. intros; lia.
    + exact Hminn.
    + unfold s' at 1. cbn [left]. rewrite Hmin. symmetry. exact Hhd.
    + exact Hmaxn.
    + unfold s' at 1. cbn [right]. rewrite Hmax. symmetry. exact Hlast.
    + exact Hw.
    + unfold s' at 1. cbn [bitmap]. rewrite He, Hos. apply set_eq. intros x.
      rewrite elem_of_union, elem_of_singleton, (so_bitmap s Hs).
      rewrite !elem_of_list_to_set, elem_of_take_cons_drop. reflexivity.
  - intros o' v'. rewrite !holds_zip, Hvs, Hos.
    rewrite zip_take_cons_drop by lia. rewrite elem_of_take_cons_drop.
    split; (intros [Heq|Hin]; [left|right; exact Hin]).
    + injection Heq as -> ->. split; reflexivity.
    + destruct Heq as [-> ->]. reflexivity.
  - rewrite Hos. apply Permutation_take_cons_drop.
  - unfold s'. cbn [left]. exact Hmin.
  - unfold s'. cbn [right]. exact Hmax.
Qed.

(** ** Lists of slots *)

Lemma slots_sorted_iff (pre post : list (@SlotMeta F)) (s : SlotMeta) :
  StronglySorted slot_before (pre ++ s :: post)
  <-> StronglySorted slot_before pre /\ StronglySorted slot_before post /\
      (forall x, x ∈ pre -> slot_before x s) /\
      (forall y, y ∈ post -> slot_before s y) /\
      (forall x y, x ∈ pre -> y ∈ post -> slot_before x y).
Proof.
  rewrite StronglySorted_app, StronglySorted_cons, Forall_forall. split.
  - intros (Hcross & Hpre & Hs & Hpost). split; [exact Hpre|].
    split; [exact Hpost|]. split; [|split; [exact Hs|]].
    + intros x Hx. apply Hcross; [exact Hx|apply list_elem_of_here].
    + intros x y Hx Hy. apply Hcross; [exact Hx|apply list_elem_of_further, Hy].
  - intros (Hpre & Hpost & Hxs & Hsy & Hxy). split; [|split; [exact Hpre|]].
    + intros x y Hx Hy. apply elem_of_cons in Hy as [->|Hy];
        [apply Hxs, Hx|apply Hxy; assumption].
    + split; assumption.
Qed.

Lemma slots_replace_ok (pre post : list (@SlotMeta F)) (s s' : SlotMeta) :
  Forall slot_ok (pre ++ s :: post) ->
  StronglySorted slot_before (pre ++ s :: post) ->
  slot_ok s' ->
  (forall x, x ∈ pre -> frank (right x) <= frank (left s')) ->
  (forall y, y ∈ post -> frank (right s') <= frank (left y)) ->
  Forall slot_ok (pre ++ s' :: post) /\
  StronglySorted slot_before (pre ++ s' :: post).
Proof.
  intros Hok Hsorted Hs' Hx Hy.
  rewrite Forall_app, Forall_cons in Hok. destruct Hok as (Hpre & _ & Hpost).
  apply slots_sorted_iff in Hsorted as (S1 & S2 & _ & _ & S5). split.
  - rewrite Forall_app, Forall_cons. split; [exact Hpre|]. split; assumption.
  - apply slots_sorted_iff. split; [exact S1|]. split; [exact S2|].
    split; [exact Hx|]. split; [exact Hy|exact S5].
Qed.

Lemma slots_split_ok (pre post : list (@SlotMeta F)) (s lo up : SlotMeta) :
  Forall slot_ok (pre ++ s :: post) ->
  StronglySorted slot_before (pre ++ s :: post) ->
  slot_ok lo -> slot_ok up -> slot_before lo up ->
  frank (left lo) = frank (left s) -> frank (right up) = frank (right s) ->
  Forall slot_ok (pre ++ lo :: up :: post) /\
  StronglySorted slot_before (pre ++ lo :: up :: post).
Proof.
  intros Hok Hsorted Hlo Hup Hlu Hl Hr.
  rewrite Forall_app, Forall_cons in Hok. destruct Hok as (Hpre & _ & Hpost).
  apply slots_sorted_iff in Hsorted as (S1 & S2 & S3 & S4 & S5).
  pose proof (slot_left_le_right lo Hlo) as Hlo_lr.
  pose proof (slot_left_le_right up Hup) as Hup_lr.
  unfold slot_before in *. split.
  - rewrite Forall_app, !Forall_cons. split; [exact Hpre|].
    split; [exact Hlo|]. split; assumption.
  - apply slots_sorted_iff. split; [exact S1|]. split; [|split; [|split]].
    + apply StronglySorted_cons. split; [|exact S2].
      apply Forall_forall. intros y Hy. unfold slot_before.
      specialize (S4 y Hy). lia.
    + intros x Hx. unfold slot_before. specialize (S3 x Hx). lia.
    + intros y Hy. apply elem_of_cons in Hy as [->|Hy]; [exact Hlu|].
      unfold slot_before. specialize (S4 y Hy). lia.
    + intros x y Hx Hy. apply elem_of_cons in Hy as [->|Hy];
        [|apply S5; assumption].
      unfold slot_before. specialize (S3 x Hx). lia.
Qed.

Lemma slots_remove_ok (pre post : list (@SlotMeta F)) (s : SlotMeta) :
  Forall slot_ok (pre ++ s :: post) ->
  StronglySorted slot_before (pre ++ s :: post) ->
  Forall slot_ok (pre ++ post) /\ StronglySorted slot_before (pre ++ post).
Proof.
  intros Hok Hsorted.
  rewrite Forall_app, Forall_cons in Hok. destruct Hok as (Hpre & _ & Hpost).
  apply slots_sorted_iff in Hsorted as (S1 & S2 & _ & _ & S5). split.
  - apply Forall_app. split; assumption.
  - apply StronglySorted_app_2; assumption.
Qed.

(** ** The split of a slot *)

Lemma split_ok (s' : @SlotMeta F) :
  slot_ok s' -> (2 <= length (value_vec s'))%nat ->
  let '(_, lo, up) :=
    split_half_to_new_slot s' (mkSlot fzero fzero Bitmap.new [] []) in
  slot_ok lo /\ slot_ok up /\ slot_before lo up /\
  frank (left lo) = frank (left s') /\ frank (right up) = frank (right s') /\
  offset_vec lo ++ offset_vec up = offset_vec s' /\
  (forall o v, slot_holds lo o v \/ slot_holds up o v <-> slot_holds s' o v).
Proof.
  intros Hs Hlen2. unfold split_half_to_new_slot.
  replace (length (value_vec s') <? 2)%nat with false
    by (symmetry; apply Nat.ltb_ge; lia).
  set (h := Nat.div (length (value_vec s')) 2).
  assert (Hh : (1 <= h < length (value_vec s'))%nat).
  { unfold h. split.
    - apply (Nat.div_le_lower_bound _ 2 1); lia.
    - apply Nat.div_lt; lia. }
  pose proof (so_length s' Hs) as Hlen. pose proof (so_nonnan s' Hs) as Hn.
  pose proof (so_sorted s' Hs) as Hsort. pose proof (so_nonempty s' Hs) as Hne.
  cbn [bitmap].
  assert (Htne : take h (value_vec s') <> []).
  { intros E. apply (f_equal length) in E. rewrite length_take in E.
    simpl in E. lia. }
  assert (Hdne : drop h (value_vec s') <> []).
  { intros E. apply (f_equal length) in E. rewrite length_drop in E.
    simpl in E. lia. }
  assert (Hnt : Forall (fun v => fis_nan v = false) (take h (value_vec s')))
    by apply Forall_take, Hn.
  assert (Hnd : Forall (fun v => fis_nan v = false) (drop h (value_vec s')))
    by apply Forall_drop, Hn.
  destruct (SetMany_spec (Bitmap.clear (bitmap s')) (take h (offset_vec s'))
              (proj1 (clear_spec (bitmap s')))) as [Hwl Hel].
  destruct (SetMany_spec Bitmap.new (drop h (offset_vec s')) wf_new) as [Hwu Heu].
  split; [|split; [|split; [|split; [|split; [|split]]]]].
  - constructor; cbn [value_vec offset_vec left right bitmap].
    + exact Htne.
    + rewrite !length_take. lia.
    + exact Hnt.
    + apply sorted_take, Hsort.
    + apply (so_left_nonnan s' Hs).
    + rewrite (so_left s' Hs). f_equal. symmetry.
      rewrite <- (app_nil_r (take h (value_vec s'))).
      apply hd_take_app; [lia|exact Hne].
    + rewrite Forall_forall in Hnt. apply Hnt, last_elem_of, Htne.
    + reflexivity.
    + exact Hwl.
    + rewrite Hel. rewrite (proj2 (clear_spec (bitmap s'))). set_solver.
  - constructor; cbn [value_vec offset_vec left right bitmap].
    + exact Hdne.
    + rewrite !length_drop. lia.
    + exact Hnd.
    + apply sorted_drop, Hsort.
    + rewrite Forall_forall in Hnd. apply Hnd, hd_elem_of, Hdne.
    + reflexivity.
    + rewrite Forall_forall in Hnd. apply Hnd, last_elem_of, Hdne.
    + reflexivity.
    + exact Hwu.
    + rewrite Heu, elems_new. set_solver.
  - unfold slot_before. cbn [left right].
    apply (sorted_across (value_vec s') h); [exact Hsort| |].
    + apply last_elem_of, Htne.
    + apply hd_elem_of, Hdne.
  - reflexivity.
  - cbn [right]. rewrite (so_right s' Hs). f_equal. apply last_drop. lia.
  - cbn [offset_vec]. apply take_drop.
  - intros o v. rewrite !holds_zip. cbn [offset_vec value_vec].
    rewrite <- zip_with_take, <- zip_with_drop.
    rewrite <- elem_of_app, take_drop. reflexivity.
Qed.

(** ** The table of values *)

Lemma table_after_add (otv : list F) (o : Z) (v : F) :
  0 <= o < 2 ^ 29 -> Z.of_nat (length otv) <= 2 ^ 29 ->
  (o <? Z.of_nat (length otv)) && negb (fis_nan (value_at otv o)) = false ->
  let otv1 := if o >=? Z.of_nat (length otv)
              then resize (Z.to_nat (to_uint32 (o + 1))) fnan otv else otv in
  let otv2 := <[Z.to_nat o := v]> otv1 in
  (Z.of_nat (length otv1) <=? o) = false /\
  Z.of_nat (length otv2) <= 2 ^ 29 /\
  otv2 !! Z.to_nat o = Some v /\
  (forall o' v', 0 <= o' -> o' <> o ->
     (otv2 !! Z.to_nat o' = Some v' /\ fis_nan v' = false
      <-> otv !! Z.to_nat o' = Some v' /\ fis_nan v' = false)) /\
  (forall v', otv !! Z.to_nat o = Some v' -> fis_nan v' = true).
Proof.
  intros Ho Hsize Hcheck otv1 otv2.
  assert (Hw : to_uint32 (o + 1) = o + 1) by (apply to_uint32_small; lia).
  assert (Hdead : forall v', otv !! Z.to_nat o = Some v' -> fis_nan v' = true).
  { intros v' Hv'. pose proof (lookup_lt_Some _ _ _ Hv') as Hlt.
    apply andb_false_iff in Hcheck as [Hc|Hc].
    - apply Z.ltb_ge in Hc. lia.
    - unfold value_at in Hc. rewrite (nth_lookup_Some _ _ _ _ Hv') in Hc.
      destruct (fis_nan v'); [reflexivity|discriminate]. }
  assert (Hlen1 : Z.of_nat (length otv1) = Z.max (Z.of_nat (length otv)) (o + 1)).
  { unfold otv1. destruct (Z.geb_spec o (Z.of_nat (length otv))).
    - rewrite length_resize, Hw. lia.
    - lia. }
  assert (Hlook1 : forall i v', otv1 !! i = Some v' /\ fis_nan v' = false
                                <-> otv !! i = Some v' /\ fis_nan v' = false).
  { intros i v'. unfold otv1. destruct (Z.geb_spec o (Z.of_nat (length otv))); [|tauto].
    rewrite Hw. destruct (Nat.lt_ge_cases i (length otv)) as [Hi|Hi].
    - rewrite lookup_resize by lia. tauto.
    - rewrite (proj2 (lookup_ge_None otv i)) by lia.
      destruct (Nat.lt_ge_cases i (Z.to_nat (o + 1))) as [Hi2|Hi2].
      + rewrite lookup_resize_new by lia. split.
        * intros [[= <-] Hn]. rewrite fnan_is_nan in Hn. discriminate.
        * intros [[=] _].
      + rewrite lookup_resize_old by lia. tauto. }
  split; [apply Z.leb_gt; lia|]. split; [unfold otv2; rewrite length_insert; lia|].
  split; [unfold otv2; apply list_lookup_insert_eq; lia|]. split; [|exact Hdead].
  intros o' v' Ho' Hne. unfold otv2.
  rewrite list_lookup_insert_ne by lia. apply Hlook1.
Qed.

Lemma offsets_concat (pre post : list (@SlotMeta F)) (s : SlotMeta) :
  concat (map offset_vec (pre ++ s :: post))
  = concat (map offset_vec pre) ++ offset_vec s ++ concat (map offset_vec post).
Proof. rewrite map_app, concat_app. reflexivity. Qed.

Lemma entry_of_slots (otv otv' : list F) (slots : list (@SlotMeta F)) (o : Z) (v : F) :
  entry_of (mk otv slots) o v <-> entry_of (mk otv' slots) o v.
Proof. reflexivity. Qed.

Lemma entry_middle (otv : list F) (pre post : list (@SlotMeta F)) (s : SlotMeta)
    (o : Z) (v : F) :
  entry_of (mk otv (pre ++ s :: post)) o v
  <-> slot_holds s o v \/ entry_of (mk otv (pre ++ post)) o v.
Proof.
  unfold entry_of. cbn [slots_]. split.
  - intros (x & Hx & Hh). apply elem_of_app in Hx as [Hx|Hx].
    + right. exists x. split; [apply elem_of_app; left; exact Hx|exact Hh].
    + apply elem_of_cons in Hx as [->|Hx]; [left; exact Hh|].
      right. exists x. split; [apply elem_of_app; right; exact Hx|exact Hh].
  - intros [Hh|(x & Hx & Hh)].
    + exists s. split; [|exact Hh]. apply elem_of_app. right. apply list_elem_of_here.
    + exists x. split; [|exact Hh]. apply elem_of_app in Hx as [Hx|Hx];
        apply elem_of_app; [left; exact Hx|right; apply list_elem_of_further, Hx].
Qed.

(** ** [add_offset_and_score] *)

Lemma inv_after_add (m : @RangedMap.t F) (o : Z) (v : F) (otv2 : list F)
    (slots' : list SlotMeta) :
  Inv m -> 0 <= o -> fis_nan v = false ->
  Z.of_nat (length otv2) <= 2 ^ 29 ->
  otv2 !! Z.to_nat o = Some v ->
  (forall o' v', 0 <= o' -> o' <> o ->
     (otv2 !! Z.to_nat o' = Some v' /\ fis_nan v' = false
      <-> offset_to_value_ m !! Z.to_nat o' = Some v' /\ fis_nan v' = false)) ->
  (forall v', offset_to_value_ m !! Z.to_nat o = Some v' -> fis_nan v' = true) ->
  Forall slot_ok slots' -> StronglySorted slot_before slots' ->
  concat (map offset_vec slots') ≡ₚ o :: all_offsets m ->
  (forall o' v', entry_of (mk otv2 slots') o' v'
                 <-> (o' = o /\ v' = v) \/ entry_of m o' v') ->
  Inv (mk otv2 slots') /\ (forall v0, ~ entry_of m o v0).
Proof.
  intros HI Ho Hv Hsize Hnew Hother Hdead Hok Hsorted Hperm Hentries.
  assert (Hfresh : forall v0, ~ entry_of m o v0).
  { intros v0 He. apply (inv_table m HI) in He as (_ & Hl & Hn).
    rewrite (Hdead _ Hl) in Hn. discriminate. }
  split; [|exact Hfresh]. constructor; cbn [slots_ offset_to_value_].
  - exact Hok.
  - exact Hsorted.
  - unfold all_offsets. cbn [slots_]. rewrite Hperm. apply NoDup_cons. split.
    + intros Hin. apply list_elem_of_In, in_concat in Hin as (os & Hos & Hin).
      apply in_map_iff in Hos as (s & <- & Hs). apply list_elem_of_In in Hin, Hs.
      pose proof (inv_slots m HI) as Hokm. rewrite Forall_forall in Hokm.
      apply (offset_has_value s o (Hokm s Hs)) in Hin as [v0 Hh].
      apply (Hfresh v0). exists s. split; assumption.
    + apply (inv_nodup m HI).
  - intros o' v'. rewrite Hentries. split.
    + intros [[-> ->]|He].
      * split; [exact Ho|]. split; assumption.
      * pose proof He as He'. apply (inv_table m HI) in He' as (Ho' & Hl & Hn).
        assert (Hne : o' <> o) by (intros ->; exact (Hfresh _ He)).
        split; [exact Ho'|]. apply (Hother o' v' Ho' Hne). split; assumption.
    + intros (Ho' & Hl & Hn). destruct (Z.eq_dec o' o) as [->|Hne].
      * left. rewrite Hnew in Hl. injection Hl as <-. split; reflexivity.
      * right. apply (inv_table m HI). split; [exact Ho'|].
        apply (Hother o' v' Ho' Hne). split; assumption.
  - exact Hsize.
Qed.

Lemma add_keeps_inv (m : @RangedMap.t F) (o : Z) (v : F) :
  Inv m -> 0 <= o < 2 ^ 29 -> fis_nan v = false ->
  exists (r : Z) (m' : RangedMap.t),
    add_offset_and_score m o v = Some (r, m') /\ Inv m' /\
    ((r = -1 /\ m' = m /\ exists v0, entry_of m o v0) \/
     (r = 0 /\ (forall v0, ~ entry_of m o v0) /\
      offset_to_value_ m' !! Z.to_nat o = Some v /\
      forall o' v', entry_of m' o' v' <-> (o' = o /\ v' = v) \/ entry_of m o' v')).
Proof.
  intros HI Ho Hv. unfold add_offset_and_score.
  destruct ((o <? Z.of_nat (length (offset_to_value_ m)))
            && negb (fis_nan (value_at (offset_to_value_ m) o))) eqn:Hcheck.
  { exists (-1), m. split; [reflexivity|]. split; [exact HI|]. left.
    split; [reflexivity|]. split; [reflexivity|].
    apply andb_prop in Hcheck as [Hlt Hnan]. apply Z.ltb_lt in Hlt.
    destruct (lookup_lt_is_Some_2 (offset_to_value_ m) (Z.to_nat o) ltac:(lia))
      as [v0 Hv0].
    rewrite (value_at_lookup _ _ _ Hv0) in Hnan. exists v0.
    apply (inv_table m HI). split; [lia|]. split; [exact Hv0|].
    destruct (fis_nan v0); [discriminate|reflexivity]. }
  destruct (table_after_add (offset_to_value_ m) o v Ho (inv_size m HI) Hcheck)
    as (Hroom & Hsize & Hnew & Hother & Hdead).
  cbv zeta. rewrite Hroom.
  set (otv2 := <[Z.to_nat o := v]> _) in *.
  pose proof (inv_slots m HI) as Hok. pose proof (inv_order m HI) as Hsorted.
  assert (Hfinish : forall slots',
            Forall slot_ok slots' -> StronglySorted slot_before slots' ->
            concat (map offset_vec slots') ≡ₚ o :: all_offsets m ->
            (forall o' v', entry_of (mk otv2 slots') o' v'
                           <-> (o' = o /\ v' = v) \/ entry_of m o' v') ->
            exists (r : Z) (m' : RangedMap.t),
              Some (0, mk otv2 slots') = Some (r, m') /\ Inv m' /\
              ((r = -1 /\ m' = m /\ exists v0, entry_of m o v0) \/
               (r = 0 /\ (forall v0, ~ entry_of m o v0) /\
                offset_to_value_ m' !! Z.to_nat o = Some v /\
                forall o' v', entry_of m' o' v'
                              <-> (o' = o /\ v' = v) \/ entry_of m o' v'))).
  { intros slots' H1 H2 H3 H4.
    destruct (inv_after_add m o v otv2 slots' HI ltac:(lia) Hv Hsize Hnew Hother
                Hdead H1 H2 H3 H4) as [HI' Hfresh].
    exists 0, (mk otv2 slots'). split; [reflexivity|]. split; [exact HI'|].
    right. split; [reflexivity|]. split; [exact Hfresh|]. split; [exact Hnew|exact H4]. }
  destruct (slots_ m) as [|s0 rest] eqn:Eslots.
  { (* the first slot of the map *)
    apply Hfinish.
    - constructor; [|constructor].
      destruct (Set_spec Bitmap.new o wf_new) as [Hw He].
      constructor; cbn [value_vec offset_vec left right bitmap];
        try assumption; try reflexivity; try discriminate.
      + constructor; [exact Hv|constructor].
      + repeat constructor.
    - repeat constructor.
    - unfold all_offsets. rewrite Eslots. reflexivity.
    - intros o' v'. unfold entry_of. cbn [slots_]. rewrite Eslots. split.
      + intros (x & Hx & j & Hj & Hvj). apply list_elem_of_singleton in Hx as ->.
        cbn [offset_vec value_vec] in Hj, Hvj. destruct j as [|j]; [|discriminate].
        injection Hj as <-. injection Hvj as <-. left. split; reflexivity.
      + intros [[-> ->]|(x & Hx & _)]; [|inversion Hx].
        eexists. split; [apply list_elem_of_here|]. exists 0%nat.
        split; reflexivity. }
  rewrite <- Eslots in Hok, Hsorted.
  assert (Hlen : 0 < Z.of_nat (length (slots_ m)) < 2 ^ 31).
  { pose proof (slots_le_total m Hok). pose proof (Inv_total m HI).
    pose proof (inv_size m HI).
    assert (0 < length (slots_ m))%nat by (rewrite Eslots; simpl; lia). lia. }
  rewrite <- Eslots. clear Eslots s0 rest.
  pose proof (find_right_slot_index_spec (mk otv2 (slots_ m)) v true Hok Hsorted
                Hv Hlen) as Hspec.
  cbv zeta in Hspec. cbn [slots_] in Hspec. destruct Hspec as (Hr & Hall & Hnone).
  set (r := find_right_slot_index (mk otv2 (slots_ m)) v true) in *.
  set (idx := if r =? -1 then 0 else r).
  assert (Hidx : 0 <= idx < Z.of_nat (length (slots_ m))).
  { unfold idx. destruct (Z.eqb_spec r (-1)); lia. }
  destruct (lookup_lt_is_Some_2 (slots_ m) (Z.to_nat idx) ltac:(lia)) as [s Hs].
  rewrite (slot_at_lookup m idx s Hs).
  pose proof (lookup_slot_ok m Hok _ _ Hs) as Hoks.
  pose proof (take_drop_middle _ _ _ Hs) as Hsplit.
  set (pre := take (Z.to_nat idx) (slots_ m)) in *.
  set (post := drop (S (Z.to_nat idx)) (slots_ m)) in *.
  assert (HpreB : Forall (slot_all (below v true)) pre).
  { unfold pre, idx. destruct (Z.eqb_spec r (-1)) as [->|Hne].
    - rewrite take_0. constructor.
    - exact Hall. }
  assert (HpostB : Forall (slot_none (below v true)) post).
  { unfold post, idx. destruct (Z.eqb_spec r (-1)) as [->|Hne].
    - apply (Forall_drop _ 1) in Hnone. rewrite drop_drop in Hnone. exact Hnone.
    - replace (S (Z.to_nat r)) with (Z.to_nat (r + 1)) by lia. exact Hnone. }
  rewrite (upper_bound_below (value_vec s) v Hv (so_nonnan s Hoks)).
  destruct (slot_insert_ok s o v Hoks Hv) as (Hoks' & Hholds & Hperm & Hleft & Hright).
  set (c := prefix_length (below v true) (value_vec s)) in *.
  set (s' := mkSlot (fmin v (left s)) (fmax v (right s))
                    (Bitmap.Set_ (bitmap s) o)
                    (insert_at (Z.of_nat c) v (value_vec s))
                    (insert_at (Z.of_nat c) o (offset_vec s))) in *.
  rewrite <- Hsplit in Hok, Hsorted.
  assert (Hokpre : forall x, x ∈ pre -> slot_ok x).
  { intros x Hx. rewrite Forall_forall in Hok. apply Hok, elem_of_app. left. exact Hx. }
  assert (Hokpost : forall y, y ∈ post -> slot_ok y).
  { intros y Hy. rewrite Forall_forall in Hok. apply Hok, elem_of_app. right.
    apply list_elem_of_further, Hy. }
  pose proof (proj1 (slots_sorted_iff pre post s) Hsorted) as (_ & _ & S3 & S4 & _).
  assert (Hdown : forall a b, fis_nan a = false -> fis_nan b = false ->
            frank b <= frank a -> below v true a = true -> below v true b = true).
  { intros a b Ha Hb. apply below_down; assumption. }
  destruct (slots_replace_ok pre post s s' Hok Hsorted Hoks') as [Hok1 Hsorted1].
  { intros x Hx. rewrite Hleft. apply Z.min_glb; [|apply S3, Hx].
    rewrite Forall_forall in HpreB.
    pose proof (slot_all_of_right (below v true) Hdown x (Hokpre x Hx)) as Hall_r.
    pose proof (HpreB x Hx) as Hax.
    pose proof (last_elem_of fnan _ (so_nonempty x (Hokpre x Hx))) as Hlast.
    pose proof (all_true (below v true) x _ Hax Hlast) as Hb.
    apply (below_true_rank v) in Hb;
      [|exact Hv|eapply slot_value_nonnan; [apply Hokpre, Hx|exact Hlast]].
    rewrite (so_right x (Hokpre x Hx)). exact Hb. }
  { intros y Hy. rewrite Hright. apply Z.max_lub; [|apply S4, Hy].
    rewrite Forall_forall in HpostB. pose proof (HpostB y Hy) as Hny.
    pose proof (hd_elem_of fnan _ (so_nonempty y (Hokpost y Hy))) as Hhd.
    pose proof (none_false (below v true) y _ Hny Hhd) as Hb.
    apply (below_true_rank v) in Hb;
      [|exact Hv|eapply slot_value_nonnan; [apply Hokpost, Hy|exact Hhd]].
    rewrite (so_left y (Hokpost y Hy)). lia. }
  assert (Hperm1 : concat (map offset_vec (pre ++ s' :: post)) ≡ₚ o :: all_offsets m).
  { unfold all_offsets. rewrite <- Hsplit. rewrite !offsets_concat, Hperm.
    cbn [app]. rewrite <- Permutation_middle. reflexivity. }
  assert (Hent1 : forall o' v', entry_of (mk otv2 (pre ++ s' :: post)) o' v'
                                <-> (o' = o /\ v' = v) \/ entry_of m o' v').
  { intros o' v'. rewrite entry_middle, Hholds.
    assert (Hm : entry_of m o' v'
                 <-> slot_holds s o' v' \/ entry_of (mk otv2 (pre ++ post)) o' v').
    { rewrite <- entry_middle. unfold entry_of. cbn [slots_]. rewrite Hsplit.
      reflexivity. }
    rewrite Hm. tauto. }
  destruct (kRangedMapSlotSize * 2 <? Z.of_nat (length (value_vec s'))) eqn:Ebig.
  - (* the slot is split *)
    apply Z.ltb_lt in Ebig. unfold kRangedMapSlotSize in Ebig.
    pose proof (split_ok s' Hoks' ltac:(lia)) as Hsp.
    destruct (split_half_to_new_slot s' (mkSlot fzero fzero Bitmap.new [] []))
      as [[flag lo] up].
    destruct Hsp as (Hlo & Hup & Hlu & Hl & Hrr & Hoff & Hh).
    destruct (slots_split_ok pre post s' lo up Hok1 Hsorted1 Hlo Hup Hlu Hl Hrr)
      as [Hok2 Hsorted2].
    apply Hfinish; [exact Hok2|exact Hsorted2| |].
    + rewrite <- Hperm1. rewrite !map_app, !concat_app. cbn [map concat].
      rewrite <- Hoff. rewrite <- !app_assoc. reflexivity.
    + intros o' v'. rewrite <- Hent1.
      change (pre ++ lo :: up :: post) with (pre ++ lo :: ([up] ++ post)).
      rewrite entry_middle, (entry_middle otv2 pre post s').
      assert (Hup_mid : entry_of (mk otv2 (pre ++ [up] ++ post)) o' v'
                        <-> slot_holds up o' v'
                            \/ entry_of (mk otv2 (pre ++ post)) o' v').
      { apply (entry_middle otv2 pre post up). }
      rewrite Hup_mid, <- Hh. tauto.
  - (* the slot is replaced *)
    rewrite insert_take_drop by lia. fold pre post.
    apply Hfinish; assumption.
Qed.

(** ** [delete_offset] *)

Lemma lookup_other {A} (l : list A) (i k : nat) (b : A) :
  l !! k = Some b -> k <> i -> b ∈ take i l ++ drop (S i) l.
Proof.
  intros Hk Hne. apply elem_of_app.
  destruct (Nat.lt_ge_cases k i) as [Hlt|Hge].
  - left. apply elem_of_take. exists k. split; assumption.
  - right. apply elem_of_drop_lookup. exists k. split; [exact Hk|lia].
Qed.

Lemma nodup_concat_middle {A B} (f : A -> list B) (l1 l2 : list A) (a : A) :
  NoDup (concat (map f (l1 ++ a :: l2))) ->
  NoDup (f a) /\
  (forall x b, x ∈ f a -> b ∈ l1 ++ l2 -> x ∉ f b) /\
  NoDup (concat (map f (l1 ++ l2))).
Proof.
  rewrite !map_app, !concat_app. cbn [map concat].
  intros Hnd. apply NoDup_app in Hnd as (N1 & N12 & N2).
  apply NoDup_app in N2 as (Na & Na2 & N2). split; [exact Na|]. split.
  - intros x b Hx Hb Hxb. apply elem_of_app in Hb as [Hb|Hb].
    + apply (N12 x).
      * apply list_elem_of_In, in_concat. exists (f b).
        split; [apply in_map, list_elem_of_In, Hb|apply list_elem_of_In, Hxb].
      * apply elem_of_app. left. exact Hx.
    + apply (Na2 x Hx). apply list_elem_of_In, in_concat. exists (f b).
      split; [apply in_map, list_elem_of_In, Hb|apply list_elem_of_In, Hxb].
  - apply NoDup_app. split; [exact N1|]. split; [|exact N2].
    intros x Hx Hx2. apply (N12 x Hx). apply elem_of_app. right. exact Hx2.
Qed.

Lemma skip_slots_spec (slots : list (@SlotMeta F)) (o : Z) (i : nat) (s : SlotMeta)
    (fuel : nat) (start : Z) :
  slots !! i = Some s -> o ∈ Bitmap.elems (bitmap s) ->
  (forall k sk, (k < i)%nat -> slots !! k = Some sk ->
                o ∉ Bitmap.elems (bitmap sk)) ->
  0 <= start <= Z.of_nat i -> Z.of_nat i - start < Z.of_nat fuel ->
  skip_slots fuel slots o start = Z.of_nat i.
Proof.
  intros Hs Hin Hout. revert start.
  induction fuel as [|fuel IH]; intros start Hstart Hfuel; [lia|].
  pose proof (lookup_lt_Some _ _ _ Hs) as Hlt.
  cbn [skip_slots]. replace (start <? Z.of_nat (length slots)) with true
    by (symmetry; apply Z.ltb_lt; lia).
  cbn [andb]. destruct (Z.eq_dec start (Z.of_nat i)) as [->|Hne].
  - unfold slot_at. rewrite Nat2Z.id, (nth_lookup_Some _ _ _ _ Hs).
    rewrite Isset_spec, bool_decide_eq_true_2 by exact Hin. reflexivity.
  - destruct (lookup_lt_is_Some_2 slots (Z.to_nat start) ltac:(lia)) as [sk Hsk].
    unfold slot_at. rewrite (nth_lookup_Some _ _ _ _ Hsk).
    rewrite Isset_spec, bool_decide_eq_false_2
      by (apply (Hout (Z.to_nat start)); [lia|exact Hsk]).
    cbn [negb]. apply IH; lia.
Qed.

Lemma find_offset_spec (os : list Z) (o : Z) (j : nat) (fuel : nat) (pos : Z) :
  os !! j = Some o -> NoDup os ->
  0 <= pos <= Z.of_nat j -> Z.of_nat j - pos < Z.of_nat fuel ->
  find_offset fuel os o pos = Z.of_nat j.
Proof.
  intros Hj Hnd. revert pos.
  induction fuel as [|fuel IH]; intros pos Hpos Hfuel; [lia|].
  pose proof (lookup_lt_Some _ _ _ Hj) as Hlt.
  cbn [find_offset].
  replace (pos =? Z.of_nat (length os)) with false
    by (symmetry; apply Z.eqb_neq; lia).
  cbn [negb andb]. destruct (Z.eq_dec pos (Z.of_nat j)) as [->|Hne].
  - unfold offset_at. rewrite Nat2Z.id, (nth_lookup_Some _ _ _ _ Hj).
    rewrite Z.eqb_refl. reflexivity.
  - destruct (lookup_lt_is_Some_2 os (Z.to_nat pos) ltac:(lia)) as [x Hx].
    unfold offset_at. rewrite (nth_lookup_Some _ _ _ _ Hx).
    assert (Hxo : x <> o).
    { intros ->. pose proof (NoDup_lookup _ _ _ _ Hnd Hx Hj). lia. }
    replace (x =? o) with false by (symmetry; apply Z.eqb_neq; exact Hxo).
    cbn [negb]. apply IH; lia.
Qed.

Lemma slot_erase_ok (s : @SlotMeta F) (o : Z) (v : F) (j : nat) :
  slot_ok s -> NoDup (offset_vec s) ->
  offset_vec s !! j = Some o -> value_vec s !! j = Some v ->
  let values' := erase_at (Z.of_nat j) (value_vec s) in
  let offsets' := erase_at (Z.of_nat j) (offset_vec s) in
  offset_vec s ≡ₚ o :: offsets' /\
  (forall o' v', (o', v') ∈ zip offsets' values'
                 <-> o' <> o /\ slot_holds s o' v') /\
  (values' <> [] ->
   let s' := mkSlot (List.hd fnan values') (List.last values' fnan)
                    (Bitmap.Unset (bitmap s) o) values' offsets' in
   slot_ok s' /\
   frank (left s) <= frank (left s') /\ frank (right s') <= frank (right s)).
Proof.
  intros Hs Hnd Hj Hv values' offsets'.
  pose proof (so_length s Hs) as Hlen. pose proof (so_nonnan s Hs) as Hn.
  assert (Hvs : values' = take j (value_vec s) ++ drop (S j) (value_vec s)).
  { unfold values', erase_at. rewrite Nat2Z.id. reflexivity. }
  assert (Hos : offsets' = take j (offset_vec s) ++ drop (S j) (offset_vec s)).
  { unfold offsets', erase_at. rewrite Nat2Z.id. reflexivity. }
  pose proof (Permutation_erase j _ _ Hj) as Hperm. rewrite <- Hos in Hperm.
  assert (Hfresh : o ∉ offsets').
  { rewrite Hperm in Hnd. apply NoDup_cons in Hnd as [Hnot _]. exact Hnot. }
  assert (Hsub : forall x, x ∈ values' -> x ∈ value_vec s).
  { intros x Hx. rewrite Hvs in Hx. apply elem_of_app in Hx as [Hx|Hx].
    - apply elem_of_take in Hx as (i & Hi & _). eapply list_elem_of_lookup_2, Hi.
    - apply elem_of_drop_lookup in Hx as (i & Hi & _).
      eapply list_elem_of_lookup_2, Hi. }
  split; [exact Hperm|]. split.
  - intros o' v'. rewrite holds_zip, Hos, Hvs.
    rewrite zip_take_drop_S by lia.
    assert (Hz : zip (offset_vec s) (value_vec s) !! j = Some (o, v)).
    { apply lookup_zip_with_Some. exists o, v. split; [reflexivity|].
      split; assumption. }
    pose proof (Permutation_erase j _ _ Hz) as Hpz. split.
    + intros Hin. split.
      * intros ->. apply Hfresh. rewrite Hos.
        rewrite <- zip_take_drop_S in Hin by lia.
        apply elem_of_zip_l in Hin. exact Hin.
      * rewrite Hpz. apply list_elem_of_further, Hin.
    + intros [Hne Hin]. rewrite Hpz in Hin.
      apply elem_of_cons in Hin as [[= -> ->]|Hin]; [congruence|exact Hin].
  - intros Hne s'.
    destruct (Unset_spec (bitmap s) o (so_wf s Hs)) as [Hw He].
    assert (Hsort : rank_sorted values').
    { rewrite Hvs. apply sorted_erase, (so_sorted s Hs). }
    assert (Hnn : Forall (fun x => fis_nan x = false) values').
    { apply Forall_forall. intros x Hx. rewrite Forall_forall in Hn.
      apply Hn, Hsub, Hx. }
    unfold s'. split; [|split].
    + constructor; cbn [value_vec offset_vec left right bitmap].
      * exact Hne.
      * change (length values' = length offsets').
        rewrite Hvs, Hos, !length_app, !length_take, !length_drop. lia.
      * exact Hnn.
      * exact Hsort.
      * rewrite Forall_forall in Hnn. apply Hnn, hd_elem_of, Hne.
      * reflexivity.
      * rewrite Forall_forall in Hnn. apply Hnn, last_elem_of, Hne.
      * reflexivity.
      * exact Hw.
      * rewrite He, (so_bitmap s Hs). apply set_eq. intros x.
        rewrite elem_of_difference, elem_of_singleton, !elem_of_list_to_set.
        rewrite Hperm, elem_of_cons. split.
        -- intros [[->|Hx] Hxo]; [congruence|exact Hx].
        -- intros Hx. split; [right; exact Hx|]. intros ->. exact (Hfresh Hx).
    + cbn [left]. apply (slot_value_between s); [exact Hs|].
      apply Hsub, hd_elem_of, Hne.
    + cbn [right]. apply (slot_value_between s); [exact Hs|].
      apply Hsub, last_elem_of, Hne.
Qed.

Lemma length_erase_at {A} (l : list A) (j : nat) :
  (j < length l)%nat -> length (erase_at (Z.of_nat j) l) = (length l - 1)%nat.
Proof.
  intros Hj. unfold erase_at. rewrite Nat2Z.id.
  rewrite length_app, length_take, length_drop. lia.
Qed.

Lemma prefix_length_stop {A} (p : A -> bool) (l : list A) (j : nat) (v : A) :
  l !! j = Some v -> p v = false -> (prefix_length p l <= j)%nat.
Proof.
  revert j. induction l as [|x l IH]; intros j Hj Hp; simpl; [lia|].
  destruct j as [|j]; simpl in Hj.
  - injection Hj as ->. rewrite Hp. lia.
  - destruct (p x); [|lia]. specialize (IH j Hj Hp). lia.
Qed.

Lemma inv_after_delete (m : @RangedMap.t F) (o : Z) (v : F)
    (slots' : list SlotMeta) :
  Inv m -> 0 <= o -> offset_to_value_ m !! Z.to_nat o = Some v ->
  Forall slot_ok slots' -> StronglySorted slot_before slots' ->
  all_offsets m ≡ₚ o :: concat (map offset_vec slots') ->
  (forall o' v', entry_of (mk (offset_to_value_ m) slots') o' v'
                 <-> o' <> o /\ entry_of m o' v') ->
  Inv (mk (<[Z.to_nat o := fnan]> (offset_to_value_ m)) slots').
Proof.
  intros HI Ho Hl Hok Hsorted Hperm Hent.
  constructor; cbn [slots_ offset_to_value_].
  - exact Hok.
  - exact Hsorted.
  - unfold all_offsets; cbn [slots_]. pose proof (inv_nodup m HI) as Hnd.
    rewrite Hperm in Hnd. apply NoDup_cons in Hnd as [_ Hnd]. exact Hnd.
  - intros o' v'.
    change (entry_of (mk (offset_to_value_ m) slots') o' v' <->
            0 <= o' /\ <[Z.to_nat o:=fnan]> (offset_to_value_ m) !! Z.to_nat o'
                       = Some v' /\ fis_nan v' = false).
    rewrite Hent, (inv_table m HI). split.
    + intros (Hne & Hpos & Hl' & Hn). split; [exact Hpos|]. split; [|exact Hn].
      rewrite list_lookup_insert_ne by lia. exact Hl'.
    + intros (Hpos & Hl' & Hn). destruct (Z.eq_dec o' o) as [->|Hne].
      * rewrite list_lookup_insert_eq in Hl' by (eapply lookup_lt_Some, Hl).
        injection Hl' as <-. rewrite fnan_is_nan in Hn. discriminate.
      * split; [exact Hne|]. split; [exact Hpos|]. split; [|exact Hn].
        rewrite list_lookup_insert_ne in Hl' by lia. exact Hl'.
  - rewrite length_insert. apply (inv_size m HI).
Qed.

Lemma delete_keeps_inv (m : @RangedMap.t F) (o : Z) :
  Inv m -> 0 <= o ->
  exists (r : Z) (m' : RangedMap.t),
    delete_offset m o = (r, m') /\ Inv m' /\
    ((r = -1 /\ m' = m /\ forall v0, ~ entry_of m o v0) \/
     (r = 0 /\ (exists v0, entry_of m o v0) /\
      offset_to_value_ m' = <[Z.to_nat o := fnan]> (offset_to_value_ m) /\
      forall o' v', entry_of m' o' v' <-> o' <> o /\ entry_of m o' v')).
Proof.
  intros HI Ho.
  pose proof (inv_slots m HI) as Hok. pose proof (inv_order m HI) as Hsorted.
  unfold delete_offset. destruct (slots_ m) as [|s0 rest] eqn:E.
  - exists (-1), m. split; [reflexivity|]. split; [exact HI|]. left.
    split; [reflexivity|]. split; [reflexivity|].
    intros v0 (s & Hs & _). rewrite E in Hs. inversion Hs.
  - rewrite <- E in Hok, Hsorted |- *. clear E s0 rest.
    destruct ((o >=? Z.of_nat (length (offset_to_value_ m)))
              || fis_nan (value_at (offset_to_value_ m) o)) eqn:Hc.
    { exists (-1), m. split; [reflexivity|]. split; [exact HI|]. left.
      split; [reflexivity|]. split; [reflexivity|].
      intros v0 He. apply (inv_table m HI) in He as (_ & Hl & Hn).
      pose proof (lookup_lt_Some _ _ _ Hl) as Hlt.
      rewrite (value_at_lookup _ _ _ Hl), Hn, orb_false_r in Hc.
      rewrite Z.geb_leb in Hc. apply Z.leb_le in Hc. lia. }
    apply orb_false_iff in Hc as [Hlt Hnn].
    rewrite Z.geb_leb in Hlt. apply Z.leb_gt in Hlt.
    destruct (lookup_lt_is_Some_2 (offset_to_value_ m) (Z.to_nat o) ltac:(lia))
      as [v Hl].
    rewrite (value_at_lookup _ _ _ Hl) in *.
    assert (He : entry_of m o v).
    { apply (inv_table m HI). split; [exact Ho|]. split; assumption. }
    pose proof He as (s & Hs & j & Hoj & Hvj).
    apply list_elem_of_lookup in Hs as [i Hi].
    pose proof (lookup_lt_Some _ _ _ Hi) as Hilt.
    pose proof (lookup_lt_Some _ _ _ Hoj) as Hjlt.
    assert (Hoks : slot_ok s).
    { rewrite Forall_forall in Hok. apply Hok. eapply list_elem_of_lookup_2, Hi. }
    assert (Hn31 : Z.of_nat (length (slots_ m)) < 2 ^ 31).
    { pose proof (slots_le_total m Hok). pose proof (Inv_total m HI).
      pose proof (inv_size m HI). lia. }
    destruct (find_left_slot_index_spec m v true Hok Hsorted Hnn Hn31)
      as (Hu & Hall & _).
    set (u := find_left_slot_index m v true) in *.
    assert (Hui : u <= Z.of_nat i).
    { destruct (Z.le_gt_cases u (Z.of_nat i)) as [Hle|Hgt]; [exact Hle|]. exfalso.
      rewrite Forall_forall in Hall.
      assert (Hin : s ∈ take (Z.to_nat u) (slots_ m)).
      { apply elem_of_take. exists i. split; [exact Hi|lia]. }
      specialize (Hall s Hin). unfold slot_all in Hall.
      rewrite Forall_forall in Hall.
      specialize (Hall v (list_elem_of_lookup_2 _ _ _ Hvj)). cbn [negb] in Hall.
      rewrite below_rank in Hall by assumption. apply Z.ltb_lt in Hall. lia. }
    rewrite (to_uint64_small u) by lia.
    pose proof (take_drop_middle _ _ _ Hi) as Hmid.
    pose proof (inv_nodup m HI) as Hnd. unfold all_offsets in Hnd.
    rewrite <- Hmid in Hnd.
    apply nodup_concat_middle in Hnd as (Hnds & Hothers & _).
    assert (Hskip : skip_slots (S (length (slots_ m))) (slots_ m) o u = Z.of_nat i).
    { apply (skip_slots_spec _ _ i s); [exact Hi| | |lia|lia].
      - rewrite (so_bitmap s Hoks). apply elem_of_list_to_set.
        eapply list_elem_of_lookup_2, Hoj.
      - intros k sk Hk Hsk Hin. apply (Hothers o sk).
        + eapply list_elem_of_lookup_2, Hoj.
        + apply (lookup_other _ i k); [exact Hsk|lia].
        + assert (Hoksk : slot_ok sk).
          { rewrite Forall_forall in Hok. apply Hok.
            eapply list_elem_of_lookup_2, Hsk. }
          rewrite (so_bitmap sk Hoksk) in Hin.
          apply elem_of_list_to_set in Hin. exact Hin. }
    rewrite Hskip.
    replace (Z.of_nat i >=? Z.of_nat (length (slots_ m))) with false
      by (symmetry; rewrite Z.geb_leb; apply Z.leb_gt; lia).
    unfold slot_at. rewrite Nat2Z.id, (nth_lookup_Some _ _ _ _ Hi).
    assert (Hfrom : 0 <= lower_bound (value_vec s) v <= Z.of_nat j).
    { unfold lower_bound. split; [lia|]. apply inj_le.
      apply (prefix_length_stop _ _ _ v Hvj).
      rewrite fltb_rank by assumption. apply Z.ltb_irrefl. }
    rewrite (find_offset_spec _ _ j _ _ Hoj Hnds Hfrom)
      by (apply Z.le_lt_trans with (Z.of_nat j); lia).
    replace (Z.of_nat j =? Z.of_nat (length (offset_vec s))) with false
      by (symmetry; apply Z.eqb_neq; lia).
    destruct (slot_erase_ok s o v j Hoks Hnds Hoj Hvj) as (Hperm & Hzip & Hnew).
    cbv zeta in Hnew |- *.
    assert (Hrest : forall o' v',
      entry_of (mk (offset_to_value_ m)
                   (take i (slots_ m) ++ drop (S i) (slots_ m))) o' v' -> o' <> o).
    { intros o' v' (x & Hx & jx & Hox & _) ->. cbn [slots_] in Hx.
      apply (Hothers o x); [eapply list_elem_of_lookup_2, Hoj|exact Hx|].
      eapply list_elem_of_lookup_2, Hox. }
    assert (Hsplit : forall o' v',
      entry_of m o' v' <->
      slot_holds s o' v' \/
      entry_of (mk (offset_to_value_ m)
                   (take i (slots_ m) ++ drop (S i) (slots_ m))) o' v').
    { intros o' v'. rewrite <- entry_middle. unfold entry_of. cbn [slots_].
      rewrite Hmid. reflexivity. }
    assert (Hoffs : all_offsets m
                    = concat (map offset_vec (take i (slots_ m))) ++ offset_vec s
                      ++ concat (map offset_vec (drop (S i) (slots_ m)))).
    { unfold all_offsets. rewrite <- Hmid at 1. apply offsets_concat. }
    rewrite <- Hmid in Hok, Hsorted.
    destruct (erase_at (Z.of_nat j) (value_vec s)) as [|x vs'] eqn:Ev.
    + (* the slot becomes empty and is removed *)
      assert (Ho' : erase_at (Z.of_nat j) (offset_vec s) = []).
      { apply length_zero_iff_nil. apply (f_equal (@length _)) in Ev.
        pose proof (so_length s Hoks) as Hlen.
        rewrite length_erase_at in Ev by lia. rewrite length_erase_at by lia.
        cbn [length] in Ev. lia. }
      rewrite Ho' in *.
      unfold erase_at at 1. rewrite Nat2Z.id.
      destruct (slots_remove_ok _ _ _ Hok Hsorted) as [Hok' Hsorted'].
      assert (Hent : forall o' v',
        entry_of (mk (offset_to_value_ m)
                     (take i (slots_ m) ++ drop (S i) (slots_ m))) o' v'
        <-> o' <> o /\ entry_of m o' v').
      { intros o' v'. rewrite Hsplit. split.
        - intros Hr. split; [eapply Hrest, Hr|right; exact Hr].
        - intros [Hne [Hh|Hr]]; [|exact Hr]. exfalso.
          assert (Hin : (o', v') ∈ zip (@nil Z) (@nil F)).
          { apply Hzip. split; assumption. }
          inversion Hin. }
      eexists 0, _. split; [reflexivity|]. split.
      * apply (inv_after_delete m o v); try assumption.
        rewrite Hoffs, Hperm, map_app, concat_app. cbn [app].
        symmetry. apply Permutation_middle.
      * right. split; [reflexivity|]. split; [exists v; exact He|].
        split; [reflexivity|]. exact Hent.
    + cbv iota. rewrite <- Ev in *.
      destruct Hnew as (Hoks' & Hleft & Hright); [rewrite Ev; discriminate|].
      set (s' := mkSlot _ _ _ _ _) in *.
      rewrite (insert_take_drop (slots_ m)) by lia.
      pose proof Hsorted as Hsorted0.
      apply slots_sorted_iff in Hsorted0 as (_ & _ & S3 & S4 & _).
      destruct (slots_replace_ok _ _ s s' Hok Hsorted Hoks') as [Hok' Hsorted'].
      { intros y Hy. specialize (S3 y Hy). unfold slot_before in S3. lia. }
      { intros y Hy. specialize (S4 y Hy). unfold slot_before in S4. lia. }
      assert (Hent : forall o' v',
        entry_of (mk (offset_to_value_ m)
                     (take i (slots_ m) ++ s' :: drop (S i) (slots_ m))) o' v'
        <-> o' <> o /\ entry_of m o' v').
      { intros o' v'. rewrite entry_middle, Hsplit.
        assert (Hs' : slot_holds s' o' v' <-> o' <> o /\ slot_holds s o' v').
        { rewrite holds_zip. unfold s'. cbn [offset_vec value_vec]. apply Hzip. }
        rewrite Hs'. split.
        - intros [[Hne Hh]|Hr]; [split; [exact Hne|left; exact Hh]|].
          split; [eapply Hrest, Hr|right; exact Hr].
        - intros [Hne [Hh|Hr]]; [left; split; assumption|right; exact Hr]. }
      eexists 0, _. split; [reflexivity|]. split.
      * apply (inv_after_delete m o v); try assumption.
        rewrite Hoffs, Hperm, offsets_concat. unfold s' at 1. cbn [offset_vec].
        cbn [app]. symmetry. apply Permutation_middle.
      * right. split; [reflexivity|]. split; [exists v; exact He|].
        split; [reflexivity|]. exact Hent.
Qed.

(** ** The maps a sequence of updates reaches *)

Lemma inv_new : Inv (@RangedMap.new F).
Proof.
  constructor; cbn.
  - constructor.
  - constructor.
  - constructor.
  - intros o v. split.
    + intros (s & Hs & _). inversion Hs.
    + intros (_ & Hl & _). rewrite lookup_nil in Hl. discriminate.
  - lia.
Qed.

Lemma step_inv (m : @RangedMap.t F) (c : call) :
  Inv m -> admissible c -> exists m', step (Some m) c = Some m' /\ Inv m'.
Proof.
  intros HI Hc. destruct c as [o v|o]; cbn [step admissible] in *.
  - destruct Hc as [Ho Hv].
    destruct (add_keeps_inv m o v HI Ho Hv) as (r & m' & -> & HI' & _).
    exists m'. split; [reflexivity|exact HI'].
  - destruct (delete_keeps_inv m o HI ltac:(lia)) as (r & m' & -> & HI' & _).
    exists m'. split; [reflexivity|exact HI'].
Qed.

Lemma fold_step_inv (cs : list call) (m : @RangedMap.t F) :
  Inv m -> Forall admissible cs ->
  exists m', fold_left step cs (Some m) = Some m' /\ Inv m'.
Proof.
  revert m. induction cs as [|c cs IH]; intros m HI Hcs.
  - exists m. split; [reflexivity|exact HI].
  - apply Forall_cons in Hcs as [Hc Hcs]. cbn [fold_left].
    destruct (step_inv m c HI Hc) as (m1 & -> & HI1). apply IH; assumption.
Qed.

Lemma run_inv (cs : list call) :
  Forall admissible cs -> exists m, run cs = Some m /\ Inv m.
Proof. intros Hcs. apply fold_step_inv; [apply inv_new|exact Hcs]. Qed.

Lemma reached_inv (cs : list call) (m : @RangedMap.t F) :
  Forall admissible cs -> run cs = Some m -> Inv m.
Proof.
  intros Hcs Hrun. destruct (run_inv cs Hcs) as (m' & Hm' & HI).
  rewrite Hrun in Hm'. injection Hm' as <-. exact HI.
Qed.

End Update.

Lemma sample_calls_admissible : Forall admissible sample_calls.
Proof.
  unfold sample_calls.
  repeat (apply Forall_cons; split; [cbn; try split; try lia; reflexivity|]).
  constructor.
Qed.

End RangedUpdate.

(* ===================================================================== *)
(** * RangedMap: top-k with conditions                                     *)
(* ===================================================================== *)

Module RangedTopk.
Import RangedMap.

Lemma seqZ_snoc (k : Z) : 0 <= k -> seqZ 0 (k + 1) = seqZ 0 k ++ [k].
Proof.
  intros Hk. rewrite seqZ_app by lia. f_equal.
Qed.

Lemma count_from_seqZ (n : nat) (start : Z) :
  count_from start n = seqZ start (Z.of_nat n).
Proof.
  revert start. induction n as [|n IH]; intros start; [reflexivity|].
  rewrite seqZ_cons by lia. cbn [count_from]. rewrite IH.
  f_equal. f_equal; lia.
Qed.

Lemma upto_seqZ (k : Z) : 0 <= k -> upto k = seqZ 0 k.
Proof.
  intros Hk. unfold upto. rewrite count_from_seqZ. f_equal. lia.
Qed.

Lemma prefix_length_all {A} (p : A -> bool) (l : list A) :
  Forall (fun x => p x = true) l -> prefix_length p l = length l.
Proof.
  induction 1 as [|x l Hx _ IH]; simpl; [reflexivity|].
  rewrite Hx, IH. reflexivity.
Qed.

Lemma insert_at_end {A} (x : A) (l : list A) :
  insert_at (Z.of_nat (length l)) x l = l ++ [x].
Proof.
  unfold insert_at. rewrite Nat2Z.id, take_ge, drop_ge by lia. reflexivity.
Qed.

Lemma upper_bound_ramp (k : Z) :
  0 <= k -> upper_bound (map ZNum (seqZ 0 k)) (ZNum k) = k.
Proof.
  intros Hk. unfold upper_bound. rewrite prefix_length_all.
  - rewrite length_map, length_seqZ. lia.
  - apply Forall_forall. intros x Hx. apply list_elem_of_In in Hx.
    apply in_map_iff in Hx as (i & <- & Hi).
    apply list_elem_of_In, elem_of_seqZ in Hi.
    change (fltb (ZNum k) (ZNum i)) with (k <? i).
    destruct (Z.ltb_spec k i); [lia|reflexivity].
Qed.

Lemma find_right_single (otv : list zfloat) (s : SlotMeta) (k : Z) :
  left s = ZNum 0 -> right s = ZNum (k - 1) -> 1 <= k ->
  find_right_slot_index (mk otv [s]) (ZNum k) true = 0.
Proof.
  intros Hl Hr Hk. unfold find_right_slot_index, slot_upper_bound_idx.
  cbn [slots_ length]. change (to_int (Z.of_nat 1)) with 1.
  cbn [slot_bound_loop]. change (0 <? 1) with true. cbv iota.
  change (0 + Z.quot (1 - 0) 2) with 0.
  change (slot_at [s] 0) with s. rewrite Hr, Hl.
  unfold fgeb. change (fleb (ZNum (k - 1)) (ZNum k)) with (k - 1 <=? k).
  replace (k - 1 <=? k) with true by (symmetry; apply Z.leb_le; lia).
  cbv iota. change (Z.min (0 + 1) (1 - 1)) with 0.
  change (slot_at [s] 0) with s. rewrite Hl.
  change (fltb (ZNum k) (ZNum 0)) with (k <? 0).
  replace (k <? 0) with false by (symmetry; apply Z.ltb_ge; lia).
  reflexivity.
Qed.

(** The steps of [add_offset_and_score] on the one-slot map up to the test
    of the slot size. *)
Ltac ramp_add_front k Hk :=
  let Hlen := fresh "Hlen" in
  let Hw := fresh "Hw" in
  let Hi1 := fresh "Hi" in
  let Hi2 := fresh "Hi" in
  assert (Hlen : length (map ZNum (seqZ 0 k)) = Z.to_nat k)
    by (rewrite length_map, length_seqZ; reflexivity);
  unfold add_offset_and_score, ramp_map, ramp_bitmap;
  rewrite !(upto_seqZ k) by lia;
  cbn [offset_to_value_ slots_];
  rewrite find_right_single by (reflexivity || lia);
  change (0 =? -1) with false; cbv iota;
  change (slot_at [?s] 0) with s;
  cbn [value_vec offset_vec left right bitmap];
  rewrite Hlen, Z2Nat.id by lia;
  rewrite Z.ltb_irrefl; cbn [andb];
  replace (k >=? k) with true by (symmetry; apply Z.geb_le; lia);
  assert (Hw : to_uint32 (k + 1) = k + 1)
    by (unfold to_uint32, wrap; apply Z.mod_small; lia);
  rewrite Hw;
  rewrite resize_ge by lia; rewrite Hlen;
  replace (Z.to_nat (k + 1) - Z.to_nat k)%nat with 1%nat by lia;
  cbn [replicate]; rewrite length_app, Hlen; cbn [length];
  replace (Z.of_nat (Z.to_nat k + 1) <=? k) with false
    by (symmetry; apply Z.leb_gt; lia);
  rewrite insert_app_r_alt by lia; rewrite Hlen, Nat.sub_diag;
  cbn [insert list_insert];
  rewrite upper_bound_ramp by lia;
  assert (Hi1 : insert_at k (ZNum k) (map ZNum (seqZ 0 k))
                = map ZNum (seqZ 0 k) ++ [ZNum k])
    by (rewrite <- insert_at_end; f_equal; lia);
  assert (Hi2 : insert_at k k (seqZ 0 k) = seqZ 0 k ++ [k])
    by (rewrite <- insert_at_end; f_equal; rewrite length_seqZ; lia);
  rewrite Hi1, Hi2;
  unfold fmin, fmax;
  change (fltb (ZNum 0) (ZNum k)) with (0 <? k);
  replace (0 <? k) with true by (symmetry; apply Z.ltb_lt; lia);
  change (fltb (ZNum k) (ZNum (k - 1))) with (k <? k - 1);
  replace (k <? k - 1) with false by (symmetry; apply Z.ltb_ge; lia);
  cbv iota;
  rewrite <- (seqZ_snoc k) by lia;
  change [ZNum k] with (map ZNum [k]); rewrite <- map_app;
  rewrite <- (seqZ_snoc k) by lia.

(** Adding the next offset of the ramp to the one-slot map. *)
Lemma add_ramp (k : Z) :
  1 <= k < 2 * kRangedMapSlotSize ->
  add_offset_and_score (ramp_map k) k (ZNum k) = Some (0, ramp_map (k + 1)).
Proof.
  intros Hk. unfold kRangedMapSlotSize in Hk.
  ramp_add_front k Hk.
  rewrite length_map, length_seqZ.
  unfold kRangedMapSlotSize.
  replace (10000 * 2 <? Z.of_nat (Z.to_nat (k + 1))) with false
    by (symmetry; apply Z.ltb_ge; lia).
  cbn [Z.to_nat insert list_insert].
  rewrite !(upto_seqZ (k + 1)) by lia.
  rewrite (seqZ_snoc k), fold_left_app by lia.
  cbn [fold_left].
  replace (k + 1 - 1) with k by lia.
  reflexivity.
Qed.

(** The insertion that takes the slot past twice the slot size splits
    it in two halves. *)
Lemma add_ramp_split (k : Z) :
  k = 2 * kRangedMapSlotSize ->
  exists b1 b2 : Bitmap.t,
    add_offset_and_score (ramp_map k) k (ZNum k)
    = Some (0, mk (map ZNum (upto (k + 1)))
                  [mkSlot (ZNum 0)
                          (List.last (take (Nat.div (Z.to_nat (k + 1)) 2)
                                           (map ZNum (upto (k + 1)))) fnan)
                          b1
                          (take (Nat.div (Z.to_nat (k + 1)) 2)
                                (map ZNum (upto (k + 1))))
                          (take (Nat.div (Z.to_nat (k + 1)) 2) (upto (k + 1)));
                   mkSlot (List.hd fnan (drop (Nat.div (Z.to_nat (k + 1)) 2)
                                              (map ZNum (upto (k + 1)))))
                          (List.last (drop (Nat.div (Z.to_nat (k + 1)) 2)
                                           (map ZNum (upto (k + 1)))) fnan)
                          b2
                          (drop (Nat.div (Z.to_nat (k + 1)) 2)
                                (map ZNum (upto (k + 1))))
                          (drop (Nat.div (Z.to_nat (k + 1)) 2) (upto (k + 1)))]).
Proof.
  intros Hk. unfold kRangedMapSlotSize in Hk.
  ramp_add_front k Hk.
  rewrite length_map, length_seqZ.
  unfold kRangedMapSlotSize.
  replace (10000 * 2 <? Z.of_nat (Z.to_nat (k + 1))) with true
    by (symmetry; apply Z.ltb_lt; lia).
  unfold split_half_to_new_slot.
  cbn [value_vec offset_vec left right bitmap].
  rewrite length_map, length_seqZ.
  replace (Z.to_nat (k + 1) <? 2)%nat with false
    by (symmetry; apply Nat.ltb_ge; lia).
  cbn [Z.to_nat take drop app].
  rewrite !(upto_seqZ (k + 1)) by lia.
  eexists _, _. reflexivity.
Qed.

Lemma add_all_snoc {F : Type} `{FloatOps F} `{ScoreOps F}
    (l : list (Z * F)) (p : Z * F) (m m' : RangedMap.t) :
  add_all l m = Some m' ->
  add_all (l ++ [p]) m = option_map snd (add_offset_and_score m' (fst p) (snd p)).
Proof.
  intros Hl. unfold add_all in *. rewrite fold_left_app, Hl. reflexivity.
Qed.

Lemma ramp_snoc (k : Z) : 0 <= k -> ramp (k + 1) = ramp k ++ [(k, ZNum k)].
Proof.
  intros Hk. unfold ramp. rewrite !upto_seqZ by lia.
  rewrite seqZ_snoc by lia. rewrite map_app. reflexivity.
Qed.

Lemma add_all_ramp_succ (n : nat) :
  Z.of_nat n < 2 * kRangedMapSlotSize ->
  add_all (ramp (Z.of_nat n + 1)) new = Some (ramp_map (Z.of_nat n + 1)).
Proof.
  induction n as [|n IH]; intros Hn.
  - reflexivity.
  - rewrite Nat2Z.inj_succ in *. unfold Z.succ in *.
    rewrite ramp_snoc by lia.
    rewrite (add_all_snoc _ _ _ (ramp_map (Z.of_nat n + 1))) by (apply IH; lia).
    cbn [fst snd]. rewrite add_ramp by lia. reflexivity.
Qed.

(** The first [k] offsets of the ramp, added in turn to a new map, fill
    one slot as long as it does not pass twice the slot size. *)
Lemma add_all_ramp (k : Z) :
  1 <= k <= 2 * kRangedMapSlotSize ->
  add_all (ramp k) new = Some (ramp_map k).
Proof.
  intros Hk. replace k with (Z.of_nat (Z.to_nat (k - 1)) + 1) by lia.
  apply add_all_ramp_succ. lia.
Qed.

(** C4 at the failing input.  The offsets 0 .. 20000 are added with the
    values 0 .. 20000; the last insertion splits the slot into the
    values 0 .. 9999 and 10000 .. 20000.  A descending top-1 query without
    filter and without conditions answers the offset 9999: the loop over
    the slots starts at the first slot, fills the bucket of two entries
    there and stops.  The greatest value, 20000 at the offset 20000, which
    [get_topk_result] finds, was never scanned. *)
Theorem C4_descending_scans_lowest_slot :
  match add_all (ramp 20001) new with
  | Some m =>
      map (fun s => (left s, right s, Z.of_nat (length (offset_vec s)))) (slots_ m)
      = [(ZNum 0, ZNum 9999, 10000); (ZNum 10000, ZNum 20000, 10001)] /\
      get_topk_result_with_conditions m 1 false None []
      = mkRecall [ZNum 9999] [9999] /\
      get_score_by_offset m 20000 = ZNum 20000 /\
      get_topk_result m 1 false None = mkRecall [ZNum 20000] [20000]
  | None => False
  end.
Proof.
  change 20001 with (20000 + 1). rewrite ramp_snoc by lia.
  assert (Hb : 1 <= 20000 <= 2 * kRangedMapSlotSize)
    by (unfold kRangedMapSlotSize; lia).
  pose proof (add_all_snoc _ (20000, ZNum 20000) _ _ (add_all_ramp 20000 Hb)) as Hs.
  cbn [fst snd] in Hs. rewrite Hs. clear Hs.
  destruct (add_ramp_split 20000) as (b1 & b2 & Hsplit); [reflexivity|].
  rewrite Hsplit. cbn [option_map snd].
  vm_compute. repeat split.
Qed.

End RangedTopk.

(* ===================================================================== *)
(** * RangedMap: what a user of the map can rely on                        *)
(* ===================================================================== *)

Module RangedExtras.
Import RangedMap RangedOrder RangedQuery RangedScan RangedRange RangedUpdate
       BitmapFacts.

Section Extras.
Context {F : Type} `{FloatOps F} `{!FloatOrder F} `{ScoreOps F}.

(** X1. A sequence of [add_offset_and_score] calls, with values that are
    not NaN and offsets below 2^29, and of [delete_offset] calls never
    writes out of bounds, and it leaves the map consistent: no slot is
    empty, the values of a slot ascend, [left] and [right] compare equal
    to its first and last value, its bitmap holds its offsets, the slots
    are in ascending order, no offset is stored twice, and the slots hold
    exactly the entries of [offset_to_value_] that are not NaN. *)
Theorem X1_updates_keep_the_map_consistent (cs : list (@call F)) :
  Forall admissible cs -> exists m, run cs = Some m /\ Inv m.
Proof. apply run_inv. Qed.

(** X2. On a map reached by such updates, [add_offset_and_score] of an
    offset that has a value returns -1 and changes nothing; of any other
    offset it returns 0, after which [get_score_by_offset] gives the value
    added and the slots hold the new entry beside the old ones. *)
Theorem X2_add_then_lookup (cs : list (@call F)) (m : RangedMap.t) (o : Z) (v : F) :
  Forall admissible cs -> run cs = Some m ->
  0 <= o < 2 ^ 29 -> fis_nan v = false ->
  exists (r : Z) (m' : RangedMap.t),
    add_offset_and_score m o v = Some (r, m') /\
    ((r = -1 /\ m' = m /\ exists v0, entry_of m o v0) \/
     (r = 0 /\ (forall v0, ~ entry_of m o v0) /\
      get_score_by_offset m' o = v /\
      forall o' v', entry_of m' o' v' <-> (o' = o /\ v' = v) \/ entry_of m o' v')).
Proof.
  intros Hcs Hrun Ho Hv. pose proof (reached_inv cs m Hcs Hrun) as HI.
  destruct (add_keeps_inv m o v HI Ho Hv) as (r & m' & Hadd & _ & Hres).
  exists r, m'. split; [exact Hadd|].
  destruct Hres as [Hold|(Hr & Hfresh & Hl & Hent)]; [left; exact Hold|].
  right. split; [exact Hr|]. split; [exact Hfresh|]. split; [|exact Hent].
  unfold get_score_by_offset. pose proof (lookup_lt_Some _ _ _ Hl) as Hlt.
  replace (o <? Z.of_nat (length (offset_to_value_ m'))) with true
    by (symmetry; apply Z.ltb_lt; lia).
  apply value_at_lookup, Hl.
Qed.

(** X3. On a map reached by such updates, [delete_offset] of an offset
    without a value returns -1 and changes nothing; of an offset with a
    value it returns 0, after which the score of the offset is a NaN and
    the slots hold the other entries as before. *)
Theorem X3_delete_then_lookup (cs : list (@call F)) (m : RangedMap.t) (o : Z) :
  Forall admissible cs -> run cs = Some m -> 0 <= o ->
  exists (r : Z) (m' : RangedMap.t),
    delete_offset m o = (r, m') /\
    ((r = -1 /\ m' = m /\ forall v0, ~ entry_of m o v0) \/
     (r = 0 /\ (exists v0, entry_of m o v0) /\
      fis_nan (get_score_by_offset m' o) = true /\
      forall o' v', entry_of m' o' v' <-> o' <> o /\ entry_of m o' v')).
Proof.
  intros Hcs Hrun Ho. pose proof (reached_inv cs m Hcs Hrun) as HI.
  destruct (delete_keeps_inv m o HI Ho) as (r & m' & Hdel & _ & Hres).
  exists r, m'. split; [exact Hdel|].
  destruct Hres as [Hold|(Hr & [v0 Hv0] & Htab & Hent)]; [left; exact Hold|].
  right. split; [exact Hr|]. split; [exists v0; exact Hv0|]. split; [|exact Hent].
  apply (inv_table m HI) in Hv0 as (_ & Hl & _).
  pose proof (lookup_lt_Some _ _ _ Hl) as Hlt.
  unfold get_score_by_offset. rewrite Htab, length_insert.
  replace (o <? Z.of_nat (length (offset_to_value_ m))) with true
    by (symmetry; apply Z.ltb_lt; lia).
  unfold value_at.
  rewrite (nth_lookup_Some _ _ fnan fnan
             (list_lookup_insert_eq _ _ _ Hlt)).
  apply fnan_is_nan.
Qed.

(** X4. On a map reached by such updates, [get_range_bitmap] with bounds
    that are not NaN returns exactly the offsets whose value is not a NaN
    and lies in the interval (outside of it for [range_out], where the two
    ends are exchanged first when [lower_than < greater_than]).  A null
    result means that no offset matches; a result that is not null has at
    least one offset when the query is [range_out] or its interval has a
    point. *)
Theorem X4_range_bitmap_is_exact (cs : list (@call F)) (m : RangedMap.t)
    (range_out : bool) (lower_than : F) (include_le : bool)
    (greater_than : F) (include_ge : bool) :
  Forall admissible cs -> run cs = Some m ->
  fis_nan lower_than = false -> fis_nan greater_than = false ->
  let swap := exchanged range_out lower_than greater_than in
  let lt' := if swap then greater_than else lower_than in
  let gt' := if swap then lower_than else greater_than in
  let ile' := if swap then include_ge else include_le in
  let ige' := if swap then include_le else include_ge in
  match get_range_bitmap m range_out lower_than include_le
                         greater_than include_ge with
  | Some b =>
      (forall o, o ∈ Bitmap.elems b <-> matches m range_out lt' ile' gt' ige' o) /\
      (range_out = true
       \/ has_point lower_than include_le greater_than include_ge = true ->
       exists o, matches m range_out lt' ile' gt' ige' o)
  | None => forall o, ~ matches m range_out lt' ile' gt' ige' o
  end.
Proof.
  intros Hcs Hrun Hlt Hgt. pose proof (reached_inv cs m Hcs Hrun) as HI.
  pose proof (range_bitmap_under_inv m range_out lower_than include_le
                greater_than include_ge HI Hlt Hgt) as Hr.
  cbv zeta in Hr |- *.
  destruct (get_range_bitmap m range_out lower_than include_le
              greater_than include_ge) as [b|]; [|exact Hr].
  destruct Hr as (_ & He & Hex). split; assumption.
Qed.

(** X5. On a map reached by such updates that has a slot, the binary
    search [find_right_slot_index] for a bound that is not a NaN returns
    an index [r] from -1 to the last slot such that every value of the
    slots before [r] is below the bound ([<=] when inclusive, [<]
    otherwise) and no value of the slots after [r] is; the search
    [find_left_slot_index] returns an index [u] such that every value of
    the slots before [u] is below the bound and no value of the slots
    after [u] is. *)
Theorem X5_slot_search_brackets_the_bound (cs : list (@call F)) (m : RangedMap.t)
    (x : F) (inclusive : bool) :
  Forall admissible cs -> run cs = Some m ->
  fis_nan x = false -> slots_ m <> [] ->
  let r := find_right_slot_index m x inclusive in
  let u := find_left_slot_index m x inclusive in
  (-1 <= r < Z.of_nat (length (slots_ m)) /\
   (forall i s v, Z.of_nat i < r -> slots_ m !! i = Some s -> v ∈ value_vec s ->
                  below x inclusive v = true) /\
   (forall i s v, r < Z.of_nat i -> slots_ m !! i = Some s -> v ∈ value_vec s ->
                  below x inclusive v = false)) /\
  (0 <= u <= Z.of_nat (length (slots_ m)) /\
   (forall i s v, Z.of_nat i < u -> slots_ m !! i = Some s -> v ∈ value_vec s ->
                  below x (negb inclusive) v = true) /\
   (forall i s v, u < Z.of_nat i -> slots_ m !! i = Some s -> v ∈ value_vec s ->
                  below x (negb inclusive) v = false)).
Proof.
  intros Hcs Hrun Hx Hne. pose proof (reached_inv cs m Hcs Hrun) as HI.
  pose proof (inv_slots m HI) as Hok. pose proof (inv_order m HI) as Hsorted.
  assert (Hn : 0 < Z.of_nat (length (slots_ m)) < 2 ^ 31).
  { pose proof (slots_le_total m Hok). pose proof (Inv_total m HI).
    pose proof (inv_size m HI). destruct (slots_ m); [congruence|].
    cbn [length] in *. lia. }
  destruct (find_right_slot_index_spec m x inclusive Hok Hsorted Hx Hn)
    as (Hr & Hall & Hnone).
  destruct (find_left_slot_index_spec m x inclusive Hok Hsorted Hx ltac:(lia))
    as (Hu & Hall' & Hnone').
  cbv zeta. rewrite Forall_forall in Hall, Hnone, Hall', Hnone'.
  split; (split; [assumption|]); split.
  - intros i s v Hi Hs Hv.
    assert (Hin : s ∈ take (Z.to_nat (find_right_slot_index m x inclusive))
                          (slots_ m)).
    { apply elem_of_take. exists i. split; [exact Hs|lia]. }
    specialize (Hall s Hin). unfold slot_all in Hall.
    rewrite Forall_forall in Hall. apply Hall, Hv.
  - intros i s v Hi Hs Hv.
    assert (Hin : s ∈ drop (Z.to_nat (find_right_slot_index m x inclusive + 1))
                          (slots_ m)).
    { apply elem_of_drop_lookup. exists i. split; [exact Hs|lia]. }
    specialize (Hnone s Hin). unfold slot_none in Hnone.
    rewrite Forall_forall in Hnone. apply Hnone, Hv.
  - intros i s v Hi Hs Hv.
    assert (Hin : s ∈ take (Z.to_nat (find_left_slot_index m x inclusive))
                          (slots_ m)).
    { apply elem_of_take. exists i. split; [exact Hs|lia]. }
    specialize (Hall' s Hin). unfold slot_all in Hall'.
    rewrite Forall_forall in Hall'. apply Hall', Hv.
  - intros i s v Hi Hs Hv.
    assert (Hin : s ∈ drop (S (Z.to_nat (find_left_slot_index m x inclusive)))
                          (slots_ m)).
    { apply elem_of_drop_lookup. exists i. split; [exact Hs|lia]. }
    specialize (Hnone' s Hin). unfold slot_none in Hnone'.
    rewrite Forall_forall in Hnone'. apply Hnone', Hv.
Qed.

End Extras.

Lemma X1_updates_keep_the_map_consistent_witness :
  exists m : @RangedMap.t zfloat, run sample_calls = Some m /\ Inv m.
Proof.
  apply (X1_updates_keep_the_map_consistent sample_calls).
  apply sample_calls_admissible.
Defined.

Lemma X2_add_then_lookup_witness :
  exists (m : @RangedMap.t zfloat) (r : Z) (m' : RangedMap.t),
    run sample_calls = Some m /\
    add_offset_and_score m 3 (ZNum 5) = Some (r, m') /\
    ((r = -1 /\ m' = m /\ exists v0, entry_of m 3 v0) \/
     (r = 0 /\ (forall v0, ~ entry_of m 3 v0) /\
      get_score_by_offset m' 3 = ZNum 5 /\
      forall o' v', entry_of m' o' v'
                    <-> (o' = 3 /\ v' = ZNum 5) \/ entry_of m o' v')).
Proof.
  eexists.
  assert (Hrun : run sample_calls = Some ?[m]) by (vm_compute; reflexivity).
  destruct (X2_add_then_lookup sample_calls _ 3 (ZNum 5)
              sample_calls_admissible Hrun ltac:(lia) eq_refl)
    as (r & m' & Hadd & Hres).
  exists r, m'. split; [exact Hrun|]. split; [exact Hadd|exact Hres].
Defined.

Lemma X3_delete_then_lookup_witness :
  exists (m : @RangedMap.t zfloat) (r : Z) (m' : RangedMap.t),
    run sample_calls = Some m /\
    delete_offset m 1 = (r, m') /\
    ((r = -1 /\ m' = m /\ forall v0, ~ entry_of m 1 v0) \/
     (r = 0 /\ (exists v0, entry_of m 1 v0) /\
      fis_nan (get_score_by_offset m' 1) = true /\
      forall o' v', entry_of m' o' v' <-> o' <> 1 /\ entry_of m o' v')).
Proof.
  eexists.
  assert (Hrun : run sample_calls = Some ?[m]) by (vm_compute; reflexivity).
  destruct (X3_delete_then_lookup sample_calls _ 1
              sample_calls_admissible Hrun ltac:(lia))
    as (r & m' & Hdel & Hres).
  exists r, m'. split; [exact Hrun|]. split; [exact Hdel|exact Hres].
Defined.

Lemma X4_range_bitmap_is_exact_witness :
  exists m : @RangedMap.t zfloat,
    run sample_calls = Some m /\
    match get_range_bitmap m false (ZNum 8) true (ZNum 2) true with
    | Some b =>
        (forall o, o ∈ Bitmap.elems b
                   <-> matches m false (ZNum 8) true (ZNum 2) true o) /\
        (false = true \/ has_point (ZNum 8) true (ZNum 2) true = true ->
         exists o, matches m false (ZNum 8) true (ZNum 2) true o)
    | None => forall o, ~ matches m false (ZNum 8) true (ZNum 2) true o
    end.
Proof.
  eexists.
  assert (Hrun : run sample_calls = Some ?[m]) by (vm_compute; reflexivity).
  split; [exact Hrun|].
  exact (X4_range_bitmap_is_exact sample_calls _ false (ZNum 8) true (ZNum 2) true
           sample_calls_admissible Hrun eq_refl eq_refl).
Defined.

Lemma X5_slot_search_brackets_the_bound_witness :
  exists m : @RangedMap.t zfloat,
    run sample_calls = Some m /\
    let r := find_right_slot_index m (ZNum 5) true in
    forall i s v, r < Z.of_nat i -> slots_ m !! i = Some s -> v ∈ value_vec s ->
                  below (ZNum 5) true v = false.
Proof.
  eexists.
  assert (Hrun : run sample_calls = Some ?[m]) by (vm_compute; reflexivity).
  split; [exact Hrun|].
  match type of Hrun with
  | _ = Some ?x => assert (Hne : slots_ x <> []) by discriminate
  end.
  exact (proj2 (proj2 (proj1
           (X5_slot_search_brackets_the_bound sample_calls _ (ZNum 5) true
              sample_calls_admissible Hrun eq_refl Hne)))).
Defined.

End RangedExtras.

(* ===================================================================== *)
(** * Bitmap: the operations as operations on sets                         *)
(* ===================================================================== *)

Module BitmapExtras.
Import Bitmap BitmapFacts BitmapCache.

Lemma to_roaring_is_roaring b : is_roaring_ (to_roaring b) = true.
Proof. unfold to_roaring. destruct (is_roaring_ b) eqn:E; [exact E|reflexivity]. Qed.

Lemma fold_Unset_spec (l : list Z) b :
  wf b ->
  wf (fold_left Unset l b) /\ elems (fold_left Unset l b) = elems b ∖ list_to_set l.
Proof.
  revert b. induction l as [|x l IH]; intros b Hb; simpl.
  - split; [exact Hb|set_solver].
  - destruct (Unset_spec b x Hb) as [Hw He].
    destruct (IH _ Hw) as [Hw' He']. split; [exact Hw'|].
    rewrite He', He. set_solver.
Qed.

Lemma Exclude_spec b other :
  wf b -> wf other ->
  wf (Exclude b other) /\ elems (Exclude b other) = elems b ∖ elems other.
Proof.
  intros Hb Ho. unfold Exclude.
  destruct (is_roaring_ b) eqn:Eb, (is_roaring_ other) eqn:Eo; cbn [andb negb].
  - unfold wf, elems in *. cbn. rewrite Eb in *. rewrite Eo.
    split; [exact Hb|reflexivity].
  - destruct (fold_Unset_spec (sorted_elements (set_ other)) b Hb) as [Hw He].
    split; [exact Hw|]. rewrite elems_invalidate, He, sorted_elements_set.
    unfold elems at 3. rewrite Eo. reflexivity.
  - unfold wf, elems in *. cbn. rewrite Eb in *. rewrite Eo.
    split; [exact Hb|]. apply set_eq. intros x.
    rewrite elem_of_filter, elem_of_difference, Isset_spec.
    unfold elems. rewrite Eo. rewrite bool_decide_eq_false. tauto.
  - destruct (fold_Unset_spec (sorted_elements (set_ other)) b Hb) as [Hw He].
    split; [exact Hw|]. rewrite elems_invalidate, He, sorted_elements_set.
    unfold elems at 3. rewrite Eo. reflexivity.
Qed.

Lemma Intersect_spec b other :
  wf b -> wf other ->
  wf (Intersect b other) /\ elems (Intersect b other) = elems b ∩ elems other.
Proof.
  intros Hb Ho. unfold Intersect.
  destruct (is_roaring_ b) eqn:Eb, (is_roaring_ other) eqn:Eo; cbn [andb].
  - unfold wf, elems in *. cbn. rewrite Eb in *. rewrite Eo.
    split; [exact Hb|reflexivity].
  - unfold wf, elems. cbn. split; [reflexivity|]. rewrite Eo. apply set_eq. intros x.
    rewrite elem_of_filter, elem_of_intersection, Isset_spec.
    unfold elems. rewrite Eb. rewrite bool_decide_eq_true. tauto.
  - unfold wf, elems in *. cbn. rewrite Eb in *. rewrite Eo.
    split; [exact Hb|]. apply set_eq. intros x.
    rewrite elem_of_filter, elem_of_intersection, Isset_spec.
    unfold elems. rewrite Eo. rewrite bool_decide_eq_true. tauto.
  - unfold wf, elems in *. cbn. rewrite Eb in *. rewrite Eo.
    split; [exact Hb|]. apply set_eq. intros x.
    rewrite elem_of_filter, elem_of_intersection, Isset_spec.
    unfold elems. rewrite Eo. rewrite bool_decide_eq_true. tauto.
Qed.

Lemma Xor_spec b other :
  wf b -> wf other ->
  wf (Xor b other) /\ elems (Xor b other) = sym_diff (elems b) (elems other).
Proof.
  intros Hb Ho. unfold Xor. cbv zeta.
  pose proof (wf_to_roaring b Hb) as Hw.
  pose proof (elems_to_roaring b Hb) as He.
  pose proof (to_roaring_is_roaring b) as Hr.
  unfold wf, elems in Hw, He |- *. cbn. rewrite Hr in *.
  split; [exact Hw|]. rewrite He.
  change (if is_roaring_ b then roaring_ b else set_ b) with (elems b).
  destruct (is_roaring_ other); [reflexivity|].
  rewrite sorted_elements_set. reflexivity.
Qed.

(** The swap with the back and the [pop_back] of [FastUnion] remove the
    element at [i]. *)
Lemma swap_pop_elem {A} (l : list A) (i : nat) (bm y : A) :
  l !! i = Some bm ->
  y ∈ l <-> y = bm \/ y ∈ removelast (<[i := List.last l bm]> l).
Proof.
  intros Hi. assert (Hne : l <> []) by (intros ->; discriminate).
  destruct (exists_last Hne) as (l' & z & ->). rewrite last_last.
  pose proof (lookup_lt_Some _ _ _ Hi) as Hlt. rewrite length_app in Hlt.
  cbn [length] in Hlt.
  destruct (decide (i < length l')%nat) as [Hin|Hout].
  - rewrite insert_app_l by exact Hin. rewrite removelast_last.
    rewrite lookup_app_l in Hi by exact Hin.
    rewrite insert_take_drop by exact Hin.
    rewrite <- (take_drop_middle l' i bm Hi) at 1.
    rewrite !elem_of_app, !elem_of_cons, elem_of_nil. tauto.
  - assert (i = length l') as -> by lia.
    rewrite lookup_app_r, Nat.sub_diag in Hi by lia. injection Hi as ->.
    rewrite insert_app_r_alt, Nat.sub_diag by lia. cbn [insert list_insert].
    rewrite removelast_last.
    rewrite elem_of_app, elem_of_cons, elem_of_nil. tauto.
Qed.

Lemma FastUnion_lazy_spec (fuel i : nat) (bitmaps : list Bitmap.t)
    (acc : gset Z) (lazy : bool) :
  Forall wf bitmaps ->
  Forall wf (FastUnion_lazy fuel i bitmaps acc lazy).1.1 /\
  forall x,
    (x ∈ (FastUnion_lazy fuel i bitmaps acc lazy).1.2
     \/ exists bm, bm ∈ (FastUnion_lazy fuel i bitmaps acc lazy).1.1 /\ x ∈ elems bm)
    <-> (x ∈ acc \/ exists bm, bm ∈ bitmaps /\ x ∈ elems bm).
Proof.
  revert i bitmaps acc lazy.
  induction fuel as [|fuel IH]; intros i bitmaps acc lazy Hwf; cbn [FastUnion_lazy].
  - split; [exact Hwf|]. intros x. reflexivity.
  - destruct (bitmaps !! i) as [bm|] eqn:Hi; [|split; [exact Hwf|reflexivity]].
    destruct (is_roaring_ bm) eqn:Er; cbn [negb]; [|apply IH, Hwf].
    assert (Hwf' : Forall wf (removelast (<[i:=List.last bitmaps bm]> bitmaps))).
    { rewrite Forall_forall in Hwf |- *. intros y Hy. apply Hwf.
      apply (swap_pop_elem bitmaps i bm y Hi). right. exact Hy. }
    destruct (IH i _ (acc ∪ roaring_ bm) true Hwf') as [Hw He].
    split; [exact Hw|]. intros x. rewrite He, elem_of_union.
    assert (Hbm : elems bm = roaring_ bm) by (unfold elems; rewrite Er; reflexivity).
    split.
    + intros [[Hx|Hx]|(y & Hy & Hx)].
      * left. exact Hx.
      * right. exists bm. split; [eapply list_elem_of_lookup_2, Hi|].
        rewrite Hbm. exact Hx.
      * right. exists y. split; [|exact Hx].
        apply (swap_pop_elem bitmaps i bm y Hi). right. exact Hy.
    + intros [Hx|(y & Hy & Hx)]; [left; left; exact Hx|].
      apply (swap_pop_elem bitmaps i bm y Hi) in Hy as [->|Hy].
      * left. right. rewrite <- Hbm. exact Hx.
      * right. exists y. split; assumption.
Qed.

Lemma fold_Union_ptr_spec (l : list Bitmap.t) (b : Bitmap.t) :
  wf b -> Forall wf l ->
  wf (fold_left (fun acc bm => Union_ptr acc (Some bm)) l b) /\
  forall x, x ∈ elems (fold_left (fun acc bm => Union_ptr acc (Some bm)) l b)
            <-> x ∈ elems b \/ exists bm, bm ∈ l /\ x ∈ elems bm.
Proof.
  revert b. induction l as [|o l IH]; intros b Hb Hl; cbn [fold_left].
  - split; [exact Hb|]. intros x. split; [intros Hx; left; exact Hx|].
    intros [Hx|(bm & Hbm & _)]; [exact Hx|inversion Hbm].
  - apply Forall_cons in Hl as [Ho Hl].
    destruct (Union_ptr_spec b o Hb Ho) as [Hw He].
    destruct (IH _ Hw Hl) as [Hw' He']. split; [exact Hw'|].
    intros x. rewrite He', He, elem_of_union. split.
    + intros [[Hx|Hx]|(bm & Hbm & Hx)].
      * left. exact Hx.
      * right. exists o. split; [apply list_elem_of_here|exact Hx].
      * right. exists bm. split; [apply list_elem_of_further, Hbm|exact Hx].
    + intros [Hx|(bm & Hbm & Hx)]; [left; left; exact Hx|].
      apply elem_of_cons in Hbm as [->|Hbm]; [left; right; exact Hx|].
      right. exists bm. split; assumption.
Qed.

Lemma sorted_elements_strict (s : gset Z) :
  StronglySorted Z.lt (sorted_elements s) /\
  forall x, x ∈ sorted_elements s <-> x ∈ s.
Proof.
  unfold sorted_elements.
  assert (Hperm : merge_sort Z.le (elements s) ≡ₚ elements s)
    by apply merge_sort_Permutation.
  assert (Hnd : NoDup (merge_sort Z.le (elements s))).
  { rewrite Hperm. apply NoDup_elements. }
  assert (Hs : StronglySorted Z.le (merge_sort Z.le (elements s))).
  { apply (StronglySorted_merge_sort Z.le). }
  split.
  - clear Hperm. induction Hs as [|a l Hs IH Ha]; [constructor|].
    apply NoDup_cons in Hnd as [Hna Hnd]. constructor; [apply IH; exact Hnd|].
    rewrite Forall_forall in Ha |- *. intros y Hy. specialize (Ha y Hy).
    assert (y <> a) by (intros ->; exact (Hna Hy)). lia.
  - intros x. rewrite Hperm. apply elem_of_elements.
Qed.

Lemma length_sorted_elements (s : gset Z) :
  length (sorted_elements s) = size s.
Proof.
  unfold sorted_elements. rewrite merge_sort_Permutation. reflexivity.
Qed.

Lemma length_get_set_list (b : Bitmap.t) :
  length (get_set_list b) = size (elems b).
Proof.
  unfold get_set_list, elems. destruct (is_roaring_ b); apply length_sorted_elements.
Qed.

Lemma nbit_size (b : Bitmap.t) :
  Z.of_nat (size (elems b)) < 2 ^ 32 -> nbit b = Z.of_nat (size (elems b)).
Proof.
  intros Hlt. unfold nbit, elems in *.
  destruct (is_roaring_ b); apply to_uint32_small; lia.
Qed.

(** X6. [Set] and [Unset] followed by [Isset]: after [Set(id)] the
    identifier is set, after [Unset(id)] it is not, and every other
    identifier is as before, also when [Set] moves the bitmap from the
    [std::set] to the roaring representation.  Both keep the
    representation that is not in use empty. *)
Theorem X6_set_unset_isset (b : Bitmap.t) (id : Z) :
  wf b ->
  (wf (Set_ b id) /\
   forall x, Isset (Set_ b id) x = (x =? id) || Isset b x) /\
  (wf (Unset b id) /\
   forall x, Isset (Unset b id) x = negb (x =? id) && Isset b x).
Proof.
  intros Hb. destruct (Set_spec b id Hb) as [Hw He].
  destruct (Unset_spec b id Hb) as [Hw' He']. split; (split; [assumption|]).
  - intros x. rewrite !Isset_spec, He.
    destruct (Z.eqb_spec x id) as [->|Hne]; cbn [orb].
    + apply bool_decide_eq_true_2. set_solver.
    + apply bool_decide_ext. set_solver.
  - intros x. rewrite !Isset_spec, He'.
    destruct (Z.eqb_spec x id) as [->|Hne]; cbn [negb andb].
    + apply bool_decide_eq_false_2. set_solver.
    + apply bool_decide_ext. set_solver.
Qed.

(** X7. [Union], [Intersect], [Exclude] and [Xor] are the union, the
    intersection, the difference and the symmetric difference of the sets
    the two bitmaps hold, whatever the representation of either, and they
    keep the representation that is not in use empty. *)
Theorem X7_set_operations (b other : Bitmap.t) :
  wf b -> wf other ->
  (wf (Union b other) /\ elems (Union b other) = elems b ∪ elems other) /\
  (wf (Intersect b other) /\ elems (Intersect b other) = elems b ∩ elems other) /\
  (wf (Exclude b other) /\ elems (Exclude b other) = elems b ∖ elems other) /\
  (wf (Xor b other) /\
   elems (Xor b other) = (elems b ∖ elems other) ∪ (elems other ∖ elems b)).
Proof.
  intros Hb Ho. split; [apply Union_spec; assumption|].
  split; [apply Intersect_spec; assumption|].
  split; [apply Exclude_spec; assumption|].
  apply Xor_spec; assumption.
Qed.

Lemma FastUnion_spec (b : Bitmap.t) (bitmaps : list Bitmap.t) :
  wf b -> Forall wf bitmaps ->
  wf (FastUnion b bitmaps) /\
  forall x, x ∈ elems (FastUnion b bitmaps)
            <-> x ∈ elems b \/ exists bm, bm ∈ bitmaps /\ x ∈ elems bm.
Proof.
  intros Hb Hl. unfold FastUnion.
  destruct bitmaps as [|b0 [|b1 rest]].
  - split; [exact Hb|]. intros x. split; [intros Hx; left; exact Hx|].
    intros [Hx|(bm & Hbm & _)]; [exact Hx|inversion Hbm].
  - apply Forall_cons in Hl as [H0 _].
    destruct (Union_ptr_spec b b0 Hb H0) as [Hw He]. split; [exact Hw|].
    intros x. rewrite He, elem_of_union. split.
    + intros [Hx|Hx]; [left; exact Hx|].
      right. exists b0. split; [apply list_elem_of_here|exact Hx].
    + intros [Hx|(bm & Hbm & Hx)]; [left; exact Hx|].
      apply list_elem_of_singleton in Hbm as ->. right. exact Hx.
  - set (l := b0 :: b1 :: rest) in *.
    pose proof (FastUnion_lazy_spec (length l) 0 l (roaring_ (to_roaring b)) false Hl)
      as [Hw He].
    destruct (FastUnion_lazy (length l) 0 l (roaring_ (to_roaring b)) false)
      as [[rest' acc] lazy]. cbn [fst snd] in Hw, He.
    set (b2 := mk acc _ _ _ _).
    assert (Hw2 : wf b2).
    { pose proof (wf_to_roaring b Hb) as Hwr. unfold wf in Hwr |- *.
      unfold b2. cbn. rewrite to_roaring_is_roaring in *. exact Hwr. }
    assert (He2 : elems b2 = acc).
    { unfold elems, b2. cbn. rewrite to_roaring_is_roaring. reflexivity. }
    destruct (fold_Union_ptr_spec rest' b2 Hw2 Hw) as [Hwf Hef].
    assert (Heq : elems b = roaring_ (to_roaring b)).
    { rewrite <- (elems_to_roaring b Hb). unfold elems.
      rewrite to_roaring_is_roaring. reflexivity. }
    split; [exact Hwf|]. intros x. rewrite elems_invalidate, Hef, He2, He, Heq.
    reflexivity.
Qed.

(** X8. [FastUnion] leaves in the bitmap what it held together with
    what the bitmaps of the vector hold: nothing is lost by the swaps that
    take the roaring bitmaps out of the vector, and nothing else is
    added. *)
Theorem X8_fast_union_is_the_union (b : Bitmap.t) (bitmaps : list Bitmap.t) :
  wf b -> Forall wf bitmaps ->
  wf (FastUnion b bitmaps) /\
  forall x, x ∈ elems (FastUnion b bitmaps)
            <-> x ∈ elems b \/ exists bm, bm ∈ bitmaps /\ x ∈ elems bm.
Proof.
  intros Hb Hl. apply FastUnion_spec; assumption.
Qed.

Lemma get_set_list_spec (b : Bitmap.t) :
  StronglySorted Z.lt (get_set_list b) /\
  forall x, x ∈ get_set_list b <-> x ∈ elems b.
Proof.
  unfold get_set_list, elems. destruct (is_roaring_ b); apply sorted_elements_strict.
Qed.

(** X10. With a count cache that is not stale, [get_range_list] returns
    the page of the ascending list of identifiers that starts at rank
    [offset] and has at most [limit] entries, and its length; when the
    page is empty it returns 0 and leaves the vector as it was. *)
Theorem X10_get_range_list_is_a_page (b : Bitmap.t) (result : list Z)
    (limit offset : Z) :
  (has_nbit_cache_ b = true -> nbit_cache_ b = nbit b) ->
  Z.of_nat (size (elems b)) < 2 ^ 32 ->
  0 <= limit < 2 ^ 32 -> 0 <= offset < 2 ^ 32 ->
  let page := take (Z.to_nat limit) (drop (Z.to_nat offset) (get_set_list b)) in
  (get_range_list b result limit offset).1.1 = Z.of_nat (length page) /\
  (get_range_list b result limit offset).1.2
  = match page with [] => result | _ => page end.
Proof.
  intros Hcache Hsize Hlimit Hoffset page.
  pose proof (nbit_size b Hsize) as Hn.
  pose proof (length_get_set_list b) as Hlen.
  assert (Hc : get_cached_nbit b
               = (nbit b, snd (get_cached_nbit b)) /\
               get_set_list (snd (get_cached_nbit b)) = get_set_list b).
  { unfold get_cached_nbit. destruct (has_nbit_cache_ b) eqn:E; cbn [negb fst snd].
    - rewrite (Hcache eq_refl). split; reflexivity.
    - split; reflexivity. }
  destruct Hc as [Hc Hl]. unfold get_range_list. rewrite Hc, Hl, Hn.
  set (N := Z.of_nat (size (elems b))) in *.
  assert (Hdrop : length (drop (Z.to_nat offset) (get_set_list b))
                  = Z.to_nat (N - offset)).
  { rewrite length_drop, Hlen. unfold N. lia. }
  destruct (Z.leb_spec N offset) as [Hle|Hgt]; cbn [orb fst snd].
  - assert (Hp : page = []).
    { unfold page. apply length_zero_iff_nil. rewrite length_take. lia. }
    rewrite Hp. split; reflexivity.
  - rewrite (to_uint32_small (N - offset)) by lia.
    destruct (Z.leb_spec (Z.min (N - offset) limit) 0) as [Hz|Hpos]; cbn [fst snd].
    + assert (Hp : page = []).
      { unfold page. apply length_zero_iff_nil. rewrite length_take. lia. }
      rewrite Hp. split; reflexivity.
    + set (k := Z.min (N - offset) limit) in *.
      assert (Hpage : take (Z.to_nat k) (drop (Z.to_nat offset) (get_set_list b))
                      = page).
      { unfold page. destruct (Z.le_ge_cases (N - offset) limit) as [H1|H1].
        - rewrite !take_ge; [reflexivity|lia|unfold k; lia].
        - unfold k. rewrite Z.min_r by lia. reflexivity. }
      rewrite Hpage.
      assert (Hpl : length page = Z.to_nat k).
      { rewrite <- Hpage, length_take. unfold k. lia. }
      set (result1 := if Z.of_nat (length result) =? k then result
                      else resize (Z.to_nat k) 0 result).
      assert (H1 : length result1 = Z.to_nat k).
      { unfold result1. destruct (Z.eqb_spec (Z.of_nat (length result)) k) as [He|_].
        - lia.
        - apply length_resize. }
      rewrite (drop_ge result1) by lia. rewrite app_nil_r.
      split.
      * rewrite to_uint32_small by (unfold k; lia). reflexivity.
      * destruct page; [cbn [length] in Hpl; lia|reflexivity].
Qed.

Lemma X6_set_unset_isset_witness :
  (wf (Set_ thirty_three 40) /\
   forall x, Isset (Set_ thirty_three 40) x = (x =? 40) || Isset thirty_three x) /\
  (wf (Unset thirty_three 40) /\
   forall x, Isset (Unset thirty_three 40) x
             = negb (x =? 40) && Isset thirty_three x).
Proof. apply (X6_set_unset_isset thirty_three 40). vm_compute. reflexivity. Defined.

Lemma X7_set_operations_witness :
  elems (Exclude thirty_three (Set_ new 3))
  = elems thirty_three ∖ elems (Set_ new 3).
Proof.
  assert (H1 : wf thirty_three) by (vm_compute; reflexivity).
  assert (H2 : wf (Set_ new 3)) by (vm_compute; reflexivity).
  exact (proj2 (proj1 (proj2 (proj2
           (X7_set_operations thirty_three (Set_ new 3) H1 H2))))).
Defined.

Lemma X8_fast_union_is_the_union_witness :
  wf (FastUnion new [thirty_three; Set_ new 40; thirty_three]) /\
  forall x, x ∈ elems (FastUnion new [thirty_three; Set_ new 40; thirty_three])
            <-> x ∈ elems new
                \/ exists bm, bm ∈ [thirty_three; Set_ new 40; thirty_three]
                              /\ x ∈ elems bm.
Proof.
  apply (X8_fast_union_is_the_union new [thirty_three; Set_ new 40; thirty_three]).
  - reflexivity.
  - repeat (apply Forall_cons; split; [vm_compute; reflexivity|]). constructor.
Defined.

Lemma X10_get_range_list_is_a_page_witness :
  let page := take (Z.to_nat 5) (drop (Z.to_nat 30) (get_set_list thirty_three)) in
  (get_range_list thirty_three [] 5 30).1.1 = Z.of_nat (length page) /\
  (get_range_list thirty_three [] 5 30).1.2
  = match page with [] => [] | _ => page end.
Proof.
  apply (X10_get_range_list_is_a_page thirty_three [] 5 30).
  - intros Hc. vm_compute in Hc. discriminate Hc.
  - vm_compute. reflexivity.
  - lia.
  - lia.
Defined.

End BitmapExtras.

(* ===================================================================== *)
(** * RangedMap2D: the radius query                                        *)
(* ===================================================================== *)

Module Range2DExtras.
Import RangedMap RangedOrder RangedQuery RangedScan RangedRange RangedUpdate
       BitmapFacts BitmapExtras.

Lemma size_below (X : gset Z) (n : Z) :
  (forall o, o ∈ X -> 0 <= o < n) -> Z.of_nat (base.size X) <= Z.max 0 n.
Proof.
  intros HX.
  assert (Hsub : X ⊆ list_to_set (seqZ 0 n)).
  { intros o Ho. apply elem_of_list_to_set, elem_of_seqZ. specialize (HX o Ho). lia. }
  apply subseteq_size in Hsub.
  rewrite size_list_to_set in Hsub by apply NoDup_seqZ.
  rewrite length_seqZ in Hsub. lia.
Qed.

Lemma fold_Unset_if (p : Z -> bool) (l : list Z) (b : Bitmap.t) :
  Bitmap.wf b -> Bitmap.has_nbit_cache_ b = false ->
  Bitmap.wf (fold_left (fun b o => if p o then Bitmap.Unset b o else b) l b) /\
  Bitmap.has_nbit_cache_
    (fold_left (fun b o => if p o then Bitmap.Unset b o else b) l b) = false /\
  forall o, o ∈ Bitmap.elems
                  (fold_left (fun b o => if p o then Bitmap.Unset b o else b) l b)
            <-> o ∈ Bitmap.elems b /\ ~ (o ∈ l /\ p o = true).
Proof.
  revert b. induction l as [|a l IH]; intros b Hb Hc; cbn [fold_left].
  - split; [exact Hb|]. split; [exact Hc|]. intros o. split.
    + intros Ho. split; [exact Ho|]. intros [Hin _]. inversion Hin.
    + intros [Ho _]. exact Ho.
  - destruct (p a) eqn:Ea.
    + destruct (Unset_spec b a Hb) as [Hw He].
      destruct (IH _ Hw (BitmapCache.Unset_invalidates b a)) as (Hw' & Hc' & He').
      split; [exact Hw'|]. split; [exact Hc'|]. intros o.
      rewrite He', He, elem_of_difference, elem_of_singleton, elem_of_cons.
      split.
      * intros [[Ho Hne] Hn]. split; [exact Ho|].
        intros [[->|Hin] Hp]; [congruence|]. apply Hn. split; assumption.
      * intros [Ho Hn]. split; [split; [exact Ho|]|].
        -- intros ->. apply Hn. split; [left; reflexivity|exact Ea].
        -- intros [Hin Hp]. apply Hn. split; [right; exact Hin|exact Hp].
    + destruct (IH _ Hb Hc) as (Hw' & Hc' & He').
      split; [exact Hw'|]. split; [exact Hc'|]. intros o.
      rewrite He', elem_of_cons. split.
      * intros [Ho Hn]. split; [exact Ho|].
        intros [[->|Hin] Hp]; [congruence|]. apply Hn. split; assumption.
      * intros [Ho Hn]. split; [exact Ho|].
        intros [Hin Hp]. apply Hn. split; [right; exact Hin|exact Hp].
Qed.

Section Radius.
Context {F : Type} `{FloatOps F} `{!FloatOrder F} `{ScoreOps F}.

(** A range query that keeps the ends as they are. *)
Lemma box_side (m : @RangedMap.t F) (hi lo : F) :
  Inv m -> fis_nan hi = false -> fis_nan lo = false ->
  match get_range_bitmap_with_slot_data m false hi true lo true with
  | Some b => Bitmap.wf b /\
              forall o, o ∈ Bitmap.elems b <-> matches m false hi true lo true o
  | None => forall o, ~ matches m false hi true lo true o
  end.
Proof.
  intros HI Hhi Hlo.
  pose proof (range_bitmap_under_inv m false hi true lo true HI Hhi Hlo) as Hr.
  cbv zeta in Hr. cbn [exchanged andb] in Hr.
  unfold get_range_bitmap in Hr.
  destruct (get_range_bitmap_with_slot_data m false hi true lo true) as [b|];
    [|exact Hr].
  destruct Hr as (Hw & He & _). split; assumption.
Qed.

(** X11. On two maps reached by updates, a radius query whose radius is
    greater than zero and whose box has ends that are not NaN returns
    exactly the offsets that lie in the box in both coordinates and whose
    squared distance to the centre is not greater than the squared radius;
    the result is null exactly when there is no such offset. *)
Theorem X11_radius_query_is_exact (cx cy : list (@call F)) (x_ y_ : RangedMap.t)
    (x y radius : F) :
  Forall admissible cx -> run cx = Some x_ ->
  Forall admissible cy -> run cy = Some y_ ->
  fleb radius fzero = false ->
  fis_nan (fadd x radius) = false -> fis_nan (fsub x radius) = false ->
  fis_nan (fadd y radius) = false -> fis_nan (fsub y radius) = false ->
  let hit := fun o =>
    matches x_ false (fadd x radius) true (fsub x radius) true o /\
    matches y_ false (fadd y radius) true (fsub y radius) true o /\
    fgtb (dist_square_to x_ y_ x y o) (fmul radius radius) = false in
  match get_range2d_bitmap x_ y_ x y radius with
  | Some b => (forall o, o ∈ Bitmap.elems b <-> hit o) /\ exists o, hit o
  | None => forall o, ~ hit o
  end.
Proof.
  intros Hcx Hrx Hcy Hry Hrad Hx1 Hx2 Hy1 Hy2 hit.
  pose proof (reached_inv cx x_ Hcx Hrx) as HIx.
  pose proof (reached_inv cy y_ Hcy Hry) as HIy.
  unfold get_range2d_bitmap, get_range2d_bitmap_with_slot_data. rewrite Hrad.
  pose proof (box_side x_ _ _ HIx Hx1 Hx2) as Bx.
  pose proof (box_side y_ _ _ HIy Hy1 Hy2) as By.
  destruct (get_range_bitmap_with_slot_data x_ false (fadd x radius) true
              (fsub x radius) true) as [temp|];
    [|intros o (Hm & _); exact (Bx o Hm)].
  destruct Bx as [Hwx Hex]. rewrite (empty_spec temp Hwx).
  destruct (decide (Bitmap.elems temp = ∅)) as [Hemp|Hne].
  { rewrite bool_decide_eq_true_2 by exact Hemp. intros o (Hm & _).
    apply Hex in Hm. rewrite Hemp in Hm. set_solver. }
  rewrite bool_decide_eq_false_2 by exact Hne.
  destruct (get_range_bitmap_with_slot_data y_ false (fadd y radius) true
              (fsub y radius) true) as [y_temp|];
    [|intros o (_ & Hm & _); exact (By o Hm)].
  destruct By as [Hwy Hey]. rewrite (empty_spec y_temp Hwy).
  destruct (decide (Bitmap.elems y_temp = ∅)) as [Hemp|Hney].
  { rewrite bool_decide_eq_true_2 by exact Hemp. intros o (_ & Hm & _).
    apply Hey in Hm. rewrite Hemp in Hm. set_solver. }
  rewrite bool_decide_eq_false_2 by exact Hney.
  cbv zeta.
  destruct (Intersect_spec temp y_temp Hwx Hwy) as [Hw1 He1].
  set (temp1 := Bitmap.Intersect_ptr temp (Some y_temp)).
  assert (Hwt1 : Bitmap.wf temp1) by exact Hw1.
  assert (Het1 : Bitmap.elems temp1 = Bitmap.elems temp ∩ Bitmap.elems y_temp)
    by exact He1.
  assert (Hct1 : Bitmap.has_nbit_cache_ temp1 = false) by reflexivity.
  destruct (fold_Unset_if
              (fun offset => fgtb (dist_square_to x_ y_ x y offset)
                                  (fmul radius radius))
              (Bitmap.get_set_list temp1) temp1 Hwt1 Hct1) as (Hw2 & Hc2 & He2).
  set (temp2 := fold_left _ (Bitmap.get_set_list temp1) temp1) in *.
  assert (Hhit : forall o, o ∈ Bitmap.elems temp2 <-> hit o).
  { intros o. rewrite He2, Het1, elem_of_intersection, Hex, Hey.
    destruct (get_set_list_spec temp1) as [_ Hl]. rewrite Hl, Het1.
    rewrite elem_of_intersection, Hex, Hey. unfold hit.
    destruct (fgtb (dist_square_to x_ y_ x y o) (fmul radius radius)); split.
    - intros [[H1 H2] Hn]. exfalso. apply Hn. split; [split; assumption|reflexivity].
    - intros (_ & _ & Hd). discriminate.
    - intros [[H1 H2] _]. split; [exact H1|]. split; [exact H2|reflexivity].
    - intros (H1 & H2 & _). split; [split; assumption|]. intros [_ Hd]. discriminate. }
  assert (Hsize : Z.of_nat (base.size (Bitmap.elems temp2)) < 2 ^ 32).
  { assert (Hb : Z.of_nat (base.size (Bitmap.elems temp2))
                 <= Z.max 0 (Z.of_nat (length (offset_to_value_ x_)))).
    { apply size_below. intros o Ho. apply Hhit in Ho as ((Hr & _) & _). exact Hr. }
    pose proof (inv_size x_ HIx). lia. }
  unfold Bitmap.get_cached_nbit. rewrite Hc2. cbn [negb fst snd].
  rewrite (nbit_size temp2 Hsize).
  destruct (Z.leb_spec (Z.of_nat (base.size (Bitmap.elems temp2))) 0) as [Hz|Hpos].
  - intros o Ho. apply Hhit in Ho.
    assert (Hs0 : base.size (Bitmap.elems temp2) = 0%nat) by lia.
    apply size_empty_iff in Hs0. set_solver.
  - split.
    + intros o. rewrite <- Hhit. unfold Bitmap.elems. cbn. reflexivity.
    + destruct (size_pos_elem_of (Bitmap.elems temp2) ltac:(lia)) as [o Ho].
      exists o. apply Hhit, Ho.
Qed.

End Radius.

Lemma X11_radius_query_is_exact_witness :
  exists m : @RangedMap.t zfloat,
    run sample_calls = Some m /\
    match get_range2d_bitmap m m (ZNum 2) (ZNum 2) (ZNum 1) with
    | Some b =>
        (forall o, o ∈ Bitmap.elems b <->
           matches m false (ZNum 3) true (ZNum 1) true o /\
           matches m false (ZNum 3) true (ZNum 1) true o /\
           fgtb (dist_square_to m m (ZNum 2) (ZNum 2) o) (ZNum 1) = false) /\
        exists o,
           matches m false (ZNum 3) true (ZNum 1) true o /\
           matches m false (ZNum 3) true (ZNum 1) true o /\
           fgtb (dist_square_to m m (ZNum 2) (ZNum 2) o) (ZNum 1) = false
    | None =>
        forall o,
          ~ (matches m false (ZNum 3) true (ZNum 1) true o /\
             matches m false (ZNum 3) true (ZNum 1) true o /\
             fgtb (dist_square_to m m (ZNum 2) (ZNum 2) o) (ZNum 1) = false)
    end.
Proof.
  eexists.
  assert (Hrun : run sample_calls = Some ?[m]) by (vm_compute; reflexivity).
  split; [exact Hrun|].
  exact (X11_radius_query_is_exact sample_calls sample_calls _ _
           (ZNum 2) (ZNum 2) (ZNum 1)
           sample_calls_admissible Hrun sample_calls_admissible Hrun
           eq_refl eq_refl eq_refl eq_refl eq_refl).
Defined.

End Range2DExtras.

(* ===================================================================== *)
(** * RangedMap: the top-k scan                                            *)
(* ===================================================================== *)

Module TopkExtras.
Import RangedMap RangedOrder RangedQuery RangedScan RangedRange RangedUpdate.

Section Topk.
Context {F : Type} `{FloatOps F} `{!FloatOrder F} `{ScoreOps F}.
Variable filter_func : offset_filter_t.
Variable topk : Z.

Lemma first_unfiltered_nil (k : Z) : first_unfiltered filter_func k (@nil (Z * F)) = [].
Proof. unfold first_unfiltered. cbn. apply take_nil. Qed.

Lemma first_unfiltered_done (k : Z) (l : list (Z * F)) :
  k <= 0 -> first_unfiltered filter_func k l = [].
Proof.
  intros Hk. unfold first_unfiltered. replace (Z.to_nat k) with 0%nat by lia.
  reflexivity.
Qed.

Lemma first_unfiltered_skip (k : Z) (o : Z) (v : F) (l : list (Z * F)) :
  filtered filter_func o = true ->
  first_unfiltered filter_func k ((o, v) :: l) = first_unfiltered filter_func k l.
Proof. intros Hf. unfold first_unfiltered. cbn. rewrite Hf. reflexivity. Qed.

Lemma first_unfiltered_keep (k : Z) (o : Z) (v : F) (l : list (Z * F)) :
  filtered filter_func o = false -> 0 < k ->
  first_unfiltered filter_func k ((o, v) :: l)
  = (o, v) :: first_unfiltered filter_func (k - 1) l.
Proof.
  intros Hf Hk. unfold first_unfiltered. cbn. rewrite Hf. cbn.
  replace (Z.to_nat k) with (S (Z.to_nat (k - 1))) by lia. reflexivity.
Qed.

Lemma first_unfiltered_app (k : Z) (l1 l2 : list (Z * F)) :
  first_unfiltered filter_func k (l1 ++ l2)
  = first_unfiltered filter_func k l1
    ++ first_unfiltered filter_func
         (k - Z.of_nat (length (first_unfiltered filter_func k l1))) l2.
Proof.
  unfold first_unfiltered. rewrite List.filter_app, take_app.
  set (f1 := List.filter _ l1). f_equal. rewrite length_take. f_equal. lia.
Qed.

Lemma slot_entry_lookup (s : @SlotMeta F) (i : nat) :
  length (value_vec s) = length (offset_vec s) ->
  (i < length (offset_vec s))%nat ->
  slot_entries s !! i
  = Some (offset_at (offset_vec s) (Z.of_nat i), value_at (value_vec s) (Z.of_nat i)).
Proof.
  intros Hlen Hi. unfold slot_entries, offset_at, value_at. rewrite Nat2Z.id.
  destruct (lookup_lt_is_Some_2 (offset_vec s) i Hi) as [o Ho].
  destruct (lookup_lt_is_Some_2 (value_vec s) i ltac:(lia)) as [v Hv].
  rewrite (nth_lookup_Some _ _ _ _ Ho), (nth_lookup_Some _ _ _ _ Hv).
  apply lookup_zip_with_Some. exists o, v. split; [reflexivity|]. split; assumption.
Qed.

Lemma length_slot_entries (s : @SlotMeta F) :
  length (value_vec s) = length (offset_vec s) ->
  length (slot_entries s) = length (offset_vec s).
Proof. intros Hlen. unfold slot_entries. rewrite length_zip_with. lia. Qed.

(** One step of the scan of a slot. *)
Lemma scan_step (s : @SlotMeta F) (fuel : nat) (step idx cnt : Z)
    (sc : list F) (ofs : list Z) (i : nat) (rest : list (Z * F)) :
  length (value_vec s) = length (offset_vec s) ->
  (i < length (offset_vec s))%nat -> idx = Z.of_nat i -> cnt < topk ->
  (forall cnt' sc' ofs', cnt' < topk ->
     topk_slot_scan fuel s filter_func topk step (idx + step) (cnt', sc', ofs')
     = (cnt' + Z.of_nat (length (first_unfiltered filter_func (topk - cnt') rest)),
        sc' ++ map (fun e => to_float (snd e))
                   (first_unfiltered filter_func (topk - cnt') rest),
        ofs' ++ map fst (first_unfiltered filter_func (topk - cnt') rest))) ->
  forall e, slot_entries s !! i = Some e ->
  topk_slot_scan (S fuel) s filter_func topk step idx (cnt, sc, ofs)
  = (cnt + Z.of_nat (length (first_unfiltered filter_func (topk - cnt) (e :: rest))),
     sc ++ map (fun e => to_float (snd e))
               (first_unfiltered filter_func (topk - cnt) (e :: rest)),
     ofs ++ map fst (first_unfiltered filter_func (topk - cnt) (e :: rest))).
Proof.
  intros Hlen Hi -> Hcnt IH e He.
  rewrite (slot_entry_lookup s i Hlen Hi) in He. injection He as <-.
  cbn [topk_slot_scan].
  replace (0 <=? Z.of_nat i) with true by (symmetry; apply Z.leb_le; lia).
  replace (Z.of_nat i <? Z.of_nat (length (offset_vec s))) with true
    by (symmetry; apply Z.ltb_lt; lia).
  cbn [andb].
  destruct (filtered filter_func (offset_at (offset_vec s) (Z.of_nat i))) eqn:Ef.
  - rewrite first_unfiltered_skip by exact Ef. apply IH, Hcnt.
  - rewrite first_unfiltered_keep by (exact Ef || lia). cbn [length map fst snd].
    destruct (Z.geb_spec (cnt + 1) topk) as [Hge|Hlt].
    + rewrite first_unfiltered_done by lia. cbn [length map]. reflexivity.
    + rewrite IH by lia. replace (topk - (cnt + 1)) with (topk - cnt - 1) by lia.
      rewrite <- !app_assoc. cbn [app]. do 2 f_equal. lia.
Qed.

Lemma scan_asc (s : @SlotMeta F) :
  length (value_vec s) = length (offset_vec s) ->
  forall (fuel i : nat) (cnt : Z) (sc : list F) (ofs : list Z),
    (length (offset_vec s) - i <= fuel)%nat -> cnt < topk ->
    topk_slot_scan fuel s filter_func topk 1 (Z.of_nat i) (cnt, sc, ofs)
    = (cnt + Z.of_nat (length (first_unfiltered filter_func (topk - cnt)
                                 (drop i (slot_entries s)))),
       sc ++ map (fun e => to_float (snd e))
                 (first_unfiltered filter_func (topk - cnt) (drop i (slot_entries s))),
       ofs ++ map fst
                 (first_unfiltered filter_func (topk - cnt) (drop i (slot_entries s)))).
Proof.
  intros Hlen. pose proof (length_slot_entries s Hlen) as Hle.
  assert (Hend : forall fuel i cnt sc ofs, (length (offset_vec s) <= i)%nat ->
    topk_slot_scan fuel s filter_func topk 1 (Z.of_nat i) (cnt, sc, ofs)
    = (cnt + Z.of_nat (length (first_unfiltered filter_func (topk - cnt)
                                 (drop i (slot_entries s)))),
       sc ++ map (fun e => to_float (snd e))
                 (first_unfiltered filter_func (topk - cnt) (drop i (slot_entries s))),
       ofs ++ map fst
                 (first_unfiltered filter_func (topk - cnt) (drop i (slot_entries s))))).
  { intros fuel i cnt sc ofs Hi. rewrite drop_ge by lia.
    rewrite first_unfiltered_nil. cbn [length map]. rewrite !app_nil_r, Z.add_0_r.
    destruct fuel; [reflexivity|]. cbn [topk_slot_scan].
    replace (Z.of_nat i <? Z.of_nat (length (offset_vec s))) with false
      by (symmetry; apply Z.ltb_ge; lia).
    rewrite andb_false_r. reflexivity. }
  induction fuel as [|fuel IH]; intros i cnt sc ofs Hfuel Hcnt.
  - apply Hend. lia.
  - destruct (Nat.le_gt_cases (length (offset_vec s)) i) as [Hge|Hlt];
      [apply Hend, Hge|].
    destruct (lookup_lt_is_Some_2 (slot_entries s) i ltac:(lia)) as [e He].
    rewrite (drop_S _ _ _ He).
    apply (scan_step s fuel 1 (Z.of_nat i) cnt sc ofs i); try assumption; try reflexivity.
    intros cnt' sc' ofs' Hc'. replace (Z.of_nat i + 1) with (Z.of_nat (S i)) by lia.
    apply IH; [lia|exact Hc'].
Qed.

Lemma scan_desc (s : @SlotMeta F) :
  length (value_vec s) = length (offset_vec s) ->
  forall (fuel i : nat) (cnt : Z) (sc : list F) (ofs : list Z),
    (i <= length (offset_vec s))%nat -> (i <= fuel)%nat -> cnt < topk ->
    topk_slot_scan fuel s filter_func topk (-1) (Z.of_nat i - 1) (cnt, sc, ofs)
    = (cnt + Z.of_nat (length (first_unfiltered filter_func (topk - cnt)
                                 (rev (take i (slot_entries s))))),
       sc ++ map (fun e => to_float (snd e))
                 (first_unfiltered filter_func (topk - cnt)
                    (rev (take i (slot_entries s)))),
       ofs ++ map fst
                 (first_unfiltered filter_func (topk - cnt)
                    (rev (take i (slot_entries s))))).
Proof.
  intros Hlen. pose proof (length_slot_entries s Hlen) as Hle.
  induction fuel as [|fuel IH]; intros i cnt sc ofs Hi Hfuel Hcnt.
  - assert (i = 0)%nat as -> by lia. cbn [take rev].
    rewrite first_unfiltered_nil. cbn [length map topk_slot_scan].
    rewrite !app_nil_r, Z.add_0_r. reflexivity.
  - destruct i as [|i].
    + cbn [take rev]. rewrite first_unfiltered_nil. cbn [length map].
      rewrite !app_nil_r, Z.add_0_r. reflexivity.
    + destruct (lookup_lt_is_Some_2 (slot_entries s) i ltac:(lia)) as [e He].
      rewrite (take_S_r _ _ _ He), rev_app_distr. cbn [rev app].
      replace (Z.of_nat (S i) - 1) with (Z.of_nat i) by lia.
      apply (scan_step s fuel (-1) (Z.of_nat i) cnt sc ofs i);
        try assumption; try reflexivity.
      intros cnt' sc' ofs' Hc'.
      replace (Z.of_nat i + -1) with (Z.of_nat i - 1) by lia.
      apply IH; [lia|lia|exact Hc'].
Qed.

Lemma visit_spec (order_asc : bool) (s : @SlotMeta F) (cnt : Z)
    (sc : list F) (ofs : list Z) :
  length (value_vec s) = length (offset_vec s) ->
  (if cnt <? topk then
     topk_slot_scan (length (offset_vec s)) s filter_func topk
       (if order_asc then 1 else -1)
       (if order_asc then 0 else Z.of_nat (length (offset_vec s)) - 1)
       (cnt, sc, ofs)
   else (cnt, sc, ofs))
  = (cnt + Z.of_nat (length (first_unfiltered filter_func (topk - cnt)
                       (if order_asc then slot_entries s else rev (slot_entries s)))),
     sc ++ map (fun e => to_float (snd e))
               (first_unfiltered filter_func (topk - cnt)
                  (if order_asc then slot_entries s else rev (slot_entries s))),
     ofs ++ map fst
               (first_unfiltered filter_func (topk - cnt)
                  (if order_asc then slot_entries s else rev (slot_entries s)))).
Proof.
  intros Hlen. destruct (Z.ltb_spec cnt topk) as [Hlt|Hge].
  - destruct order_asc.
    + pose proof (scan_asc s Hlen (length (offset_vec s)) 0 cnt sc ofs
                    ltac:(lia) Hlt) as Hscan.
      cbn [Z.of_nat drop] in Hscan. exact Hscan.
    + pose proof (scan_desc s Hlen (length (offset_vec s)) (length (offset_vec s))
                    cnt sc ofs ltac:(lia) ltac:(lia) Hlt) as Hscan.
      rewrite take_ge in Hscan by (rewrite length_slot_entries by exact Hlen; lia).
      exact Hscan.
  - rewrite first_unfiltered_done by lia. cbn [length map].
    rewrite !app_nil_r, Z.add_0_r. reflexivity.
Qed.

Lemma fold_visit_spec (order_asc : bool) (L : list (@SlotMeta F)) :
  Forall (fun s => length (value_vec s) = length (offset_vec s)) L ->
  forall (cnt : Z) (sc : list F) (ofs : list Z),
  fold_left
    (fun st slot =>
       if fst (fst st) <? topk then
         topk_slot_scan (length (offset_vec slot)) slot filter_func topk
           (if order_asc then 1 else -1)
           (if order_asc then 0 else Z.of_nat (length (offset_vec slot)) - 1) st
       else st) L (cnt, sc, ofs)
  = (cnt + Z.of_nat (length (first_unfiltered filter_func (topk - cnt)
        (concat (map (fun s => if order_asc then slot_entries s
                               else rev (slot_entries s)) L)))),
     sc ++ map (fun e => to_float (snd e))
             (first_unfiltered filter_func (topk - cnt)
                (concat (map (fun s => if order_asc then slot_entries s
                                       else rev (slot_entries s)) L))),
     ofs ++ map fst
             (first_unfiltered filter_func (topk - cnt)
                (concat (map (fun s => if order_asc then slot_entries s
                                       else rev (slot_entries s)) L)))).
Proof.
  induction 1 as [|s L Hs _ IH]; intros cnt sc ofs.
  - cbn [fold_left map concat]. rewrite first_unfiltered_nil. cbn [length map].
    rewrite !app_nil_r, Z.add_0_r. reflexivity.
  - cbn [fold_left map concat fst]. rewrite (visit_spec order_asc s cnt sc ofs Hs).
    rewrite IH, first_unfiltered_app.
    set (E := if order_asc then slot_entries s else rev (slot_entries s)).
    set (n1 := first_unfiltered filter_func (topk - cnt) E).
    replace (topk - (cnt + Z.of_nat (length n1)))
      with (topk - cnt - Z.of_nat (length n1)) by lia.
    rewrite !map_app, !app_assoc, length_app, Nat2Z.inj_add, Z.add_assoc.
    reflexivity.
Qed.

Lemma rev_concat_map {A B} (E : A -> list B) (L : list A) :
  concat (map (fun s => rev (E s)) (rev L)) = rev (concat (map E L)).
Proof.
  induction L as [|a L IH]; [reflexivity|].
  cbn [rev map concat]. rewrite map_app, concat_app, IH. cbn [map concat].
  rewrite app_nil_r, rev_app_distr. reflexivity.
Qed.

Lemma topk_result_spec (m : @RangedMap.t F) (order_asc : bool) :
  Forall (fun s => length (value_vec s) = length (offset_vec s)) (slots_ m) ->
  get_topk_result m topk order_asc filter_func
  = mkRecall
      (map (fun e => to_float (snd e))
           (first_unfiltered filter_func topk
              (if order_asc then entries m else rev (entries m))))
      (map fst
           (first_unfiltered filter_func topk
              (if order_asc then entries m else rev (entries m)))).
Proof.
  intros Hlen. unfold get_topk_result, get_topk_result_with_slot_data.
  assert (Hlen' : Forall (fun s => length (value_vec s) = length (offset_vec s))
                         (if order_asc then slots_ m else rev (slots_ m))).
  { destruct order_asc; [exact Hlen|]. apply Forall_rev, Hlen. }
  rewrite (fold_visit_spec order_asc _ Hlen' 0 [] []). rewrite Z.sub_0_r.
  cbn [app]. unfold entries. destruct order_asc.
  - reflexivity.
  - rewrite rev_concat_map. reflexivity.
Qed.

Lemma zip_sorted (os : list Z) (vs : list F) :
  rank_sorted vs ->
  StronglySorted (fun a b : Z * F => frank (snd a) <= frank (snd b)) (zip os vs).
Proof.
  intros Hs. revert os. induction Hs as [|v vs Hs IH Hv]; intros os.
  - destruct os; constructor.
  - destruct os as [|o os]; [constructor|]. cbn [zip zip_with].
    constructor; [apply IH|]. rewrite Forall_forall in Hv. apply Forall_forall.
    intros [o' v'] Hin. cbn [snd]. apply Hv. apply elem_of_zip_r in Hin. exact Hin.
Qed.

Lemma entries_sorted (slots : list (@SlotMeta F)) :
  Forall slot_ok slots -> StronglySorted slot_before slots ->
  StronglySorted (fun a b : Z * F => frank (snd a) <= frank (snd b))
                 (concat (map slot_entries slots)).
Proof.
  intros Hok Hs. induction Hs as [|s slots Hs IH Hbefore]; [constructor|].
  apply Forall_cons in Hok as [Hoks Hok]. cbn [map concat].
  apply StronglySorted_app_2; [|apply zip_sorted, (so_sorted s Hoks)|apply IH, Hok].
  intros [o v] [o' v'] Hin Hin'. cbn [snd].
  apply elem_of_zip_r in Hin.
  apply list_elem_of_In, in_concat in Hin' as (l & Hl & Hin').
  apply in_map_iff in Hl as (s' & <- & Hs').
  apply list_elem_of_In in Hs', Hin'. apply elem_of_zip_r in Hin'.
  rewrite Forall_forall in Hbefore. rewrite Forall_forall in Hok.
  pose proof (slot_value_between s v Hoks Hin).
  pose proof (slot_value_between s' v' (Hok s' Hs') Hin').
  specialize (Hbefore s' Hs'). unfold slot_before in Hbefore. lia.
Qed.

Lemma entries_elem (m : @RangedMap.t F) (o : Z) (v : F) :
  (o, v) ∈ entries m <-> entry_of m o v.
Proof.
  unfold entries, entry_of. split.
  - intros Hin. apply list_elem_of_In, in_concat in Hin as (l & Hl & Hin).
    apply in_map_iff in Hl as (s & <- & Hs). exists s.
    split; [apply list_elem_of_In, Hs|]. apply holds_zip, list_elem_of_In, Hin.
  - intros (s & Hs & Hh). apply list_elem_of_In, in_concat.
    exists (slot_entries s). split; [apply in_map, list_elem_of_In, Hs|].
    apply list_elem_of_In, holds_zip, Hh.
Qed.

End Topk.

Section TopkReached.
Context {F : Type} `{FloatOps F} `{!FloatOrder F} `{ScoreOps F}.

(** X12. On a map reached by updates and for a [topk], an [int], that is
    not negative (for a negative one [reserve(topk)] throws
    [std::length_error]), [get_topk_result] returns the first
    [topk] entries that the filter does not reject, taken from the entries
    of the slots in the order in which they are stored (ascending) or in
    the reverse order (descending), with their offsets and their scores as
    [float]; the entries of the slots are those of the map, and they are
    stored in ascending order of their values. *)
Theorem X12_topk_takes_the_first_unfiltered (cs : list (@call F))
    (m : RangedMap.t) (topk : Z) (order_asc : bool)
    (filter_func : offset_filter_t) :
  Forall admissible cs -> run cs = Some m -> 0 <= topk < 2 ^ 31 ->
  let ordered := if order_asc then entries m else rev (entries m) in
  let kept := first_unfiltered filter_func topk ordered in
  offsets (get_topk_result m topk order_asc filter_func) = map fst kept /\
  scores (get_topk_result m topk order_asc filter_func)
  = map (fun e => to_float (snd e)) kept /\
  StronglySorted (fun a b : Z * F => frank (snd a) <= frank (snd b)) (entries m) /\
  forall o v, (o, v) ∈ entries m <-> entry_of m o v.
Proof.
  intros Hcs Hrun Htopk ordered kept. pose proof (reached_inv cs m Hcs Hrun) as HI.
  assert (Hlen : Forall (fun s => length (value_vec s) = length (offset_vec s))
                        (slots_ m)).
  { eapply Forall_impl; [apply (inv_slots m HI)|]. intros s Hs. apply (so_length s Hs). }
  rewrite (topk_result_spec filter_func topk m order_asc Hlen). cbn [offsets scores].
  split; [reflexivity|]. split; [reflexivity|]. split.
  - apply entries_sorted; [apply (inv_slots m HI)|apply (inv_order m HI)].
  - apply entries_elem.
Qed.

End TopkReached.

Lemma X12_topk_takes_the_first_unfiltered_witness :
  exists m : @RangedMap.t zfloat,
    run sample_calls = Some m /\
    offsets (get_topk_result m 1 false (Some (fun o => o =? 4)))
    = map fst (first_unfiltered (Some (fun o => o =? 4)) 1 (rev (entries m))).
Proof.
  eexists.
  assert (Hrun : run sample_calls = Some ?[m]) by (vm_compute; reflexivity).
  split; [exact Hrun|].
  exact (proj1 (X12_topk_takes_the_first_unfiltered sample_calls _ 1 false
                  (Some (fun o => o =? 4)) sample_calls_admissible Hrun ltac:(lia))).
Defined.

End TopkExtras.

(* ===================================================================== *)
(** * Brute-force vector store: what add and remove do to the offsets      *)
(* ===================================================================== *)

Module StoreExtras.
Import BruteforceSearch BruteforceFacts.

Section Store.
Context {F : Type} `{FloatOps F} {EncVec LowLevel : Type}
        `{Backend F EncVec LowLevel}.

Local Abbreviation store := (@BruteforceSearch.t F EncVec).

Lemma remove_point_shape (s : store) (label it : Z) :
  Inv s -> label_map_ s !! label = Some it ->
  exists s', remove_point s label = Returned s' /\
    current_count_ s' = current_count_ s - 1 /\
    if it =? current_count_ s - 1
    then label_map_ s' = delete label (label_map_ s) /\
         data_buffer_ s' = data_buffer_ s
    else label_map_ s'
           = <[r_label (row_at s (current_count_ s - 1)) := it]>
               (delete label (label_map_ s)) /\
         data_buffer_ s'
           = <[it := row_at s (current_count_ s - 1)]> (data_buffer_ s).
Proof.
  intros HI El. unfold BruteforceSearch.remove_point. rewrite El.
  pose proof HI as [I1 I2 I3 I4 I5 I6 I7].
  destruct (I3 _ _ El) as [Hrange _].
  rewrite (to_uint64_small it) by lia.
  rewrite (to_uint64_small (current_count_ s - 1)) by lia.
  cbn [current_count_ sparse_index_ data_buffer_ label_map_ offset_map_
       reverse_query_score_ search_with_sparse_logit_alpha capacity_
       next_logical_offset_].
  destruct (it =? current_count_ s - 1) eqn:Elast.
  - apply Z.eqb_eq in Elast. rewrite andb_false_r. cbn [negb store_of].
    destruct (sparse_index_ s) as [sp|] eqn:Esp; cbn;
      (eexists; split; [reflexivity|]; cbn;
       split; [apply to_uint64_small; lia|split; reflexivity]).
  - apply Z.eqb_neq in Elast.
    replace (current_count_ s >? 0) with true by (symmetry; apply Z.gtb_lt; lia).
    cbn [negb andb].
    rewrite (to_int_small it) by lia.
    change (row_at (mk (reverse_query_score_ s) (search_with_sparse_logit_alpha s)
                       (data_buffer_ s) (capacity_ s) (current_count_ s)
                       (delete label (label_map_ s))
                       (delete (r_offset (row_at s it)) (offset_map_ s))
                       (sparse_index_ s) (next_logical_offset_ s))
                   (current_count_ s - 1))
      with (row_at s (current_count_ s - 1)).
    destruct (sparse_index_ s) as [sp|] eqn:Esp.
    + assert (Hrows := I7 _ eq_refl).
      unfold Sparse.get_row, Sparse.get_view.
      replace (current_count_ s - 1 >=? Z.of_nat (length sp)) with false
        by (symmetry; rewrite Z.geb_leb; apply Z.leb_gt;
            unfold Sparse.rows in Hrows; lia).
      destruct (sp !! Z.to_nat (current_count_ s - 1)) as [r|] eqn:Er.
      2:{ apply lookup_ge_None in Er. unfold Sparse.rows in Hrows. lia. }
      match goal with |- context [Sparse.update sp it ?dp] =>
        destruct (Sparse.update sp it dp) as [[rc sp']|] eqn:Eu end.
      2:{ unfold Sparse.update in Eu.
          replace (it >=? Z.of_nat (length sp)) with false in Eu
            by (symmetry; rewrite Z.geb_leb; apply Z.leb_gt;
                unfold Sparse.rows in Hrows; lia).
          destruct (negb _); discriminate. }
      cbn. eexists. split; [reflexivity|]. cbn.
      split; [apply to_uint64_small; lia|split; reflexivity].
    + cbn. eexists. split; [reflexivity|]. cbn.
      split; [apply to_uint64_small; lia|split; reflexivity].
Qed.

Lemma offset_by_label_ext (s s' : store) (l : Z) :
  label_map_ s' !! l = label_map_ s !! l ->
  (forall i, label_map_ s !! l = Some i ->
     data_buffer_ s' !! to_uint64 i = data_buffer_ s !! to_uint64 i) ->
  get_offset_by_label s' l = get_offset_by_label s l.
Proof.
  intros Hl Hb. unfold get_offset_by_label. rewrite Hl.
  destruct (label_map_ s !! l) as [i|]; [|reflexivity].
  unfold row_at. rewrite (Hb i eq_refl). reflexivity.
Qed.

Lemma remove_point_offsets (s : store) (label : Z) :
  Inv s ->
  exists s', remove_point s label = Returned s' /\
    get_offset_by_label s' label = -1 /\
    (forall l', l' <> label ->
       get_offset_by_label s' l' = get_offset_by_label s l') /\
    get_data_num s'
    = if label_map_ s !! label then get_data_num s - 1 else get_data_num s.
Proof.
  intros HI. destruct (label_map_ s !! label) as [it|] eqn:El.
  2:{ exists s. unfold remove_point. rewrite El. split; [reflexivity|].
      split; [|split; [reflexivity|reflexivity]].
      unfold get_offset_by_label. rewrite El. reflexivity. }
  destruct (remove_point_shape s label it HI El) as (s' & Hrem & Hc & Hshape).
  exists s'. split; [exact Hrem|].
  pose proof HI as [I1 I2 I3 I4 I5 I6 I7].
  destruct (I3 _ _ El) as [Hrange Hlab].
  destruct (I5 (current_count_ s - 1) ltac:(lia)) as [Hlast _].
  destruct (Z.eqb_spec it (current_count_ s - 1)) as [Heq|Hne];
    destruct Hshape as [Hlm Hbuf].
  - split; [|split; [|exact Hc]].
    + unfold get_offset_by_label. rewrite Hlm, lookup_delete_eq. reflexivity.
    + intros l' Hl'. apply offset_by_label_ext.
      * rewrite Hlm. apply lookup_delete_ne. congruence.
      * intros i _. rewrite Hbuf. reflexivity.
  - assert (Hmoved : r_label (row_at s (current_count_ s - 1)) <> label).
    { intros Heq. rewrite Heq, El in Hlast. congruence. }
    split; [|split; [|exact Hc]].
    + unfold get_offset_by_label.
      rewrite Hlm, lookup_insert_ne, lookup_delete_eq by exact Hmoved. reflexivity.
    + intros l' Hl'.
      destruct (decide (l' = r_label (row_at s (current_count_ s - 1)))) as [->|Hnm].
      * unfold get_offset_by_label. rewrite Hlm, lookup_insert_eq, Hlast.
        unfold row_at. rewrite Hbuf.
        rewrite (to_uint64_small it), lookup_insert_eq by lia.
        rewrite (to_uint64_small (current_count_ s - 1)) by lia. reflexivity.
      * apply offset_by_label_ext.
        -- rewrite Hlm, lookup_insert_ne by congruence.
           apply lookup_delete_ne. congruence.
        -- intros i Hi. destruct (I3 _ _ Hi) as [Hri Hli].
           rewrite Hbuf, (to_uint64_small i) by lia.
           apply lookup_insert_ne. intros <-. congruence.
Qed.

Lemma offset_by_label_rows (s s' : store) (l : Z) :
  label_map_ s' !! l = label_map_ s !! l ->
  (forall i, r_offset (row_at s' i) = r_offset (row_at s i)) ->
  get_offset_by_label s' l = get_offset_by_label s l.
Proof.
  intros Hl Hb. unfold get_offset_by_label. rewrite Hl.
  destruct (label_map_ s !! l) as [i|]; [|reflexivity].
  rewrite Hb. reflexivity.
Qed.

Lemma row_at_buffer (s s' : store) (i : Z) :
  data_buffer_ s' = data_buffer_ s -> row_at s' i = row_at s i.
Proof. intros Hb. unfold row_at. rewrite Hb. reflexivity. Qed.

Lemma add_point_offsets (s : store) (vector : option (list F)) (label : Z)
    (sparse_data : option LowLevel) :
  Inv s ->
  (label_map_ s !! label = None ->
     current_count_ s < 2 ^ 31 /\ next_logical_offset_ s < 2 ^ 32) ->
  (sparse_index_ s = None ->
   exists s', add_point s vector label sparse_data = Returned s') /\
  forall s', add_point s vector label sparse_data = Returned s' ->
    get_offset_by_label s' label
    = (if label_map_ s !! label then get_offset_by_label s label
       else to_int (next_logical_offset_ s)) /\
    (forall l', l' <> label ->
       get_offset_by_label s' l' = get_offset_by_label s l') /\
    get_data_num s'
    = if label_map_ s !! label then get_data_num s else get_data_num s + 1.
Proof.
  intros HI Hfit. unfold BruteforceSearch.add_point.
  match goal with |- context [match ?c with Some _ => _ | None => Thrown s end] =>
    destruct c as [sparse_dp|] eqn:Econv end.
  2:{ split; [|intros s' [=]]. intros Hs. rewrite Hs in Econv. discriminate. }
  destruct (label_map_ s !! label) as [index|] eqn:El.
  - assert (Hfin : forall s0 : store,
              label_map_ s0 = label_map_ s -> data_buffer_ s0 = data_buffer_ s ->
              current_count_ s0 = current_count_ s ->
              get_offset_by_label (add_point_finish s0 index vector label) label
              = get_offset_by_label s label /\
              (forall l', l' <> label ->
                 get_offset_by_label (add_point_finish s0 index vector label) l'
                 = get_offset_by_label s l') /\
              get_data_num (add_point_finish s0 index vector label)
              = get_data_num s).
    { intros s0 Hlm Hbuf Hc.
      destruct (finish_fields s0 index vector label) as (Hc' & _ & Hlm' & _ & _).
      assert (Hrows : forall i,
                r_offset (row_at (add_point_finish s0 index vector label) i)
                = r_offset (row_at s i)).
      { intros i. destruct (row_at_finish s0 index vector label i) as [_ ->].
        rewrite (row_at_buffer s s0 i Hbuf). reflexivity. }
      split; [|split].
      - apply offset_by_label_rows; [rewrite Hlm', Hlm; reflexivity|exact Hrows].
      - intros l' _.
        apply offset_by_label_rows; [rewrite Hlm', Hlm; reflexivity|exact Hrows].
      - unfold get_data_num. rewrite Hc', Hc. reflexivity. }
    destruct (sparse_index_ s) as [sp|] eqn:Esp;
      [destruct sparse_dp as [dp|]|].
    + split; [discriminate|].
      destruct (Sparse.update sp (to_uint64 index) dp) as [[[| |] sp']|] eqn:Eu;
        intros s' [= <-]. apply Hfin; reflexivity.
    + split; [discriminate|]. intros s' [= <-]. apply Hfin; reflexivity.
    + split; [intros _; eexists; reflexivity|].
      intros s' [= <-]. apply Hfin; reflexivity.
  - destruct (Hfit eq_refl) as [Hc Hn].
    pose proof HI as [I1 I2 I3 I4 I5 I6 I7].
    match goal with |- context [match ?a with Some _ => _ | None => Thrown s end] =>
      destruct a as [s1|] eqn:Eapp end.
    2:{ split; [|intros s' [=]]. intros Hs. rewrite Hs in Eapp. discriminate. }
    assert (H1 : label_map_ s1 = label_map_ s /\
                 current_count_ s1 = current_count_ s /\
                 next_logical_offset_ s1 = next_logical_offset_ s /\
                 data_buffer_ s1 = data_buffer_ s).
    { destruct (sparse_index_ s) as [sp|] eqn:Esp.
      - destruct (negb _); [discriminate|].
        destruct (Sparse.append sp _) as [[| |] sp'] eqn:Ea; try discriminate.
        injection Eapp as <-. repeat split; reflexivity.
      - injection Eapp as <-. repeat split; reflexivity. }
    destruct H1 as (Hl1 & Hc1 & Hn1 & Hb1).
    set (s2 := if current_count_ s1 >=? capacity_ s1
               then resize_buffer s1 (to_uint64 (current_count_ s1 * 2 + 1))
               else s1).
    assert (H2 : label_map_ s2 = label_map_ s1 /\
                 current_count_ s2 = current_count_ s1 /\
                 next_logical_offset_ s2 = next_logical_offset_ s1 /\
                 data_buffer_ s2 = data_buffer_ s1).
    { unfold s2. destruct (current_count_ s1 >=? capacity_ s1).
      - unfold resize_buffer. destruct (_ <? _); repeat split; reflexivity.
      - repeat split; reflexivity. }
    destruct H2 as (Hl2 & Hc2 & Hn2 & Hb2).
    split; [intros _; eexists; reflexivity|]. intros s' [= <-].
    match goal with |- context [add_point_finish ?s5 ?index vector label] =>
      set (sfin := s5); set (idx := index) end.
    assert (Hidx : idx = current_count_ s).
    { unfold idx. rewrite Hc2, Hc1. apply to_int_small. lia. }
    destruct (finish_fields sfin idx vector label) as (Hc' & _ & Hlm' & _ & _).
    assert (Hlmf : label_map_ (add_point_finish sfin idx vector label)
                   = <[label := current_count_ s]> (label_map_ s)).
    { rewrite Hlm'. unfold sfin. cbn. rewrite Hl2, Hl1. fold idx. rewrite Hidx.
      reflexivity. }
    assert (Hrows : forall i,
              r_offset (row_at (add_point_finish sfin idx vector label) i)
              = if decide (current_count_ s = i)
                then to_uint32 (next_logical_offset_ s)
                else r_offset (row_at s i)).
    { intros i. destruct (row_at_finish sfin idx vector label i) as [_ ->].
      unfold sfin, row_at. cbn [data_buffer_].
      replace (to_uint64 (to_int (current_count_ s2))) with (current_count_ s)
        by (rewrite Hc2, Hc1, to_int_small, to_uint64_small by lia; reflexivity).
      destruct (decide (current_count_ s = i)) as [<-|Hne].
      - rewrite lookup_insert_eq. cbn. rewrite Hn2, Hn1. reflexivity.
      - rewrite lookup_insert_ne by exact Hne. rewrite Hb2, Hb1. reflexivity. }
    split; [|split].
    + unfold get_offset_by_label. rewrite Hlmf, lookup_insert_eq.
      rewrite (to_uint64_small (current_count_ s)) by lia. rewrite Hrows.
      destruct (decide (current_count_ s = current_count_ s)); [|congruence].
      rewrite to_uint32_small by lia. reflexivity.
    + intros l' Hl'. unfold get_offset_by_label.
      rewrite Hlmf, lookup_insert_ne by congruence.
      destruct (label_map_ s !! l') as [i|] eqn:Ei; [|reflexivity].
      destruct (I3 _ _ Ei) as [Hri _].
      rewrite Hrows, (to_uint64_small i) by lia.
      destruct (decide (current_count_ s = i)); [lia|reflexivity].
    + unfold get_data_num. rewrite Hc'. unfold sfin. cbn.
      rewrite Hc2, Hc1. apply to_uint64_small. lia.
Qed.

(** X13. On a store reached within the limits of its 32-bit fields,
    [remove_point] returns; afterwards the label removed has no offset
    ([get_offset_by_label] gives -1), every other label has the logical
    offset it had, also the label whose row was moved into the gap, and
    the count is one less when the label was stored and unchanged
    otherwise. *)
Theorem X13_remove_keeps_the_other_offsets
    (cs : list (@call F LowLevel)) l2 alpha cap sparse (label : Z) :
  within_limits cs (new (EncVec := EncVec) l2 alpha cap sparse) = true ->
  exists s',
    remove_point (run cs (new (EncVec := EncVec) l2 alpha cap sparse)) label
    = Returned s' /\
    get_offset_by_label s' label = -1 /\
    (forall l', l' <> label ->
       get_offset_by_label s' l'
       = get_offset_by_label (run cs (new l2 alpha cap sparse)) l') /\
    get_data_num s'
    = match label_map_ (run cs (new l2 alpha cap sparse)) !! label with
      | Some _ => get_data_num (run cs (new l2 alpha cap sparse)) - 1
      | None => get_data_num (run cs (new l2 alpha cap sparse))
      end.
Proof.
  intros Hw. apply remove_point_offsets. apply Inv_run; [apply Inv_new|exact Hw].
Qed.

(** X14. On a store reached within the limits of its 32-bit fields, an
    [add_point] that returns gives a new label the next logical offset and
    raises the count by one, and leaves a label that was stored its offset
    and the count as it is; every other label keeps its logical offset.
    Without a sparse index [add_point] always returns. *)
Theorem X14_add_assigns_the_next_offset
    (cs : list (@call F LowLevel)) l2 alpha cap sparse
    (vector : option (list F)) (label : Z) (sparse_data : option LowLevel) :
  within_limits (cs ++ [AddPoint vector label sparse_data])
                (new (EncVec := EncVec) l2 alpha cap sparse) = true ->
  (sparse_index_ (run cs (new (EncVec := EncVec) l2 alpha cap sparse)) = None ->
   exists s', add_point (run cs (new l2 alpha cap sparse)) vector label sparse_data
              = Returned s') /\
  forall s',
    add_point (run cs (new (EncVec := EncVec) l2 alpha cap sparse))
              vector label sparse_data = Returned s' ->
    get_offset_by_label s' label
    = match label_map_ (run cs (new l2 alpha cap sparse)) !! label with
      | Some _ => get_offset_by_label (run cs (new l2 alpha cap sparse)) label
      | None => to_int (next_logical_offset_ (run cs (new l2 alpha cap sparse)))
      end /\
    (forall l', l' <> label ->
       get_offset_by_label s' l'
       = get_offset_by_label (run cs (new l2 alpha cap sparse)) l') /\
    get_data_num s'
    = match label_map_ (run cs (new l2 alpha cap sparse)) !! label with
      | Some _ => get_data_num (run cs (new l2 alpha cap sparse))
      | None => get_data_num (run cs (new l2 alpha cap sparse)) + 1
      end.
Proof.
  intros Hw.
  assert (Hsplit : forall (l : list (@call F LowLevel)) (s : store) c,
            within_limits (l ++ [c]) s = true ->
            within_limits l s = true /\ fits (run l s) c = true).
  { induction l as [|a l IH]; intros s c Hl; cbn in Hl |- *.
    - rewrite andb_true_r in Hl. split; [reflexivity|exact Hl].
    - apply andb_prop in Hl as [Ha Hl]. destruct (IH _ _ Hl) as [H1 H2].
      rewrite Ha, H1. split; [reflexivity|exact H2]. }
  destruct (Hsplit _ _ _ Hw) as [Hcs Hfit].
  apply add_point_offsets; [apply Inv_run; [apply Inv_new|exact Hcs]|].
  intros Hnone. cbn [fits] in Hfit. rewrite Hnone in Hfit.
  apply andb_prop in Hfit as [?%Z.ltb_lt ?%Z.ltb_lt]. auto.
Qed.

End Store.

Lemma X13_remove_keeps_the_other_offsets_witness :
  let cs : list zcall :=
    [AddPoint (Some [ZNum 1; ZNum 2]) 7 None;
     AddPoint (Some [ZNum 3; ZNum 4]) 9 None;
     AddPoint (Some [ZNum 5; ZNum 6]) 8 None] in
  exists s',
    remove_point (run cs znew) 7 = Returned s' /\
    get_offset_by_label s' 7 = -1 /\
    (forall l', l' <> 7 ->
       get_offset_by_label s' l' = get_offset_by_label (run cs znew) l') /\
    get_data_num s'
    = match label_map_ (run cs znew) !! 7 with
      | Some _ => get_data_num (run cs znew) - 1
      | None => get_data_num (run cs znew)
      end.
Proof.
  intros cs.
  apply (X13_remove_keeps_the_other_offsets cs false (ZNum 0) 0 false 7).
  reflexivity.
Defined.

Lemma X14_add_assigns_the_next_offset_witness :
  let cs : list zcall :=
    [AddPoint (Some [ZNum 1; ZNum 2]) 7 None;
     AddPoint (Some [ZNum 3; ZNum 4]) 9 None;
     RemovePoint 7] in
  exists s',
    add_point (run cs znew) (Some [ZNum 5; ZNum 6]) 8 None = Returned s' /\
    get_offset_by_label s' 8 = 2 /\ get_offset_by_label s' 9 = 1 /\
    get_data_num s' = 2.
Proof.
  intros cs.
  destruct (X14_add_assigns_the_next_offset cs false (ZNum 0) 0 false
              (Some [ZNum 5; ZNum 6]) 8 None eq_refl) as [Hret Hres].
  destruct (Hret eq_refl) as [s' Hs']. exists s'. split; [exact Hs'|].
  destruct (Hres s' Hs') as (H1 & H2 & H3).
  split; [exact H1|]. split; [|exact H3].
  rewrite (H2 9 ltac:(lia)). reflexivity.
Defined.

End StoreExtras.

(* ===================================================================== *)
(** * Index manager: batches of additions and deletions                    *)
(* ===================================================================== *)

Module ManagerExtras.
Import IndexManager.

Section Batches.
Context {F : Type} `{FloatOps F} {EncVec LowLevel : Type}
        `{BruteforceSearch.Backend F EncVec LowLevel}
        {S Fields : Type} `{ScalarIndexOps S Fields}.

Local Abbreviation store := (@BruteforceSearch.t F EncVec).

(** [add_point] only adds to the label map. *)
Lemma add_point_labels (s s' : store) (vector : option (list F)) (label : Z)
    (sparse_data : option LowLevel) :
  BruteforceSearch.add_point s vector label sparse_data
  = BruteforceSearch.Returned s' ->
  is_Some (BruteforceSearch.label_map_ s' !! label) /\
  forall l0, is_Some (BruteforceSearch.label_map_ s !! l0) ->
             is_Some (BruteforceSearch.label_map_ s' !! l0).
Proof.
  unfold BruteforceSearch.add_point.
  match goal with |- context [match ?c with Some _ => _ | None => BruteforceSearch.Thrown s end] =>
    destruct c as [sparse_dp|] eqn:Econv end; [|discriminate].
  destruct (BruteforceSearch.label_map_ s !! label) as [index|] eqn:El.
  - assert (Hfin : forall s0 : store,
              BruteforceSearch.label_map_ s0 = BruteforceSearch.label_map_ s ->
              BruteforceSearch.label_map_
                (BruteforceSearch.add_point_finish s0 index vector label)
              = BruteforceSearch.label_map_ s).
    { intros s0 Hs0.
      destruct (BruteforceFacts.finish_fields s0 index vector label)
        as (_ & _ & -> & _). exact Hs0. }
    assert (Hgoal : forall s0 : store,
              BruteforceSearch.label_map_ s0 = BruteforceSearch.label_map_ s ->
              BruteforceSearch.Returned
                (BruteforceSearch.add_point_finish s0 index vector label)
              = BruteforceSearch.Returned s' ->
              is_Some (BruteforceSearch.label_map_ s' !! label) /\
              forall l0, is_Some (BruteforceSearch.label_map_ s !! l0) ->
                         is_Some (BruteforceSearch.label_map_ s' !! l0)).
    { intros s0 Hs0 [= <-]. rewrite (Hfin s0 Hs0), El.
      split; [eexists; reflexivity|intros l0 Hl0; exact Hl0]. }
    destruct (BruteforceSearch.sparse_index_ s) as [sp|];
      [destruct sparse_dp as [dp|]|].
    + destruct (Sparse.update sp (to_uint64 index) dp) as [[[| |] sp']|];
        try discriminate. apply Hgoal. reflexivity.
    + apply Hgoal. reflexivity.
    + apply Hgoal. reflexivity.
  - match goal with |- context [match ?a with Some _ => _ | None => BruteforceSearch.Thrown s end] =>
      destruct a as [s1|] eqn:Eapp end; [|discriminate].
    assert (Hs1 : BruteforceSearch.label_map_ s1 = BruteforceSearch.label_map_ s).
    { destruct (BruteforceSearch.sparse_index_ s) as [sp|].
      - destruct (negb _); [discriminate|].
        destruct (Sparse.append sp _) as [[| |] sp']; try discriminate.
        injection Eapp as <-. reflexivity.
      - injection Eapp as <-. reflexivity. }
    set (s2 := if BruteforceSearch.current_count_ s1 >=? BruteforceSearch.capacity_ s1
               then BruteforceSearch.resize_buffer s1
                      (to_uint64 (BruteforceSearch.current_count_ s1 * 2 + 1))
               else s1).
    assert (Hs2 : BruteforceSearch.label_map_ s2 = BruteforceSearch.label_map_ s1).
    { unfold s2. destruct (_ >=? _); [|reflexivity].
      unfold BruteforceSearch.resize_buffer. destruct (_ <? _); reflexivity. }
    intros [= <-].
    match goal with |- context [BruteforceSearch.add_point_finish ?s5 ?index vector label] =>
      destruct (BruteforceFacts.finish_fields s5 index vector label)
        as (_ & _ & Hlm & _) end.
    rewrite Hlm. cbn [BruteforceSearch.label_map_]. rewrite Hs2, Hs1. split.
    + rewrite lookup_insert_eq. eexists; reflexivity.
    + intros l0 Hl0. destruct (decide (l0 = label)) as [->|Hne].
      * rewrite lookup_insert_eq. eexists; reflexivity.
      * rewrite lookup_insert_ne by congruence. exact Hl0.
Qed.

Lemma add_loop_labels (data_list : list (@AddDataRequest F LowLevel Fields)) :
  forall (sc sc' : S) (vi vi' : store) (hu hu' : bool),
  add_loop data_list sc vi hu = Some (sc', vi', hu') ->
  (forall d, d ∈ data_list ->
     is_Some (BruteforceSearch.label_map_ vi' !! add_label d)) /\
  (forall l0, is_Some (BruteforceSearch.label_map_ vi !! l0) ->
              is_Some (BruteforceSearch.label_map_ vi' !! l0)).
Proof.
  induction data_list as [|data rest IH]; intros sc sc' vi vi' hu hu' Hloop.
  - cbn in Hloop. injection Hloop as <- <- <-. split; [|auto].
    intros d Hd. inversion Hd.
  - cbn [add_loop] in Hloop.
    destruct (BruteforceSearch.add_point vi _ (add_label data) _)
      as [vi1|vi1] eqn:Eadd; [|discriminate].
    destruct (add_point_labels _ _ _ _ _ Eadd) as [Hnew Hold].
    assert (Hrest : exists sc1 hu1, add_loop rest sc1 vi1 hu1 = Some (sc', vi', hu')).
    { destruct (_ <? 0); eauto. }
    destruct Hrest as (sc1 & hu1 & Hrest).
    destruct (IH _ _ _ _ _ _ Hrest) as [Hin Hkeep]. split.
    + intros d Hd. apply elem_of_cons in Hd as [->|Hd]; [apply Hkeep, Hnew|].
      apply Hin, Hd.
    + intros l0 Hl0. apply Hkeep, Hold, Hl0.
Qed.

Lemma delete_loop_unknown (data_list : list (@DeleteDataRequest Fields))
    (sc : S) (vi : store) (hu : bool) :
  (forall d, d ∈ data_list ->
     BruteforceSearch.label_map_ vi !! del_label d = None) ->
  delete_loop data_list sc vi hu = Some (sc, vi, hu).
Proof.
  induction data_list as [|data rest IH]; intros Hall; [reflexivity|].
  cbn [delete_loop]. unfold BruteforceSearch.get_offset_by_label.
  rewrite (Hall data) by apply list_elem_of_here. cbn.
  apply IH. intros d Hd. apply Hall, list_elem_of_further, Hd.
Qed.

(** X15. [delete_data] for labels of which none is stored changes
    nothing: the vector index, the scalar index and the update timestamp
    stay as they are. *)
Theorem X15_delete_unknown_labels_changes_nothing
    (m : @IndexManager.t F EncVec S)
    (data_list : list (@DeleteDataRequest Fields)) (now : Z) :
  (forall d, d ∈ data_list ->
     BruteforceSearch.label_map_ (vector_index_ m) !! del_label d = None) ->
  delete_data m data_list now = Some m.
Proof.
  intros Hall. unfold delete_data. rewrite (delete_loop_unknown _ _ _ _ Hall).
  destruct m; reflexivity.
Qed.

(** X16. When [add_data] returns, every label of the batch is in the
    label map of the vector index, and so is every label that was there
    before. *)
Theorem X16_add_data_stores_every_label
    (m m' : @IndexManager.t F EncVec S)
    (data_list : list (@AddDataRequest F LowLevel Fields)) (now : Z) :
  add_data m data_list now = Some m' ->
  (forall d, d ∈ data_list ->
     is_Some (BruteforceSearch.label_map_ (vector_index_ m') !! add_label d)) /\
  (forall l0, is_Some (BruteforceSearch.label_map_ (vector_index_ m) !! l0) ->
              is_Some (BruteforceSearch.label_map_ (vector_index_ m') !! l0)).
Proof.
  unfold add_data.
  destruct (add_loop data_list (scalar_index_ m) (vector_index_ m) false)
    as [[[sc vi] hu]|] eqn:Eloop; [|discriminate].
  intros [= <-]. cbn [vector_index_]. apply (add_loop_labels _ _ _ _ _ _ _ Eloop).
Qed.

End Batches.

Lemma X15_delete_unknown_labels_changes_nothing_witness :
  delete_data znew_manager [mkDelete 5 tt; mkDelete 6 tt] 1700000000
  = Some znew_manager.
Proof.
  apply (X15_delete_unknown_labels_changes_nothing znew_manager
           [mkDelete 5 tt; mkDelete 6 tt] 1700000000).
  intros d Hd. reflexivity.
Defined.

Lemma X16_add_data_stores_every_label_witness :
  exists m' : zmanager,
    add_data znew_manager [zadd 7 [ZNum 1]; zadd 9 [ZNum 2]; zadd 7 [ZNum 3]]
             1700000000 = Some m' /\
    forall d, d ∈ [zadd 7 [ZNum 1]; zadd 9 [ZNum 2]; zadd 7 [ZNum 3]] ->
      is_Some (BruteforceSearch.label_map_ (vector_index_ m') !! add_label d).
Proof.
  eexists.
  assert (Hadd : add_data znew_manager
                   [zadd 7 [ZNum 1]; zadd 9 [ZNum 2]; zadd 7 [ZNum 3]] 1700000000
                 = Some ?[m']) by (vm_compute; reflexivity).
  split; [exact Hadd|].
  exact (proj1 (X16_add_data_stores_every_label _ _ _ _ Hadd)).
Defined.

End ManagerExtras.

(* ===================================================================== *)
(** * Brute-force vector store: the search keeps the k best rows           *)
(* ===================================================================== *)

Module SearchExtras.
Import BruteforceSearch.

Section Search.
Context {F : Type} `{FloatOps F} `{!FloatOrder F} {EncVec LowLevel : Type}
        `{Backend F EncVec LowLevel}.

Local Abbreviation store := (@BruteforceSearch.t F EncVec).

Local Notation by_score := (fun a b : F * Z => frank (fst a) <= frank (fst b)).
Local Notation clean := (fun a : F * Z => fis_nan (fst a) = false).

Lemma pair_lt_rank (a b : F * Z) :
  fis_nan (fst a) = false -> fis_nan (fst b) = false ->
  (pair_lt a b = true -> frank (fst a) <= frank (fst b)) /\
  (pair_lt a b = false -> frank (fst b) <= frank (fst a)).
Proof.
  intros Ha Hb. unfold pair_lt. rewrite !fltb_rank by assumption.
  destruct (Z.ltb_spec (frank (fst a)) (frank (fst b)));
    destruct (Z.ltb_spec (frank (fst b)) (frank (fst a)));
    cbn; split; intros; try discriminate; lia.
Qed.

Lemma pq_emplace_spec (x : F * Z) (pq : list (F * Z)) :
  clean x -> Forall clean pq -> StronglySorted by_score pq ->
  pq_emplace x pq ≡ₚ x :: pq /\ StronglySorted by_score (pq_emplace x pq).
Proof.
  intros Hx Hc Hs. induction Hs as [|y r Hs IH Hy]; cbn [pq_emplace].
  - split; [reflexivity|]. repeat constructor.
  - apply Forall_cons in Hc as [Hcy Hc].
    destruct (pair_lt_rank x y Hx Hcy) as [Hlt Hge].
    destruct (pair_lt x y) eqn:E.
    + split; [reflexivity|]. specialize (Hlt eq_refl).
      constructor; [constructor; assumption|].
      constructor; [exact Hlt|]. rewrite Forall_forall in Hy |- *.
      intros z Hz. specialize (Hy z Hz). cbn beta in *. lia.
    + destruct (IH Hc) as [Hp Hs']. specialize (Hge eq_refl). split.
      * rewrite Hp. apply perm_swap.
      * constructor; [exact Hs'|]. rewrite Forall_forall in Hy |- *.
        intros z Hz. rewrite Hp in Hz. apply elem_of_cons in Hz as [->|Hz];
          [exact Hge|apply Hy, Hz].
Qed.

(** The state of the scan: the queue holds at most [k] pairs in ascending
    order of their score, nothing has been dropped before it is full, and
    no pair dropped has a greater score than a pair kept. *)
Lemma offer_spec (k : Z) (pq dropped : list (F * Z)) (dist : F) (label : Z) :
  0 < k -> fis_nan dist = false ->
  Forall clean pq -> StronglySorted by_score pq ->
  Z.of_nat (length pq) <= k ->
  (Z.of_nat (length pq) < k -> dropped = []) ->
  (forall d x, d ∈ dropped -> x ∈ pq -> frank (fst d) <= frank (fst x)) ->
  exists dropped',
    offer k pq dist label ++ dropped' ≡ₚ (dist, label) :: pq ++ dropped /\
    Forall clean (offer k pq dist label) /\
    StronglySorted by_score (offer k pq dist label) /\
    Z.of_nat (length (offer k pq dist label)) <= k /\
    (Z.of_nat (length (offer k pq dist label)) < k -> dropped' = []) /\
    (forall d x, d ∈ dropped' -> x ∈ offer k pq dist label ->
                 frank (fst d) <= frank (fst x)).
Proof.
  intros Hk Hd Hc Hs Hlen Hfull Hdrop. unfold offer.
  destruct (Z.ltb_spec (Z.of_nat (length pq)) k) as [Hlt|Hge].
  - rewrite (Hfull Hlt) in *.
    destruct (pq_emplace_spec (dist, label) pq Hd Hc Hs) as [Hp Hs'].
    exists []. rewrite !app_nil_r. split; [exact Hp|]. split; [|split; [exact Hs'|]].
    + rewrite Hp. constructor; assumption.
    + split; [rewrite Hp; cbn [length]; lia|]. split; [reflexivity|].
      intros d x Hin. inversion Hin.
  - destruct pq as [|top rest]; [cbn [length] in Hge; lia|].
    apply Forall_cons in Hc as [Hct Hc].
    apply StronglySorted_inv in Hs as [Hs Htop].
    unfold fgtb. rewrite fltb_rank by assumption.
    destruct (Z.ltb_spec (frank (fst top)) (frank dist)) as [Hgt|Hle].
    + destruct (pq_emplace_spec (dist, label) rest Hd Hc Hs) as [Hp Hs'].
      exists (top :: dropped). split; [|split; [|split; [exact Hs'|]]].
      * rewrite Hp. cbn [app]. rewrite <- Permutation_middle. reflexivity.
      * rewrite Hp. constructor; assumption.
      * split; [rewrite Hp; cbn [length] in *; lia|].
        split; [rewrite Hp; cbn [length] in *; lia|].
        intros d x Hin Hx. rewrite Hp in Hx.
        assert (Hdt : frank (fst d) <= frank (fst top)).
        { apply elem_of_cons in Hin as [->|Hin]; [lia|].
          apply Hdrop; [exact Hin|apply list_elem_of_here]. }
        apply elem_of_cons in Hx as [->|Hx]; [cbn [fst]; lia|].
        rewrite Forall_forall in Htop. specialize (Htop x Hx). cbn beta in Htop. lia.
    + exists ((dist, label) :: dropped). split; [|split; [|split]].
      * rewrite <- Permutation_middle. reflexivity.
      * constructor; assumption.
      * constructor; assumption.
      * split; [exact Hlen|]. split; [lia|].
        intros d x Hin Hx.
        assert (Htx : frank (fst top) <= frank (fst x)).
        { apply elem_of_cons in Hx as [->|Hx]; [lia|].
          rewrite Forall_forall in Htop. apply (Htop x Hx). }
        apply elem_of_cons in Hin as [->|Hin]; [cbn [fst]; lia|].
        pose proof (Hdrop d top Hin (list_elem_of_here _ _)). lia.
Qed.

Lemma scan_spec (s : store) (q : EncVec)
    (view : option (Sparse.SparseDatapointView F)) (k : Z) (idxs : list Z) :
  0 < k ->
  (forall idx sc, idx ∈ idxs ->
     compute_score s q (r_vec (row_at s idx)) view idx = Some sc ->
     fis_nan sc = false) ->
  forall (pq dropped pq' : list (F * Z)),
  Forall clean pq -> StronglySorted by_score pq ->
  Z.of_nat (length pq) <= k ->
  (Z.of_nat (length pq) < k -> dropped = []) ->
  (forall d x, d ∈ dropped -> x ∈ pq -> frank (fst d) <= frank (fst x)) ->
  scan s q view k idxs pq = Some pq' ->
  exists all dropped',
    Forall2 (fun idx p =>
               compute_score s q (r_vec (row_at s idx)) view idx = Some (fst p) /\
               snd p = r_label (row_at s idx)) idxs all /\
    pq' ++ dropped' ≡ₚ all ++ pq ++ dropped /\
    StronglySorted by_score pq' /\
    Z.of_nat (length pq') <= k /\
    (Z.of_nat (length pq') < k -> dropped' = []) /\
    (forall d x, d ∈ dropped' -> x ∈ pq' -> frank (fst d) <= frank (fst x)).
Proof.
  intros Hk. induction idxs as [|idx rest IH];
    intros Hclean pq dropped pq' Hc Hs Hlen Hfull Hdrop Hscan.
  - cbn in Hscan. injection Hscan as <-. exists [], dropped.
    split; [constructor|]. split; [reflexivity|]. auto.
  - cbn [scan] in Hscan.
    destruct (compute_score s q (r_vec (row_at s idx)) view idx) as [dist|] eqn:Ec;
      [|discriminate].
    assert (Hd : fis_nan dist = false).
    { apply (Hclean idx dist); [apply list_elem_of_here|exact Ec]. }
    destruct (offer_spec k pq dropped dist (r_label (row_at s idx))
                Hk Hd Hc Hs Hlen Hfull Hdrop)
      as (dropped1 & Hp1 & Hc1 & Hs1 & Hl1 & Hf1 & Hd1).
    destruct (IH (fun i sc Hi => Hclean i sc (list_elem_of_further _ _ _ Hi))
                _ dropped1 pq' Hc1 Hs1 Hl1 Hf1 Hd1 Hscan)
      as (all & dropped' & Hall & Hp & Hs' & Hl' & Hf' & Hd').
    exists ((dist, r_label (row_at s idx)) :: all), dropped'.
    split; [constructor; [split; [exact Ec|reflexivity]|exact Hall]|].
    split; [|auto]. rewrite Hp, Hp1. cbn [app].
    rewrite <- Permutation_middle. reflexivity.
Qed.

Lemma scan_returns (s : store) (q : EncVec)
    (view : option (Sparse.SparseDatapointView F)) (k : Z) (idxs : list Z) :
  sparse_index_ s = None ->
  forall pq, exists pq', scan s q view k idxs pq = Some pq'.
Proof.
  intros Hs. induction idxs as [|idx rest IH]; intros pq; cbn [scan].
  - eexists; reflexivity.
  - unfold compute_score. rewrite Hs. apply IH.
Qed.

Lemma sorted_rev_fst (pq : list (F * Z)) :
  StronglySorted by_score pq ->
  StronglySorted (fun a b : F => frank b <= frank a) (map fst (rev pq)).
Proof.
  induction 1 as [|x l Hs IH Hx]; [constructor|].
  cbn [rev]. rewrite map_app. apply StronglySorted_app_2; [|exact IH|repeat constructor].
  intros a b Ha Hb. cbn [map] in Hb. apply list_elem_of_singleton in Hb as ->.
  apply list_elem_of_fmap in Ha as (y & -> & Hy). rewrite <- Permutation_rev in Hy.
  rewrite Forall_forall in Hx. apply (Hx y Hy).
Qed.

Lemma copy_out_small (pq : list (F * Z)) (labels : list Z) (scores : list F) :
  Z.of_nat (length pq) < 2 ^ 31 ->
  copy_out pq labels scores = Some (map snd (rev pq), map fst (rev pq)).
Proof.
  intros Hlt. unfold copy_out.
  rewrite (to_int_small (Z.of_nat (length pq))) by lia.
  replace (Z.of_nat (length pq) =? - 2 ^ 31) with false
    by (symmetry; apply Z.eqb_neq; lia).
  rewrite Nat2Z.id, (take_ge pq (length pq)) by lia.
  rewrite !drop_ge by (rewrite length_resize; lia).
  rewrite !app_nil_r. reflexivity.
Qed.

(** X17. A [search_knn] with [k > 0], a [size_t], on a store that is not empty, whose
    rows all get a score that is not a NaN, returns [min k n] of the [n]
    rows it visits (all rows, or the rows of the offsets set in a filter
    that is not empty), each with its label and its score, listed in
    descending order of the score, and no row left out has a greater score
    than a row returned.  The filter holds fewer than 2^32 offsets, so
    that [get_set_list] lists them, and there are fewer than 2^31 results,
    so that [static_cast<int>(result_size)] is their number.  Without a
    sparse index the search always returns. *)
Theorem X17_search_keeps_the_k_best (s : store) (query : list F) (k : Z)
    (filter_bitmap : option Bitmap.t) (sparse : option LowLevel)
    (labels0 : list Z) (scores0 : list F) :
  0 < k < 2 ^ 64 -> current_count_ s <> 0 ->
  match filter_bitmap with
  | Some bm =>
      Bitmap.empty bm = false /\ Z.of_nat (size (Bitmap.elems bm)) < 2 ^ 32
  | None => True
  end ->
  Z.min k (Z.of_nat (length (candidates s filter_bitmap))) < 2 ^ 31 ->
  (forall idx sc, idx ∈ candidates s filter_bitmap ->
     compute_score s (encode query) (r_vec (row_at s idx))
                   (transform_sparse_query s sparse) idx = Some sc ->
     fis_nan sc = false) ->
  (sparse_index_ s = None ->
   is_Some (search_knn s (Some query) k filter_bitmap sparse labels0 scores0)) /\
  forall labels scores,
    search_knn s (Some query) k filter_bitmap sparse labels0 scores0
    = Some (labels, scores) ->
    exists all dropped : list (F * Z),
      Forall2 (fun idx p =>
                 compute_score s (encode query) (r_vec (row_at s idx))
                               (transform_sparse_query s sparse) idx = Some (fst p) /\
                 snd p = r_label (row_at s idx))
              (candidates s filter_bitmap) all /\
      zip scores labels ++ dropped ≡ₚ all /\
      length labels = length scores /\
      Z.of_nat (length labels)
      = Z.min k (Z.of_nat (length (candidates s filter_bitmap))) /\
      StronglySorted (fun a b : F => frank b <= frank a) scores /\
      forall d x, d ∈ dropped -> x ∈ scores -> frank (fst d) <= frank x.
Proof.
  intros [Hk Hk64] Hcount Hfilter Hsmall Hclean. unfold search_knn.
  replace (k =? 0) with false by (symmetry; apply Z.eqb_neq; lia).
  replace (current_count_ s =? 0) with false by (symmetry; apply Z.eqb_neq; exact Hcount).
  assert (He : match filter_bitmap with
               | Some bm => Bitmap.empty bm
               | None => false
               end = false).
  { destruct filter_bitmap; [exact (proj1 Hfilter)|reflexivity]. }
  rewrite He.
  assert (Hlen0 : Z.of_nat (length (@nil (F * Z))) <= k) by (cbn [length]; lia).
  assert (Hnone : forall d x : F * Z, d ∈ [] -> x ∈ [] ->
                                      frank (fst d) <= frank (fst x)).
  { intros d x Hin. inversion Hin. }
  assert (Hscan : forall pq,
            scan s (encode query) (transform_sparse_query s sparse) k
                 (candidates s filter_bitmap) [] = Some pq ->
            exists all dropped : list (F * Z),
              Forall2 (fun idx p =>
                 compute_score s (encode query) (r_vec (row_at s idx))
                               (transform_sparse_query s sparse) idx = Some (fst p) /\
                 snd p = r_label (row_at s idx))
                (candidates s filter_bitmap) all /\
              pq ++ dropped ≡ₚ all /\
              StronglySorted by_score pq /\
              Z.of_nat (length pq)
              = Z.min k (Z.of_nat (length (candidates s filter_bitmap))) /\
              forall d x, d ∈ dropped -> x ∈ pq -> frank (fst d) <= frank (fst x)).
  { intros pq Escan.
    destruct (scan_spec s (encode query) (transform_sparse_query s sparse) k
                (candidates s filter_bitmap) Hk Hclean [] [] pq
                (Forall_nil_2 _) (SSorted_nil _) Hlen0 (fun _ => eq_refl) Hnone Escan)
      as (all & dropped & Hall & Hp & Hs & Hl & Hf & Hd).
    rewrite !app_nil_r in Hp.
    exists all, dropped. split; [exact Hall|]. split; [exact Hp|].
    split; [exact Hs|]. split; [|exact Hd].
    pose proof (Forall2_length _ _ _ Hall) as Hlen.
    pose proof (Permutation_length Hp) as Hpl. rewrite length_app in Hpl.
    destruct (Z.lt_ge_cases (Z.of_nat (length pq)) k) as [Hlt|Hge].
    - rewrite (Hf Hlt) in Hpl. cbn [length] in Hpl. lia.
    - lia. }
  split.
  - intros Hs.
    destruct (scan_returns s (encode query) (transform_sparse_query s sparse) k
                (candidates s filter_bitmap) Hs []) as [pq' Epq].
    rewrite Epq. destruct (Hscan pq' Epq) as (_ & _ & _ & _ & _ & Hl & _).
    rewrite copy_out_small by lia. eexists; reflexivity.
  - intros labels scores Hres.
    destruct (scan s (encode query) (transform_sparse_query s sparse) k
                (candidates s filter_bitmap) []) as [pq|] eqn:Escan; [|discriminate].
    destruct (Hscan pq eq_refl) as (all & dropped & Hall & Hp & Hs & Hl & Hd).
    rewrite copy_out_small in Hres by lia.
    injection Hres as <- <-.
    exists all, dropped. split; [exact Hall|].
    assert (Hzip : zip (map fst (rev pq)) (map snd (rev pq)) = rev pq)
      by apply zip_fst_snd.
    split; [rewrite Hzip, <- Permutation_rev; exact Hp|].
    split; [rewrite !length_map; reflexivity|].
    split; [rewrite length_map, length_rev; exact Hl|].
    split; [apply sorted_rev_fst, Hs|].
    intros d x Hin Hx. apply list_elem_of_fmap in Hx as (y & -> & Hy).
    rewrite <- Permutation_rev in Hy. apply Hd; assumption.
Qed.

End Search.

Lemma X17_search_keeps_the_k_best_witness :
  let cs : list zcall :=
    [AddPoint (Some [ZNum 1; ZNum 2]) 7 None;
     AddPoint (Some [ZNum 3; ZNum 4]) 9 None;
     AddPoint (Some [ZNum 5; ZNum 6]) 8 None] in
  is_Some (search_knn (run cs znew) (Some [ZNum 1; ZNum 1]) 2 None None [] []).
Proof.
  intros cs.
  refine (proj1 (X17_search_keeps_the_k_best (run cs znew) [ZNum 1; ZNum 1] 2
                   None None [] [] ltac:(lia) _ I _ _) eq_refl).
  - vm_compute. discriminate.
  - vm_compute. reflexivity.
  - intros idx sc Hin Hc.
    apply list_elem_of_In in Hin. vm_compute in Hin.
    destruct Hin as [<-|[<-|[<-|[]]]]; vm_compute in Hc; injection Hc as <-;
      reflexivity.
Defined.

End SearchExtras.

(* ===================================================================== *)
(** * String utilities: split                                              *)
(* ===================================================================== *)

Module SplitExtras.
Import StringUtils.

Section Split.
Variable delimiters : str.

Lemma fields_free (seg cur rest : str) :
  Forall (fun c => c ∉ delimiters) seg ->
  fields delimiters (seg ++ rest) cur = fields delimiters rest (cur ++ seg).
Proof.
  intros Hseg. revert cur. induction Hseg as [|c seg Hc _ IH]; intros cur.
  - rewrite app_nil_r. reflexivity.
  - cbn [app fields]. rewrite bool_decide_eq_false_2 by exact Hc.
    rewrite IH, <- app_assoc. reflexivity.
Qed.

Lemma find_from_spec (s : str) (pos : nat) :
  match find_from delimiters s pos with
  | Some e =>
      (pos <= e < pos + length s)%nat /\
      Forall (fun c => c ∉ delimiters) (take (e - pos) s) /\
      exists c, s !! (e - pos)%nat = Some c /\ c ∈ delimiters
  | None => Forall (fun c => c ∉ delimiters) s
  end.
Proof.
  revert pos. induction s as [|c r IH]; intros pos; cbn [find_from].
  - constructor.
  - destruct (decide (c ∈ delimiters)) as [Hin|Hout].
    + rewrite bool_decide_eq_true_2 by exact Hin. rewrite Nat.sub_diag.
      cbn [length take]. split; [lia|]. split; [constructor|].
      exists c. split; [reflexivity|exact Hin].
    + rewrite bool_decide_eq_false_2 by exact Hout. specialize (IH (S pos)).
      destruct (find_from delimiters r (S pos)) as [e|].
      * destruct IH as (Hr & Hfree & c' & Hc' & Hin'). cbn [length].
        split; [lia|]. replace (e - pos)%nat with (S (e - S pos)) by lia.
        cbn [take]. split; [constructor; assumption|].
        exists c'. split; [exact Hc'|exact Hin'].
      * constructor; assumption.
Qed.

(** What [split] adds for the string [s]. *)
Lemma split_loop_spec (s : str) (fuel : nat) :
  forall (tokens : list str) (start : nat),
    (start <= length s)%nat -> (length s - start < fuel)%nat ->
    split_loop fuel tokens s delimiters start (find_first_of s delimiters start)
    = tokens ++ List.filter nonempty (fields delimiters (drop start s) []).
Proof.
  induction fuel as [|fuel IH]; intros tokens start Hstart Hfuel; [lia|].
  cbn [split_loop]. unfold find_first_of.
  pose proof (find_from_spec (drop start s) start) as Hfind.
  rewrite length_drop in Hfind.
  destruct (find_from delimiters (drop start s) start) as [e|].
  - destruct Hfind as (He & Hfree & c & Hc & Hin).
    assert (Hsplit : drop start s
                     = take (e - start) (drop start s) ++ c :: drop (e + 1) s).
    { rewrite <- (take_drop_middle _ _ _ Hc) at 1. f_equal. f_equal.
      rewrite drop_drop. f_equal. lia. }
    rewrite Hsplit at 2. rewrite (fields_free _ [] _ Hfree). cbn [app fields].
    rewrite bool_decide_eq_true_2 by exact Hin. cbn [List.filter].
    fold (find_first_of s delimiters (e + 1)).
    rewrite IH by lia.
    assert (Hlen : length (take (e - start) (drop start s)) = (e - start)%nat).
    { rewrite length_take, length_drop. lia. }
    destruct (Nat.ltb_spec start e) as [Hlt|Hge].
    + destruct (take (e - start) (drop start s)) as [|a seg] eqn:Eseg;
        [cbn [length] in Hlen; lia|].
      cbn [nonempty]. rewrite <- app_assoc. reflexivity.
    + destruct (take (e - start) (drop start s)) as [|a seg] eqn:Eseg;
        [|cbn [length] in Hlen; lia].
      cbn [nonempty]. reflexivity.
  - rewrite <- (app_nil_r (drop start s)) at 2.
    rewrite (fields_free _ [] _ Hfind). cbn [app fields List.filter].
    destruct (Nat.ltb_spec start (length s)) as [Hlt|Hge].
    + destruct (drop start s) as [|a r] eqn:Ed.
      * apply (f_equal (@length _)) in Ed. rewrite length_drop in Ed.
        cbn [length] in Ed. lia.
      * reflexivity.
    + rewrite drop_ge by lia. cbn [nonempty]. rewrite app_nil_r. reflexivity.
Qed.

Lemma split_spec (tokens : list str) (s : str) :
  split tokens s delimiters
  = tokens ++ List.filter nonempty (fields delimiters s []).
Proof.
  unfold split. rewrite (split_loop_spec s (S (length s)) tokens 0) by lia.
  reflexivity.
Qed.

Lemma fields_content (s cur : str) :
  Forall (fun c => c ∉ delimiters) cur ->
  Forall (Forall (fun c => c ∉ delimiters)) (fields delimiters s cur) /\
  concat (fields delimiters s cur)
  = cur ++ List.filter (fun c => negb (bool_decide (c ∈ delimiters))) s.
Proof.
  revert cur. induction s as [|c r IH]; intros cur Hcur; cbn [fields List.filter].
  - split; [repeat constructor; exact Hcur|]. cbn. reflexivity.
  - destruct (decide (c ∈ delimiters)) as [Hin|Hout].
    + rewrite bool_decide_eq_true_2 by exact Hin. cbn [negb].
      destruct (IH [] (Forall_nil_2 _)) as [H1 H2].
      split; [constructor; assumption|]. cbn [concat]. rewrite H2. reflexivity.
    + rewrite bool_decide_eq_false_2 by exact Hout. cbn [negb].
      destruct (IH (cur ++ [c])) as [H1 H2].
      { apply Forall_app. split; [exact Hcur|repeat constructor; exact Hout]. }
      split; [exact H1|]. rewrite H2, <- app_assoc. reflexivity.
Qed.

Lemma concat_filter_nonempty (l : list str) :
  concat (List.filter nonempty l) = concat l.
Proof.
  induction l as [|t l IH]; [reflexivity|]. cbn [List.filter].
  destruct t as [|a t]; cbn [nonempty concat]; rewrite IH; reflexivity.
Qed.

End Split.

Lemma join_tokens (d : Ascii.ascii) (ts : list str) :
  Forall (fun t => t <> [] /\ d ∉ t) ts ->
  List.filter nonempty (fields [d] (join d ts) []) = ts.
Proof.
  assert (Hfree : forall t : str, d ∉ t -> Forall (fun c => c ∉ [d]) t).
  { intros t Ht. apply Forall_forall. intros c Hc Hd.
    apply list_elem_of_singleton in Hd as ->. exact (Ht Hc). }
  induction 1 as [|t r [Hne Hd] Hr IH]; [reflexivity|].
  destruct r as [|t' r].
  - cbn [join]. rewrite <- (app_nil_r t) at 1.
    rewrite (fields_free [d] t [] [] (Hfree t Hd)). cbn.
    destruct t; [congruence|reflexivity].
  - change (join d (t :: t' :: r)) with (t ++ d :: join d (t' :: r)).
    rewrite (fields_free [d] t [] _ (Hfree t Hd)). cbn [app fields].
    rewrite bool_decide_eq_true_2 by apply list_elem_of_here.
    cbn [List.filter]. rewrite IH. destruct t; [congruence|reflexivity].
Qed.

Lemma fields_join (d : Ascii.ascii) (s cur : str) :
  join d (fields [d] s cur) = cur ++ s.
Proof.
  revert cur. induction s as [|c r IH]; intros cur; cbn [fields].
  - cbn [join]. rewrite app_nil_r. reflexivity.
  - destruct (decide (c ∈ [d])) as [Hin|Hout].
    + rewrite bool_decide_eq_true_2 by exact Hin.
      apply list_elem_of_singleton in Hin. subst c.
      specialize (IH []). cbn [app] in IH.
      destruct (fields [d] r []) as [|t l] eqn:E.
      * destruct r; cbn [fields] in E; [discriminate|].
        destruct (bool_decide (a ∈ [d])); discriminate.
      * change (join d (cur :: t :: l)) with (cur ++ d :: join d (t :: l)).
        rewrite IH. reflexivity.
    + rewrite bool_decide_eq_false_2 by exact Hout.
      rewrite IH, <- app_assoc. reflexivity.
Qed.

(** X18. [split] appends to [tokens] exactly the fields of the string
    between delimiters that are not empty, in their order: a field ends at
    every delimiter, so two delimiters in a row, or one at either end,
    give an empty field, which is left out, and never join their
    neighbours.  No piece is empty, no piece holds a delimiter, and the
    pieces together are the characters of the string that are not
    delimiters.  The fields themselves hold no delimiter and, for a single
    delimiter, give the string back when they are joined by it.  Splitting
    at one delimiter the strings of a list joined by it gives the list
    back, when no string of the list is empty or holds the delimiter. *)
Theorem X18_split_gives_the_pieces (tokens : list str) (s delimiters : str) :
  split tokens s delimiters
  = tokens ++ List.filter nonempty (fields delimiters s []) /\
  Forall (fun t => t <> [] /\ forall c, c ∈ t -> c ∉ delimiters)
         (List.filter nonempty (fields delimiters s [])) /\
  concat (List.filter nonempty (fields delimiters s []))
  = List.filter (fun c => negb (bool_decide (c ∈ delimiters))) s /\
  Forall (Forall (fun c => c ∉ delimiters)) (fields delimiters s []) /\
  (forall d : Ascii.ascii, delimiters = [d] -> join d (fields delimiters s []) = s) /\
  forall (d : Ascii.ascii) (ts : list str),
    Forall (fun t => t <> [] /\ d ∉ t) ts ->
    split tokens (join d ts) [d] = tokens ++ ts.
Proof.
  split; [apply split_spec|].
  destruct (fields_content delimiters s [] (Forall_nil_2 _)) as [Hfree Hcat].
  split; [|split; [|split; [exact Hfree|split; [intros d ->; apply fields_join|]]]].
  - apply Forall_forall. intros t Ht. apply list_elem_of_In, filter_In in Ht.
    destruct Ht as [Ht Hne]. split; [destruct t; [discriminate|congruence]|].
    rewrite Forall_forall in Hfree. specialize (Hfree t (proj2 (list_elem_of_In _ _) Ht)).
    rewrite Forall_forall in Hfree. exact Hfree.
  - rewrite concat_filter_nonempty. exact Hcat.
  - intros d ts Hts. rewrite split_spec, (join_tokens d ts Hts). reflexivity.
Qed.

Lemma X18_split_gives_the_pieces_witness :
  split [] (join ";"%char [["a"%char]; ["b"%char; "c"%char]]) [";"%char]
  = [] ++ [["a"%char]; ["b"%char; "c"%char]].
Proof.
  apply (proj2 (proj2 (proj2 (proj2 (proj2 (X18_split_gives_the_pieces [] [] [";"%char])))))
           ";"%char [["a"%char]; ["b"%char; "c"%char]]).
  repeat (apply Forall_cons; split;
          [split; [discriminate|
            intros Hin; apply list_elem_of_In in Hin; cbn in Hin;
            repeat (destruct Hin as [Hin|Hin]; [discriminate|]); exact Hin]|]).
  constructor.
Defined.

End SplitExtras.

(* ===================================================================== *)
(** * Directory index: the keys under a prefix                             *)
(* ===================================================================== *)

Module DirExtras.
Import StringUtils DirIndex SplitExtras.

Lemma TrieNode_nested_ind (P : TrieNode -> Prop) :
  (forall seg children leaf, Forall P children -> P (Node seg children leaf)) ->
  forall n, P n.
Proof.
  intros HP. fix IH 1. intros [seg children leaf]. apply HP.
  induction children as [|c children IHc]; constructor; [apply IH|exact IHc].
Qed.

Lemma to_int_range (z : Z) : - 2 ^ 31 <= to_int z < 2 ^ 31.
Proof.
  unfold to_int, wrap.
  pose proof (Z.mod_pos_bound (z + 2 ^ 31) (2 ^ 32) ltac:(lia)). lia.
Qed.

(** The paths a node leads to. *)
Lemma leaf_paths_elem (seg : str) (children : list TrieNode) (leaf : bool)
    (p : list str) :
  p ∈ leaf_paths (Node seg children leaf)
  <-> (leaf = true /\ p = [])
      \/ exists c p', c ∈ children /\ p' ∈ leaf_paths c /\ p = path_segment_ c :: p'.
Proof.
  cbn [leaf_paths]. rewrite elem_of_app. split.
  - intros [Hp|Hp].
    + destruct leaf; [|inversion Hp]. apply list_elem_of_singleton in Hp. auto.
    + right. apply list_elem_of_In, in_flat_map in Hp as (c & Hc & Hp).
      apply in_map_iff in Hp as (p' & <- & Hp').
      exists c, p'. split; [apply list_elem_of_In, Hc|].
      split; [apply list_elem_of_In, Hp'|reflexivity].
  - intros [[-> ->]|(c & p' & Hc & Hp' & ->)].
    + left. apply list_elem_of_here.
    + right. apply list_elem_of_In, in_flat_map. exists c.
      split; [apply list_elem_of_In, Hc|]. apply in_map, list_elem_of_In, Hp'.
Qed.

Lemma collect_spec (max_depth : Z) (Hmax : - 2 ^ 31 <= max_depth < 2 ^ 31) :
  forall (node : TrieNode) (current_depth : Z) (bitmaps : gset str)
         (path_buffer x : str),
    - 2 ^ 31 <= current_depth < 2 ^ 31 ->
    x ∈ collect_bitmaps_recursive_optimized node current_depth max_depth
          bitmaps path_buffer
    <-> x ∈ bitmaps
        \/ exists p, p ∈ leaf_paths node /\
             (max_depth = -1 \/ p = []
              \/ Z.of_nat (length p) <= max_depth - current_depth) /\
             x = leaf_name (fold_left extend p path_buffer).
Proof.
  induction node as [seg children leaf IH] using TrieNode_nested_ind.
  intros cd bitmaps pb x Hcd. cbn [collect_bitmaps_recursive_optimized].
  set (bitmaps1 := if leaf then {[leaf_name pb]} ∪ bitmaps else bitmaps).
  assert (H1 : x ∈ bitmaps1 <-> x ∈ bitmaps \/ (leaf = true /\ x = leaf_name pb)).
  { unfold bitmaps1. destruct leaf.
    - rewrite elem_of_union, elem_of_singleton. split.
      + intros [->|Hx]; [right; split; reflexivity|left; exact Hx].
      + intros [Hx|[_ ->]]; [right; exact Hx|left; reflexivity].
    - split; [intros Hx; left; exact Hx|intros [Hx|[Hf _]]; [exact Hx|discriminate]]. }
  assert (Hfold : forall (cd' : Z) (cs : list TrieNode) (acc : gset str),
    - 2 ^ 31 <= cd' < 2 ^ 31 -> Forall (fun c => c ∈ children) cs ->
    x ∈ fold_left
          (fun acc child =>
             collect_bitmaps_recursive_optimized child cd' max_depth acc
               (extend pb (path_segment_ child))) cs acc
    <-> x ∈ acc
        \/ exists c p', c ∈ cs /\ p' ∈ leaf_paths c /\
             (max_depth = -1 \/ p' = []
              \/ Z.of_nat (length p') <= max_depth - cd') /\
             x = leaf_name (fold_left extend p' (extend pb (path_segment_ c)))).
  { intros cd' cs. induction cs as [|c cs IHcs]; intros acc Hcd' Hin; cbn [fold_left].
    - split; [intros Hx; left; exact Hx|].
      intros [Hx|(c & p' & Hc & _)]; [exact Hx|inversion Hc].
    - apply Forall_cons in Hin as [Hc Hin]. rewrite (IHcs _ Hcd' Hin).
      rewrite Forall_forall in IH. rewrite (IH c Hc cd' acc _ x Hcd'). split.
      + intros [[Hx|(p' & Hp' & Hw & ->)]|(c0 & p' & Hc0 & Hp' & Hw & ->)].
        * left. exact Hx.
        * right. exists c, p'. split; [apply list_elem_of_here|auto].
        * right. exists c0, p'. split; [apply list_elem_of_further, Hc0|auto].
      + intros [Hx|(c0 & p' & Hc0 & Hp' & Hw & ->)]; [left; left; exact Hx|].
        apply elem_of_cons in Hc0 as [->|Hc0].
        * left. right. exists p'. auto.
        * right. exists c0, p'. auto. }
  destruct (negb (max_depth =? -1) && (cd >=? max_depth)) eqn:Estop.
  - apply andb_prop in Estop as [Hmd Hge].
    apply negb_true_iff, Z.eqb_neq in Hmd. rewrite Z.geb_leb in Hge.
    apply Z.leb_le in Hge. rewrite H1. split.
    + intros [Hx|[Hl ->]]; [left; exact Hx|]. right. exists [].
      split; [apply leaf_paths_elem; left; auto|]. split; [auto|reflexivity].
    + intros [Hx|(p & Hp & Hw & ->)]; [left; exact Hx|]. right.
      assert (p = []) as ->.
      { destruct Hw as [Hw|[Hw|Hw]]; [congruence|exact Hw|].
        destruct p; [reflexivity|cbn [length] in Hw; lia]. }
      apply leaf_paths_elem in Hp as [[Hl _]|(c & p' & _ & _ & Hp)];
        [split; [exact Hl|reflexivity]|discriminate].
  - rewrite (Hfold (to_int (cd + 1)) children bitmaps1 (to_int_range _)
               ltac:(apply Forall_forall; auto)).
    rewrite H1.
    assert (Hstep : max_depth <> -1 ->
                    cd < max_depth /\ to_int (cd + 1) = cd + 1).
    { intros Hmd. apply andb_false_iff in Estop as [Hm|Hge].
      - apply negb_false_iff, Z.eqb_eq in Hm. congruence.
      - rewrite Z.geb_leb in Hge. apply Z.leb_gt in Hge.
        split; [exact Hge|]. apply to_int_small.
        lia. }
    split.
    + intros [[Hx|[Hl ->]]|(c & p' & Hc & Hp' & Hw & ->)].
      * left. exact Hx.
      * right. exists []. split; [apply leaf_paths_elem; left; auto|].
        split; [auto|reflexivity].
      * right. exists (path_segment_ c :: p').
        split; [apply leaf_paths_elem; right; exists c, p'; auto|].
        split; [|reflexivity].
        destruct (decide (max_depth = -1)) as [Hm|Hm]; [left; exact Hm|].
        destruct (Hstep Hm) as [Hlt Hto]. rewrite Hto in Hw. right. right.
        cbn [length]. destruct Hw as [Hw|[->|Hw]]; [congruence|cbn [length]; lia|lia].
    + intros [Hx|(p & Hp & Hw & ->)]; [left; left; exact Hx|].
      apply leaf_paths_elem in Hp as [[Hl ->]|(c & p' & Hc & Hp' & ->)].
      * left. right. split; [exact Hl|reflexivity].
      * right. exists c, p'. split; [exact Hc|]. split; [exact Hp'|].
        split; [|reflexivity].
        destruct (decide (max_depth = -1)) as [Hm|Hm]; [left; exact Hm|].
        destruct (Hstep Hm) as [Hlt Hto]. rewrite Hto. right. right.
        destruct Hw as [Hw|[Hw|Hw]]; [congruence|discriminate|].
        cbn [length] in Hw. lia.
Qed.

Lemma add_segments_segment (node : TrieNode) (segments : list str) :
  path_segment_ (add_segments node segments) = path_segment_ node.
Proof. destruct segments; reflexivity. Qed.

Lemma unique_children_Forall (seg : str) (children : list TrieNode) (leaf : bool) :
  unique_children (Node seg children leaf)
  <-> NoDup (map path_segment_ children) /\ Forall unique_children children.
Proof.
  cbn [unique_children].
  assert (H : fold_right (fun c P => unique_children c /\ P) True children
              <-> Forall unique_children children).
  { induction children as [|c cs IH]; cbn [fold_right].
    - split; [constructor|trivial].
    - rewrite Forall_cons, IH. reflexivity. }
  rewrite H. reflexivity.
Qed.

(** What the step of [add_key] at one node does to its children. *)
Lemma descend_spec (segment : str) (rest : list str) (children : list TrieNode)
    (descend : list TrieNode -> list TrieNode) :
  (forall cs, descend cs
     = match cs with
       | [] => [add_segments (Node segment [] false) rest]
       | n :: r =>
           if bool_decide (path_segment_ n = segment)
           then add_segments n rest :: r else n :: descend r
       end) ->
  exists pre post n,
    descend children = pre ++ add_segments n rest :: post /\
    path_segment_ n = segment /\
    Forall (fun c => path_segment_ c <> segment) pre /\
    ((children = pre ++ n :: post)
     \/ (children = pre /\ post = [] /\ n = Node segment [] false)).
Proof.
  intros Hd. induction children as [|c cs IH]; rewrite Hd.
  - exists [], [], (Node segment [] false). split; [reflexivity|].
    split; [reflexivity|]. split; [constructor|]. right. auto.
  - destruct (decide (path_segment_ c = segment)) as [Heq|Hne].
    + rewrite bool_decide_eq_true_2 by exact Heq.
      exists [], cs, c. split; [reflexivity|]. split; [exact Heq|].
      split; [constructor|]. left. reflexivity.
    + rewrite bool_decide_eq_false_2 by exact Hne.
      destruct IH as (pre & post & n & -> & Hn & Hpre & Hcs).
      exists (c :: pre), post, n. split; [reflexivity|]. split; [exact Hn|].
      split; [constructor; assumption|].
      destruct Hcs as [->|(-> & -> & ->)]; [left; reflexivity|right; auto].
Qed.

Lemma add_segments_shape (seg : str) (children : list TrieNode) (leaf : bool)
    (segment : str) (rest : list str) :
  exists pre post n,
    add_segments (Node seg children leaf) (segment :: rest)
    = Node seg (pre ++ add_segments n rest :: post) leaf /\
    path_segment_ n = segment /\
    Forall (fun c => path_segment_ c <> segment) pre /\
    ((children = pre ++ n :: post)
     \/ (children = pre /\ post = [] /\ n = Node segment [] false)).
Proof.
  cbn [add_segments path_segment_ children_ is_leaf_].
  match goal with |- context [Node seg (?f children) leaf] => set (descend := f) end.
  destruct (descend_spec segment rest children descend) as (pre & post & n & Hd & H).
  { intros [|n r]; reflexivity. }
  exists pre, post, n. rewrite Hd. split; [reflexivity|exact H].
Qed.

Lemma add_segments_paths (segments : list str) :
  forall (node : TrieNode) (p : list str),
    p ∈ leaf_paths (add_segments node segments)
    <-> p = segments \/ p ∈ leaf_paths node.
Proof.
  induction segments as [|segment rest IH]; intros [seg children leaf] p.
  - cbn [add_segments path_segment_ children_]. rewrite !leaf_paths_elem. split.
    + intros [[_ ->]|H]; [left; reflexivity|right; right; exact H].
    + intros [->|[[_ ->]|H]]; [left; auto|left; auto|right; exact H].
  - destruct (add_segments_shape seg children leaf segment rest)
      as (pre & post & n & -> & Hn & _ & Hcs).
    rewrite !leaf_paths_elem.
    assert (Hnew : forall p', p' ∈ leaf_paths (add_segments n rest)
                              <-> p' = rest \/ p' ∈ leaf_paths n) by apply IH.
    split.
    + intros [H|(c & p' & Hc & Hp' & ->)]; [right; left; exact H|].
      apply elem_of_app in Hc as [Hc|Hc].
      * right. right. exists c, p'. split; [|auto].
        destruct Hcs as [->|(-> & _)]; [apply elem_of_app; left|]; exact Hc.
      * apply elem_of_cons in Hc as [->|Hc].
        -- rewrite add_segments_segment, Hn. apply Hnew in Hp' as [->|Hp'].
           ++ left. reflexivity.
           ++ right. right. destruct Hcs as [->|(_ & _ & ->)].
              ** exists n, p'. rewrite Hn. split; [|auto].
                 apply elem_of_app. right. apply list_elem_of_here.
              ** apply leaf_paths_elem in Hp' as [[Hf _]|(c & _ & Hc & _)];
                   [discriminate|inversion Hc].
        -- right. right. exists c, p'. split; [|auto].
           destruct Hcs as [->|(_ & -> & _)]; [|inversion Hc].
           apply elem_of_app. right. apply list_elem_of_further, Hc.
    + intros [->|[H|(c & p' & Hc & Hp' & ->)]].
      * right. exists (add_segments n rest), rest.
        split; [apply elem_of_app; right; apply list_elem_of_here|].
        split; [apply Hnew; left; reflexivity|].
        rewrite add_segments_segment, Hn. reflexivity.
      * left. exact H.
      * right. destruct Hcs as [->|(-> & _ & _)].
        -- apply elem_of_app in Hc as [Hc|Hc].
           ++ exists c, p'. split; [apply elem_of_app; left; exact Hc|auto].
           ++ apply elem_of_cons in Hc as [->|Hc].
              ** exists (add_segments n rest), p'.
                 split; [apply elem_of_app; right; apply list_elem_of_here|].
                 split; [apply Hnew; right; exact Hp'|].
                 rewrite add_segments_segment. reflexivity.
              ** exists c, p'. split; [|auto].
                 apply elem_of_app. right. apply list_elem_of_further, Hc.
        -- exists c, p'. split; [apply elem_of_app; left; exact Hc|auto].
Qed.

Lemma add_segments_unique (segments : list str) :
  forall node : TrieNode,
    unique_children node -> unique_children (add_segments node segments).
Proof.
  induction segments as [|segment rest IH]; intros [seg children leaf] Hu.
  - exact Hu.
  - destruct (add_segments_shape seg children leaf segment rest)
      as (pre & post & n & -> & Hn & Hpre & Hcs).
    apply unique_children_Forall in Hu as [Hnd Hall].
    apply unique_children_Forall.
    rewrite map_app. cbn [map]. rewrite add_segments_segment, Hn.
    destruct Hcs as [->|(-> & -> & ->)].
    + rewrite map_app in Hnd. cbn [map] in Hnd. rewrite Hn in Hnd.
      split; [exact Hnd|].
      rewrite Forall_app, Forall_cons in Hall |- *.
      destruct Hall as (H1 & H2 & H3). split; [exact H1|].
      split; [apply IH, H2|exact H3].
    + split.
      * apply NoDup_app. split; [exact Hnd|]. split; [|apply NoDup_singleton].
        intros s Hs Hs'. apply list_elem_of_singleton in Hs' as ->.
        apply list_elem_of_fmap in Hs as (c & Hc & Hin).
        rewrite Forall_forall in Hpre. exact (Hpre c Hin (eq_sym Hc)).
      * apply Forall_app. split; [exact Hall|].
        repeat constructor. apply IH. apply unique_children_Forall.
        split; constructor.
Qed.

Lemma find_child_spec (children : list TrieNode) (segment : str) :
  NoDup (map path_segment_ children) ->
  match find_child children segment with
  | Some c => c ∈ children /\ path_segment_ c = segment /\
              forall c', c' ∈ children -> path_segment_ c' = segment -> c' = c
  | None => forall c, c ∈ children -> path_segment_ c <> segment
  end.
Proof.
  induction children as [|n r IH]; intros Hnd; cbn [find_child].
  - intros c Hc. inversion Hc.
  - cbn [map] in Hnd. apply NoDup_cons in Hnd as [Hn Hnd].
    destruct (decide (path_segment_ n = segment)) as [Heq|Hne].
    + rewrite bool_decide_eq_true_2 by exact Heq.
      split; [apply list_elem_of_here|]. split; [exact Heq|].
      intros c' Hc' Hs. apply elem_of_cons in Hc' as [->|Hc']; [reflexivity|].
      exfalso. apply Hn. rewrite Heq, <- Hs.
      apply list_elem_of_fmap. exists c'. split; [reflexivity|exact Hc'].
    + rewrite bool_decide_eq_false_2 by exact Hne. specialize (IH Hnd).
      destruct (find_child r segment) as [c|].
      * destruct IH as (Hc & Hs & Huniq). split; [apply list_elem_of_further, Hc|].
        split; [exact Hs|]. intros c' Hc' Hs'.
        apply elem_of_cons in Hc' as [->|Hc']; [congruence|apply Huniq; assumption].
      * intros c Hc. apply elem_of_cons in Hc as [->|Hc]; [exact Hne|apply IH, Hc].
Qed.

Lemma find_segments_spec (segments : list str) :
  forall node : TrieNode,
    unique_children node ->
    match find_segments node segments with
    | Some n => forall rest, rest ∈ leaf_paths n
                             <-> segments ++ rest ∈ leaf_paths node
    | None => forall rest, segments ++ rest ∉ leaf_paths node
    end.
Proof.
  induction segments as [|segment more IH]; intros [seg children leaf] Hu.
  - cbn. intros rest. reflexivity.
  - cbn [find_segments children_].
    apply unique_children_Forall in Hu as [Hnd Hall].
    pose proof (find_child_spec children segment Hnd) as Hfind.
    destruct (find_child children segment) as [c|].
    + destruct Hfind as (Hc & Hs & Huniq).
      rewrite Forall_forall in Hall. specialize (IH c (Hall c Hc)).
      destruct (find_segments c more) as [n|].
      * intros rest. rewrite IH, leaf_paths_elem. cbn [app]. split.
        -- intros Hp. right. exists c, (more ++ rest). rewrite Hs. auto.
        -- intros [[_ Hf]|(c' & p' & Hc' & Hp' & Heq)]; [discriminate|].
           injection Heq as Hseg <-. rewrite <- (Huniq c' Hc' (eq_sym Hseg)).
           exact Hp'.
      * intros rest Hp. apply leaf_paths_elem in Hp.
        destruct Hp as [[_ Hf]|(c' & p' & Hc' & Hp' & Heq)]; [discriminate|].
        cbn [app] in Heq. injection Heq as Hseg <-.
        rewrite (Huniq c' Hc' (eq_sym Hseg)) in Hp'. exact (IH rest Hp').
    + intros rest Hp. apply leaf_paths_elem in Hp.
      destruct Hp as [[_ Hf]|(c' & p' & Hc' & Hp' & Heq)]; [discriminate|].
      cbn [app] in Heq. injection Heq as Hseg <-.
      exact (Hfind c' Hc' (eq_sym Hseg)).
Qed.

Lemma build_spec (keys : list str) :
  forall d : DirIndex.t,
    unique_children d ->
    unique_children (fold_left add_key keys d) /\
    forall p, p ∈ leaf_paths (fold_left add_key keys d)
              <-> p ∈ leaf_paths d \/ exists k, k ∈ keys /\ p = split_path k.
Proof.
  induction keys as [|k keys IH]; intros d Hu; cbn [fold_left].
  - split; [exact Hu|]. intros p. split; [intros Hp; left; exact Hp|].
    intros [Hp|(k & Hk & _)]; [exact Hp|inversion Hk].
  - destruct (IH (add_key d k) (add_segments_unique _ _ Hu)) as [Hu' Hp'].
    split; [exact Hu'|]. intros p. rewrite Hp'. unfold add_key.
    rewrite add_segments_paths. split.
    + intros [[->|Hp]|(k' & Hk' & ->)].
      * right. exists k. split; [apply list_elem_of_here|reflexivity].
      * left. exact Hp.
      * right. exists k'. split; [apply list_elem_of_further, Hk'|reflexivity].
    + intros [Hp|(k' & Hk' & ->)]; [left; right; exact Hp|].
      apply elem_of_cons in Hk' as [->|Hk']; [left; left; reflexivity|].
      right. exists k'. auto.
Qed.

Lemma find_node_segments (d : DirIndex.t) (path : str) :
  find_node d path = find_segments d (split_path path).
Proof.
  unfold find_node, split_path.
  destruct (bool_decide (path = []) || bool_decide (path = [slash])); reflexivity.
Qed.

Lemma merged_bitmap_spec (keys : list str)
    (path_prefix : str) (depth : Z) (unique_bitmaps : gset str) (x : str) :
  - 2 ^ 31 <= depth < 2 ^ 31 ->
  x ∈ get_merged_bitmap (fold_left add_key keys DirIndex.new) path_prefix depth
        unique_bitmaps
  <-> x ∈ unique_bitmaps
      \/ exists k rest,
           k ∈ keys /\ split_path k = split_path path_prefix ++ rest /\
           (depth = -1 \/ rest = [] \/ Z.of_nat (length rest) <= depth) /\
           x = leaf_name (fold_left extend rest (prefix_buffer path_prefix)).
Proof.
  intros Hdepth. unfold get_merged_bitmap. rewrite find_node_segments.
  assert (Hnew : unique_children DirIndex.new) by (split; constructor).
  destruct (build_spec keys DirIndex.new Hnew) as [Hu Hpaths].
  pose proof (find_segments_spec (split_path path_prefix) _ Hu) as Hfind.
  assert (Hkeys : forall rest,
            split_path path_prefix ++ rest
              ∈ leaf_paths (fold_left add_key keys DirIndex.new)
            <-> exists k, k ∈ keys /\ split_path k = split_path path_prefix ++ rest).
  { intros rest. rewrite Hpaths. split.
    - intros [Hp|(k & Hk & Heq)]; [inversion Hp|]. exists k. auto.
    - intros (k & Hk & Heq). right. exists k. auto. }
  destruct (find_segments (fold_left add_key keys DirIndex.new)
              (split_path path_prefix)) as [start_node|].
  - rewrite (collect_spec depth Hdepth start_node 0 _ _ x) by lia.
    rewrite Z.sub_0_r. split.
    + intros [Hx|(p & Hp & Hw & ->)]; [left; exact Hx|]. right.
      apply Hfind, Hkeys in Hp as (k & Hk & Heq). exists k, p. auto.
    + intros [Hx|(k & rest & Hk & Heq & Hw & ->)]; [left; exact Hx|]. right.
      exists rest. split; [|auto]. apply Hfind, Hkeys. exists k. auto.
  - split; [intros Hx; left; exact Hx|].
    intros [Hx|(k & rest & Hk & Heq & _)]; [exact Hx|].
    exfalso. apply (Hfind rest), Hkeys. exists k. auto.
Qed.

(** X19. In a directory index built by [add_key] from a list of keys,
    [get_merged_bitmap] adds to the set one name for every key whose
    segments start with the segments of the prefix and go at most [depth]
    segments further (any number for depth -1; a key that is the prefix
    itself is always listed): the name is the buffer of the prefix followed
    by the remaining segments, each after a slash, and ["/"] for the root.
    Nothing else is added, and nothing at all when no key lies below the
    prefix. *)
Theorem X19_merged_bitmap_lists_the_keys_below (keys : list str)
    (path_prefix : str) (depth : Z) (unique_bitmaps : gset str) (x : str) :
  - 2 ^ 31 <= depth < 2 ^ 31 ->
  x ∈ get_merged_bitmap (fold_left add_key keys DirIndex.new) path_prefix depth
        unique_bitmaps
  <-> x ∈ unique_bitmaps
      \/ exists k rest,
           k ∈ keys /\ split_path k = split_path path_prefix ++ rest /\
           (depth = -1 \/ rest = [] \/ Z.of_nat (length rest) <= depth) /\
           x = leaf_name (fold_left extend rest (prefix_buffer path_prefix)).
Proof.
  intros Hdepth. apply merged_bitmap_spec, Hdepth.
Qed.

Lemma read_segment_spec (rest : str) :
  Forall (fun c => c ∉ [slash]) (read_segment rest).1 /\
  ((rest = (read_segment rest).1 ++ slash :: (read_segment rest).2)
   \/ (rest = (read_segment rest).1 /\ (read_segment rest).2 = [])).
Proof.
  induction rest as [|c r IH]; cbn [read_segment].
  - split; [constructor|right; auto].
  - destruct (decide (c = slash)) as [->|Hne].
    + rewrite bool_decide_eq_true_2 by reflexivity. cbn [fst snd].
      split; [constructor|left; reflexivity].
    + rewrite bool_decide_eq_false_2 by exact Hne.
      destruct (read_segment r) as [seg r'] eqn:E. cbn [fst snd] in *.
      destruct IH as [Hfree Hr]. split.
      * constructor; [|exact Hfree]. intros Hin.
        apply list_elem_of_singleton in Hin. exact (Hne Hin).
      * destruct Hr as [->|[-> ->]]; [left; reflexivity|right; auto].
Qed.

Lemma getline_loop_spec (fuel : nat) :
  forall (rest : str) (segments : list str),
    (length rest < fuel)%nat ->
    getline_loop fuel rest segments
    = segments ++ List.filter nonempty (fields [slash] rest []).
Proof.
  induction fuel as [|fuel IH]; intros rest segments Hfuel; [lia|].
  cbn [getline_loop]. destruct rest as [|c r]; [cbn; rewrite app_nil_r; reflexivity|].
  destruct (read_segment_spec (c :: r)) as [Hfree Hrest].
  destruct (read_segment (c :: r)) as [seg rest'] eqn:E. cbn [fst snd] in *.
  assert (Hlen : (length rest' < length (c :: r))%nat).
  { destruct Hrest as [Hr|[_ ->]]; [|cbn [length]; lia].
    apply (f_equal (@length _)) in Hr. rewrite length_app in Hr.
    cbn [length] in Hr |- *. lia. }
  rewrite IH by lia.
  assert (Hf : List.filter nonempty (fields [slash] (c :: r) [])
               = (if nonempty seg then [seg] else [])
                 ++ List.filter nonempty (fields [slash] rest' [])).
  { destruct Hrest as [Hr|[Hr ->]].
    - rewrite Hr. rewrite (fields_free [slash] seg [] _ Hfree).
      cbn [app fields]. rewrite bool_decide_eq_true_2 by apply list_elem_of_here.
      cbn [List.filter]. destruct (nonempty seg); reflexivity.
    - rewrite Hr. rewrite <- (app_nil_r seg) at 1.
      rewrite (fields_free [slash] seg [] _ Hfree). cbn [app fields List.filter].
      destruct (nonempty seg); cbn [nonempty app]; rewrite ?app_nil_r; reflexivity. }
  rewrite Hf. destruct (nonempty seg); [rewrite <- app_assoc|]; reflexivity.
Qed.

Lemma split_path_pieces (path : str) :
  split_path path = List.filter nonempty (fields [slash] path []).
Proof.
  unfold split_path.
  destruct (decide (path = [])) as [->|Hne]; [reflexivity|].
  destruct (decide (path = [slash])) as [->|Hns].
  { vm_compute. reflexivity. }
  rewrite (bool_decide_eq_false_2 _ Hne), (bool_decide_eq_false_2 _ Hns).
  cbn [orb]. rewrite getline_loop_spec by lia. cbn [app].
  destruct path as [|c r]; [congruence|].
  destruct (decide (c = slash)) as [->|Hc].
  - rewrite bool_decide_eq_true_2 by reflexivity. cbn [fields].
    rewrite bool_decide_eq_true_2 by apply list_elem_of_here. reflexivity.
  - rewrite bool_decide_eq_false_2 by exact Hc. reflexivity.
Qed.

Lemma split_path_valid (path : str) :
  Forall (fun seg => seg <> [] /\ slash ∉ seg) (split_path path).
Proof.
  rewrite split_path_pieces.
  destruct (fields_content [slash] path [] (Forall_nil_2 _)) as [Hfree _].
  apply Forall_forall. intros t Ht. apply list_elem_of_In, filter_In in Ht.
  destruct Ht as [Ht Hne]. split; [destruct t; [discriminate|congruence]|].
  rewrite Forall_forall in Hfree.
  specialize (Hfree t (proj2 (list_elem_of_In _ _) Ht)).
  rewrite Forall_forall in Hfree. intros Hin. apply (Hfree slash Hin).
  apply list_elem_of_here.
Qed.

Lemma split_path_join (segments : list str) :
  Forall (fun seg => seg <> [] /\ slash ∉ seg) segments ->
  split_path (slash :: join slash segments) = segments.
Proof.
  intros Hs. rewrite split_path_pieces. cbn [fields].
  rewrite bool_decide_eq_true_2 by apply list_elem_of_here.
  cbn [List.filter nonempty]. apply join_tokens, Hs.
Qed.

(** X20. [split_path] gives exactly the fields of a path between
    slashes that are not empty, in their order: a field ends at every
    slash, so the slash in front, one at the end and two in a row give an
    empty field, which is left out, and never join their neighbours.  No
    segment is empty or has a slash, and the segments together are the
    characters of the path that are not slashes.  The fields themselves
    hold no slash and give the path back when they are joined by slashes.
    The path made of a
    slash followed by segments joined by slashes, none of them empty or
    with a slash in it, splits into these segments. *)
Theorem X20_split_path_gives_the_segments (path : str) :
  split_path path = List.filter nonempty (fields [slash] path []) /\
  Forall (fun seg => seg <> [] /\ slash ∉ seg) (split_path path) /\
  concat (split_path path)
  = List.filter (fun c => negb (bool_decide (c ∈ [slash]))) path /\
  Forall (Forall (fun c => c ∉ [slash])) (fields [slash] path []) /\
  join slash (fields [slash] path []) = path /\
  forall segments : list str,
    Forall (fun seg => seg <> [] /\ slash ∉ seg) segments ->
    split_path (slash :: join slash segments) = segments.
Proof.
  split; [apply split_path_pieces|].
  split; [|split; [|split; [apply (fields_content [slash] path [] (Forall_nil_2 _))|
                            split; [apply fields_join|]]]].
  - rewrite split_path_pieces.
    destruct (fields_content [slash] path [] (Forall_nil_2 _)) as [Hfree Hcat].
    apply Forall_forall. intros t Ht. apply list_elem_of_In, filter_In in Ht.
    destruct Ht as [Ht Hne]. split; [destruct t; [discriminate|congruence]|].
    rewrite Forall_forall in Hfree.
    specialize (Hfree t (proj2 (list_elem_of_In _ _) Ht)).
    rewrite Forall_forall in Hfree. intros Hin. apply (Hfree slash Hin).
    apply list_elem_of_here.
  - rewrite split_path_pieces.
    destruct (fields_content [slash] path [] (Forall_nil_2 _)) as [Hfree Hcat].
    rewrite concat_filter_nonempty. exact Hcat.
  - apply split_path_join.
Qed.

Lemma X19_merged_bitmap_lists_the_keys_below_witness :
  let keys := [ [slash; "a"%char; slash; "b"%char]; [slash; "a"%char; slash; "c"%char];
                [slash; "d"%char] ] in
  [slash; "a"%char; slash; "c"%char]
    ∈ get_merged_bitmap (fold_left add_key keys DirIndex.new) [slash; "a"%char] 1 ∅.
Proof.
  intros keys.
  apply (X19_merged_bitmap_lists_the_keys_below keys [slash; "a"%char] 1 ∅
           [slash; "a"%char; slash; "c"%char] ltac:(lia)).
  right. exists [slash; "a"%char; slash; "c"%char], [["c"%char]].
  split; [apply list_elem_of_further, list_elem_of_here|].
  split; [reflexivity|]. split; [right; right; cbn; lia|reflexivity].
Defined.

Lemma X20_split_path_gives_the_segments_witness :
  split_path (slash :: join slash [["a"%char]; ["b"%char; "c"%char]])
  = [["a"%char]; ["b"%char; "c"%char]].
Proof.
  apply (proj2 (proj2 (proj2 (proj2 (proj2 (X20_split_path_gives_the_segments [])))))).
  repeat (apply Forall_cons; split;
          [split; [discriminate|
            intros Hin; apply list_elem_of_In in Hin; cbn in Hin;
            repeat (destruct Hin as [Hin|Hin]; [discriminate|]); exact Hin]|]).
  constructor.
Defined.

End DirExtras.

(* ===================================================================== *)
(** * Field groups: the bitmaps of the keys of a field                     *)
(* ===================================================================== *)

Module GroupExtras.
Import StringUtils FieldGroup BitmapFacts.

Section Group.
Context {F : Type} `{FloatOps F} `{ScoreOps F}.

Local Abbreviation group := (@FieldGroup.t F).

Lemma edit_bitmap_eq (g : group) (key : str) (f : Bitmap.t -> Bitmap.t) :
  edit_bitmap g key f
  = with_bitmaps g (<[key := f (default Bitmap.new (bitmap_group_ g !! key))]>
                      (bitmap_group_ g)).
Proof.
  unfold edit_bitmap, get_editable_bitmap.
  destruct (bitmap_group_ g !! key) as [b|] eqn:E; cbn [default]; [reflexivity|].
  unfold with_bitmaps. cbn. rewrite insert_insert_eq. reflexivity.
Qed.

Lemma bits_edit (g : group) (key : str) (f : Bitmap.t -> Bitmap.t) (k : str) :
  bits (edit_bitmap g key f) k
  = if decide (k = key)
    then Bitmap.elems (f (default Bitmap.new (bitmap_group_ g !! key)))
    else bits g k.
Proof.
  rewrite edit_bitmap_eq. unfold bits, with_bitmaps. cbn.
  destruct (decide (k = key)) as [->|Hne].
  - rewrite lookup_insert_eq. reflexivity.
  - rewrite lookup_insert_ne by congruence. reflexivity.
Qed.

Lemma wf_edit (g : group) (key : str) (f : Bitmap.t -> Bitmap.t) :
  (forall b, Bitmap.wf b -> Bitmap.wf (f b)) ->
  FieldGroup.wf g -> FieldGroup.wf (edit_bitmap g key f).
Proof.
  intros Hf Hg k b. rewrite edit_bitmap_eq. unfold with_bitmaps. cbn.
  destruct (decide (k = key)) as [->|Hne].
  - rewrite lookup_insert_eq. intros [= <-]. apply Hf.
    destruct (bitmap_group_ g !! key) as [b0|] eqn:E; cbn [default];
      [exact (Hg _ _ E)|apply wf_new].
  - rewrite lookup_insert_ne by congruence. apply Hg.
Qed.

Lemma elems_default (g : group) (key : str) :
  Bitmap.elems (default Bitmap.new (bitmap_group_ g !! key)) = bits g key.
Proof.
  unfold bits. destruct (bitmap_group_ g !! key); [reflexivity|apply elems_new].
Qed.

Lemma wf_default (g : group) (key : str) :
  FieldGroup.wf g -> Bitmap.wf (default Bitmap.new (bitmap_group_ g !! key)).
Proof.
  intros Hg. destruct (bitmap_group_ g !! key) as [b|] eqn:E; cbn [default];
    [exact (Hg _ _ E)|apply wf_new].
Qed.

Lemma norm_key_ext (g g' : group) :
  (is_Some (dir_index_ g) <-> is_Some (dir_index_ g')) ->
  norm_key g = norm_key g'.
Proof.
  intros Hd. unfold norm_key.
  destruct (dir_index_ g) as [d|], (dir_index_ g') as [d'|]; try reflexivity.
  - destruct (proj1 Hd (mk_is_Some _ _ eq_refl)) as [? [=]].
  - destruct (proj2 Hd (mk_is_Some _ _ eq_refl)) as [? [=]].
Qed.

(** One key of [add_field_data]. *)
Lemma add_key_data_spec (offset : Z) (g : group) (key_i : str) :
  FieldGroup.wf g ->
  FieldGroup.wf (add_key_data offset g key_i) /\
  (is_Some (dir_index_ g) <-> is_Some (dir_index_ (add_key_data offset g key_i))) /\
  element_size_ (add_key_data offset g key_i) = element_size_ g /\
  forall k, bits (add_key_data offset g key_i) k
            = if decide (k = norm_key g key_i)
              then {[to_uint32 offset]} ∪ bits g k else bits g k.
Proof.
  intros Hg. unfold add_key_data.
  set (k0 := norm_key g key_i).
  set (g1 := if negb (exist_bitmap g k0) then _ else g).
  assert (Hmap : bitmap_group_ g1 = bitmap_group_ g).
  { unfold g1. destruct (negb _); [|reflexivity].
    destruct (dir_index_ g); reflexivity. }
  assert (Hsize : element_size_ g1 = element_size_ g).
  { unfold g1. destruct (negb _); [|reflexivity].
    destruct (dir_index_ g); reflexivity. }
  assert (Hdir : is_Some (dir_index_ g) <-> is_Some (dir_index_ g1)).
  { unfold g1. destruct (negb _); [|reflexivity].
    destruct (dir_index_ g) eqn:E; [|rewrite E; reflexivity].
    cbn. split; intros _; eexists; reflexivity. }
  assert (Hg1 : FieldGroup.wf g1).
  { intros k b. rewrite Hmap. apply Hg. }
  split; [|split; [|split]].
  - apply wf_edit; [|exact Hg1]. intros b Hb. apply Set_spec, Hb.
  - rewrite edit_bitmap_eq. exact Hdir.
  - rewrite edit_bitmap_eq. exact Hsize.
  - intros k. rewrite bits_edit.
    assert (Hb : bits g1 k = bits g k) by (unfold bits; rewrite Hmap; reflexivity).
    destruct (decide (k = k0)) as [->|Hne]; [|exact Hb].
    rewrite (proj2 (Set_spec _ (to_uint32 offset) (wf_default g1 k0 Hg1))).
    rewrite elems_default, Hb. reflexivity.
Qed.

Lemma add_keys_spec (offset : Z) (keys : list str) :
  forall g : group,
    FieldGroup.wf g ->
    FieldGroup.wf (fold_left (add_key_data offset) keys g) /\
    (is_Some (dir_index_ g)
     <-> is_Some (dir_index_ (fold_left (add_key_data offset) keys g))) /\
    element_size_ (fold_left (add_key_data offset) keys g) = element_size_ g /\
    forall k x, x ∈ bits (fold_left (add_key_data offset) keys g) k
                <-> x ∈ bits g k
                    \/ (x = to_uint32 offset /\ k ∈ map (norm_key g) keys).
Proof.
  induction keys as [|key_i keys IH]; intros g Hg; cbn [fold_left map].
  - split; [exact Hg|]. split; [reflexivity|]. split; [reflexivity|].
    intros k x. split; [auto|]. intros [Hx|[_ Hk]]; [exact Hx|inversion Hk].
  - destruct (add_key_data_spec offset g key_i Hg) as (Hw1 & Hd1 & Hs1 & Hb1).
    destruct (IH _ Hw1) as (Hw & Hd & Hs & Hb).
    split; [exact Hw|]. split; [rewrite Hd1; exact Hd|].
    split; [rewrite Hs; exact Hs1|].
    intros k x. rewrite Hb, Hb1, <- (norm_key_ext g _ Hd1).
    rewrite elem_of_cons.
    destruct (decide (k = norm_key g key_i)) as [->|Hne].
    + rewrite elem_of_union, elem_of_singleton. tauto.
    + tauto.
Qed.

Lemma size_after_small (offset : Z) :
  0 <= offset < 2 ^ 31 - 1 -> size_after offset = offset + 1.
Proof.
  intros Ho. unfold size_after. rewrite to_int_small by lia.
  apply to_uint64_small. lia.
Qed.

Lemma add_field_data_spec (g : group) (field_str : str) (offset : Z) :
  FieldGroup.wf g -> 0 <= offset < 2 ^ 31 - 1 ->
  (add_field_data g field_str offset).1 = 0 /\
  FieldGroup.wf (add_field_data g field_str offset).2 /\
  (is_Some (dir_index_ g)
   <-> is_Some (dir_index_ (add_field_data g field_str offset).2)) /\
  element_size_ (add_field_data g field_str offset).2
  = Z.max (offset + 1) (element_size_ g) /\
  forall k x, x ∈ bits (add_field_data g field_str offset).2 k
              <-> x ∈ bits g k \/ (x = offset /\ k ∈ field_keys g field_str).
Proof.
  intros Hg Ho. unfold add_field_data. cbn [fst snd].
  destruct (add_keys_spec offset (keys_of_field field_str) g Hg)
    as (Hw & Hd & Hs & Hb).
  split; [reflexivity|]. split; [exact Hw|]. split; [exact Hd|].
  split; [cbn; rewrite Hs, size_after_small by exact Ho; reflexivity|].
  intros k x. unfold field_keys.
  pose proof (Hb k x) as Hx. rewrite (to_uint32_small offset) in Hx by lia.
  exact Hx.
Qed.

(** One key of [delete_field_data]. *)
Lemma delete_key_data_spec (offset : Z) (g : group) (key_i : str) :
  FieldGroup.wf g ->
  FieldGroup.wf (delete_key_data offset g key_i) /\
  dir_index_ (delete_key_data offset g key_i) = dir_index_ g /\
  element_size_ (delete_key_data offset g key_i) = element_size_ g /\
  (forall k, is_Some (bitmap_group_ (delete_key_data offset g key_i) !! k)
             <-> k = norm_key g key_i \/ is_Some (bitmap_group_ g !! k)) /\
  forall k, bits (delete_key_data offset g key_i) k
            = if decide (k = norm_key g key_i)
              then bits g k ∖ {[to_uint32 offset]} else bits g k.
Proof.
  intros Hg. unfold delete_key_data.
  split; [|split; [|split; [|split]]].
  - apply wf_edit; [|exact Hg]. intros b Hb. apply Unset_spec, Hb.
  - rewrite edit_bitmap_eq. reflexivity.
  - rewrite edit_bitmap_eq. reflexivity.
  - intros k. rewrite edit_bitmap_eq. unfold with_bitmaps. cbn.
    destruct (decide (k = norm_key g key_i)) as [->|Hne].
    + rewrite lookup_insert_eq. split; [auto|]. intros _. eexists; reflexivity.
    + rewrite lookup_insert_ne by congruence. tauto.
  - intros k. rewrite bits_edit.
    destruct (decide (k = norm_key g key_i)) as [->|Hne]; [|reflexivity].
    rewrite (proj2 (Unset_spec _ (to_uint32 offset) (wf_default g _ Hg))).
    rewrite elems_default. reflexivity.
Qed.

Lemma delete_keys_spec (offset : Z) (keys : list str) :
  forall g : group,
    FieldGroup.wf g ->
    FieldGroup.wf (fold_left (delete_key_data offset) keys g) /\
    dir_index_ (fold_left (delete_key_data offset) keys g) = dir_index_ g /\
    element_size_ (fold_left (delete_key_data offset) keys g) = element_size_ g /\
    (forall k, is_Some (bitmap_group_ (fold_left (delete_key_data offset) keys g) !! k)
               <-> k ∈ map (norm_key g) keys \/ is_Some (bitmap_group_ g !! k)) /\
    forall k x, x ∈ bits (fold_left (delete_key_data offset) keys g) k
                <-> x ∈ bits g k
                    /\ ~ (x = to_uint32 offset /\ k ∈ map (norm_key g) keys).
Proof.
  induction keys as [|key_i keys IH]; intros g Hg; cbn [fold_left map].
  - split; [exact Hg|]. split; [reflexivity|]. split; [reflexivity|]. split.
    + intros k. split; [auto|]. intros [Hk|Hk]; [inversion Hk|exact Hk].
    + intros k x. split; [|tauto]. intros Hx. split; [exact Hx|].
      intros [_ Hk]. inversion Hk.
  - destruct (delete_key_data_spec offset g key_i Hg) as (Hw1 & Hd1 & Hs1 & Hk1 & Hb1).
    destruct (IH _ Hw1) as (Hw & Hd & Hs & Hk & Hb).
    assert (Hn : norm_key (delete_key_data offset g key_i) = norm_key g).
    { apply norm_key_ext. rewrite Hd1. reflexivity. }
    split; [exact Hw|]. split; [rewrite Hd; exact Hd1|].
    split; [rewrite Hs; exact Hs1|]. split.
    + intros k. rewrite Hk, Hk1, Hn, elem_of_cons. tauto.
    + intros k x. rewrite Hb, Hb1, Hn, elem_of_cons.
      destruct (decide (k = norm_key g key_i)) as [->|Hne].
      * rewrite elem_of_difference, elem_of_singleton. tauto.
      * tauto.
Qed.

(** ** Path fields *)

Lemma split_path_normalize (key : str) :
  DirIndex.split_path (normalize_path_key key) = DirIndex.split_path key.
Proof.
  destruct key as [|c r]; [reflexivity|]. cbn [normalize_path_key].
  destruct (decide (c = DirIndex.slash)) as [->|Hc].
  - rewrite bool_decide_eq_true_2 by reflexivity. reflexivity.
  - rewrite bool_decide_eq_false_2 by exact Hc.
    unfold DirIndex.split_path.
    rewrite (bool_decide_eq_false_2 (DirIndex.slash :: c :: r = [])) by discriminate.
    rewrite (bool_decide_eq_false_2 (DirIndex.slash :: c :: r = [DirIndex.slash]))
      by discriminate.
    rewrite (bool_decide_eq_false_2 (c :: r = [])) by discriminate.
    rewrite (bool_decide_eq_false_2 (c :: r = [DirIndex.slash])) by congruence.
    cbn [orb]. rewrite (bool_decide_eq_true_2 (DirIndex.slash = DirIndex.slash))
      by reflexivity.
    rewrite (bool_decide_eq_false_2 (c = DirIndex.slash)) by exact Hc.
    reflexivity.
Qed.

Lemma join_snoc (d : Ascii.ascii) (ps : list str) (seg : str) :
  ps <> [] -> join d (ps ++ [seg]) = join d ps ++ d :: seg.
Proof.
  induction ps as [|t [|t' r] IH]; intros Hne; [congruence|reflexivity|].
  change (join d ((t :: t' :: r) ++ [seg]))
    with (t ++ d :: join d ((t' :: r) ++ [seg])).
  rewrite IH by discriminate.
  change (join d (t :: t' :: r)) with (t ++ d :: join d (t' :: r)).
  rewrite <- app_assoc. reflexivity.
Qed.

Lemma join_nonempty (d : Ascii.ascii) (ps : list str) :
  ps <> [] -> Forall (fun seg => seg <> [] /\ DirIndex.slash ∉ seg) ps ->
  join d ps <> [].
Proof.
  destruct ps as [|t r]; [congruence|]. intros _ Hps.
  apply Forall_cons in Hps as [[Ht _] _].
  destruct r; cbn [join]; [exact Ht|]. destruct t; [congruence|discriminate].
Qed.

Lemma last_join (ps : list str) :
  ps <> [] -> Forall (fun seg => seg <> [] /\ DirIndex.slash ∉ seg) ps ->
  List.last (DirIndex.slash :: join DirIndex.slash ps) DirIndex.slash
  <> DirIndex.slash.
Proof.
  intros Hne Hps.
  destruct (exists_last Hne) as (ps' & seg & ->).
  apply Forall_app in Hps as [_ Hseg].
  apply Forall_cons in Hseg as [[Hs Hfree] _].
  destruct (exists_last Hs) as (seg' & c & ->).
  assert (Hc : c <> DirIndex.slash).
  { intros ->. apply Hfree. apply elem_of_app. right. apply list_elem_of_here. }
  assert (Hl : exists pre, DirIndex.slash :: join DirIndex.slash (ps' ++ [seg' ++ [c]])
                           = pre ++ [c]).
  { destruct ps' as [|t r].
    - exists (DirIndex.slash :: seg'). reflexivity.
    - rewrite join_snoc by discriminate.
      exists (DirIndex.slash :: join DirIndex.slash (t :: r) ++ DirIndex.slash :: seg').
      cbn [app]. rewrite <- app_assoc. reflexivity. }
  destruct Hl as [pre ->]. rewrite last_last. exact Hc.
Qed.

(** The buffer of a prefix that is empty or canonical. *)
Lemma prefix_buffer_canonical (p : str) :
  path_prefix p ->
  (DirIndex.split_path p = []
   /\ (DirIndex.prefix_buffer p = [] \/ DirIndex.prefix_buffer p = [DirIndex.slash]))
  \/ (DirIndex.split_path p <> []
      /\ DirIndex.prefix_buffer p
         = DirIndex.slash :: join DirIndex.slash (DirIndex.split_path p)).
Proof.
  intros [->|Hc]; [left; split; [reflexivity|left; reflexivity]|].
  destruct p as [|c r]; [left; split; [reflexivity|left; reflexivity]|].
  unfold canonical in Hc. rewrite split_path_normalize in Hc.
  assert (Hb : DirIndex.prefix_buffer (c :: r)
               = DirIndex.strip_trailing (length (normalize_path_key (c :: r)))
                   (normalize_path_key (c :: r))).
  { unfold DirIndex.prefix_buffer. cbn [normalize_path_key].
    destruct (bool_decide (c = DirIndex.slash)); reflexivity. }
  rewrite Hb, Hc.
  pose proof (DirExtras.split_path_valid (c :: r)) as Hv.
  destruct (DirIndex.split_path (c :: r)) as [|t ts] eqn:E.
  - left. split; [reflexivity|]. right. reflexivity.
  - right. split; [discriminate|].
    set (q := DirIndex.slash :: join DirIndex.slash (t :: ts)).
    assert (Hq : List.last q DirIndex.slash <> DirIndex.slash)
      by (apply last_join; [discriminate|exact Hv]).
    destruct (length q) as [|n]; [reflexivity|]. cbn [DirIndex.strip_trailing].
    rewrite (bool_decide_eq_false_2 _ Hq), andb_false_r. reflexivity.
Qed.

Lemma leaf_name_extend (rest : list str) :
  forall (ps : list str) (buf : str),
    Forall (fun seg => seg <> [] /\ DirIndex.slash ∉ seg) ps ->
    (ps = [] /\ (buf = [] \/ buf = [DirIndex.slash]))
    \/ (ps <> [] /\ buf = DirIndex.slash :: join DirIndex.slash ps) ->
    Forall (fun seg => seg <> [] /\ DirIndex.slash ∉ seg) rest ->
    DirIndex.leaf_name (fold_left DirIndex.extend rest buf)
    = DirIndex.slash :: join DirIndex.slash (ps ++ rest).
Proof.
  induction rest as [|seg rest IH]; intros ps buf Hps Hbuf Hrest; cbn [fold_left].
  - rewrite app_nil_r. unfold DirIndex.leaf_name.
    destruct Hbuf as [[-> [->| ->]]|[Hne ->]]; [reflexivity|reflexivity|].
    pose proof (join_nonempty DirIndex.slash ps Hne Hps) as Hj.
    rewrite (bool_decide_eq_false_2 (_ = [])) by discriminate.
    rewrite (bool_decide_eq_false_2 (_ = [DirIndex.slash])) by congruence.
    reflexivity.
  - apply Forall_cons in Hrest as [Hseg Hrest].
    rewrite (IH (ps ++ [seg])).
    + rewrite <- app_assoc. reflexivity.
    + apply Forall_app. split; [exact Hps|]. constructor; [exact Hseg|constructor].
    + right. split; [destruct ps; discriminate|].
      unfold DirIndex.extend.
      destruct Hbuf as [[-> [->| ->]]|[Hne ->]]; [reflexivity|reflexivity|].
      pose proof (join_nonempty DirIndex.slash ps Hne Hps) as Hj.
      rewrite (bool_decide_eq_false_2 (_ = [])) by discriminate.
      rewrite (bool_decide_eq_false_2 (_ = [DirIndex.slash])) by congruence.
      cbn [orb]. rewrite join_snoc by exact Hne. reflexivity.
    + exact Hrest.
Qed.

(** The name the directory index lists a canonical key under is the key. *)
Lemma listed_name (k p : str) (rest : list str) :
  canonical k -> path_prefix p ->
  DirIndex.split_path k = DirIndex.split_path p ++ rest ->
  DirIndex.leaf_name (fold_left DirIndex.extend rest (DirIndex.prefix_buffer p)) = k.
Proof.
  intros Hk Hp Hsplit.
  pose proof (DirExtras.split_path_valid k) as Hv. rewrite Hsplit in Hv.
  apply Forall_app in Hv as [Hps Hrest].
  rewrite (leaf_name_extend rest (DirIndex.split_path p) _ Hps).
  - rewrite <- Hsplit. symmetry. exact Hk.
  - destruct (prefix_buffer_canonical p Hp) as [[E Hb]|[E Hb]]; [left|right]; auto.
  - exact Hrest.
Qed.

Lemma norm_key_dir (g : group) (d : DirIndex.t) (key : str) :
  dir_index_ g = Some d -> norm_key g key = normalize_path_key key.
Proof. intros E. unfold norm_key. rewrite E. reflexivity. Qed.

Lemma add_key_data_dir_ok (offset : Z) (g : group) (keys : list str) (key_i : str) :
  dir_ok g keys -> canonical (normalize_path_key key_i) ->
  exists keys', dir_ok (add_key_data offset g key_i) keys'.
Proof.
  intros [Hd Hk Hc] Hcan. unfold add_key_data.
  rewrite (norm_key_dir g _ key_i Hd). set (k := normalize_path_key key_i) in *.
  rewrite Hd. unfold exist_bitmap.
  destruct (decide (is_Some (bitmap_group_ g !! k))) as [Hin|Hout].
  - rewrite (bool_decide_eq_true_2 _ Hin). cbn [negb].
    exists keys. rewrite edit_bitmap_eq. split; cbn.
    + exact Hd.
    + intros k'. destruct (decide (k' = k)) as [->|Hne].
      * rewrite lookup_insert_eq. split; [intros _; apply Hk, Hin|].
        intros _. eexists; reflexivity.
      * rewrite lookup_insert_ne by congruence. apply Hk.
    + exact Hc.
  - rewrite (bool_decide_eq_false_2 _ Hout). cbn [negb].
    exists (keys ++ [k]). rewrite edit_bitmap_eq. split; cbn.
    + rewrite fold_left_app. reflexivity.
    + intros k'. rewrite elem_of_app, list_elem_of_singleton.
      destruct (decide (k' = k)) as [->|Hne].
      * rewrite lookup_insert_eq. split; [auto|]. intros _. eexists; reflexivity.
      * rewrite lookup_insert_ne by congruence. rewrite Hk. tauto.
    + apply Forall_app. split; [exact Hc|]. constructor; [exact Hcan|constructor].
Qed.

Lemma add_keys_dir_ok (offset : Z) (l : list str) :
  forall (g : group) (keys : list str),
    dir_ok g keys -> Forall (fun key => canonical (normalize_path_key key)) l ->
    exists keys', dir_ok (fold_left (add_key_data offset) l g) keys'.
Proof.
  induction l as [|key_i l IH]; intros g keys Hg Hl; cbn [fold_left].
  - exists keys. exact Hg.
  - apply Forall_cons in Hl as [Hk Hl].
    destruct (add_key_data_dir_ok offset g keys key_i Hg Hk) as [keys1 Hg1].
    exact (IH _ keys1 Hg1 Hl).
Qed.

Lemma add_field_data_dir_ok (g : group) (keys : list str) (c : str * Z) :
  dir_ok g keys -> path_call c ->
  exists keys', dir_ok (add_field_data g c.1 c.2).2 keys'.
Proof.
  intros Hg [_ Hc]. unfold add_field_data. cbn [snd].
  destruct (add_keys_dir_ok c.2 _ g keys Hg Hc) as [keys' [Hd Hk Hcan]].
  exists keys'. split; [exact Hd|exact Hk|exact Hcan].
Qed.

(** What a sequence of calls leaves in a path field. *)
Lemma add_all_spec (calls : list (str * Z)) :
  forall (g : group) (keys : list str),
    FieldGroup.wf g -> dir_ok g keys -> Forall path_call calls ->
    FieldGroup.wf (add_all calls g) /\
    (exists keys', dir_ok (add_all calls g) keys') /\
    forall k x, x ∈ bits (add_all calls g) k
                <-> x ∈ bits g k
                    \/ exists fs, (fs, x) ∈ calls
                                  /\ k ∈ map normalize_path_key (keys_of_field fs).
Proof.
  induction calls as [|c calls IH]; intros g keys Hw Hg Hcalls.
  - split; [exact Hw|]. split; [exists keys; exact Hg|].
    intros k x. split; [auto|]. intros [Hx|(fs & Hin & _)]; [exact Hx|inversion Hin].
  - apply Forall_cons in Hcalls as [Hc Hcalls].
    change (add_all (c :: calls) g) with (add_all calls (add_field_data g c.1 c.2).2).
    destruct (add_field_data_spec g c.1 c.2 Hw (proj1 Hc)) as (_ & Hw1 & _ & _ & Hb1).
    destruct (add_field_data_dir_ok g keys c Hg Hc) as [keys1 Hg1].
    destruct (IH _ keys1 Hw1 Hg1 Hcalls) as (Hw2 & Hk2 & Hb2).
    split; [exact Hw2|]. split; [exact Hk2|].
    intros k x. rewrite Hb2, Hb1. unfold field_keys.
    assert (Hn : norm_key g = normalize_path_key).
    { unfold norm_key. rewrite (dir_built g keys Hg). reflexivity. }
    rewrite Hn. destruct c as [fs0 o]. cbn [fst snd]. split.
    + intros [[Hx|[-> Hk]]|(fs & Hin & Hk)].
      * left. exact Hx.
      * right. exists fs0. split; [apply list_elem_of_here|exact Hk].
      * right. exists fs. split; [apply list_elem_of_further, Hin|exact Hk].
    + intros [Hx|(fs & Hin & Hk)]; [left; left; exact Hx|].
      apply elem_of_cons in Hin as [[= -> ->]|Hin].
      * left. right. auto.
      * right. exists fs. auto.
Qed.

Lemma new_dir_ok (gs name : str) :
  FieldGroup.wf (FieldGroup.new (F := F) gs name kBitmapGroupDir)
  /\ dir_ok (FieldGroup.new (F := F) gs name kBitmapGroupDir) []
  /\ forall k, bits (FieldGroup.new (F := F) gs name kBitmapGroupDir) k = ∅.
Proof.
  split; [|split].
  - intros k b. cbn. rewrite lookup_empty. discriminate.
  - split; cbn.
    + reflexivity.
    + intros k. rewrite lookup_empty. split; [intros [? [=]]|intros Hk; inversion Hk].
    + constructor.
  - intros k. unfold bits. cbn. rewrite lookup_empty. reflexivity.
Qed.

(** The loop of [make_path_field_copy] over names the group holds. *)
Lemma gather_known (names : list str) :
  forall (acc : list Bitmap.t) (g : group),
    (forall k, k ∈ names -> is_Some (bitmap_group_ g !! k)) ->
    fold_left
      (fun acc0 bitmap_key =>
         let '(bm, g') := FieldGroup.get_bitmap (snd acc0) bitmap_key in
         (fst acc0 ++ [bm], g'))
      names (acc, g)
    = (acc ++ map (fun k => default Bitmap.new (bitmap_group_ g !! k)) names, g).
Proof.
  set (f := fun (acc0 : list Bitmap.t * group) (bitmap_key : str) => _).
  induction names as [|k names IH]; intros acc g Hin; cbn [fold_left map].
  - rewrite app_nil_r. reflexivity.
  - destruct (Hin k (list_elem_of_here _ _)) as [b Eb].
    assert (Hf : f (acc, g) k = (acc ++ [b], g)).
    { unfold f. cbn [fst snd]. unfold FieldGroup.get_bitmap, get_editable_bitmap.
      rewrite Eb. reflexivity. }
    rewrite Hf, IH by (intros k' Hk'; apply Hin, list_elem_of_further, Hk').
    rewrite Eb. cbn [default]. rewrite <- app_assoc. reflexivity.
Qed.

Lemma fold_union_elem {A} (f : A -> gset str) (l : list A) :
  forall (acc : gset str) (x : str),
    x ∈ fold_left (fun acc0 a => acc0 ∪ f a) l acc
    <-> x ∈ acc \/ exists a, a ∈ l /\ x ∈ f a.
Proof.
  induction l as [|a l IH]; intros acc x; cbn [fold_left].
  - split; [auto|]. intros [Hx|(a & Ha & _)]; [exact Hx|inversion Ha].
  - rewrite IH, elem_of_union. split.
    + intros [[Hx|Hx]|(a' & Ha' & Hx)]; [left; exact Hx| |].
      * right. exists a. split; [apply list_elem_of_here|exact Hx].
      * right. exists a'. split; [apply list_elem_of_further, Ha'|exact Hx].
    + intros [Hx|(a' & Ha' & Hx)]; [left; left; exact Hx|].
      apply elem_of_cons in Ha' as [->|Ha']; [left; right; exact Hx|].
      right. exists a'. auto.
Qed.

Lemma union_of_bitmaps (l : list Bitmap.t) :
  Forall Bitmap.wf l ->
  Bitmap.wf (match l with [] => Bitmap.new | _ => Bitmap.FastUnion Bitmap.new l end)
  /\ forall x, x ∈ Bitmap.elems (match l with
                                 | [] => Bitmap.new
                                 | _ => Bitmap.FastUnion Bitmap.new l
                                 end)
               <-> exists bm, bm ∈ l /\ x ∈ Bitmap.elems bm.
Proof.
  intros Hl. destruct l as [|b l].
  - split; [apply wf_new|]. intros x. rewrite elems_new. split.
    + intros Hx. apply elem_of_empty in Hx as [].
    + intros (bm & Hbm & _). inversion Hbm.
  - destruct (BitmapExtras.FastUnion_spec Bitmap.new (b :: l) wf_new Hl) as [Hw He].
    split; [exact Hw|]. intros x. rewrite He, elems_new. split.
    + intros [Hx|Hx]; [apply elem_of_empty in Hx as []|exact Hx].
    + intros Hx. right. exact Hx.
Qed.

Lemma full_range (n : Z) :
  Bitmap.wf (Bitmap.SetRange Bitmap.new 0 n)
  /\ forall x, x ∈ Bitmap.elems (Bitmap.SetRange Bitmap.new 0 n) <-> 0 <= x < n.
Proof.
  split; [reflexivity|]. intros x. unfold Bitmap.elems, Bitmap.SetRange. cbn.
  rewrite elem_of_union, elem_of_list_to_set, elem_of_seqZ. split.
  - intros [Hx|Hx]; [apply elem_of_empty in Hx as []|lia].
  - intros Hx. right. lia.
Qed.

Lemma with_groups_id (s : @FieldGroupSet.t F) (field : str) (g : group) :
  FieldGroupSet.field_bitmap_groups_map_ s !! field = Some g ->
  FieldGroupSet.with_groups s (<[field := g]> (FieldGroupSet.field_bitmap_groups_map_ s))
  = s.
Proof.
  intros E. rewrite insert_id by exact E. destruct s; reflexivity.
Qed.

(** [make_path_field_copy] on a path field whose bitmaps and directory
    index agree. *)
Lemma path_copy_spec (s : @FieldGroupSet.t F) (field : str) (g : group)
    (keys prefixes : list str) (depth : Z) :
  FieldGroupSet.field_bitmap_groups_map_ s !! field = Some g ->
  FieldGroup.wf g -> dir_ok g keys -> Forall path_prefix prefixes ->
  - 2 ^ 31 <= depth < 2 ^ 31 ->
  exists b,
    FieldGroupSet.make_path_field_copy s field prefixes depth = (Some b, s)
    /\ Bitmap.wf b
    /\ forall x,
         x ∈ Bitmap.elems b
         <-> if (depth =? -1)
                && existsb (fun path_prefix =>
                              bool_decide (path_prefix = [DirIndex.slash])
                              || bool_decide (path_prefix = [])) prefixes
             then 0 <= x < to_uint32 (FieldGroupSet.element_size_ s)
             else exists k p rest,
                 k ∈ keys /\ p ∈ prefixes
                 /\ DirIndex.split_path k = DirIndex.split_path p ++ rest
                 /\ (depth = -1 \/ rest = [] \/ Z.of_nat (length rest) <= depth)
                 /\ x ∈ bits g k.
Proof.
  intros E Hw Hg Hp Hdepth. unfold FieldGroupSet.make_path_field_copy. rewrite E.
  destruct ((depth =? -1) && existsb _ prefixes).
  { eexists. split; [reflexivity|]. apply full_range. }
  rewrite (dir_built g keys Hg).
  set (all := fold_left _ prefixes ∅).
  assert (Hall : forall name,
             name ∈ all
             <-> exists p rest,
                 name ∈ keys /\ p ∈ prefixes
                 /\ DirIndex.split_path name = DirIndex.split_path p ++ rest
                 /\ (depth = -1 \/ rest = [] \/ Z.of_nat (length rest) <= depth)).
  { intros name. unfold all. rewrite fold_union_elem. split.
    - intros [Hx|(p & Hin & Hx)]; [apply elem_of_empty in Hx as []|].
      apply (DirExtras.merged_bitmap_spec keys p depth ∅ name Hdepth) in Hx.
      destruct Hx as [Hx|(k & rest & Hk & Hs & Hd & ->)];
        [apply elem_of_empty in Hx as []|].
      assert (Hname : DirIndex.leaf_name
                        (fold_left DirIndex.extend rest (DirIndex.prefix_buffer p)) = k).
      { apply listed_name; [|exact (proj1 (Forall_forall _ _) Hp p Hin)|exact Hs].
        exact (proj1 (Forall_forall _ _) (dir_canonical g keys Hg) k Hk). }
      rewrite Hname. exists p, rest. auto.
    - intros (p & rest & Hk & Hin & Hs & Hd). right. exists p. split; [exact Hin|].
      apply (DirExtras.merged_bitmap_spec keys p depth ∅ name Hdepth). right.
      exists name, rest. split; [exact Hk|]. split; [exact Hs|]. split; [exact Hd|].
      symmetry. apply listed_name; [|exact (proj1 (Forall_forall _ _) Hp p Hin)|exact Hs].
      exact (proj1 (Forall_forall _ _) (dir_canonical g keys Hg) name Hk). }
  rewrite (gather_known (elements all) [] g).
  2:{ intros k Hk. apply (dir_keys g keys Hg). apply elem_of_elements, Hall in Hk.
      destruct Hk as (_ & _ & Hk & _). exact Hk. }
  cbn [app]. rewrite (with_groups_id s field g E).
  set (l := map _ (elements all)).
  assert (Hl : Forall Bitmap.wf l).
  { apply Forall_forall. intros bm Hbm. apply list_elem_of_fmap in Hbm as (k & -> & _).
    apply wf_default, Hw. }
  destruct (union_of_bitmaps l Hl) as [Hwf He].
  eexists. split; [reflexivity|]. split; [exact Hwf|].
  intros x. rewrite He. split.
  - intros (bm & Hbm & Hx). apply list_elem_of_fmap in Hbm as (k & -> & Hk).
    rewrite elems_default in Hx. apply elem_of_elements, Hall in Hk.
    destruct Hk as (p & rest & Hk & Hin & Hs & Hd). exists k, p, rest. auto.
  - intros (k & p & rest & Hk & Hin & Hs & Hd & Hx).
    exists (default Bitmap.new (bitmap_group_ g !! k)). split.
    + apply list_elem_of_fmap. exists k. split; [reflexivity|].
      apply elem_of_elements, Hall. exists p, rest. auto.
    + rewrite elems_default. exact Hx.
Qed.

(** ** Copies of the bitmaps of keys *)

Local Notation touch := (fun (g0 : group) (k0 : str) => snd (get_editable_bitmap g0 k0)).

Lemma touch_spec (g : group) (k : str) :
  fst (get_editable_bitmap g k) = default Bitmap.new (bitmap_group_ g !! k)
  /\ (forall k', default Bitmap.new (bitmap_group_ (touch g k) !! k')
                 = default Bitmap.new (bitmap_group_ g !! k'))
  /\ (forall k', is_Some (bitmap_group_ (touch g k) !! k')
                 <-> k' = k \/ is_Some (bitmap_group_ g !! k'))
  /\ dir_index_ (touch g k) = dir_index_ g
  /\ element_size_ (touch g k) = element_size_ g.
Proof.
  unfold get_editable_bitmap.
  destruct (bitmap_group_ g !! k) as [b|] eqn:E; cbn [fst snd default].
  - split; [reflexivity|]. split; [reflexivity|]. split; [|split; reflexivity].
    intros k'. split; [auto|]. intros [->|Hk]; [rewrite E; eexists; reflexivity|exact Hk].
  - split; [reflexivity|]. split; [|split; [|split; reflexivity]].
    + intros k'. cbn. destruct (decide (k' = k)) as [->|Hne].
      * rewrite lookup_insert_eq, E. reflexivity.
      * rewrite lookup_insert_ne by congruence. reflexivity.
    + intros k'. cbn. destruct (decide (k' = k)) as [->|Hne].
      * rewrite lookup_insert_eq. split; [auto|]. intros _. eexists; reflexivity.
      * rewrite lookup_insert_ne by congruence. split; [auto|].
        intros [Hk|Hk]; [congruence|exact Hk].
Qed.

Lemma touch_all_spec (keys : list str) :
  forall g : group,
    (forall k', default Bitmap.new (bitmap_group_ (fold_left touch keys g) !! k')
                = default Bitmap.new (bitmap_group_ g !! k'))
    /\ (forall k', is_Some (bitmap_group_ (fold_left touch keys g) !! k')
                   <-> k' ∈ keys \/ is_Some (bitmap_group_ g !! k'))
    /\ dir_index_ (fold_left touch keys g) = dir_index_ g
    /\ element_size_ (fold_left touch keys g) = element_size_ g.
Proof.
  induction keys as [|k keys IH]; intros g; cbn [fold_left].
  - split; [reflexivity|]. split; [|split; reflexivity].
    intros k'. split; [auto|]. intros [Hk|Hk]; [inversion Hk|exact Hk].
  - destruct (touch_spec g k) as (_ & Hd1 & Hk1 & Hdir1 & Hs1).
    destruct (IH (touch g k)) as (Hd & Hk & Hdir & Hs).
    split; [intros k'; rewrite Hd; apply Hd1|].
    split; [|split; [rewrite Hdir; exact Hdir1|rewrite Hs; exact Hs1]].
    intros k'. rewrite Hk, Hk1, elem_of_cons. tauto.
Qed.

Lemma default_bits (g g' : group) :
  (forall k, default Bitmap.new (bitmap_group_ g' !! k)
             = default Bitmap.new (bitmap_group_ g !! k)) ->
  forall k, bits g' k = bits g k.
Proof.
  intros Hd k. rewrite <- !elems_default, Hd. reflexivity.
Qed.

Lemma default_wf (g g' : group) :
  (forall k, default Bitmap.new (bitmap_group_ g' !! k)
             = default Bitmap.new (bitmap_group_ g !! k)) ->
  FieldGroup.wf g -> FieldGroup.wf g'.
Proof.
  intros Hd Hg k b E.
  assert (b = default Bitmap.new (bitmap_group_ g !! k)) as ->
    by (rewrite <- Hd, E; reflexivity).
  apply wf_default, Hg.
Qed.

(** The loop of [make_field_copy] on a field the set holds. *)
Lemma gather_spec (field : str) (keys : list str) :
  forall (acc : list Bitmap.t) (s : @FieldGroupSet.t F) (g : group),
    FieldGroupSet.field_bitmap_groups_map_ s !! field = Some g ->
    fold_left (FieldGroupSet.gather field) keys (acc, s)
    = (acc ++ map (fun k => default Bitmap.new (bitmap_group_ g !! k)) keys,
       FieldGroupSet.with_groups s
         (<[field := fold_left touch keys g]>
            (FieldGroupSet.field_bitmap_groups_map_ s))).
Proof.
  induction keys as [|k keys IH]; intros acc s g E; cbn [fold_left map].
  - rewrite app_nil_r, (with_groups_id s field g E). reflexivity.
  - destruct (touch_spec g k) as (Hfst & Hd & _).
    assert (Hstep : FieldGroupSet.gather field (acc, s) k
                    = (acc ++ [default Bitmap.new (bitmap_group_ g !! k)],
                       FieldGroupSet.with_groups s
                         (<[field := touch g k]>
                            (FieldGroupSet.field_bitmap_groups_map_ s)))).
    { unfold FieldGroupSet.gather, FieldGroupSet.get_bitmap,
        FieldGroupSet.get_editable_bitmap. rewrite E.
      rewrite <- Hfst. destruct (get_editable_bitmap g k) as [b g1]. reflexivity. }
    rewrite Hstep.
    rewrite (IH _ _ (touch g k)) by (cbn; apply lookup_insert_eq).
    rewrite <- app_assoc. cbn [app]. f_equal.
    + f_equal. f_equal. apply map_ext. intros k'. apply Hd.
    + unfold FieldGroupSet.with_groups. cbn. rewrite insert_insert_eq. reflexivity.
Qed.

Lemma gather_unknown (field : str) (keys : list str) :
  forall (acc : list Bitmap.t) (s : @FieldGroupSet.t F),
    FieldGroupSet.field_bitmap_groups_map_ s !! field = None ->
    fold_left (FieldGroupSet.gather field) keys (acc, s) = (acc, s).
Proof.
  induction keys as [|k keys IH]; intros acc s E; cbn [fold_left]; [reflexivity|].
  assert (Hstep : FieldGroupSet.gather field (acc, s) k = (acc, s)).
  { unfold FieldGroupSet.gather, FieldGroupSet.get_bitmap,
      FieldGroupSet.get_editable_bitmap. rewrite E. reflexivity. }
  rewrite Hstep. apply IH, E.
Qed.

Lemma copy_ptr_spec (b other : Bitmap.t) :
  Bitmap.wf other ->
  Bitmap.wf (Bitmap.copy_ptr b (Some other))
  /\ Bitmap.elems (Bitmap.copy_ptr b (Some other)) = Bitmap.elems other.
Proof.
  intros Ho. unfold Bitmap.copy_ptr, Bitmap.copy, Bitmap.invalidate, Bitmap.wf,
    Bitmap.elems in *. cbn. split; [exact Ho|reflexivity].
Qed.

Lemma field_copy_spec (s : @FieldGroupSet.t F) (field : str) (keys : list str)
    (g : group) :
  FieldGroupSet.field_bitmap_groups_map_ s !! field = Some g ->
  FieldGroup.wf g -> keys <> [] ->
  exists b,
    FieldGroupSet.make_field_copy s field keys
    = (Some b,
       FieldGroupSet.with_groups s
         (<[field := fold_left touch keys g]>
            (FieldGroupSet.field_bitmap_groups_map_ s)))
    /\ Bitmap.wf b
    /\ forall x, x ∈ Bitmap.elems b <-> exists k, k ∈ keys /\ x ∈ bits g k.
Proof.
  intros E Hg Hne. destruct keys as [|k [|k' keys]]; [congruence| |].
  - unfold FieldGroupSet.make_field_copy, FieldGroupSet.make_field_copy_one.
    rewrite E. unfold get_bitmap_copy, FieldGroup.get_bitmap. cbn [fold_left].
    destruct (touch_spec g k) as (Hfst & _).
    destruct (get_editable_bitmap g k) as [temp g1]. cbn [fst snd] in *.
    destruct (copy_ptr_spec Bitmap.new temp) as [Hw He];
      [rewrite Hfst; apply wf_default, Hg|].
    eexists. split; [reflexivity|]. split; [exact Hw|].
    intros x. rewrite He, Hfst, elems_default. split.
    + intros Hx. exists k. split; [apply list_elem_of_here|exact Hx].
    + intros (k0 & Hk0 & Hx). apply list_elem_of_singleton in Hk0 as ->. exact Hx.
  - set (l := k :: k' :: keys) in *.
    unfold FieldGroupSet.make_field_copy. fold l.
    rewrite (gather_spec field l [] s g E). cbn [app].
    set (bms := map _ l).
    assert (Hl : Forall Bitmap.wf bms).
    { apply Forall_forall. intros bm Hbm. apply list_elem_of_fmap in Hbm as (k0 & -> & _).
      apply wf_default, Hg. }
    destruct (union_of_bitmaps bms Hl) as [Hw He].
    eexists. split; [reflexivity|]. split; [exact Hw|].
    intros x. rewrite He. split.
    + intros (bm & Hbm & Hx). apply list_elem_of_fmap in Hbm as (k0 & -> & Hk0).
      rewrite elems_default in Hx. exists k0. auto.
    + intros (k0 & Hk0 & Hx). exists (default Bitmap.new (bitmap_group_ g !! k0)).
      split; [apply list_elem_of_fmap; exists k0; auto|].
      rewrite elems_default. exact Hx.
Qed.

Lemma field_copy_unknown (s : @FieldGroupSet.t F) (field : str) (keys : list str) :
  FieldGroupSet.field_bitmap_groups_map_ s !! field = None ->
  FieldGroupSet.make_field_copy s field keys
  = (match keys with
     | [] | [_] => None
     | _ => Some Bitmap.new
     end, s).
Proof.
  intros E. destruct keys as [|k [|k' keys]]; [reflexivity| |].
  - unfold FieldGroupSet.make_field_copy, FieldGroupSet.make_field_copy_one.
    rewrite E. reflexivity.
  - unfold FieldGroupSet.make_field_copy.
    rewrite (gather_unknown field (k :: k' :: keys) [] s E). reflexivity.
Qed.

Lemma exclude_from_full (n : Z) (other : Bitmap.t) :
  Bitmap.wf other ->
  Bitmap.wf (Bitmap.Exclude_ptr (Bitmap.SetRange Bitmap.new 0 n) (Some other))
  /\ forall x,
       x ∈ Bitmap.elems (Bitmap.Exclude_ptr (Bitmap.SetRange Bitmap.new 0 n) (Some other))
       <-> 0 <= x < n /\ x ∉ Bitmap.elems other.
Proof.
  intros Ho. destruct (full_range n) as [Hw He].
  destruct (BitmapExtras.Exclude_spec _ other Hw Ho) as [Hw' He'].
  split; [apply wf_invalidate, Hw'|]. intros x. unfold Bitmap.Exclude_ptr.
  rewrite elems_invalidate, He', elem_of_difference, He. reflexivity.
Qed.

(** ** The keys that match a pattern *)

Lemma starts_with_spec (key prefix : str) :
  starts_with key prefix = true <-> exists rest, key = prefix ++ rest.
Proof.
  unfold starts_with. rewrite andb_true_iff, Nat.leb_le, bool_decide_eq_true. split.
  - intros [_ Ht]. exists (drop (length prefix) key).
    rewrite <- Ht at 1. symmetry. apply take_drop.
  - intros [rest ->]. split; [rewrite length_app; lia|].
    rewrite take_app_length. reflexivity.
Qed.

Lemma contains_unfold (key substring : str) :
  contains key substring
  = bool_decide (take (length substring) key = substring)
    || match key with
       | [] => false
       | _ :: r => contains r substring
       end.
Proof. destruct key; reflexivity. Qed.

Lemma contains_spec (key substring : str) :
  contains key substring = true
  <-> exists pre post, key = pre ++ substring ++ post.
Proof.
  split.
  - induction key as [|c r IH]; rewrite contains_unfold, orb_true_iff,
      bool_decide_eq_true.
    + intros [Ht|Hf]; [|discriminate]. exists [], []. rewrite app_nil_r.
      rewrite <- Ht. destruct (length substring); reflexivity.
    + intros [Ht|Hr].
      * exists [], (drop (length substring) (c :: r)). cbn [app].
        rewrite <- Ht at 1. symmetry. apply take_drop.
      * destruct (IH Hr) as (pre & post & ->). exists (c :: pre), post. reflexivity.
  - intros (pre & post & ->). induction pre as [|c pre IH].
    + cbn [app]. rewrite contains_unfold, take_app_length.
      rewrite bool_decide_eq_true_2 by reflexivity. reflexivity.
    + cbn [app]. rewrite contains_unfold, IH. apply orb_true_r.
Qed.

Lemma fold_matching (matches : str -> bool) (l : list (str * Bitmap.t)) :
  Forall (fun kv => Bitmap.wf kv.2) l ->
  forall acc : option Bitmap.t,
    (forall r, acc = Some r -> Bitmap.wf r) ->
    match fold_left
            (fun result kv =>
               if matches (fst kv) then
                 match result with
                 | None => Some (Bitmap.copy_ptr Bitmap.new (Some (snd kv)))
                 | Some r => Some (Bitmap.Union_ptr r (Some (snd kv)))
                 end
               else result) l acc with
    | None => acc = None /\ forall kv, kv ∈ l -> matches kv.1 = false
    | Some b =>
        Bitmap.wf b
        /\ (acc = None -> exists kv, kv ∈ l /\ matches kv.1 = true)
        /\ forall x, x ∈ Bitmap.elems b
                     <-> (exists r, acc = Some r /\ x ∈ Bitmap.elems r)
                         \/ exists kv, kv ∈ l /\ matches kv.1 = true
                                       /\ x ∈ Bitmap.elems kv.2
    end.
Proof.
  induction 1 as [|kv l Hkv Hl IH]; intros acc Hacc; cbn [fold_left].
  - destruct acc as [r|].
    + split; [apply Hacc; reflexivity|]. split; [discriminate|].
      intros x. split.
      * intros Hx. left. exists r. auto.
      * intros [(r' & [= <-] & Hx)|(kv & Hin & _)]; [exact Hx|inversion Hin].
    + split; [reflexivity|]. intros kv Hin. inversion Hin.
  - destruct (matches kv.1) eqn:Em.
    + set (acc' := match acc with
                   | None => Some (Bitmap.copy_ptr Bitmap.new (Some kv.2))
                   | Some r => Some (Bitmap.Union_ptr r (Some kv.2))
                   end).
      assert (Hacc' : exists r', acc' = Some r' /\ Bitmap.wf r'
                /\ forall x, x ∈ Bitmap.elems r'
                             <-> (exists r, acc = Some r /\ x ∈ Bitmap.elems r)
                                 \/ x ∈ Bitmap.elems kv.2).
      { unfold acc'. destruct acc as [r|].
        - destruct (Union_ptr_spec r kv.2 (Hacc r eq_refl) Hkv) as [Hw He].
          eexists. split; [reflexivity|]. split; [exact Hw|].
          intros x. rewrite He, elem_of_union. split.
          + intros [Hx|Hx]; [left; exists r; auto|right; exact Hx].
          + intros [(r' & [= <-] & Hx)|Hx]; [left|right]; exact Hx.
        - destruct (copy_ptr_spec Bitmap.new kv.2 Hkv) as [Hw He].
          eexists. split; [reflexivity|]. split; [exact Hw|].
          intros x. rewrite He. split; [intros Hx; right; exact Hx|].
          intros [(r' & [=] & _)|Hx]; exact Hx. }
      destruct Hacc' as (r' & Er & Hwr & Her). clearbody acc'. subst acc'.
      assert (Hr' : forall r0, Some r' = Some r0 -> Bitmap.wf r0)
        by (intros r0 [= <-]; exact Hwr).
      specialize (IH (Some r') Hr').
      destruct (fold_left _ l (Some r')) as [b|]; [|destruct IH as [[=] _]].
      destruct IH as (Hw & _ & He). split; [exact Hw|]. split.
      * intros _. exists kv. split; [apply list_elem_of_here|exact Em].
      * intros x. rewrite He. split.
        -- intros [(r0 & [= <-] & Hx)|(kv' & Hin & Hm & Hx)].
           ++ apply Her in Hx as [Hx|Hx]; [left; exact Hx|].
              right. exists kv. split; [apply list_elem_of_here|auto].
           ++ right. exists kv'. split; [apply list_elem_of_further, Hin|auto].
        -- intros [Hx|(kv' & Hin & Hm & Hx)].
           ++ left. exists r'. split; [reflexivity|]. apply Her. left. exact Hx.
           ++ apply elem_of_cons in Hin as [->|Hin].
              ** left. exists r'. split; [reflexivity|]. apply Her. right. exact Hx.
              ** right. exists kv'. auto.
    + specialize (IH acc Hacc).
      destruct (fold_left _ l acc) as [b|].
      * destruct IH as (Hw & Hn & He). split; [exact Hw|]. split.
        -- intros Ea. destruct (Hn Ea) as (kv' & Hin & Hm). exists kv'.
           split; [apply list_elem_of_further, Hin|exact Hm].
        -- intros x. rewrite He. split.
           ++ intros [Hx|(kv' & Hin & Hm & Hx)]; [left; exact Hx|].
              right. exists kv'. split; [apply list_elem_of_further, Hin|auto].
           ++ intros [Hx|(kv' & Hin & Hm & Hx)]; [left; exact Hx|].
              apply elem_of_cons in Hin as [->|Hin]; [congruence|].
              right. exists kv'. auto.
      * destruct IH as [Ea Hn]. split; [exact Ea|].
        intros kv' Hin. apply elem_of_cons in Hin as [->|Hin]; [exact Em|apply Hn, Hin].
Qed.

Lemma in_key_order_elem {A} (m : gmap str A) (k : str) (a : A) :
  (k, a) ∈ in_key_order m <-> m !! k = Some a.
Proof.
  unfold in_key_order. rewrite merge_sort_Permutation. apply elem_of_map_to_list.
Qed.

Lemma union_matching_spec (matches : str -> bool) (g : group) :
  FieldGroup.wf g ->
  match union_matching matches g with
  | None => forall k, is_Some (bitmap_group_ g !! k) -> matches k = false
  | Some b =>
      Bitmap.wf b
      /\ (exists k, is_Some (bitmap_group_ g !! k) /\ matches k = true)
      /\ forall x, x ∈ Bitmap.elems b
                   <-> exists k, matches k = true /\ x ∈ bits g k
  end.
Proof.
  intros Hg. unfold union_matching.
  destruct (decide (bitmap_group_ g = ∅)) as [Ee|Hne].
  { rewrite (bool_decide_eq_true_2 _ Ee). intros k [b Eb].
    rewrite Ee, lookup_empty in Eb. discriminate. }
  rewrite (bool_decide_eq_false_2 _ Hne).
  assert (Hl : Forall (fun kv : str * Bitmap.t => Bitmap.wf kv.2)
                 (in_key_order (bitmap_group_ g))).
  { apply Forall_forall. intros [k b] Hin. apply in_key_order_elem in Hin.
    exact (Hg k b Hin). }
  pose proof (fold_matching matches _ Hl None (fun r E => match E with end)) as Hf.
  destruct (fold_left _ (in_key_order (bitmap_group_ g)) None) as [b|].
  - destruct Hf as (Hw & Hn & He). split; [exact Hw|]. split.
    + destruct (Hn eq_refl) as ([k b0] & Hin & Hm). exists k.
      apply in_key_order_elem in Hin. split; [eexists; exact Hin|exact Hm].
    + intros x. rewrite He. split.
      * intros [(r & [=] & _)|([k b0] & Hin & Hm & Hx)].
        apply in_key_order_elem in Hin. exists k. split; [exact Hm|].
        unfold bits. rewrite Hin. exact Hx.
      * intros (k & Hm & Hx). right. unfold bits in Hx.
        destruct (bitmap_group_ g !! k) as [b0|] eqn:Eb;
          [|apply elem_of_empty in Hx as []].
        exists (k, b0). split; [apply in_key_order_elem, Eb|auto].
  - destruct Hf as [_ Hn]. intros k [b0 Eb].
    exact (Hn (k, b0) (proj2 (in_key_order_elem _ k b0) Eb)).
Qed.

(** X21. [add_field_data] with a field string sets the offset in the
    bitmap of every key of the string (its pieces between semicolons, or
    the string itself when it holds none; with the slash in front on a
    path field) and in no other bitmap, keeps every offset that was set,
    and raises [element_size_] to at least [offset + 1]. *)
Theorem X21_add_field_data_sets_the_offset (g : group) (field_str : str)
    (offset : Z) :
  FieldGroup.wf g -> 0 <= offset < 2 ^ 31 - 1 ->
  (add_field_data g field_str offset).1 = 0 /\
  FieldGroup.wf (add_field_data g field_str offset).2 /\
  element_size_ (add_field_data g field_str offset).2
  = Z.max (offset + 1) (element_size_ g) /\
  forall k x, x ∈ bits (add_field_data g field_str offset).2 k
              <-> x ∈ bits g k \/ (x = offset /\ k ∈ field_keys g field_str).
Proof.
  intros Hg Ho.
  destruct (add_field_data_spec g field_str offset Hg Ho) as (Hr & Hw & _ & Hs & Hb).
  auto.
Qed.

Lemma delete_field_data_spec (g : group) (field_str : str)
    (offset : Z) :
  FieldGroup.wf g -> 0 <= offset < 2 ^ 31 ->
  (element_size_ g <= offset ->
   delete_field_data g field_str offset = (-1, g)) /\
  (offset < element_size_ g ->
   (delete_field_data g field_str offset).1 = 0 /\
   FieldGroup.wf (delete_field_data g field_str offset).2 /\
   dir_index_ (delete_field_data g field_str offset).2 = dir_index_ g /\
   element_size_ (delete_field_data g field_str offset).2 = element_size_ g /\
   (forall k, is_Some (bitmap_group_ (delete_field_data g field_str offset).2 !! k)
              <-> k ∈ field_keys g field_str \/ is_Some (bitmap_group_ g !! k)) /\
   forall k x, x ∈ bits (delete_field_data g field_str offset).2 k
               <-> x ∈ bits g k /\ ~ (x = offset /\ k ∈ field_keys g field_str)).
Proof.
  intros Hg Ho. unfold delete_field_data. rewrite to_uint64_small by lia. split.
  - intros Hout. destruct (Z.geb_spec offset (element_size_ g)) as [_|Hlt];
      [reflexivity|lia].
  - intros Hin.
    destruct (Z.geb_spec offset (element_size_ g)) as [Hge|_]; [lia|]. cbn [fst snd].
    destruct (delete_keys_spec offset (keys_of_field field_str) g Hg)
      as (Hw & Hd & Hs & Hk & Hb).
    split; [reflexivity|]. split; [exact Hw|]. split; [exact Hd|].
    split; [exact Hs|]. split; [exact Hk|].
    intros k x. rewrite Hb, to_uint32_small by lia. reflexivity.
Qed.

(** X22. [delete_field_data] with a field string refuses an offset that
    is not below [element_size_] with -1 and changes nothing; otherwise it
    unsets the offset in the bitmap of every key of the string and in no
    other bitmap, leaves the directory index and [element_size_] as they
    are, and the group afterwards has a bitmap for every key of the
    string, also for one it did not have before. *)
Theorem X22_delete_field_data_unsets_the_offset (g : group) (field_str : str)
    (offset : Z) :
  FieldGroup.wf g -> 0 <= offset < 2 ^ 31 ->
  (element_size_ g <= offset ->
   delete_field_data g field_str offset = (-1, g)) /\
  (offset < element_size_ g ->
   (delete_field_data g field_str offset).1 = 0 /\
   FieldGroup.wf (delete_field_data g field_str offset).2 /\
   dir_index_ (delete_field_data g field_str offset).2 = dir_index_ g /\
   element_size_ (delete_field_data g field_str offset).2 = element_size_ g /\
   (forall k, is_Some (bitmap_group_ (delete_field_data g field_str offset).2 !! k)
              <-> k ∈ field_keys g field_str \/ is_Some (bitmap_group_ g !! k)) /\
   forall k x, x ∈ bits (delete_field_data g field_str offset).2 k
               <-> x ∈ bits g k /\ ~ (x = offset /\ k ∈ field_keys g field_str)).
Proof.
  intros Hg Ho. apply delete_field_data_spec; assumption.
Qed.

(** X23. On a path field filled by [add_field_data] calls with canonical
    keys, [make_path_field_copy] leaves the set as it is and returns the
    offsets added under a key below one of the prefixes: a key whose
    segments are those of the prefix followed by at most [depth] more
    (any number for depth -1, none for another depth that is not
    positive).  For depth -1 and a prefix that is empty or a slash alone
    it returns every offset below [element_size_] instead. *)
Theorem X23_path_query_finds_the_keys_below (s : @FieldGroupSet.t F)
    (field gs name : str) (calls : list (str * Z)) (prefixes : list str)
    (depth : Z) :
  FieldGroupSet.field_bitmap_groups_map_ s !! field
  = Some (add_all calls (FieldGroup.new gs name kBitmapGroupDir)) ->
  Forall path_call calls -> Forall path_prefix prefixes ->
  - 2 ^ 31 <= depth < 2 ^ 31 ->
  exists b,
    FieldGroupSet.make_path_field_copy s field prefixes depth = (Some b, s)
    /\ Bitmap.wf b
    /\ forall x,
         x ∈ Bitmap.elems b
         <-> if (depth =? -1)
                && existsb (fun path_prefix =>
                              bool_decide (path_prefix = [DirIndex.slash])
                              || bool_decide (path_prefix = [])) prefixes
             then 0 <= x < to_uint32 (FieldGroupSet.element_size_ s)
             else exists fs key p rest,
                 (fs, x) ∈ calls /\ key ∈ keys_of_field fs /\ p ∈ prefixes
                 /\ DirIndex.split_path key = DirIndex.split_path p ++ rest
                 /\ (depth = -1 \/ rest = [] \/ Z.of_nat (length rest) <= depth).
Proof.
  intros E Hcalls Hp Hdepth.
  destruct (new_dir_ok gs name) as (Hw0 & Hg0 & Hb0).
  destruct (add_all_spec calls _ [] Hw0 Hg0 Hcalls) as (Hw & [keys Hg] & Hb).
  destruct (path_copy_spec s field _ keys prefixes depth E Hw Hg Hp Hdepth)
    as (b & Hcopy & Hwf & He).
  exists b. split; [exact Hcopy|]. split; [exact Hwf|].
  intros x. rewrite He. destruct ((depth =? -1) && existsb _ prefixes); [reflexivity|].
  split.
  - intros (k & p & rest & Hk & Hin & Hs & Hd & Hx).
    apply Hb in Hx as [Hx|(fs & Hfs & Hkey)];
      [rewrite Hb0 in Hx; apply elem_of_empty in Hx as []|].
    apply list_elem_of_fmap in Hkey as (key & -> & Hkey).
    rewrite split_path_normalize in Hs. exists fs, key, p, rest. auto.
  - intros (fs & key & p & rest & Hfs & Hkey & Hin & Hs & Hd).
    assert (Hx : x ∈ bits (add_all calls
                             (FieldGroup.new (F := F) gs name kBitmapGroupDir))
                   (normalize_path_key key)).
    { apply Hb. right. exists fs. split; [exact Hfs|].
      apply list_elem_of_fmap. exists key. auto. }
    exists (normalize_path_key key), p, rest.
    split; [|rewrite split_path_normalize; auto].
    apply (dir_keys _ keys Hg). unfold bits in Hx.
    destruct (bitmap_group_ _ !! normalize_path_key key);
      [eexists; reflexivity|apply elem_of_empty in Hx as []].
Qed.

(** X24. [make_field_copy] with a list of keys returns the union of the
    bitmaps of the keys in the field; a key the field has no bitmap for
    counts as empty and has an empty bitmap in the field afterwards,
    which does not change the offsets of any key.  On a field the set
    does not hold it returns a null pointer for one key and an empty
    bitmap for two or more; for no key it returns a null pointer. *)
Theorem X24_field_copy_is_the_union (s : @FieldGroupSet.t F) (field : str)
    (keys : list str) :
  (keys = [] -> FieldGroupSet.make_field_copy s field keys = (None, s)) /\
  (FieldGroupSet.field_bitmap_groups_map_ s !! field = None ->
   FieldGroupSet.make_field_copy s field keys
   = (match keys with
      | [] | [_] => None
      | _ => Some Bitmap.new
      end, s)) /\
  forall g : group,
    FieldGroupSet.field_bitmap_groups_map_ s !! field = Some g ->
    FieldGroup.wf g -> keys <> [] ->
    exists (b : Bitmap.t) (g' : group),
      FieldGroupSet.make_field_copy s field keys
      = (Some b,
         FieldGroupSet.with_groups s
           (<[field := g']> (FieldGroupSet.field_bitmap_groups_map_ s)))
      /\ Bitmap.wf b
      /\ (forall x, x ∈ Bitmap.elems b <-> exists k, k ∈ keys /\ x ∈ bits g k)
      /\ FieldGroup.wf g'
      /\ (forall k, bits g' k = bits g k)
      /\ (forall k, is_Some (bitmap_group_ g' !! k)
                    <-> k ∈ keys \/ is_Some (bitmap_group_ g !! k))
      /\ dir_index_ g' = dir_index_ g.
Proof.
  split; [intros ->; reflexivity|]. split; [apply field_copy_unknown|].
  intros g E Hg Hne.
  destruct (field_copy_spec s field keys g E Hg Hne) as (b & Hcopy & Hw & He).
  destruct (touch_all_spec keys g) as (Hd & Hk & Hdir & _).
  exists b, (fold_left touch keys g).
  split; [exact Hcopy|]. split; [exact Hw|]. split; [exact He|].
  split; [exact (default_wf g _ Hd Hg)|]. split; [exact (default_bits g _ Hd)|].
  split; [exact Hk|exact Hdir].
Qed.

(** X25. [make_field_exclude_copy] returns the offsets below the
    [element_size_] of the set (taken as a [uint32_t]) that are in the
    bitmap of none of the keys in the field; with no key, or on a field
    the set does not hold, these are all the offsets below
    [element_size_]. *)
Theorem X25_exclude_copy_is_the_complement (s : @FieldGroupSet.t F)
    (field : str) (keys : list str) :
  (forall g, FieldGroupSet.field_bitmap_groups_map_ s !! field = Some g ->
             FieldGroup.wf g) ->
  Bitmap.wf (FieldGroupSet.make_field_exclude_copy s field keys).1 /\
  forall x,
    x ∈ Bitmap.elems (FieldGroupSet.make_field_exclude_copy s field keys).1
    <-> 0 <= x < to_uint32 (FieldGroupSet.element_size_ s)
        /\ ~ exists g k,
               FieldGroupSet.field_bitmap_groups_map_ s !! field = Some g
               /\ k ∈ keys /\ x ∈ bits g k.
Proof.
  intros Hwf. unfold FieldGroupSet.make_field_exclude_copy,
    FieldGroupSet.make_full_temp.
  set (n := to_uint32 (FieldGroupSet.element_size_ s)).
  destruct (full_range n) as [Hfw Hfe].
  assert (Hfull : forall keys0 : list str,
             (forall x : Z, ~ exists (g : group) (k : str),
                   FieldGroupSet.field_bitmap_groups_map_ s !! field = Some g
                   /\ k ∈ keys0 /\ x ∈ bits g k) ->
             Bitmap.wf (Bitmap.SetRange Bitmap.new 0 n)
             /\ forall x, x ∈ Bitmap.elems (Bitmap.SetRange Bitmap.new 0 n)
                          <-> 0 <= x < n
                              /\ ~ exists g k,
                                  FieldGroupSet.field_bitmap_groups_map_ s !! field
                                  = Some g /\ k ∈ keys0 /\ x ∈ bits g k).
  { intros keys0 Hno. split; [exact Hfw|]. intros x. rewrite Hfe.
    pose proof (Hno x). tauto. }
  destruct keys as [|k [|k' keys]].
  - cbn [fst]. apply Hfull. intros x (g & k & _ & Hk & _). inversion Hk.
  - unfold FieldGroupSet.get_bitmap, FieldGroupSet.get_editable_bitmap.
    destruct (FieldGroupSet.field_bitmap_groups_map_ s !! field) as [g|] eqn:E.
    + destruct (touch_spec g k) as (Hfst & _).
      destruct (get_editable_bitmap g k) as [temp g1]. cbn [fst snd] in *.
      destruct (exclude_from_full n temp) as [Hw He];
        [rewrite Hfst; apply wf_default, (Hwf g eq_refl)|].
      split; [exact Hw|]. intros x. rewrite He, Hfst, elems_default. split.
      * intros [Hr Hx]. split; [exact Hr|]. intros (g0 & k0 & [= <-] & Hk0 & Hx0).
        apply list_elem_of_singleton in Hk0 as ->. exact (Hx Hx0).
      * intros [Hr Hx]. split; [exact Hr|]. intros Hx0. apply Hx.
        exists g, k. split; [reflexivity|]. split; [apply list_elem_of_here|exact Hx0].
    + cbn [fst Bitmap.Exclude_ptr]. apply Hfull.
      intros x (g & _ & [=] & _).
  - set (l := k :: k' :: keys).
    destruct (FieldGroupSet.field_bitmap_groups_map_ s !! field) as [g|] eqn:E.
    + destruct (field_copy_spec s field l g E (Hwf g eq_refl)) as (b & Hcopy & Hw & He);
        [discriminate|].
      rewrite Hcopy. cbn [fst].
      destruct (exclude_from_full n b Hw) as [Hw' He'].
      split; [exact Hw'|]. intros x. rewrite He', He. split.
      * intros [Hr Hx]. split; [exact Hr|]. intros (g0 & k0 & [= <-] & Hk0 & Hx0).
        apply Hx. exists k0. auto.
      * intros [Hr Hx]. split; [exact Hr|]. intros (k0 & Hk0 & Hx0). apply Hx.
        exists g, k0. auto.
    + rewrite (field_copy_unknown s field l E). unfold l. cbn [fst].
      destruct (exclude_from_full n Bitmap.new wf_new) as [Hw' He'].
      split; [exact Hw'|]. intros x. rewrite He', elems_new. split.
      * intros [Hr _]. split; [exact Hr|]. intros (g & _ & [=] & _).
      * intros [Hr _]. split; [exact Hr|]. apply not_elem_of_empty.
Qed.

(** X26. [make_field_prefix_copy] returns the union of the bitmaps of
    the keys of the field that start with the prefix (with a slash put in
    front of it on a path field), and [make_field_contains_copy] the union
    of the bitmaps of the keys that contain the substring; each returns a
    null pointer exactly when no key of the field matches. *)
Theorem X26_prefix_and_contains_copies (s : @FieldGroupSet.t F)
    (field pattern : str) (g : group) :
  FieldGroupSet.field_bitmap_groups_map_ s !! field = Some g ->
  FieldGroup.wf g ->
  let prefix := if FieldGroupSet.is_path_field_name s field
                then normalize_path_key pattern else pattern in
  match FieldGroupSet.make_field_prefix_copy s field pattern with
  | None => forall k, is_Some (bitmap_group_ g !! k) ->
                      ~ exists rest, k = prefix ++ rest
  | Some b =>
      Bitmap.wf b
      /\ (exists k rest, is_Some (bitmap_group_ g !! k) /\ k = prefix ++ rest)
      /\ forall x, x ∈ Bitmap.elems b
                   <-> exists k rest, k = prefix ++ rest /\ x ∈ bits g k
  end
  /\ match FieldGroupSet.make_field_contains_copy s field pattern with
     | None => forall k, is_Some (bitmap_group_ g !! k) ->
                         ~ exists pre post, k = pre ++ pattern ++ post
     | Some b =>
         Bitmap.wf b
         /\ (exists k pre post,
                is_Some (bitmap_group_ g !! k) /\ k = pre ++ pattern ++ post)
         /\ forall x, x ∈ Bitmap.elems b
                      <-> exists k pre post,
                          k = pre ++ pattern ++ post /\ x ∈ bits g k
     end.
Proof.
  intros E Hg prefix. split.
  - unfold FieldGroupSet.make_field_prefix_copy. rewrite E.
    change (match pattern with
            | [] => pattern
            | c :: _ => if bool_decide (c = DirIndex.slash) then pattern
                        else DirIndex.slash :: pattern
            end) with (normalize_path_key pattern).
    fold prefix. unfold get_bitmap_by_prefix.
    pose proof (union_matching_spec (fun key => starts_with key prefix) g Hg) as Hm.
    destruct (union_matching _ g) as [b|].
    + destruct Hm as (Hw & (k & Hk & Hs) & He). split; [exact Hw|]. split.
      * apply starts_with_spec in Hs as [rest ->]. exists (prefix ++ rest), rest. auto.
      * intros x. rewrite He. split.
        -- intros (k0 & Hs0 & Hx). apply starts_with_spec in Hs0 as [rest ->].
           exists (prefix ++ rest), rest. auto.
        -- intros (k0 & rest & -> & Hx). exists (prefix ++ rest).
           split; [apply starts_with_spec; exists rest; reflexivity|exact Hx].
    + intros k Hk Hex. apply starts_with_spec in Hex. rewrite (Hm k Hk) in Hex.
      discriminate.
  - unfold FieldGroupSet.make_field_contains_copy. rewrite E.
    unfold get_bitmap_by_contains.
    pose proof (union_matching_spec (fun key => contains key pattern) g Hg) as Hm.
    destruct (union_matching _ g) as [b|].
    + destruct Hm as (Hw & (k & Hk & Hs) & He). split; [exact Hw|]. split.
      * apply contains_spec in Hs as (pre & post & ->).
        exists (pre ++ pattern ++ post), pre, post. auto.
      * intros x. rewrite He. split.
        -- intros (k0 & Hs0 & Hx). apply contains_spec in Hs0 as (pre & post & ->).
           exists (pre ++ pattern ++ post), pre, post. auto.
        -- intros (k0 & pre & post & -> & Hx). exists (pre ++ pattern ++ post).
           split; [apply contains_spec; exists pre, post; reflexivity|exact Hx].
    + intros k Hk Hex. apply contains_spec in Hex. rewrite (Hm k Hk) in Hex.
      discriminate.
Qed.

(** ** The maps of field strings of a row *)

Lemma set_bits_insert (s : @FieldGroupSet.t F) (f0 : str) (g' : group) (f k : str) :
  FieldGroupSet.bits
    (FieldGroupSet.with_groups s
       (<[f0 := g']> (FieldGroupSet.field_bitmap_groups_map_ s))) f k
  = if decide (f = f0) then bits g' k else FieldGroupSet.bits s f k.
Proof.
  unfold FieldGroupSet.bits, FieldGroupSet.with_groups. cbn.
  destruct (decide (f = f0)) as [->|Hne].
  - rewrite lookup_insert_eq. reflexivity.
  - rewrite lookup_insert_ne by congruence. reflexivity.
Qed.

Lemma set_wf_insert (s : @FieldGroupSet.t F) (f0 : str) (g' : group) :
  FieldGroupSet.wf s -> FieldGroup.wf g' ->
  FieldGroupSet.wf
    (FieldGroupSet.with_groups s
       (<[f0 := g']> (FieldGroupSet.field_bitmap_groups_map_ s))).
Proof.
  intros Hs Hg f g. unfold FieldGroupSet.with_groups. cbn.
  destruct (decide (f = f0)) as [->|Hne].
  - rewrite lookup_insert_eq. intros [= <-]. exact Hg.
  - rewrite lookup_insert_ne by congruence. apply Hs.
Qed.

Lemma not_in_rest (f0 v0 : str) (rest : list (str * str)) (f v : str) :
  NoDup (map fst ((f0, v0) :: rest)) -> (f, v) ∈ rest -> f <> f0.
Proof.
  intros Hnd Hin ->. cbn in Hnd. apply NoDup_cons in Hnd as [Hn _].
  apply Hn. apply list_elem_of_fmap. exists (f0, v). auto.
Qed.

Lemma add_loop_spec (offset : Z) (kvs : list (str * str)) :
  0 <= offset < 2 ^ 31 - 1 ->
  forall s : @FieldGroupSet.t F,
    FieldGroupSet.wf s -> NoDup (map fst kvs) ->
    (FieldGroupSet.add_loop kvs offset s 0).1 = 0
    /\ FieldGroupSet.wf (FieldGroupSet.add_loop kvs offset s 0).2
    /\ FieldGroupSet.element_size_ (FieldGroupSet.add_loop kvs offset s 0).2
       = FieldGroupSet.element_size_ s
    /\ FieldGroupSet.field_names_ (FieldGroupSet.add_loop kvs offset s 0).2
       = FieldGroupSet.field_names_ s
    /\ forall f k x,
         x ∈ FieldGroupSet.bits (FieldGroupSet.add_loop kvs offset s 0).2 f k
         <-> x ∈ FieldGroupSet.bits s f k
             \/ (x = offset /\ f ∈ FieldGroupSet.field_names_ s
                 /\ exists v g,
                     (f, v) ∈ kvs
                     /\ FieldGroupSet.field_bitmap_groups_map_ s !! f = Some g
                     /\ k ∈ field_keys g v).
Proof.
  intros Ho. induction kvs as [|[f0 v0] rest IH]; intros s Hs Hnd.
  - cbn. split; [reflexivity|]. split; [exact Hs|]. split; [reflexivity|].
    split; [reflexivity|]. intros f k x. split; [auto|].
    intros [Hx|(_ & _ & v & g & Hin & _)]; [exact Hx|inversion Hin].
  - assert (Hnd' : NoDup (map fst rest)) by (cbn in Hnd; apply NoDup_cons in Hnd; tauto).
    assert (Hskip :
              (forall g, FieldGroupSet.field_bitmap_groups_map_ s !! f0 = Some g ->
                         f0 ∉ FieldGroupSet.field_names_ s) ->
              FieldGroupSet.add_loop ((f0, v0) :: rest) offset s 0
              = FieldGroupSet.add_loop rest offset s 0).
    { intros Hno. cbn [FieldGroupSet.add_loop]. unfold FieldGroupSet.find_field_group.
      destruct (decide (f0 ∈ FieldGroupSet.field_names_ s)) as [Hin|Hout].
      - rewrite (bool_decide_eq_true_2 _ Hin). cbn [negb].
        destruct (FieldGroupSet.field_bitmap_groups_map_ s !! f0) as [g|] eqn:E;
          [|reflexivity].
        exfalso. exact (Hno g eq_refl Hin).
      - rewrite (bool_decide_eq_false_2 _ Hout). reflexivity. }
    destruct (decide (f0 ∈ FieldGroupSet.field_names_ s)) as [Hin|Hout];
      [destruct (FieldGroupSet.field_bitmap_groups_map_ s !! f0) as [g|] eqn:E|].
    + (* the field is registered and has a group *)
      cbn [FieldGroupSet.add_loop]. unfold FieldGroupSet.find_field_group.
      rewrite (bool_decide_eq_true_2 _ Hin), E. cbn [negb].
      destruct (add_field_data_spec g v0 offset (Hs f0 g E) Ho)
        as (Hr & Hw & _ & _ & Hb).
      destruct (add_field_data g v0 offset) as [ret' g'] eqn:Ea. cbn [fst snd] in *.
      subst ret'. cbn [Z.eqb negb].
      set (s' := FieldGroupSet.with_groups s _).
      destruct (IH s' (set_wf_insert s f0 g' Hs Hw) Hnd') as (Hr1 & Hw1 & He1 & Hn1 & Hb1).
      split; [exact Hr1|]. split; [exact Hw1|]. split; [exact He1|].
      split; [exact Hn1|]. intros f k x. rewrite Hb1. unfold s' at 1.
      rewrite set_bits_insert. split.
      * intros [Hx|(-> & Hf & v & g1 & Hv & Eg & Hk)].
        -- destruct (decide (f = f0)) as [->|Hne]; [|left; exact Hx].
           apply Hb in Hx as [Hx|[-> Hk]].
           ++ left. unfold FieldGroupSet.bits. rewrite E. exact Hx.
           ++ right. split; [reflexivity|]. split; [exact Hin|].
              exists v0, g. split; [apply list_elem_of_here|auto].
        -- right. split; [reflexivity|]. split; [exact Hf|].
           pose proof (not_in_rest f0 v0 rest f v Hnd Hv) as Hne.
           unfold s' in Eg. cbn in Eg. rewrite lookup_insert_ne in Eg by congruence.
           exists v, g1. split; [apply list_elem_of_further, Hv|auto].
      * intros [Hx|(-> & Hf & v & g1 & Hv & Eg & Hk)].
        -- left. destruct (decide (f = f0)) as [->|Hne]; [|exact Hx].
           apply Hb. left. unfold FieldGroupSet.bits in Hx. rewrite E in Hx. exact Hx.
        -- apply elem_of_cons in Hv as [[= -> ->]|Hv].
           ++ left. rewrite decide_True by reflexivity. apply Hb. right.
              rewrite E in Eg. injection Eg as <-. auto.
           ++ right. split; [reflexivity|]. split; [exact Hf|].
              pose proof (not_in_rest f0 v0 rest f v Hnd Hv) as Hne.
              exists v, g1. split; [exact Hv|]. split; [|exact Hk].
              unfold s'. cbn. rewrite lookup_insert_ne by congruence. exact Eg.
    + (* registered, no group *)
      rewrite Hskip by (intros g0 [=]).
      destruct (IH s Hs Hnd') as (Hr1 & Hw1 & He1 & Hn1 & Hb1).
      split; [exact Hr1|]. split; [exact Hw1|]. split; [exact He1|].
      split; [exact Hn1|]. intros f k x. rewrite Hb1. split.
      * intros [Hx|(-> & Hf & v & g1 & Hv & Eg & Hk)]; [left; exact Hx|].
        right. split; [reflexivity|]. split; [exact Hf|].
        exists v, g1. split; [apply list_elem_of_further, Hv|auto].
      * intros [Hx|(-> & Hf & v & g1 & Hv & Eg & Hk)]; [left; exact Hx|].
        apply elem_of_cons in Hv as [[= -> ->]|Hv]; [congruence|].
        right. split; [reflexivity|]. split; [exact Hf|]. exists v, g1. auto.
    + (* not registered *)
      rewrite Hskip by (intros g0 _; exact Hout).
      destruct (IH s Hs Hnd') as (Hr1 & Hw1 & He1 & Hn1 & Hb1).
      split; [exact Hr1|]. split; [exact Hw1|]. split; [exact He1|].
      split; [exact Hn1|]. intros f k x. rewrite Hb1. split.
      * intros [Hx|(-> & Hf & v & g1 & Hv & Eg & Hk)]; [left; exact Hx|].
        right. split; [reflexivity|]. split; [exact Hf|].
        exists v, g1. split; [apply list_elem_of_further, Hv|auto].
      * intros [Hx|(-> & Hf & v & g1 & Hv & Eg & Hk)]; [left; exact Hx|].
        apply elem_of_cons in Hv as [[= -> ->]|Hv]; [exfalso; exact (Hout Hf)|].
        right. split; [reflexivity|]. split; [exact Hf|]. exists v, g1. auto.
Qed.

Lemma delete_loop_spec (offset : Z) (kvs : list (str * str)) :
  0 <= offset < 2 ^ 31 ->
  forall (s : @FieldGroupSet.t F) (ret : Z),
    FieldGroupSet.wf s -> NoDup (map fst kvs) ->
    FieldGroupSet.wf (FieldGroupSet.delete_loop kvs offset s ret).2
    /\ FieldGroupSet.element_size_ (FieldGroupSet.delete_loop kvs offset s ret).2
       = FieldGroupSet.element_size_ s
    /\ forall f k x,
         x ∈ FieldGroupSet.bits (FieldGroupSet.delete_loop kvs offset s ret).2 f k
         <-> x ∈ FieldGroupSet.bits s f k
             /\ ~ (x = offset
                   /\ exists v g,
                       (f, v) ∈ kvs
                       /\ FieldGroupSet.field_bitmap_groups_map_ s !! f = Some g
                       /\ offset < element_size_ g
                       /\ k ∈ field_keys g v).
Proof.
  intros Ho. induction kvs as [|[f0 v0] rest IH]; intros s ret Hs Hnd.
  - cbn. split; [exact Hs|]. split; [reflexivity|]. intros f k x.
    split; [|tauto]. intros Hx. split; [exact Hx|].
    intros (_ & v & g & Hin & _). inversion Hin.
  - assert (Hnd' : NoDup (map fst rest)) by (cbn in Hnd; apply NoDup_cons in Hnd; tauto).
    cbn [FieldGroupSet.delete_loop]. unfold FieldGroupSet.find_field_group.
    destruct (FieldGroupSet.field_bitmap_groups_map_ s !! f0) as [g|] eqn:E.
    + destruct (delete_field_data_spec g v0 offset (Hs f0 g E) Ho) as [Hout Hin].
      destruct (delete_field_data g v0 offset) as [ret' g'] eqn:Ed. cbn [fst snd] in *.
      set (s' := FieldGroupSet.with_groups s _).
      assert (Hg' : FieldGroup.wf g'
                    /\ forall k x, x ∈ bits g' k
                                   <-> x ∈ bits g k
                                       /\ ~ (x = offset /\ offset < element_size_ g
                                             /\ k ∈ field_keys g v0)).
      { destruct (Z_lt_le_dec offset (element_size_ g)) as [Hlt|Hge].
        - destruct (Hin Hlt) as (_ & Hw & _ & _ & _ & Hb). split; [exact Hw|].
          intros k x. rewrite Hb. tauto.
        - specialize (Hout Hge). injection Hout as _ ->. split; [exact (Hs f0 g E)|].
          intros k x. split; [|tauto]. intros Hx. split; [exact Hx|]. lia. }
      destruct Hg' as [Hw Hb].
      destruct (IH s' ret' (set_wf_insert s f0 g' Hs Hw) Hnd') as (Hw1 & He1 & Hb1).
      split; [exact Hw1|]. split; [exact He1|]. intros f k x. rewrite Hb1.
      unfold s' at 1. rewrite set_bits_insert. split.
      * intros [Hx Hno]. destruct (decide (f = f0)) as [->|Hne].
        -- apply Hb in Hx as [Hx Hno0]. split;
             [unfold FieldGroupSet.bits; rewrite E; exact Hx|].
           intros (-> & v & g1 & Hv & Eg & Hlt & Hk).
           apply elem_of_cons in Hv as [[= ->]|Hv].
           ++ rewrite E in Eg. injection Eg as <-. apply Hno0. auto.
           ++ exact (not_in_rest f0 v0 rest f0 v Hnd Hv eq_refl).
        -- split; [exact Hx|]. intros (-> & v & g1 & Hv & Eg & Hlt & Hk).
           apply elem_of_cons in Hv as [[= -> ->]|Hv]; [congruence|].
           apply Hno. split; [reflexivity|]. exists v, g1. split; [exact Hv|].
           split; [|auto]. unfold s'. cbn. rewrite lookup_insert_ne by congruence.
           exact Eg.
      * intros [Hx Hno]. split.
        -- destruct (decide (f = f0)) as [->|Hne]; [|exact Hx].
           apply Hb. unfold FieldGroupSet.bits in Hx. rewrite E in Hx.
           split; [exact Hx|]. intros (-> & Hlt & Hk). apply Hno.
           split; [reflexivity|]. exists v0, g. split; [apply list_elem_of_here|auto].
        -- intros (-> & v & g1 & Hv & Eg & Hlt & Hk).
           pose proof (not_in_rest f0 v0 rest f v Hnd Hv) as Hne.
           unfold s' in Eg. cbn in Eg. rewrite lookup_insert_ne in Eg by congruence.
           apply Hno. split; [reflexivity|]. exists v, g1.
           split; [apply list_elem_of_further, Hv|auto].
    + destruct (IH s ret Hs Hnd') as (Hw1 & He1 & Hb1).
      split; [exact Hw1|]. split; [exact He1|]. intros f k x. rewrite Hb1. split.
      * intros [Hx Hno]. split; [exact Hx|].
        intros (-> & v & g1 & Hv & Eg & Hlt & Hk).
        apply elem_of_cons in Hv as [[= -> ->]|Hv]; [congruence|].
        apply Hno. split; [reflexivity|]. exists v, g1. auto.
      * intros [Hx Hno]. split; [exact Hx|].
        intros (-> & v & g1 & Hv & Eg & Hlt & Hk). apply Hno.
        split; [reflexivity|]. exists v, g1.
        split; [apply list_elem_of_further, Hv|auto].
Qed.

(** X27. [add_field_data] of the set with the field strings of a row
    returns 0 and sets the offset, for every field of the map that is
    registered and has a group, in the bitmaps of the keys of its string;
    fields that are not registered are ignored, no other offset changes
    and [element_size_] becomes at least [offset + 1].
    [delete_field_data] refuses an offset that is not below
    [element_size_] with -1 and changes nothing; otherwise it unsets the
    offset in the bitmaps of the keys of the strings in the fields whose
    own [element_size_] is above the offset, and changes no other
    offset. *)
Theorem X27_row_strings_reach_the_fields (s : @FieldGroupSet.t F)
    (str_kv_map : list (str * str)) (offset : Z) :
  FieldGroupSet.wf s -> NoDup (map fst str_kv_map) ->
  0 <= offset < 2 ^ 31 - 1 ->
  ((FieldGroupSet.add_field_data s str_kv_map offset).1 = 0
   /\ FieldGroupSet.wf (FieldGroupSet.add_field_data s str_kv_map offset).2
   /\ FieldGroupSet.element_size_ (FieldGroupSet.add_field_data s str_kv_map offset).2
      = Z.max (FieldGroupSet.element_size_ s) (offset + 1)
   /\ forall f k x,
        x ∈ FieldGroupSet.bits (FieldGroupSet.add_field_data s str_kv_map offset).2 f k
        <-> x ∈ FieldGroupSet.bits s f k
            \/ (x = offset /\ f ∈ FieldGroupSet.field_names_ s
                /\ exists v g,
                    (f, v) ∈ str_kv_map
                    /\ FieldGroupSet.field_bitmap_groups_map_ s !! f = Some g
                    /\ k ∈ field_keys g v))
  /\ (FieldGroupSet.element_size_ s <= offset ->
      FieldGroupSet.delete_field_data s str_kv_map offset = (-1, s))
  /\ (offset < FieldGroupSet.element_size_ s ->
      FieldGroupSet.wf (FieldGroupSet.delete_field_data s str_kv_map offset).2
      /\ FieldGroupSet.element_size_
           (FieldGroupSet.delete_field_data s str_kv_map offset).2
         = FieldGroupSet.element_size_ s
      /\ forall f k x,
           x ∈ FieldGroupSet.bits
                 (FieldGroupSet.delete_field_data s str_kv_map offset).2 f k
           <-> x ∈ FieldGroupSet.bits s f k
               /\ ~ (x = offset
                     /\ exists v g,
                         (f, v) ∈ str_kv_map
                         /\ FieldGroupSet.field_bitmap_groups_map_ s !! f = Some g
                         /\ offset < element_size_ g
                         /\ k ∈ field_keys g v)).
Proof.
  intros Hs Hnd Ho. split; [|split].
  - unfold FieldGroupSet.add_field_data.
    destruct (add_loop_spec offset str_kv_map Ho s Hs Hnd) as (Hr & Hw & He & _ & Hb).
    destruct (FieldGroupSet.add_loop str_kv_map offset s 0) as [ret s1].
    cbn [fst snd] in *. split; [exact Hr|]. split; [exact Hw|].
    split; [cbn; rewrite He, size_after_small by exact Ho; reflexivity|exact Hb].
  - intros Hge. unfold FieldGroupSet.delete_field_data.
    rewrite to_uint64_small by lia.
    destruct (Z.geb_spec offset (FieldGroupSet.element_size_ s)); [reflexivity|lia].
  - intros Hlt. unfold FieldGroupSet.delete_field_data.
    rewrite to_uint64_small by lia.
    destruct (Z.geb_spec offset (FieldGroupSet.element_size_ s)); [lia|].
    apply delete_loop_spec; [lia|exact Hs|exact Hnd].
Qed.

End Group.

Lemma tag_group_wf :
  FieldGroup.wf (FieldGroup.new (F := zfloat) [] (FieldGroupSet.chars "tag")
                   kBitmapGroupBitmaps).
Proof. intros k b. cbn. rewrite lookup_empty. discriminate. Qed.

Lemma X21_add_field_data_sets_the_offset_witness :
  (add_field_data (FieldGroup.new (F := zfloat) [] (FieldGroupSet.chars "tag")
                     kBitmapGroupBitmaps) (FieldGroupSet.chars "a;b") 3).1 = 0.
Proof.
  exact (proj1 (X21_add_field_data_sets_the_offset _ (FieldGroupSet.chars "a;b") 3
                  tag_group_wf ltac:(lia))).
Defined.

Lemma X22_delete_field_data_unsets_the_offset_witness :
  delete_field_data (FieldGroup.new (F := zfloat) [] (FieldGroupSet.chars "tag")
                       kBitmapGroupBitmaps) (FieldGroupSet.chars "a;b") 3
  = (-1, FieldGroup.new [] (FieldGroupSet.chars "tag") kBitmapGroupBitmaps).
Proof.
  apply (proj1 (X22_delete_field_data_unsets_the_offset _ (FieldGroupSet.chars "a;b") 3
                  tag_group_wf ltac:(lia))).
  cbn. lia.
Defined.

Lemma sample_calls_ok : Forall path_call FieldGroupSet.sample_calls.
Proof.
  repeat (apply Forall_cons; split;
          [split; [cbn; lia|vm_compute; repeat constructor]|]).
  constructor.
Qed.

Lemma X23_path_query_finds_the_keys_below_witness :
  exists b,
    FieldGroupSet.make_path_field_copy FieldGroupSet.sample_set
      (FieldGroupSet.chars "path") [FieldGroupSet.chars "/a"] 1
    = (Some b, FieldGroupSet.sample_set).
Proof.
  destruct (X23_path_query_finds_the_keys_below FieldGroupSet.sample_set
              (FieldGroupSet.chars "path") [] (FieldGroupSet.chars "path")
              FieldGroupSet.sample_calls [FieldGroupSet.chars "/a"] 1)
    as (b & Hb & _).
  - vm_compute. reflexivity.
  - exact sample_calls_ok.
  - constructor; [right; vm_compute; reflexivity|constructor].
  - lia.
  - exists b. exact Hb.
Defined.

Lemma sample_lookup :
  FieldGroupSet.field_bitmap_groups_map_ FieldGroupSet.sample_set
    !! FieldGroupSet.chars "path"
  = Some FieldGroupSet.sample_group.
Proof. vm_compute. reflexivity. Qed.

Lemma sample_group_wf : FieldGroup.wf FieldGroupSet.sample_group.
Proof.
  destruct (new_dir_ok (F := zfloat) [] (FieldGroupSet.chars "path")) as (Hw0 & Hg0 & _).
  exact (proj1 (add_all_spec FieldGroupSet.sample_calls _ [] Hw0 Hg0 sample_calls_ok)).
Qed.

Lemma X24_field_copy_is_the_union_witness :
  exists (b : Bitmap.t) (g' : FieldGroup.t),
    FieldGroupSet.make_field_copy FieldGroupSet.sample_set
      (FieldGroupSet.chars "path")
      [FieldGroupSet.chars "/a"; FieldGroupSet.chars "/zzz"]
    = (Some b,
       FieldGroupSet.with_groups FieldGroupSet.sample_set
         (<[FieldGroupSet.chars "path" := g']>
            (FieldGroupSet.field_bitmap_groups_map_ FieldGroupSet.sample_set))).
Proof.
  destruct (proj2 (proj2 (X24_field_copy_is_the_union FieldGroupSet.sample_set
                            (FieldGroupSet.chars "path")
                            [FieldGroupSet.chars "/a"; FieldGroupSet.chars "/zzz"]))
              _ sample_lookup sample_group_wf ltac:(discriminate))
    as (b & g' & Hcopy & _).
  exists b, g'. exact Hcopy.
Defined.

Lemma X25_exclude_copy_is_the_complement_witness :
  Bitmap.wf (FieldGroupSet.make_field_exclude_copy FieldGroupSet.sample_set
               (FieldGroupSet.chars "path")
               [FieldGroupSet.chars "/a"; FieldGroupSet.chars "/d"]).1.
Proof.
  apply (X25_exclude_copy_is_the_complement FieldGroupSet.sample_set
           (FieldGroupSet.chars "path")
           [FieldGroupSet.chars "/a"; FieldGroupSet.chars "/d"]).
  intros g Hg. rewrite sample_lookup in Hg. injection Hg as <-.
  exact sample_group_wf.
Defined.

Lemma X26_prefix_and_contains_copies_witness :
  exists b,
    FieldGroupSet.make_field_prefix_copy FieldGroupSet.sample_set
      (FieldGroupSet.chars "path") (FieldGroupSet.chars "a") = Some b
    /\ Bitmap.wf b.
Proof.
  pose proof (proj1 (X26_prefix_and_contains_copies FieldGroupSet.sample_set
                       (FieldGroupSet.chars "path") (FieldGroupSet.chars "a")
                       FieldGroupSet.sample_group sample_lookup sample_group_wf))
    as Hp.
  match type of Hp with
  | Bitmap.wf ?b /\ _ => exists b; split; [vm_compute; reflexivity|exact (proj1 Hp)]
  end.
Defined.

Lemma sample_set_wf : FieldGroupSet.wf FieldGroupSet.sample_set.
Proof.
  intros f g E. destruct (decide (f = FieldGroupSet.chars "path")) as [->|Hne].
  - rewrite sample_lookup in E. injection E as <-. exact sample_group_wf.
  - assert (Hm : FieldGroupSet.field_bitmap_groups_map_ FieldGroupSet.sample_set
                 = <[FieldGroupSet.chars "path" := FieldGroupSet.sample_group]> ∅)
      by (vm_compute; reflexivity).
    rewrite Hm, lookup_insert_ne, lookup_empty in E by congruence. discriminate.
Qed.

Lemma X27_row_strings_reach_the_fields_witness :
  (FieldGroupSet.add_field_data FieldGroupSet.sample_set
     [(FieldGroupSet.chars "path", FieldGroupSet.chars "/e")] 5).1 = 0.
Proof.
  assert (Hnd : NoDup (map fst [(FieldGroupSet.chars "path", FieldGroupSet.chars "/e")])).
  { cbn [map fst]. apply NoDup_cons. split; [apply not_elem_of_nil|apply NoDup_nil_2]. }
  exact (proj1 (proj1 (X27_row_strings_reach_the_fields FieldGroupSet.sample_set
                         [(FieldGroupSet.chars "path", FieldGroupSet.chars "/e")] 5
                         sample_set_wf Hnd ltac:(lia)))).
Defined.

End GroupExtras.

(* ===================================================================== *)
(** * The sparse dataset: the arrays and the rows they hold                *)
(* ===================================================================== *)

Module CsrExtras.
Import Sparse SparseCSR.

Lemma map_fst_combine {A B} (l : list A) (l' : list B) :
  length l = length l' -> map fst (combine l l') = l.
Proof.
  revert l'. induction l as [|a l IH]; intros [|b l'] Hl; cbn in *;
    try discriminate; [reflexivity|]. f_equal. apply IH. lia.
Qed.

Lemma map_snd_combine {A B} (l : list A) (l' : list B) :
  length l = length l' -> map snd (combine l l') = l'.
Proof.
  revert l'. induction l as [|a l IH]; intros [|b l'] Hl; cbn in *;
    try discriminate; [reflexivity|]. f_equal. apply IH. lia.
Qed.

Lemma combine_fst_snd {A B} (r : list (A * B)) :
  combine (map fst r) (map snd r) = r.
Proof.
  induction r as [|[a b] r IH]; cbn; [reflexivity|]. rewrite IH. reflexivity.
Qed.

(** ** The three operations on a vector of [update] *)

Lemma copy_at_middle {A} (src a b c : list A) :
  length src = length b ->
  copy_at src (a ++ b ++ c) (Z.of_nat (length a)) = a ++ src ++ c.
Proof.
  intros Hl. unfold copy_at. rewrite Nat2Z.id, take_app_length.
  rewrite Hl, drop_app_add, drop_app_length. reflexivity.
Qed.

Lemma insert_fill_middle {A} (a b c : list A) (n : Z) (x : A) :
  insert_fill (a ++ b ++ c) (Z.of_nat (length a + length b)) n x
  = a ++ (b ++ replicate (Z.to_nat n) x) ++ c.
Proof.
  unfold insert_fill. rewrite Nat2Z.id.
  rewrite take_app_add, take_app_length, drop_app_add, drop_app_length.
  rewrite <- !app_assoc. reflexivity.
Qed.

Lemma erase_range_middle {A} (a b c : list A) (n : nat) :
  (n <= length b)%nat ->
  erase_range (a ++ b ++ c) (Z.of_nat (length a + n)) (Z.of_nat (length a + length b))
  = a ++ take n b ++ c.
Proof.
  intros Hn. unfold erase_range. rewrite !Nat2Z.id.
  rewrite take_app_add, take_app_le by exact Hn.
  rewrite drop_app_add, drop_app_length, <- app_assoc. reflexivity.
Qed.

Lemma slice_middle {A} (a b c : list A) :
  slice (a ++ b ++ c) (Z.of_nat (length a)) (Z.of_nat (length a + length b)) = b.
Proof.
  unfold slice. rewrite !Nat2Z.id, drop_app_length.
  replace (length a + length b - length a)%nat with (length b) by lia.
  apply take_app_length.
Qed.

Lemma copy_at_eq {A} (src a b c : list A) (pos : Z) :
  pos = Z.of_nat (length a) -> length src = length b ->
  copy_at src (a ++ b ++ c) pos = a ++ src ++ c.
Proof. intros ->. apply copy_at_middle. Qed.

Lemma insert_fill_eq {A} (a b c : list A) (pos n : Z) (x : A) :
  pos = Z.of_nat (length a + length b) ->
  insert_fill (a ++ b ++ c) pos n x = a ++ (b ++ replicate (Z.to_nat n) x) ++ c.
Proof. intros ->. apply insert_fill_middle. Qed.

Lemma erase_range_eq {A} (a b c : list A) (first last : Z) (n : nat) :
  first = Z.of_nat (length a + n) -> last = Z.of_nat (length a + length b) ->
  (n <= length b)%nat ->
  erase_range (a ++ b ++ c) first last = a ++ take n b ++ c.
Proof. intros -> ->. apply erase_range_middle. Qed.

Section CSR.
Context {F : Type} `{FloatOps F}.

Local Abbreviation dataset := (@SparseCSR.t F).
Local Abbreviation rows := (SparseDataset F).

(** ** The offsets *)

Lemma total_nil : total (F := F) [] = 0.
Proof. reflexivity. Qed.

Lemma total_cons (r : list (Z * F)) (rs : rows) :
  total (r :: rs) = Z.of_nat (length r) + total rs.
Proof. unfold total. cbn [concat]. rewrite length_app. lia. Qed.

Lemma total_app (a b : rows) : total (a ++ b) = total a + total b.
Proof. unfold total. rewrite concat_app, length_app. lia. Qed.

Lemma total_nonneg (rs : rows) : 0 <= total rs.
Proof. unfold total. lia. Qed.

Lemma length_ends (rs : rows) : forall s, length (ends s rs) = length rs.
Proof. induction rs as [|r rs IH]; intros s; cbn; [reflexivity|]. rewrite IH. reflexivity. Qed.

Lemma ends_app (a b : rows) :
  forall s, ends s (a ++ b) = ends s a ++ ends (s + total a) b.
Proof.
  induction a as [|r a IH]; intros s; cbn [app ends].
  - rewrite total_nil, Z.add_0_r. reflexivity.
  - rewrite IH, total_cons, Z.add_assoc. reflexivity.
Qed.

Lemma ends_shift (b : rows) (d0 : Z) :
  forall s, map (fun o => o + d0) (ends s b) = ends (s + d0) b.
Proof.
  induction b as [|r b IH]; intros s; cbn [ends map]; [reflexivity|].
  rewrite IH. f_equal; [lia|]. f_equal. lia.
Qed.

Lemma ends_bounds (b : rows) :
  forall s, Forall (fun o => s <= o <= s + total b) (ends s b).
Proof.
  induction b as [|r b IH]; intros s; cbn [ends]; [constructor|].
  rewrite total_cons. pose proof (total_nonneg b) as Hb. constructor; [lia|].
  eapply Forall_impl; [apply IH|]. cbn. intros o Ho. lia.
Qed.

(** A dataset cut at one of its rows. *)
Lemma holds_cut (d : dataset) (pre post : rows) (r : list (Z * F)) :
  holds d (pre ++ r :: post) ->
  flat_indices_ d
  = map fst (concat pre) ++ map fst r ++ map fst (concat post)
  /\ flat_values_ d
     = map snd (concat pre) ++ map snd r ++ map snd (concat post)
  /\ offsets_ d
     = (0 :: ends 0 pre)
       ++ (total pre + Z.of_nat (length r))
          :: ends (total pre + Z.of_nat (length r)) post.
Proof.
  intros [Hi Hv Ho He]. rewrite Hi, Hv, Ho.
  rewrite concat_app, !map_app. cbn [concat]. rewrite !map_app.
  rewrite ends_app. cbn [ends]. rewrite Z.add_0_l. auto.
Qed.

Lemma offsets_lookup (pre : rows) (tail : list Z) :
  nth (length pre) ((0 :: ends 0 pre) ++ tail) 0 = total pre.
Proof.
  destruct pre as [|r0 pre0] using rev_ind; [reflexivity|].
  rewrite ends_app. cbn [ends]. rewrite Z.add_0_l, length_app. cbn [length].
  replace (length pre0 + 1)%nat with (S (length pre0)) by lia. cbn [app nth].
  rewrite <- app_assoc, app_nth2; rewrite length_ends; [|lia].
  rewrite Nat.sub_diag. cbn. rewrite total_app, total_cons, total_nil. lia.
Qed.

Lemma size_rows (d : dataset) (rs : rows) :
  holds d rs -> Z.of_nat (length rs) < 2 ^ 63 -> size d = Z.of_nat (length rs).
Proof.
  intros [_ _ Ho _] Hn. unfold size. rewrite Ho. cbn [length].
  rewrite length_ends.
  replace (Z.of_nat (S (length rs)) - 1) with (Z.of_nat (length rs)) by lia.
  apply to_uint64_small. lia.
Qed.

Lemma to_long_small (z : Z) : - 2 ^ 63 <= z < 2 ^ 63 -> to_long z = z.
Proof.
  intros Hz. unfold to_long. rewrite Z.mod_small by lia. lia.
Qed.

Lemma append_holds (d : dataset) (rs : rows) (dp : SparseDatapoint F) :
  holds d rs -> total rs + Z.of_nat (length (dp_indices dp)) < 2 ^ 63 ->
  exists d', SparseCSR.append d dp = ((Sparse.append rs dp).1, d')
             /\ holds d' (Sparse.append rs dp).2.
Proof.
  intros Hd Hsmall. unfold SparseCSR.append, Sparse.append.
  destruct (length (dp_values dp) =? length (dp_indices dp))%nat eqn:El; cbn [negb].
  2:{ exists d. split; [reflexivity|exact Hd]. }
  apply Nat.eqb_eq in El. destruct Hd as [Hi Hv Ho He].
  pose proof (total_nonneg rs) as Hnn.
  rewrite He, to_uint64_small by lia.
  destruct (Z.gtb_spec (total rs + Z.of_nat (length (dp_indices dp))) size_max)
    as [Hgt|_]; [unfold size_max in Hgt; lia|].
  eexists. split; [reflexivity|]. cbn [fst snd]. unfold row_of.
  assert (Hlen : length (combine (dp_indices dp) (dp_values dp))
                 = length (dp_indices dp))
    by (rewrite length_combine; lia).
  split; cbn.
  - rewrite concat_app, map_app. cbn [concat]. rewrite app_nil_r.
    rewrite map_fst_combine by lia. rewrite Hi. reflexivity.
  - rewrite concat_app, map_app. cbn [concat]. rewrite app_nil_r.
    rewrite map_snd_combine by lia. rewrite Hv. reflexivity.
  - rewrite Ho, ends_app. cbn [ends app]. rewrite Z.add_0_l, Hlen. reflexivity.
  - rewrite total_app, total_cons, total_nil, Hlen. lia.
Qed.

Lemma pop_back_holds (d : dataset) (rs : rows) :
  holds d rs -> total rs < 2 ^ 63 ->
  exists d', SparseCSR.pop_back d = (0, d') /\ holds d' (Sparse.pop_back rs).
Proof.
  intros Hd Hsmall. unfold SparseCSR.pop_back, Sparse.pop_back.
  destruct rs as [|r0 pre] using rev_ind.
  - destruct Hd as [Hi Hv Ho He]. rewrite Ho. cbn.
    exists d. split; [reflexivity|]. split; assumption.
  - clear IHpre. rewrite removelast_last.
    destruct (holds_cut d pre [] r0 Hd) as (Hi & Hv & Ho).
    destruct Hd as [_ _ _ He].
    assert (Hlen : length (offsets_ d) = S (S (length pre))).
    { rewrite Ho, length_app. cbn [length ends]. rewrite length_ends. lia. }
    rewrite Hlen. cbn [Nat.leb].
    assert (Hstart : offset_at d (Z.of_nat (S (S (length pre))) - 2) = total pre).
    { unfold offset_at. replace (Z.to_nat (Z.of_nat (S (S (length pre))) - 2))
        with (length pre) by lia.
      rewrite Ho. apply offsets_lookup. }
    assert (Hlast : List.last (offsets_ d) 0 = total pre + Z.of_nat (length r0)).
    { rewrite Ho. cbn [ends]. apply last_last. }
    rewrite Hstart, Hlast.
    rewrite total_app, total_cons, total_nil in He, Hsmall.
    pose proof (total_nonneg pre) as Hnn.
    replace (total pre + Z.of_nat (length r0) - total pre)
      with (Z.of_nat (length r0)) by lia.
    rewrite (to_uint64_small (Z.of_nat (length r0))) by lia.
    eexists. split; [reflexivity|]. split; cbn.
    + destruct (Z.gtb_spec (Z.of_nat (length r0)) 0) as [Hpos|Hz].
      * rewrite Hi. unfold total. rewrite Nat2Z.id.
        rewrite <- (length_map fst (concat pre)). apply take_app_length.
      * destruct r0; [|cbn in Hz; lia]. rewrite Hi. cbn. rewrite app_nil_r.
        reflexivity.
    + destruct (Z.gtb_spec (Z.of_nat (length r0)) 0) as [Hpos|Hz].
      * rewrite Hv. unfold total. rewrite Nat2Z.id.
        rewrite <- (length_map snd (concat pre)). apply take_app_length.
      * destruct r0; [|cbn in Hz; lia]. rewrite Hv. cbn. rewrite app_nil_r.
        reflexivity.
    + rewrite Ho. cbn [ends]. apply removelast_last.
    + rewrite He.
      replace (total pre + (Z.of_nat (length r0) + 0) - Z.of_nat (length r0))
        with (total pre) by lia.
      apply to_uint64_small. lia.
Qed.

(** The row [idx] and the offsets around it. *)
Lemma row_offsets (d : dataset) (pre post : rows) (r : list (Z * F)) :
  holds d (pre ++ r :: post) ->
  offset_at d (Z.of_nat (length pre)) = total pre
  /\ offset_at d (Z.of_nat (length pre) + 1) = total pre + Z.of_nat (length r).
Proof.
  intros Hd. destruct (holds_cut d pre post r Hd) as (_ & _ & Ho).
  unfold offset_at. rewrite Ho. split.
  - rewrite Nat2Z.id. apply offsets_lookup.
  - replace (Z.to_nat (Z.of_nat (length pre) + 1)) with (S (length pre)) by lia.
    rewrite app_nth2; cbn [length]; rewrite length_ends; [|lia].
    replace (S (length pre) - S (length pre))%nat with 0%nat by lia. reflexivity.
Qed.

Lemma rows_cut (rs : rows) (idx : Z) :
  0 <= idx < Z.of_nat (length rs) ->
  exists pre r post,
    rs = pre ++ r :: post /\ length pre = Z.to_nat idx
    /\ rs !! Z.to_nat idx = Some r.
Proof.
  intros Hidx.
  destruct (lookup_lt_is_Some_2 rs (Z.to_nat idx)) as [r Er]; [lia|].
  exists (take (Z.to_nat idx) rs), r, (drop (S (Z.to_nat idx)) rs).
  split; [symmetry; apply take_drop_middle, Er|].
  split; [rewrite length_take; lia|exact Er].
Qed.

Lemma get_holds (d : dataset) (rs : rows) (idx : Z) :
  holds d rs -> Z.of_nat (length rs) < 2 ^ 63 -> total rs < 2 ^ 63 -> 0 <= idx ->
  SparseCSR.get_row d idx = Sparse.get_row rs idx
  /\ SparseCSR.get_view d idx = Sparse.get_view rs idx.
Proof.
  intros Hd Hn Hsmall Hidx.
  unfold SparseCSR.get_row, SparseCSR.get_view, Sparse.get_row, Sparse.get_view.
  rewrite (size_rows d rs Hd Hn).
  destruct (Z.geb_spec idx (Z.of_nat (length rs))) as [Hge|Hlt]; [auto|].
  destruct (rows_cut rs idx (conj Hidx Hlt)) as (pre & r & post & -> & Hpre & Er).
  rewrite Er.
  destruct (row_offsets d pre post r Hd) as [Hs He].
  destruct (holds_cut d pre post r Hd) as (Hi & Hv & _).
  replace idx with (Z.of_nat (length pre)) by lia. rewrite Hs, He.
  assert (Hfi : slice (flat_indices_ d) (total pre) (total pre + Z.of_nat (length r))
                = map fst r).
  { rewrite Hi. unfold total. rewrite <- (length_map fst (concat pre)).
    rewrite <- (length_map fst r), <- Nat2Z.inj_add. apply slice_middle. }
  assert (Hfv : slice (flat_values_ d) (total pre) (total pre + Z.of_nat (length r))
                = map snd r).
  { rewrite Hv. unfold total. rewrite <- (length_map snd (concat pre)).
    rewrite <- (length_map snd r), <- Nat2Z.inj_add. apply slice_middle. }
  rewrite total_app, total_cons in Hsmall.
  pose proof (total_nonneg pre) as Hnn. pose proof (total_nonneg post) as Hnp.
  split.
  - f_equal. destruct (Z.ltb_spec (total pre) (total pre + Z.of_nat (length r))).
    + rewrite Hfi, Hfv. reflexivity.
    + destruct r; [reflexivity|cbn [length] in *; lia].
  - cbn [fmap option_fmap option_map]. f_equal. unfold view_of.
    replace (total pre + Z.of_nat (length r) - total pre)
      with (Z.of_nat (length r)) by lia.
    rewrite to_uint64_small by lia.
    destruct (Z.eqb_spec (Z.of_nat (length r)) 0) as [Hz|Hnz].
    + destruct r; [reflexivity|cbn [length] in *; lia].
    + rewrite Hfi, Hfv, combine_fst_snd. reflexivity.
Qed.

Lemma never_above_max (z : Z) : (to_uint64 z >? size_max) = false.
Proof.
  unfold to_uint64, wrap, size_max.
  pose proof (Z.mod_pos_bound z (2 ^ 64) ltac:(lia)) as Hz.
  destruct (Z.gtb_spec (z mod 2 ^ 64) (2 ^ 64 - 1)); [lia|reflexivity].
Qed.

Lemma holds_replaced (d : dataset) (pre post : rows) (r row : list (Z * F))
    (fi : list Z) (fv : list F) (offs : list Z) (e : Z) :
  fi = map fst (concat pre) ++ map fst row ++ map fst (concat post) ->
  fv = map snd (concat pre) ++ map snd row ++ map snd (concat post) ->
  offs = (0 :: ends 0 pre)
         ++ (total pre + Z.of_nat (length row))
            :: ends (total pre + Z.of_nat (length row)) post ->
  e = total (pre ++ row :: post) ->
  holds (SparseCSR.mk e fi fv offs) (pre ++ row :: post).
Proof.
  intros -> -> -> ->. split; cbn.
  - rewrite concat_app, !map_app. cbn [concat]. rewrite map_app. reflexivity.
  - rewrite concat_app, !map_app. cbn [concat]. rewrite map_app. reflexivity.
  - rewrite ends_app. cbn [ends]. rewrite Z.add_0_l. reflexivity.
  - reflexivity.
Qed.

Lemma update_holds (d : dataset) (rs : rows) (idx : Z) (dp : SparseDatapoint F) :
  holds d rs -> Z.of_nat (length rs) < 2 ^ 63 ->
  total rs + Z.of_nat (length (dp_indices dp)) < 2 ^ 63 -> 0 <= idx ->
  match Sparse.update rs idx dp with
  | None => SparseCSR.update d idx dp = None
  | Some (ret, rs') =>
      exists d', SparseCSR.update d idx dp = Some (ret, d') /\ holds d' rs'
  end.
Proof.
  intros Hd Hn Hsmall Hidx. unfold SparseCSR.update, Sparse.update.
  rewrite (size_rows d rs Hd Hn).
  destruct (Z.geb_spec idx (Z.of_nat (length rs))) as [Hge|Hlt]; [reflexivity|].
  destruct (length (dp_values dp) =? length (dp_indices dp))%nat eqn:El; cbn [negb].
  2:{ exists d. split; [reflexivity|exact Hd]. }
  apply Nat.eqb_eq in El.
  destruct (rows_cut rs idx (conj Hidx Hlt)) as (pre & r & post & -> & Hpre & Er).
  destruct (row_offsets d pre post r Hd) as [Hs He].
  destruct (holds_cut d pre post r Hd) as (Hi & Hv & Ho).
  pose proof (holds_entries d _ Hd) as Hent.
  replace idx with (Z.of_nat (length pre)) in * by lia. clear Hpre.
  rewrite Nat2Z.id. rewrite Hs, He.
  rewrite total_app, total_cons in Hsmall, Hent.
  pose proof (total_nonneg pre) as Hnn. pose proof (total_nonneg post) as Hnp.
  set (n := length (dp_indices dp)) in *.
  replace (total pre + Z.of_nat (length r) - total pre)
    with (Z.of_nat (length r)) by lia.
  rewrite (to_uint64_small (Z.of_nat (length r))) by lia.
  rewrite (to_long_small (Z.of_nat n)), (to_long_small (Z.of_nat (length r))) by lia.
  rewrite (to_long_small (Z.of_nat n - Z.of_nat (length r))) by lia.
  rewrite never_above_max, andb_false_r.
  set (row := row_of dp).
  assert (Hrow_len : length row = n)
    by (unfold row, row_of; rewrite length_combine; lia).
  assert (Hrow_fst : map fst row = dp_indices dp)
    by (unfold row, row_of; apply map_fst_combine; lia).
  assert (Hrow_snd : map snd row = dp_values dp)
    by (unfold row, row_of; apply map_snd_combine; lia).
  assert (Hins : <[length pre := row]> (pre ++ r :: post) = pre ++ row :: post).
  { rewrite insert_app_r_alt, Nat.sub_diag by lia. reflexivity. }
  rewrite Hins.
  assert (Htp_i : total pre = Z.of_nat (length (map fst (concat pre))))
    by (unfold total; rewrite length_map; reflexivity).
  assert (Htp_v : total pre = Z.of_nat (length (map snd (concat pre))))
    by (unfold total; rewrite length_map; reflexivity).
  destruct (Z.eqb_spec (Z.of_nat n) (Z.of_nat (length r))) as [Heq|Hneq].
  - (* the row keeps its length *)
    eexists. split; [reflexivity|].
    apply (holds_replaced d pre post r row).
    + rewrite Hi, Hrow_fst. apply copy_at_eq; [exact Htp_i|]. rewrite length_map. lia.
    + rewrite Hv, Hrow_snd. apply copy_at_eq; [exact Htp_v|]. rewrite length_map. lia.
    + rewrite Ho, Hrow_len. replace (Z.of_nat n) with (Z.of_nat (length r)) by lia.
      reflexivity.
    + rewrite Hent, total_app, total_cons, Hrow_len. lia.
  - eexists. split; [reflexivity|].
    apply (holds_replaced d pre post r row).
    + rewrite Hrow_fst, Hi.
      destruct (Z.gtb_spec (Z.of_nat n - Z.of_nat (length r)) 0) as [Hpos|Hneg].
      * rewrite (insert_fill_eq (map fst (concat pre)) (map fst r))
          by (rewrite !length_map; unfold total; lia).
        apply copy_at_eq; [exact Htp_i|].
        rewrite length_app, length_replicate, length_map. lia.
      * rewrite (erase_range_eq (map fst (concat pre)) (map fst r) _ _ _ n)
          by (rewrite !length_map; unfold total; lia).
        apply copy_at_eq; [exact Htp_i|].
        rewrite length_take, length_map. lia.
    + rewrite Hrow_snd, Hv.
      destruct (Z.gtb_spec (Z.of_nat n - Z.of_nat (length r)) 0) as [Hpos|Hneg].
      * rewrite (insert_fill_eq (map snd (concat pre)) (map snd r))
          by (rewrite !length_map; unfold total; lia).
        apply copy_at_eq; [exact Htp_v|].
        rewrite length_app, length_replicate, length_map. lia.
      * rewrite (erase_range_eq (map snd (concat pre)) (map snd r) _ _ _ n)
          by (rewrite !length_map; unfold total; lia).
        apply copy_at_eq; [exact Htp_v|].
        rewrite length_take, length_map. lia.
    + rewrite Ho.
      replace (Z.to_nat (Z.of_nat (length pre) + 1))
        with (length (0 :: ends 0 pre))
        by (cbn [length]; rewrite length_ends; lia).
      rewrite take_app_length, drop_app_length. f_equal.
      rewrite Hrow_len.
      set (d0 := Z.of_nat n - Z.of_nat (length r)).
      transitivity (map (fun o => o + d0)
                      ((total pre + Z.of_nat (length r))
                       :: ends (total pre + Z.of_nat (length r)) post)).
      * apply map_ext_in. intros o Ho'. apply to_uint64_small.
        cbn [In] in Ho'. destruct Ho' as [<-|Ho']; [unfold d0; lia|].
        pose proof (ends_bounds post (total pre + Z.of_nat (length r))) as Hb.
        rewrite Forall_forall in Hb.
        specialize (Hb o (proj2 (list_elem_of_In _ _) Ho')). unfold d0. lia.
      * cbn [map]. rewrite ends_shift.
        replace (total pre + Z.of_nat (length r) + d0) with (total pre + Z.of_nat n)
          by (unfold d0; lia).
        reflexivity.
    + rewrite Hent, total_app, total_cons, Hrow_len.
      replace (total pre + (Z.of_nat (length r) + total post)
               + (Z.of_nat n - Z.of_nat (length r)))
        with (total pre + (Z.of_nat n + total post)) by lia.
      apply to_uint64_small. lia.
Qed.

(** X28. The arrays of a [SparseDataset] always hold its rows one after
    the other: [append] adds the row of the datapoint at the end, [update]
    replaces the row [idx] and moves the rows behind it, [get_row] gives
    the row [idx], [get_view] a view of it, and [pop_back] takes the last
    row away, each with the result and the exception of the same operation
    on the list of the rows.  The view counts its entries in a [uint32_t]:
    it covers the whole row when the row has fewer than 2^32 entries, and
    the first [len mod 2^32] of its [len] entries otherwise. *)
Theorem X28_csr_arrays_hold_the_rows (d : dataset) (rs : rows)
    (dp : SparseDatapoint F) (idx : Z) :
  holds d rs -> Z.of_nat (length rs) < 2 ^ 63 ->
  total rs + Z.of_nat (length (dp_indices dp)) < 2 ^ 63 -> 0 <= idx ->
  (exists d', SparseCSR.append d dp = ((Sparse.append rs dp).1, d')
              /\ holds d' (Sparse.append rs dp).2)
  /\ match Sparse.update rs idx dp with
     | None => SparseCSR.update d idx dp = None
     | Some (ret, rs') =>
         exists d', SparseCSR.update d idx dp = Some (ret, d') /\ holds d' rs'
     end
  /\ SparseCSR.get_row d idx = Sparse.get_row rs idx
  /\ SparseCSR.get_view d idx = Sparse.get_view rs idx
  /\ (forall r, rs !! Z.to_nat idx = Some r ->
        SparseCSR.get_view d idx
        = Some (take (Z.to_nat (Z.of_nat (length r) mod 2 ^ 32)) r)
        /\ (Z.of_nat (length r) < 2 ^ 32 -> SparseCSR.get_view d idx = Some r))
  /\ exists d', SparseCSR.pop_back d = (0, d') /\ holds d' (Sparse.pop_back rs).
Proof.
  intros Hd Hn Hsmall Hidx.
  assert (Ht : total rs < 2 ^ 63) by lia.
  split; [apply append_holds; assumption|].
  split; [apply update_holds; assumption|].
  destruct (get_holds d rs idx Hd Hn Ht Hidx) as [Hr Hv].
  split; [exact Hr|]. split; [exact Hv|]. split.
  - intros r Er. rewrite Hv. unfold Sparse.get_view.
    pose proof (lookup_lt_Some _ _ _ Er) as Hlt.
    replace (idx >=? Z.of_nat (length rs)) with false
      by (symmetry; rewrite Z.geb_leb; apply Z.leb_gt; lia).
    rewrite Er. cbn [fmap option_fmap option_map]. unfold view_of.
    split; [reflexivity|]. intros Hsm.
    rewrite to_uint32_small, Nat2Z.id, take_ge by lia. reflexivity.
  - apply pop_back_holds; assumption.
Qed.

End CSR.

Lemma sample_holds : holds sample sample_rows.
Proof. split; reflexivity. Qed.

Lemma X28_csr_arrays_hold_the_rows_witness :
  SparseCSR.get_row sample 1 = Sparse.get_row sample_rows 1.
Proof.
  exact (proj1 (proj2 (proj2 (X28_csr_arrays_hold_the_rows sample sample_rows
                                (mkDatapoint [3] [ZNum 1]) 1 sample_holds
                                ltac:(vm_compute; reflexivity)
                                ltac:(vm_compute; reflexivity) ltac:(lia))))).
Defined.

End CsrExtras.

(* ===================================================================== *)
(** * The squared distance of two sparse views                             *)
(* ===================================================================== *)

Module SquaredL2.
Import Sparse SparseL2 SparseMerge.

Ltac flags_eq Heq :=
  rewrite ?Heq, ?Z.eqb_refl, ?Z.ltb_irrefl, ?Z.leb_refl;
  repeat match goal with
         | |- context [?x >=? ?x] =>
             replace (x >=? x) with true by (symmetry; apply Z.geb_le; lia)
         end.

Ltac flags_lt x y :=
  replace (x =? y) with false by (symmetry; apply Z.eqb_neq; lia);
  replace (x <? y) with true by (symmetry; apply Z.ltb_lt; lia);
  replace (x <=? y) with true by (symmetry; apply Z.leb_le; lia);
  replace (x >=? y) with false
    by (symmetry; rewrite Z.geb_leb; apply Z.leb_gt; lia);
  try replace (y <? x) with false by (symmetry; apply Z.ltb_ge; lia);
  try replace (y <=? x) with false by (symmetry; apply Z.leb_gt; lia);
  try replace (y >=? x) with true by (symmetry; apply Z.geb_le; lia).

Ltac flags_gt x y :=
  replace (x =? y) with false by (symmetry; apply Z.eqb_neq; lia);
  replace (x <? y) with false by (symmetry; apply Z.ltb_ge; lia);
  replace (x <=? y) with false by (symmetry; apply Z.leb_gt; lia);
  replace (x >=? y) with true by (symmetry; apply Z.geb_le; lia);
  try replace (y <? x) with true by (symmetry; apply Z.ltb_lt; lia);
  try replace (y <=? x) with true by (symmetry; apply Z.leb_le; lia);
  try replace (y >=? x) with false
    by (symmetry; rewrite Z.geb_leb; apply Z.leb_gt; lia).

Section Lists.
Context {F : Type} `{FloatOps F}.

Local Abbreviation view := (SparseDatapointView F).

Lemma no_match_true (e : Z * F) (b : view) :
  Forall (fun e' => fst e <> fst e') b ->
  forallb (fun e' => negb (fst e =? fst e')) b = true.
Proof.
  induction 1 as [|e' b Hne _ IH]; [reflexivity|]. cbn [forallb]. rewrite IH.
  destruct (Z.eqb_spec (fst e) (fst e')); [contradiction|reflexivity].
Qed.

Lemma no_match_cons (e h : Z * F) (b : view) :
  forallb (fun e' => negb (fst e =? fst e')) (h :: b)
  = negb (fst e =? fst h) && forallb (fun e' => negb (fst e =? fst e')) b.
Proof. reflexivity. Qed.

Lemma unmatched_nil_r (a : view) : unmatched a [] = a.
Proof.
  unfold unmatched. induction a as [|e a IH]; [reflexivity|].
  change (e :: List.filter
                 (fun e0 : Z * F =>
                    forallb (fun e' : Z * F => negb (fst e0 =? fst e')) []) a
          = e :: a).
  f_equal. exact IH.
Qed.

Lemma unmatched_cons (e : Z * F) (a b : view) :
  unmatched (e :: a) b
  = (if forallb (fun e' => negb (fst e =? fst e')) b then [e] else [])
    ++ unmatched a b.
Proof.
  unfold unmatched. cbn [List.filter].
  destruct (forallb _ b); reflexivity.
Qed.

Lemma unmatched_drop_head (a : view) (h : Z * F) (b : view) :
  Forall (fun e => fst e <> fst h) a -> unmatched a (h :: b) = unmatched a b.
Proof.
  intros Ha. unfold unmatched. apply filter_ext_in. intros e He.
  rewrite Forall_forall in Ha. specialize (Ha e (proj2 (list_elem_of_In _ _) He)).
  rewrite no_match_cons.
  destruct (Z.eqb_spec (fst e) (fst h)); [contradiction|reflexivity].
Qed.

Lemma above_differs (h : Z * F) (t : view) (z : Z) :
  Forall (fun e => fst h < fst e) t -> z <= fst h ->
  Forall (fun e => fst e <> z) t.
Proof.
  intros Ht Hz. eapply Forall_impl; [exact Ht|]. cbn. intros e He. lia.
Qed.

(** The entries of the first view without a partner, when the two front
    entries are compared. *)
Lemma unmatched_front (h1 h2 : Z * F) (t1 t2 : view) :
  sorted_idx (h1 :: t1) -> sorted_idx (h2 :: t2) ->
  unmatched (h1 :: t1) (h2 :: t2)
  = (if fst h1 <? fst h2 then [h1] else [])
    ++ unmatched (if fst h1 <=? fst h2 then t1 else h1 :: t1)
                 (if fst h1 >=? fst h2 then t2 else h2 :: t2).
Proof.
  intros Hs1 Hs2.
  pose proof (sorted_idx_head_lt _ _ Hs1) as H1.
  pose proof (sorted_idx_head_lt _ _ Hs2) as H2.
  destruct (Z.compare_spec (fst h1) (fst h2)) as [Heq|Hlt|Hgt].
  - replace (fst h1 <? fst h2) with false by (symmetry; apply Z.ltb_ge; lia).
    replace (fst h1 <=? fst h2) with true by (symmetry; apply Z.leb_le; lia).
    replace (fst h1 >=? fst h2) with true by (symmetry; apply Z.geb_le; lia).
    rewrite unmatched_cons, no_match_cons, Heq, Z.eqb_refl. cbn [negb andb app].
    apply unmatched_drop_head. apply (above_differs h1); [exact H1|lia].
  - replace (fst h1 <? fst h2) with true by (symmetry; apply Z.ltb_lt; lia).
    replace (fst h1 <=? fst h2) with true by (symmetry; apply Z.leb_le; lia).
    replace (fst h1 >=? fst h2) with false
      by (symmetry; rewrite Z.geb_leb; apply Z.leb_gt; lia).
    rewrite unmatched_cons, no_match_true; [reflexivity|].
    constructor; [lia|]. eapply Forall_impl; [exact H2|]. cbn. intros e He. lia.
  - replace (fst h1 <? fst h2) with false by (symmetry; apply Z.ltb_ge; lia).
    replace (fst h1 <=? fst h2) with false by (symmetry; apply Z.leb_gt; lia).
    replace (fst h1 >=? fst h2) with true by (symmetry; apply Z.geb_le; lia).
    cbn [app]. apply unmatched_drop_head.
    constructor; [lia|]. apply (above_differs h1); [exact H1|lia].
Qed.

Lemma perm_second {A} (x : A) (a b : list A) :
  Permutation (a ++ x :: b) (x :: a ++ b).
Proof. symmetry. apply Permutation_middle. Qed.

Lemma perm_third {A} (x : A) (a b c : list A) :
  Permutation (a ++ b ++ x :: c) (x :: a ++ b ++ c).
Proof. rewrite !app_assoc. apply perm_second. Qed.

(** The terms of two views, one term taken from the front. *)
Lemma terms_front_list (h1 h2 : Z * F) (t1 t2 : view) :
  sorted_idx (h1 :: t1) -> sorted_idx (h2 :: t2) ->
  Permutation
    (all_terms (h1 :: t1) (h2 :: t2))
    ((if fst h1 =? fst h2 then Both (snd h1) (snd h2)
      else if fst h1 <? fst h2 then OnlyLeft (snd h1) else OnlyRight (snd h2))
     :: all_terms (if fst h1 <=? fst h2 then t1 else h1 :: t1)
                  (if fst h1 >=? fst h2 then t2 else h2 :: t2)).
Proof.
  intros Hs1 Hs2. unfold all_terms.
  rewrite (unmatched_front h1 h2 t1 t2 Hs1 Hs2).
  rewrite (unmatched_front h2 h1 t2 t1 Hs2 Hs1).
  destruct (Z.compare_spec (fst h1) (fst h2)) as [Heq|Hlt|Hgt].
  - rewrite (front_eq h1 h2 t1 t2 Hs1 Hs2 Heq). flags_eq Heq. reflexivity.
  - rewrite (front_lt h1 h2 t1 t2 Hs2 Hlt). flags_lt (fst h1) (fst h2).
    cbn [app map]. apply perm_second.
  - rewrite (front_gt h1 h2 t1 t2 Hs1 Hgt). flags_gt (fst h1) (fst h2).
    cbn [app map]. apply perm_third.
Qed.

Lemma seg_front_flag (a : view) (f b : Z) (c : bool) :
  0 <= f <= b -> b < Z.of_nat (length a) ->
  (if c then seg a (f + 1) b else nth (Z.to_nat f) a (0, fzero) :: seg a (f + 1) b)
  = seg a (f + b2z c) b.
Proof.
  intros Hf Hb. destruct c; cbn [b2z]; [reflexivity|].
  rewrite Z.add_0_r. symmetry. apply seg_head; assumption.
Qed.

Lemma seg_back_flag (a : view) (f b : Z) (c : bool) :
  0 <= f <= b -> b < Z.of_nat (length a) ->
  (if c then seg a f (b - 1)
   else seg a f (b - 1) ++ [nth (Z.to_nat b) a (0, fzero)])
  = seg a f (b - b2z c).
Proof.
  intros Hf Hb. destruct c; cbn [b2z]; [reflexivity|].
  rewrite Z.sub_0_r. symmetry. apply seg_last; assumption.
Qed.

Lemma terms_nil_r (s : view) :
  all_terms s [] = map (fun e => OnlyLeft (snd e)) s.
Proof.
  unfold all_terms. rewrite matching_products_nil_r, unmatched_nil_r.
  cbn. apply app_nil_r.
Qed.

Lemma terms_nil_l (s : view) :
  all_terms [] s = map (fun e => OnlyRight (snd e)) s.
Proof.
  unfold all_terms. rewrite unmatched_nil_r. reflexivity.
Qed.

(** ** The terms in the order of the indices *)

Lemma merge_nil_l (a2 : view) :
  merge_terms [] a2 = map (fun e => OnlyRight (snd e)) a2.
Proof. destruct a2; reflexivity. Qed.

Lemma merge_nil_r (a1 : view) :
  merge_terms a1 [] = map (fun e => OnlyLeft (snd e)) a1.
Proof. destruct a1; reflexivity. Qed.

Lemma merge_cons (e1 e2 : Z * F) (r1 r2 : view) :
  merge_terms (e1 :: r1) (e2 :: r2)
  = if fst e1 =? fst e2 then Both (snd e1) (snd e2) :: merge_terms r1 r2
    else if fst e1 <? fst e2 then OnlyLeft (snd e1) :: merge_terms r1 (e2 :: r2)
    else OnlyRight (snd e2) :: merge_terms (e1 :: r1) r2.
Proof. reflexivity. Qed.

(** One term taken from the front. *)
Lemma merge_front_list (h1 h2 : Z * F) (t1 t2 : view) :
  merge_terms (h1 :: t1) (h2 :: t2)
  = (if fst h1 =? fst h2 then Both (snd h1) (snd h2)
     else if fst h1 <? fst h2 then OnlyLeft (snd h1) else OnlyRight (snd h2))
    :: merge_terms (if fst h1 <=? fst h2 then t1 else h1 :: t1)
                   (if fst h1 >=? fst h2 then t2 else h2 :: t2).
Proof.
  rewrite merge_cons.
  destruct (Z.compare_spec (fst h1) (fst h2)) as [Heq|Hlt|Hgt].
  - flags_eq Heq. reflexivity.
  - flags_lt (fst h1) (fst h2). reflexivity.
  - flags_gt (fst h1) (fst h2). reflexivity.
Qed.

(** An entry above all the others goes last. *)
Lemma merge_snoc_left (x1 : Z * F) (s1 : view) :
  Forall (fun e => fst e < fst x1) s1 ->
  forall s2 : view,
    Forall (fun e => fst e < fst x1) s2 ->
    merge_terms (s1 ++ [x1]) s2 = merge_terms s1 s2 ++ [OnlyLeft (snd x1)].
Proof.
  induction 1 as [|e1 r1 He1 Hr1 IH1].
  - induction 1 as [|e2 r2 He2 Hr2 IH2]; [reflexivity|].
    cbn [app] in *. rewrite merge_cons. flags_gt (fst x1) (fst e2).
    rewrite IH2, !merge_nil_l. reflexivity.
  - induction 1 as [|e2 r2 He2 Hr2 IH2].
    + rewrite !merge_nil_r, map_app. reflexivity.
    + cbn [app] in *. rewrite !merge_cons.
      destruct (fst e1 =? fst e2).
      * rewrite (IH1 r2 Hr2). reflexivity.
      * destruct (fst e1 <? fst e2).
        -- rewrite (IH1 (e2 :: r2)) by (constructor; assumption). reflexivity.
        -- rewrite IH2. reflexivity.
Qed.

Lemma merge_snoc_right (x2 : Z * F) (s1 : view) :
  Forall (fun e => fst e < fst x2) s1 ->
  forall s2 : view,
    Forall (fun e => fst e < fst x2) s2 ->
    merge_terms s1 (s2 ++ [x2]) = merge_terms s1 s2 ++ [OnlyRight (snd x2)].
Proof.
  induction 1 as [|e1 r1 He1 Hr1 IH1].
  - intros s2 _. rewrite !merge_nil_l, map_app. reflexivity.
  - induction 1 as [|e2 r2 He2 Hr2 IH2].
    + cbn [app]. rewrite merge_cons. flags_lt (fst e1) (fst x2).
      pose proof (IH1 [] (Forall_nil_2 _)) as E. cbn [app] in E.
      rewrite E, !merge_nil_r. reflexivity.
    + cbn [app] in *. rewrite !merge_cons.
      destruct (fst e1 =? fst e2).
      * rewrite (IH1 r2 Hr2). reflexivity.
      * destruct (fst e1 <? fst e2).
        -- pose proof (IH1 (e2 :: r2) ltac:(constructor; assumption)) as E.
           cbn [app] in E. rewrite E. reflexivity.
        -- rewrite IH2. reflexivity.
Qed.

Lemma merge_snoc_both (x1 x2 : Z * F) (s1 : view) :
  fst x1 = fst x2 ->
  Forall (fun e => fst e < fst x1) s1 ->
  forall s2 : view,
    Forall (fun e => fst e < fst x1) s2 ->
    merge_terms (s1 ++ [x1]) (s2 ++ [x2])
    = merge_terms s1 s2 ++ [Both (snd x1) (snd x2)].
Proof.
  intros Heq. induction 1 as [|e1 r1 He1 Hr1 IH1].
  - induction 1 as [|e2 r2 He2 Hr2 IH2].
    + cbn [app]. rewrite merge_cons. flags_eq Heq. reflexivity.
    + cbn [app] in *. rewrite merge_cons. flags_gt (fst x1) (fst e2).
      rewrite IH2, !merge_nil_l. reflexivity.
  - induction 1 as [|e2 r2 He2 Hr2 IH2].
    + cbn [app] in *. rewrite merge_cons. flags_lt (fst e1) (fst x2).
      pose proof (IH1 [] (Forall_nil_2 _)) as E. cbn [app] in E.
      rewrite E, !merge_nil_r. reflexivity.
    + cbn [app] in *. rewrite !merge_cons.
      destruct (fst e1 =? fst e2).
      * rewrite (IH1 r2 Hr2). reflexivity.
      * destruct (fst e1 <? fst e2).
        -- pose proof (IH1 (e2 :: r2) ltac:(constructor; assumption)) as E.
           cbn [app] in E. rewrite E. reflexivity.
        -- rewrite IH2. reflexivity.
Qed.

(** One term taken from the back. *)
Lemma merge_back_list (s1 s2 : view) (x1 x2 : Z * F) :
  sorted_idx (s1 ++ [x1]) -> sorted_idx (s2 ++ [x2]) ->
  merge_terms (s1 ++ [x1]) (s2 ++ [x2])
  = merge_terms (if fst x1 >=? fst x2 then s1 else s1 ++ [x1])
                (if fst x1 <=? fst x2 then s2 else s2 ++ [x2])
    ++ [if fst x1 =? fst x2 then Both (snd x1) (snd x2)
        else if fst x2 <? fst x1 then OnlyLeft (snd x1) else OnlyRight (snd x2)].
Proof.
  intros Hs1 Hs2.
  pose proof (sorted_idx_last_gt _ _ Hs1) as H1.
  pose proof (sorted_idx_last_gt _ _ Hs2) as H2.
  destruct (Z.compare_spec (fst x1) (fst x2)) as [Heq|Hlt|Hgt].
  - replace (fst x1 =? fst x2) with true by (symmetry; apply Z.eqb_eq; exact Heq).
    replace (fst x1 <=? fst x2) with true by (symmetry; apply Z.leb_le; lia).
    replace (fst x1 >=? fst x2) with true by (symmetry; apply Z.geb_le; lia).
    apply merge_snoc_both; [exact Heq|exact H1|].
    eapply Forall_impl; [exact H2|]. cbn. intros e He. lia.
  - flags_lt (fst x1) (fst x2).
    apply merge_snoc_right; [|exact H2].
    apply Forall_app. split; [|constructor; [lia|constructor]].
    eapply Forall_impl; [exact H1|]. cbn. intros e He. lia.
  - flags_gt (fst x1) (fst x2).
    apply merge_snoc_left; [exact H1|].
    apply Forall_app. split; [|constructor; [lia|constructor]].
    eapply Forall_impl; [exact H2|]. cbn. intros e He. lia.
Qed.

(** The merge has one term for every index of either view. *)
Lemma merge_perm (a1 : view) :
  sorted_idx a1 ->
  forall a2 : view, sorted_idx a2 ->
    Permutation (merge_terms a1 a2) (all_terms a1 a2).
Proof.
  induction a1 as [|e1 r1 IH1]; intros Hs1.
  - intros a2 _. rewrite merge_nil_l, terms_nil_l. reflexivity.
  - induction a2 as [|e2 r2 IH2]; intros Hs2.
    + rewrite merge_nil_r, terms_nil_r. reflexivity.
    + rewrite (terms_front_list e1 e2 r1 r2 Hs1 Hs2), merge_front_list.
      apply perm_skip.
      pose proof (sorted_idx_tail _ _ Hs1) as Ht1.
      pose proof (sorted_idx_tail _ _ Hs2) as Ht2.
      destruct (Z.compare_spec (fst e1) (fst e2)) as [Heq|Hlt|Hgt].
      * flags_eq Heq. apply (IH1 Ht1 r2 Ht2).
      * flags_lt (fst e1) (fst e2). apply (IH1 Ht1 (e2 :: r2) Hs2).
      * flags_gt (fst e1) (fst e2). apply (IH2 Ht2).
Qed.

(** ** One step on the segments *)

Lemma length_seg (a : view) (f b : Z) :
  (length (seg a f b) <= Z.to_nat (b + 1 - f))%nat.
Proof. unfold seg. apply firstn_le_length. Qed.

Lemma merge_front (a1 a2 : view) (f1 b1 f2 b2 : Z) :
  0 <= f1 <= b1 -> b1 < Z.of_nat (length a1) ->
  0 <= f2 <= b2 -> b2 < Z.of_nat (length a2) ->
  merge_terms (seg a1 f1 b1) (seg a2 f2 b2)
  = front_term a1 a2 f1 f2
    :: merge_terms (seg a1 (f1 + b2z (idx_at a1 f1 <=? idx_at a2 f2)) b1)
                   (seg a2 (f2 + b2z (idx_at a1 f1 >=? idx_at a2 f2)) b2).
Proof.
  intros Hf1 Hb1 Hf2 Hb2.
  rewrite <- (seg_front_flag a1 f1 b1) by assumption.
  rewrite <- (seg_front_flag a2 f2 b2) by assumption.
  rewrite (seg_head a1 f1 b1) by assumption.
  rewrite (seg_head a2 f2 b2) by assumption.
  unfold front_term, idx_at, val_at.
  apply merge_front_list.
Qed.

Lemma merge_back (a1 a2 : view) (f1 b1 f2 b2 : Z) :
  sorted_idx a1 -> sorted_idx a2 ->
  0 <= f1 <= b1 -> b1 < Z.of_nat (length a1) ->
  0 <= f2 <= b2 -> b2 < Z.of_nat (length a2) ->
  merge_terms (seg a1 f1 b1) (seg a2 f2 b2)
  = merge_terms (seg a1 f1 (b1 - b2z (idx_at a1 b1 >=? idx_at a2 b2)))
                (seg a2 f2 (b2 - b2z (idx_at a1 b1 <=? idx_at a2 b2)))
    ++ [back_term a1 a2 b1 b2].
Proof.
  intros Hs1 Hs2 Hf1 Hb1 Hf2 Hb2.
  pose proof (sorted_idx_seg a1 f1 b1 Hs1) as Hg1.
  pose proof (sorted_idx_seg a2 f2 b2 Hs2) as Hg2.
  rewrite <- (seg_back_flag a1 f1 b1) by assumption.
  rewrite <- (seg_back_flag a2 f2 b2) by assumption.
  rewrite (seg_last a1 f1 b1) in * by assumption.
  rewrite (seg_last a2 f2 b2) in * by assumption.
  unfold back_term, idx_at, val_at.
  exact (merge_back_list _ _ _ _ Hg1 Hg2).
Qed.

End Lists.


Section Loop.
Context {F : Type} `{FloatOps F}.
Variable reduce_two : F -> F -> F -> F.
Variable reduce_one : F -> F -> F.
Variables a1 a2 : SparseDatapointView F.
Hypothesis Hs1 : sorted_idx a1.
Hypothesis Hs2 : sorted_idx a2.

Local Abbreviation n1 := (Z.of_nat (length a1)).
Local Abbreviation n2 := (Z.of_nat (length a2)).
Local Abbreviation Inv := (LoopInv2 reduce_two a1 a2).
Local Abbreviation mask_ := (masked reduce_two).
Local Abbreviation plain_ := (plain reduce_two reduce_one).

Lemma flag_range (b : bool) : 0 <= b2z b <= 1.
Proof. destruct b; cbn; lia. Qed.

Lemma one_front_moves (x y : Z) : 1 <= b2z (x <=? y) + b2z (x >=? y).
Proof.
  destruct (Z.leb_spec x y); cbn [b2z].
  - destruct (x >=? y); cbn; lia.
  - replace (x >=? y) with true by (symmetry; apply Z.geb_le; lia). cbn. lia.
Qed.

Lemma masked_front (r : F) (f1 f2 : Z) :
  reduce_two r
    (mask (b2z (idx_at a1 f1 <=? idx_at a2 f2)) (val_at a1 f1))
    (mask (b2z (idx_at a1 f1 >=? idx_at a2 f2)) (val_at a2 f2))
  = mask_ r (front_term a1 a2 f1 f2).
Proof.
  unfold front_term.
  destruct (Z.compare_spec (idx_at a1 f1) (idx_at a2 f2)) as [Heq|Hlt|Hgt].
  - flags_eq Heq. reflexivity.
  - flags_lt (idx_at a1 f1) (idx_at a2 f2). reflexivity.
  - flags_gt (idx_at a1 f1) (idx_at a2 f2). reflexivity.
Qed.

Lemma masked_back (r : F) (b1 b2 : Z) :
  reduce_two r
    (mask (b2z (idx_at a1 b1 >=? idx_at a2 b2)) (val_at a1 b1))
    (mask (b2z (idx_at a1 b1 <=? idx_at a2 b2)) (val_at a2 b2))
  = mask_ r (back_term a1 a2 b1 b2).
Proof.
  unfold back_term.
  destruct (Z.compare_spec (idx_at a1 b1) (idx_at a2 b2)) as [Heq|Hlt|Hgt].
  - flags_eq Heq. reflexivity.
  - flags_lt (idx_at a1 b1) (idx_at a2 b2). reflexivity.
  - flags_gt (idx_at a1 b1) (idx_at a2 b2). reflexivity.
Qed.

Lemma length_seg_exact (a : SparseDatapointView F) (f b : Z) :
  0 <= f -> b < Z.of_nat (length a) ->
  length (seg a f b) = Z.to_nat (b + 1 - f).
Proof.
  intros Hf Hb. unfold seg. rewrite length_take, length_drop. lia.
Qed.

(** One turn of the first loop: the term at the front goes to [result0],
    the term at the back to [result1], and what is left is what lies
    between them. *)
Lemma loop2_body_step (p : ptrs2) :
  0 <= j1_front p -> j1_back p < n1 -> 0 <= j2_front p -> j2_back p < n2 ->
  j1_front p < j1_back p -> j2_front p < j2_back p ->
  result0 (loop2_body reduce_two a1 a2 p)
  = mask_ (result0 p) (front_term a1 a2 (j1_front p) (j2_front p))
  /\ result1 (loop2_body reduce_two a1 a2 p)
     = mask_ (result1 p) (back_term a1 a2 (j1_back p) (j2_back p))
  /\ merge_terms (seg a1 (j1_front p) (j1_back p)) (seg a2 (j2_front p) (j2_back p))
     = front_term a1 a2 (j1_front p) (j2_front p)
       :: merge_terms
            (seg a1 (j1_front (loop2_body reduce_two a1 a2 p))
                    (j1_back (loop2_body reduce_two a1 a2 p)))
            (seg a2 (j2_front (loop2_body reduce_two a1 a2 p))
                    (j2_back (loop2_body reduce_two a1 a2 p)))
       ++ [back_term a1 a2 (j1_back p) (j2_back p)].
Proof.
  intros Hf1 Hb1 Hf2 Hb2 Hc1 Hc2.
  unfold loop2_body. cbn [j1_front j1_back j2_front j2_back result0 result1].
  set (f1 := j1_front p) in *. set (b1 := j1_back p) in *.
  set (f2 := j2_front p) in *. set (b2 := j2_back p) in *.
  set (af1 := b2z (idx_at a1 f1 <=? idx_at a2 f2)).
  set (af2 := b2z (idx_at a1 f1 >=? idx_at a2 f2)).
  pose proof (flag_range (idx_at a1 f1 <=? idx_at a2 f2)) as Raf1. fold af1 in Raf1.
  pose proof (flag_range (idx_at a1 f1 >=? idx_at a2 f2)) as Raf2. fold af2 in Raf2.
  split; [apply masked_front|]. split; [apply masked_back|].
  rewrite (merge_front a1 a2 f1 b1 f2 b2) by lia.
  fold af1 af2.
  rewrite (merge_back a1 a2 (f1 + af1) b1 (f2 + af2) b2) by (assumption || lia).
  reflexivity.
Qed.

(** The first loop: one masked term at each end. *)
Lemma loop2_body_inv (p : ptrs2) :
  Inv p -> j1_front p < j1_back p -> j2_front p < j2_back p ->
  Inv (loop2_body reduce_two a1 a2 p)
  /\ (j1_back (loop2_body reduce_two a1 a2 p)
      - j1_front (loop2_body reduce_two a1 a2 p))
     + (j2_back (loop2_body reduce_two a1 a2 p)
        - j2_front (loop2_body reduce_two a1 a2 p))
     < (j1_back p - j1_front p) + (j2_back p - j2_front p).
Proof.
  intros [Hf1 Hb1 Hx1 Hf2 Hb2 Hx2 (d0 & d1 & Hr0 & Hr1 & Hlen & Hm)] Hc1 Hc2.
  unfold loop2_body.
  set (f1 := j1_front p) in *. set (b1 := j1_back p) in *.
  set (f2 := j2_front p) in *. set (b2 := j2_back p) in *.
  set (af1 := b2z (idx_at a1 f1 <=? idx_at a2 f2)).
  set (af2 := b2z (idx_at a1 f1 >=? idx_at a2 f2)).
  set (sb2 := b2z (idx_at a1 b1 <=? idx_at a2 b2)).
  set (sb1 := b2z (idx_at a1 b1 >=? idx_at a2 b2)).
  pose proof (flag_range (idx_at a1 f1 <=? idx_at a2 f2)) as Raf1. fold af1 in Raf1.
  pose proof (flag_range (idx_at a1 f1 >=? idx_at a2 f2)) as Raf2. fold af2 in Raf2.
  pose proof (flag_range (idx_at a1 b1 <=? idx_at a2 b2)) as Rsb2. fold sb2 in Rsb2.
  pose proof (flag_range (idx_at a1 b1 >=? idx_at a2 b2)) as Rsb1. fold sb1 in Rsb1.
  pose proof (one_front_moves (idx_at a1 f1) (idx_at a2 f2)) as Hmove.
  fold af1 af2 in Hmove.
  split.
  - split; cbn [j1_front j1_back j2_front j2_back result0 result1]; try lia.
    exists (d0 ++ [front_term a1 a2 f1 f2]), (d1 ++ [back_term a1 a2 b1 b2]).
    split; [|split; [|split]].
    + rewrite fold_left_app. cbn [fold_left]. rewrite <- Hr0. apply masked_front.
    + rewrite fold_left_app. cbn [fold_left]. rewrite <- Hr1. apply masked_back.
    + rewrite !length_app. cbn [length]. lia.
    + rewrite Hm.
      rewrite (merge_front a1 a2 f1 b1 f2 b2) by lia.
      fold af1 af2.
      rewrite (merge_back a1 a2 (f1 + af1) b1 (f2 + af2) b2) by (assumption || lia).
      fold sb1 sb2.
      rewrite rev_app_distr. cbn [rev app]. rewrite <- !app_assoc. reflexivity.
  - cbn [j1_front j1_back j2_front j2_back]. lia.
Qed.

Lemma main_loop2_exit (fuel : nat) (p : ptrs2) :
  Inv p ->
  (j1_back p - j1_front p) + (j2_back p - j2_front p) < Z.of_nat fuel ->
  Inv (main_loop2 reduce_two a1 a2 fuel p)
  /\ (j1_back (main_loop2 reduce_two a1 a2 fuel p)
      <= j1_front (main_loop2 reduce_two a1 a2 fuel p)
      \/ j2_back (main_loop2 reduce_two a1 a2 fuel p)
         <= j2_front (main_loop2 reduce_two a1 a2 fuel p))
  /\ (main_loop2 reduce_two a1 a2 fuel p = p
      \/ exists p' : ptrs2,
           Inv p' /\ j1_front p' < j1_back p' /\ j2_front p' < j2_back p'
           /\ main_loop2 reduce_two a1 a2 fuel p = loop2_body reduce_two a1 a2 p').
Proof.
  revert p. induction fuel as [|fuel IH]; intros p HI Hgap.
  - split; [exact HI|]. cbn [main_loop2]. split; [lia|left; reflexivity].
  - cbn [main_loop2].
    destruct (Z.ltb_spec (j1_front p) (j1_back p)) as [Hc1|Hc1];
      [|cbn [andb]; split; [exact HI|split; [left; lia|left; reflexivity]]].
    destruct (Z.ltb_spec (j2_front p) (j2_back p)) as [Hc2|Hc2];
      [|cbn [andb]; split; [exact HI|split; [right; lia|left; reflexivity]]].
    cbn [andb]. destruct (loop2_body_inv p HI Hc1 Hc2) as [HI' Hlt].
    destruct (IH (loop2_body reduce_two a1 a2 p) HI') as (HIq & Hexit & Hlast);
      [lia|].
    split; [exact HIq|]. split; [exact Hexit|]. right.
    destruct Hlast as [E|(p' & HIp' & Hd1 & Hd2 & E)].
    + exists p. rewrite E.
      split; [exact HI|]. split; [exact Hc1|]. split; [exact Hc2|reflexivity].
    + exists p'.
      split; [exact HIp'|]. split; [exact Hd1|]. split; [exact Hd2|exact E].
Qed.

(** The last loops: the entries left on one side. *)
Lemma tail_spec (a : SparseDatapointView F) (wrap : F -> term F) :
  (forall r v, plain_ r (wrap v) = reduce_one r v) ->
  forall (k : nat) (f b : Z) (r : F),
    0 <= f -> b < Z.of_nat (length a) -> f <= b + 1 ->
    Z.to_nat (b - f + 1) = k ->
    tail_reduce reduce_one a f b r
    = fold_left plain_ (map (fun e => wrap (snd e)) (seg a f b)) r.
Proof.
  intros Hwrap. unfold tail_reduce.
  induction k as [|k IH]; intros f b r Hf Hb Hfb Hk.
  - replace (b - f + 1) with 0 by lia. rewrite (seg_nil a f b) by lia. reflexivity.
  - rewrite seqZ_cons by lia. rewrite (seg_head a f b) by lia.
    cbn [fold_left map]. rewrite Hwrap. unfold val_at at 1. cbn [snd].
    replace (Z.pred (b - f + 1)) with (b - (f + 1) + 1) by lia.
    replace (Z.succ f) with (f + 1) by lia.
    apply IH; lia.
Qed.

(** The later loops: the terms of what is left, in the order of the
    indices. *)
Lemma merge_phase (fuel : nat) :
  forall p : ptrs2,
    0 <= j1_front p -> j1_back p < n1 -> j1_front p <= j1_back p + 1 ->
    0 <= j2_front p -> j2_back p < n2 -> j2_front p <= j2_back p + 1 ->
    (j1_back p - j1_front p + 1) + (j2_back p - j2_front p + 1) <= Z.of_nat fuel ->
    (if j1_front (merge_loop2 reduce_two reduce_one a1 a2 fuel p)
        >? j1_back (merge_loop2 reduce_two reduce_one a1 a2 fuel p)
     then tail_reduce reduce_one a2
            (j2_front (merge_loop2 reduce_two reduce_one a1 a2 fuel p))
            (j2_back (merge_loop2 reduce_two reduce_one a1 a2 fuel p))
            (result0 (merge_loop2 reduce_two reduce_one a1 a2 fuel p))
     else tail_reduce reduce_one a1
            (j1_front (merge_loop2 reduce_two reduce_one a1 a2 fuel p))
            (j1_back (merge_loop2 reduce_two reduce_one a1 a2 fuel p))
            (result0 (merge_loop2 reduce_two reduce_one a1 a2 fuel p)))
    = fold_left plain_
        (merge_terms (seg a1 (j1_front p) (j1_back p))
                     (seg a2 (j2_front p) (j2_back p)))
        (result0 p)
    /\ result1 (merge_loop2 reduce_two reduce_one a1 a2 fuel p) = result1 p.
Proof.
  assert (Hstop : forall p : ptrs2,
             0 <= j1_front p -> j1_back p < n1 -> j1_front p <= j1_back p + 1 ->
             0 <= j2_front p -> j2_back p < n2 -> j2_front p <= j2_back p + 1 ->
             j1_back p < j1_front p \/ j2_back p < j2_front p ->
             (if j1_front p >? j1_back p
              then tail_reduce reduce_one a2 (j2_front p) (j2_back p) (result0 p)
              else tail_reduce reduce_one a1 (j1_front p) (j1_back p) (result0 p))
             = fold_left plain_
                 (merge_terms (seg a1 (j1_front p) (j1_back p))
                              (seg a2 (j2_front p) (j2_back p)))
                 (result0 p)).
  { intros p Hf1 Hb1 Hx1 Hf2 Hb2 Hx2 Hend.
    destruct (Z.gtb_spec (j1_front p) (j1_back p)) as [Hgt|Hle].
    - rewrite (seg_nil a1) by lia. rewrite merge_nil_l.
      apply (tail_spec a2 OnlyRight (fun _ _ => eq_refl) _ _ _ _ Hf2 Hb2 Hx2 eq_refl).
    - rewrite (seg_nil a2) by lia. rewrite merge_nil_r.
      apply (tail_spec a1 OnlyLeft (fun _ _ => eq_refl) _ _ _ _ Hf1 Hb1 Hx1 eq_refl). }
  induction fuel as [|fuel IH]; intros p Hf1 Hb1 Hx1 Hf2 Hb2 Hx2 Hgap.
  - cbn [merge_loop2]. split; [|reflexivity]. apply Hstop; try assumption. lia.
  - cbn [merge_loop2].
    destruct (Z.leb_spec (j1_front p) (j1_back p)) as [Hc1|Hc1];
      [|cbn [andb]; split; [apply Hstop; try assumption; lia|reflexivity]].
    destruct (Z.leb_spec (j2_front p) (j2_back p)) as [Hc2|Hc2];
      [|cbn [andb]; split; [apply Hstop; try assumption; lia|reflexivity]].
    cbn [andb].
    rewrite (seg_head a1 (j1_front p) (j1_back p)) by lia.
    rewrite (seg_head a2 (j2_front p) (j2_back p)) by lia.
    rewrite merge_cons.
    change (fst (nth (Z.to_nat (j1_front p)) a1 (0, fzero)))
      with (idx_at a1 (j1_front p)).
    change (fst (nth (Z.to_nat (j2_front p)) a2 (0, fzero)))
      with (idx_at a2 (j2_front p)).
    change (snd (nth (Z.to_nat (j1_front p)) a1 (0, fzero)))
      with (val_at a1 (j1_front p)).
    change (snd (nth (Z.to_nat (j2_front p)) a2 (0, fzero)))
      with (val_at a2 (j2_front p)).
    destruct (idx_at a1 (j1_front p) =? idx_at a2 (j2_front p)).
    + match goal with
      | |- context [merge_loop2 _ _ _ _ fuel ?q] =>
          destruct (IH q) as [E0 E1]; cbn [j1_front j1_back j2_front j2_back];
          try lia
      end.
      cbn [j1_front j1_back j2_front j2_back result0 result1] in E0, E1.
      split; [rewrite E0; reflexivity|exact E1].
    + destruct (idx_at a1 (j1_front p) <? idx_at a2 (j2_front p)).
      * match goal with
        | |- context [merge_loop2 _ _ _ _ fuel ?q] =>
            destruct (IH q) as [E0 E1]; cbn [j1_front j1_back j2_front j2_back];
            try lia
        end.
        cbn [j1_front j1_back j2_front j2_back result0 result1] in E0, E1.
        rewrite (seg_head a2 (j2_front p) (j2_back p)) in E0 by lia.
        split; [rewrite E0; reflexivity|exact E1].
      * match goal with
        | |- context [merge_loop2 _ _ _ _ fuel ?q] =>
            destruct (IH q) as [E0 E1]; cbn [j1_front j1_back j2_front j2_back];
            try lia
        end.
        cbn [j1_front j1_back j2_front j2_back result0 result1] in E0, E1.
        rewrite (seg_head a1 (j1_front p) (j1_back p)) in E0 by lia.
        split; [rewrite E0; reflexivity|exact E1].
Qed.

(** The distance adds the terms in the order of the indices: the first
    ones masked to one accumulator, the last ones masked to the other,
    from the back, as many as the first, and the ones between them plain to
    the first accumulator.  The first loop takes a term at each end as long
    as both views have two entries left at least. *)
Lemma distance_measure_spec :
  exists (l0 l2 : list (term F)) (s1 s2 : SparseDatapointView F),
    merge_terms a1 a2 = l0 ++ merge_terms s1 s2 ++ rev l2
    /\ length l0 = length l2
    /\ ((length s1 <= 1)%nat \/ (length s2 <= 1)%nat)
    /\ (l0 = [] /\ l2 = []
        \/ exists (l0' l2' : list (term F)) (t u : term F)
                  (s1' s2' : SparseDatapointView F),
             l0 = l0' ++ [t] /\ l2 = l2' ++ [u]
             /\ merge_terms s1' s2' = t :: merge_terms s1 s2 ++ [u]
             /\ (2 <= length s1')%nat /\ (2 <= length s2')%nat)
    /\ sparse_distance_measure reduce_two reduce_one a1 a2
       = fadd (fold_left plain_ (merge_terms s1 s2) (fold_left mask_ l0 fzero))
              (fold_left mask_ l2 fzero).
Proof.
  unfold sparse_distance_measure.
  set (p0 := mkPtrs2 0 0 (n1 - 1) (n2 - 1) fzero fzero).
  assert (HI0 : Inv p0).
  { split; cbn; try lia. exists [], []. split; [reflexivity|].
    split; [reflexivity|]. split; [reflexivity|].
    cbn [app rev]. rewrite !seg_full, app_nil_r. reflexivity. }
  destruct (main_loop2_exit (length a1 + length a2) p0 HI0)
    as (HI1 & Hexit & Hlast).
  { unfold p0. cbn. lia. }
  set (p := main_loop2 reduce_two a1 a2 (length a1 + length a2) p0) in *.
  destruct HI1 as [Hf1 Hb1 Hx1 Hf2 Hb2 Hx2 _].
  destruct (merge_phase (length a1 + length a2) p Hf1 Hb1 Hx1 Hf2 Hb2 Hx2)
    as [E0 E1]; [lia|].
  assert (Hshort : (length (seg a1 (j1_front p) (j1_back p)) <= 1)%nat
                   \/ (length (seg a2 (j2_front p) (j2_back p)) <= 1)%nat).
  { pose proof (length_seg a1 (j1_front p) (j1_back p)).
    pose proof (length_seg a2 (j2_front p) (j2_back p)).
    destruct Hexit; [left|right]; lia. }
  destruct Hlast as [Ep|(p' & HIp' & Hd1 & Hd2 & Ep)].
  - exists [], [], (seg a1 (j1_front p) (j1_back p)), (seg a2 (j2_front p) (j2_back p)).
    split.
    { rewrite Ep. unfold p0. cbn [j1_front j1_back j2_front j2_back app rev].
      rewrite !seg_full, app_nil_r. reflexivity. }
    split; [reflexivity|]. split; [exact Hshort|].
    split; [left; split; reflexivity|].
    assert (R0 : result0 p = fzero) by (rewrite Ep; reflexivity).
    assert (R1 : result1 p = fzero) by (rewrite Ep; reflexivity).
    rewrite E0, E1, R0, R1. reflexivity.
  - destruct HIp' as [Gf1 Gb1 Gx1 Gf2 Gb2 Gx2 (d0 & d1 & Hr0 & Hr1 & Hlen & Hm)].
    destruct (loop2_body_step p' Gf1 Gb1 Gf2 Gb2 Hd1 Hd2) as (S0 & S1 & Sm).
    rewrite <- Ep in S0, S1, Sm.
    exists (d0 ++ [front_term a1 a2 (j1_front p') (j2_front p')]),
           (d1 ++ [back_term a1 a2 (j1_back p') (j2_back p')]),
           (seg a1 (j1_front p) (j1_back p)), (seg a2 (j2_front p) (j2_back p)).
    split.
    { rewrite Hm, Sm, rev_app_distr. cbn [rev app]. rewrite <- !app_assoc.
      reflexivity. }
    split; [rewrite !length_app; cbn [length]; lia|].
    split; [exact Hshort|].
    split.
    { right.
      exists d0, d1, (front_term a1 a2 (j1_front p') (j2_front p')),
             (back_term a1 a2 (j1_back p') (j2_back p')),
             (seg a1 (j1_front p') (j1_back p')), (seg a2 (j2_front p') (j2_back p')).
      split; [reflexivity|]. split; [reflexivity|]. split; [exact Sm|].
      rewrite !length_seg_exact by lia. lia. }
    rewrite E0, E1, S0, S1, Hr0, Hr1, !fold_left_app. reflexivity.
Qed.

End Loop.

Section Distance.
Context {F : Type} `{FloatOps F}.

Lemma fold_same {A B} (f g : A -> B -> A) (l : list B) (a : A) :
  (forall x y, f x y = g x y) -> fold_left f l a = fold_left g l a.
Proof.
  intros Hfg. revert a. induction l as [|y l IH]; intros a; cbn [fold_left];
    [reflexivity|]. rewrite Hfg. apply IH.
Qed.

Lemma masked_is_square (acc : F) (t : term F) :
  masked SquaredL2ReduceTwo acc t = fadd acc (masked_square t).
Proof. destruct t; reflexivity. Qed.

Lemma plain_is_square (acc : F) (t : term F) :
  plain SquaredL2ReduceTwo SquaredL2ReduceOne acc t = fadd acc (plain_square t).
Proof. destruct t; reflexivity. Qed.

(** X29. On a stored row [doc] and a query view [x] whose index arrays
    are strictly increasing, [sparse_squared_l2_reduce] adds up one square
    for every index that either view has, taken in the order of the
    indices ([merge_terms], a rearrangement of [all_terms]).  The first
    loop takes a term at each end in every turn: the first terms [l0], in
    ascending order, go to one accumulator and the last ones [l2],
    descending, to the other, as [fmul (fsub a b) (fsub a b)] with
    [fzero] for the value of a view that has not the index.  It runs as
    long as both views have at least two entries left: it stops with one of
    the views, [s1] and [s2], at one entry or none, and before its last
    turn both, [s1'] and [s2'], had two or more.  The terms of what it
    leaves, in ascending order, go to the first accumulator, as
    [fmul (fsub a b) (fsub a b)] for an index of both and as [fmul a a] for
    an index of one.  The result is the [fadd] of the two accumulators. *)
Theorem X29_squared_l2_adds_one_term_per_index
    (x doc : SparseDatapointView F) :
  strictly_increasing doc -> strictly_increasing x ->
  Permutation (merge_terms doc x) (all_terms doc x)
  /\ exists (l0 l2 : list (term F)) (s1 s2 : SparseDatapointView F),
       merge_terms doc x = l0 ++ merge_terms s1 s2 ++ rev l2
       /\ length l0 = length l2
       /\ ((length s1 <= 1)%nat \/ (length s2 <= 1)%nat)
       /\ (l0 = [] /\ l2 = []
           \/ exists (l0' l2' : list (term F)) (t u : term F)
                     (s1' s2' : SparseDatapointView F),
                l0 = l0' ++ [t] /\ l2 = l2' ++ [u]
                /\ merge_terms s1' s2' = t :: merge_terms s1 s2 ++ [u]
                /\ (2 <= length s1')%nat /\ (2 <= length s2')%nat)
       /\ sparse_squared_l2_reduce x doc
          = fadd (fold_left (fun acc t => fadd acc (plain_square t))
                    (merge_terms s1 s2)
                    (fold_left (fun acc t => fadd acc (masked_square t)) l0 fzero))
                 (fold_left (fun acc t => fadd acc (masked_square t)) l2 fzero).
Proof.
  intros Hd Hx.
  pose proof (strictly_increasing_sorted doc Hd) as Sd.
  pose proof (strictly_increasing_sorted x Hx) as Sx.
  split; [exact (merge_perm doc Sd x Sx)|].
  destruct (distance_measure_spec SquaredL2ReduceTwo SquaredL2ReduceOne doc x Sd Sx)
    as (l0 & l2 & s1 & s2 & Hm & Hlen & Hexit & Hlast & Hres).
  exists l0, l2, s1, s2. split; [exact Hm|]. split; [exact Hlen|].
  split; [exact Hexit|]. split; [exact Hlast|].
  unfold sparse_squared_l2_reduce. rewrite Hres.
  rewrite (fold_same _ _ l0 fzero masked_is_square).
  rewrite (fold_same _ _ l2 fzero masked_is_square).
  rewrite (fold_same _ _ (merge_terms s1 s2) _ plain_is_square).
  reflexivity.
Qed.

End Distance.

Lemma X29_squared_l2_adds_one_term_per_index_witness :
  let doc : SparseDatapointView zfloat := [(1, ZNum 2); (3, ZNum 4); (7, ZNum 1)] in
  let x : SparseDatapointView zfloat := [(3, ZNum 5); (7, ZNum 6)] in
  Permutation (merge_terms doc x) (all_terms doc x)
  /\ exists (l0 l2 : list (term zfloat)) (s1 s2 : SparseDatapointView zfloat),
       merge_terms doc x = l0 ++ merge_terms s1 s2 ++ rev l2
       /\ length l0 = length l2
       /\ ((length s1 <= 1)%nat \/ (length s2 <= 1)%nat)
       /\ (l0 = [] /\ l2 = []
           \/ exists (l0' l2' : list (term zfloat)) (t u : term zfloat)
                     (s1' s2' : SparseDatapointView zfloat),
                l0 = l0' ++ [t] /\ l2 = l2' ++ [u]
                /\ merge_terms s1' s2' = t :: merge_terms s1 s2 ++ [u]
                /\ (2 <= length s1')%nat /\ (2 <= length s2')%nat)
       /\ sparse_squared_l2_reduce x doc
          = fadd (fold_left (fun acc t => fadd acc (plain_square t))
                    (merge_terms s1 s2)
                    (fold_left (fun acc t => fadd acc (masked_square t)) l0 fzero))
                 (fold_left (fun acc t => fadd acc (masked_square t)) l2 fzero).
Proof.
  intros doc x.
  apply (X29_squared_l2_adds_one_term_per_index x doc).
  - intros i j Hi Hij Hj. simpl in Hj.
    assert (Hc : (i = 0 /\ j = 1) \/ (i = 0 /\ j = 2) \/ (i = 1 /\ j = 2)) by lia.
    destruct Hc as [[-> ->]|[[-> ->]|[-> ->]]]; vm_compute; reflexivity.
  - intros i j Hi Hij Hj. simpl in Hj.
    assert (Hc : i = 0 /\ j = 1) by lia.
    destruct Hc as [-> ->]. vm_compute. reflexivity.
Defined.

End SquaredL2.

(* ===================================================================== *)
(** * Counting the identifiers of the keys of a field                      *)
(* ===================================================================== *)

Module EnumCounts.
Import StringUtils FieldGroup BitmapFacts BitmapExtras.

(** ** The entries of a map in key order *)

Lemma key_order_perm {A} (m : gmap str A) : in_key_order m ≡ₚ map_to_list m.
Proof. unfold in_key_order. apply merge_sort_Permutation. Qed.

Lemma key_order_empty {A} : in_key_order (∅ : gmap str A) = [].
Proof.
  apply Permutation_nil. symmetry.
  rewrite key_order_perm, map_to_list_empty. reflexivity.
Qed.

Lemma key_order_nodup {A} (m : gmap str A) : NoDup (in_key_order m).*1.
Proof. rewrite key_order_perm. apply NoDup_fst_map_to_list. Qed.

Lemma key_order_map {A} (m : gmap str A) : list_to_map (in_key_order m) = m.
Proof.
  rewrite <- (list_to_map_to_list m) at 2.
  apply list_to_map_proper; [apply key_order_nodup|apply key_order_perm].
Qed.

Lemma key_order_elem {A} (m : gmap str A) (k : str) (a : A) :
  (k, a) ∈ in_key_order m <-> m !! k = Some a.
Proof. rewrite key_order_perm. apply elem_of_map_to_list. Qed.

Lemma guard_fold {A B} (f : B -> str * A -> B) (m : gmap str A) (st : B) :
  (if bool_decide (m = ∅) then st else fold_left f (in_key_order m) st)
  = fold_left f (in_key_order m) st.
Proof.
  case_bool_decide as E; [|reflexivity].
  subst m. rewrite key_order_empty. reflexivity.
Qed.

(** ** Folds that write a map *)

Lemma fold_insert_map {A B} (f : A -> B) (l : list (str * A)) (m : gmap str B) :
  NoDup l.*1 ->
  fold_left (fun acc kv => <[fst kv := f (snd kv)]> acc) l m
  = (f <$> list_to_map l) ∪ m.
Proof.
  revert m. induction l as [|[k a] l IH]; intros m Hnd; cbn [fold_left fst snd].
  - cbn. rewrite fmap_empty, (left_id_L ∅ (∪)). reflexivity.
  - cbn in Hnd. apply NoDup_cons in Hnd as [Hk Hnd].
    rewrite (IH _ Hnd). cbn [list_to_map foldr uncurry].
    rewrite fmap_insert, <- insert_union_l.
    rewrite <- insert_union_r; [reflexivity|].
    rewrite lookup_fmap. apply not_elem_of_list_to_map_1 in Hk.
    rewrite Hk. reflexivity.
Qed.

Lemma insert_new_union (k : str) (b : Bitmap.t) (m : gmap str Bitmap.t) :
  insert_new k b m = m ∪ {[k := b]}.
Proof.
  unfold insert_new. apply map_eq. intros i.
  destruct (m !! k) as [b0|] eqn:E.
  - rewrite lookup_union. destruct (decide (i = k)) as [->|Hne].
    + rewrite E, lookup_singleton_eq. reflexivity.
    + rewrite lookup_singleton_ne by congruence.
      destruct (m !! i); reflexivity.
  - rewrite lookup_union. destruct (decide (i = k)) as [->|Hne].
    + rewrite lookup_insert_eq, E, lookup_singleton_eq. reflexivity.
    + rewrite lookup_insert_ne, lookup_singleton_ne by congruence.
      destruct (m !! i); reflexivity.
Qed.

Lemma fold_insert_new (f : Bitmap.t -> Bitmap.t) (l : list (str * Bitmap.t))
    (m : gmap str Bitmap.t) :
  fold_left (fun acc kv => insert_new (fst kv) (f (snd kv)) acc) l m
  = m ∪ (f <$> list_to_map l).
Proof.
  revert m. induction l as [|[k a] l IH]; intros m; cbn [fold_left fst snd].
  - cbn. rewrite fmap_empty, (right_id_L ∅ (∪)). reflexivity.
  - rewrite IH, insert_new_union. cbn [list_to_map foldr uncurry].
    rewrite fmap_insert, <- (assoc_L (∪)), <- insert_union_singleton_l.
    reflexivity.
Qed.

Lemma fmap_union_same {A} (f : A -> A) (m : gmap str A) : (f <$> m) ∪ m = f <$> m.
Proof.
  apply map_eq. intros i. rewrite lookup_union, lookup_fmap.
  destruct (m !! i); reflexivity.
Qed.

(** ** Counts and caches of a bitmap *)

Lemma nbit_card (b : Bitmap.t) : Bitmap.nbit b = card (Bitmap.elems b).
Proof.
  unfold Bitmap.nbit, card, Bitmap.elems.
  destruct (Bitmap.is_roaring_ b); reflexivity.
Qed.

Lemma cached_count (b : Bitmap.t) :
  cache_ok b -> fst (Bitmap.get_cached_nbit b) = card (Bitmap.elems b).
Proof.
  unfold cache_ok, Bitmap.get_cached_nbit. intros Hc.
  destruct (Bitmap.has_nbit_cache_ b); cbn [negb fst].
  - rewrite Hc by reflexivity. apply nbit_card.
  - apply nbit_card.
Qed.

Lemma cached_bitmap (b : Bitmap.t) :
  cache_ok b ->
  Bitmap.elems (snd (Bitmap.get_cached_nbit b)) = Bitmap.elems b
  /\ (Bitmap.wf b -> Bitmap.wf (snd (Bitmap.get_cached_nbit b)))
  /\ Bitmap.has_nbit_cache_ (snd (Bitmap.get_cached_nbit b)) = true
  /\ Bitmap.nbit_cache_ (snd (Bitmap.get_cached_nbit b))
     = Bitmap.nbit (snd (Bitmap.get_cached_nbit b)).
Proof.
  unfold cache_ok, Bitmap.get_cached_nbit. intros Hc.
  destruct (Bitmap.has_nbit_cache_ b) eqn:E; cbn [negb snd].
  - repeat split; auto.
  - repeat split; auto.
Qed.

Lemma cached_again (b : Bitmap.t) :
  Bitmap.has_nbit_cache_ b = true ->
  Bitmap.get_cached_nbit b = (Bitmap.nbit_cache_ b, b).
Proof. intros Hc. unfold Bitmap.get_cached_nbit. rewrite Hc. reflexivity. Qed.

Local Notation key_bitmap valid b :=
  (Bitmap.Intersect_ptr (Bitmap.copy_ptr Bitmap.new (Some b)) (Some valid)).

Lemma key_bitmap_spec (valid b : Bitmap.t) :
  Bitmap.wf b -> Bitmap.wf valid ->
  Bitmap.has_nbit_cache_ (key_bitmap valid b) = false
  /\ Bitmap.wf (key_bitmap valid b)
  /\ Bitmap.elems (key_bitmap valid b) = Bitmap.elems b ∩ Bitmap.elems valid.
Proof.
  intros Hb Hv. cbn [Bitmap.Intersect_ptr Bitmap.copy_ptr].
  set (c := Bitmap.invalidate (Bitmap.copy Bitmap.new b)).
  assert (Hc : Bitmap.wf c) by exact Hb.
  assert (Ec : Bitmap.elems c = Bitmap.elems b) by reflexivity.
  destruct (Intersect_spec c valid Hc Hv) as [Hw He].
  split; [reflexivity|]. split.
  - apply wf_invalidate, Hw.
  - rewrite elems_invalidate, He, Ec. reflexivity.
Qed.

Lemma key_bitmap_count (valid b : Bitmap.t) :
  Bitmap.wf b -> Bitmap.wf valid ->
  fst (Bitmap.get_cached_nbit (key_bitmap valid b))
  = card (Bitmap.elems b ∩ Bitmap.elems valid).
Proof.
  intros Hb Hv. destruct (key_bitmap_spec valid b Hb Hv) as (Hc & _ & He).
  rewrite cached_count; [rewrite He; reflexivity|].
  intros Ht. rewrite Hc in Ht. discriminate.
Qed.

Lemma key_bitmap_cached (valid b : Bitmap.t) :
  Bitmap.wf b -> Bitmap.wf valid ->
  Bitmap.wf (snd (Bitmap.get_cached_nbit (key_bitmap valid b)))
  /\ Bitmap.elems (snd (Bitmap.get_cached_nbit (key_bitmap valid b)))
     = Bitmap.elems b ∩ Bitmap.elems valid
  /\ Bitmap.has_nbit_cache_ (snd (Bitmap.get_cached_nbit (key_bitmap valid b))) = true
  /\ Bitmap.nbit_cache_ (snd (Bitmap.get_cached_nbit (key_bitmap valid b)))
     = Bitmap.nbit (snd (Bitmap.get_cached_nbit (key_bitmap valid b))).
Proof.
  intros Hb Hv. destruct (key_bitmap_spec valid b Hb Hv) as (Hc & Hw & He).
  assert (Hok : cache_ok (key_bitmap valid b)).
  { intros Ht. rewrite Hc in Ht. discriminate. }
  destruct (cached_bitmap _ Hok) as (E1 & E2 & E3 & E4).
  split; [exact (E2 Hw)|]. split; [rewrite E1; exact He|]. split; assumption.
Qed.

(** ** Loops that keep a part of their state *)

Lemma fold_state {X S A} (f : X * S -> A -> X * S) (h : X -> A -> X) (s : S)
    (l : list A) (x : X) :
  (forall x0 a, a ∈ l -> f (x0, s) a = (h x0 a, s)) ->
  fold_left f l (x, s) = (fold_left h l x, s).
Proof.
  revert x. induction l as [|a l IH]; intros x Hf; cbn [fold_left]; [reflexivity|].
  rewrite Hf by apply list_elem_of_here.
  apply IH. intros x0 a0 Hin. apply Hf, list_elem_of_further, Hin.
Qed.

Lemma fold_pair_split {X Y A} (h1 : X -> A -> X) (h2 : Y -> A -> Y)
    (l : list A) (x : X) (y : Y) :
  fold_left (fun p a => (h1 (fst p) a, h2 (snd p) a)) l (x, y)
  = (fold_left h1 l x, fold_left h2 l y).
Proof.
  revert x y. induction l as [|a l IH]; intros x y; cbn [fold_left fst snd];
    [reflexivity|apply IH].
Qed.

Lemma fold_triple_split {X Y Z0 A} (h1 : X -> A -> X) (h2 : Y -> A -> Y)
    (h3 : Z0 -> A -> Z0) (l : list A) (x : X) (y : Y) (z : Z0) :
  fold_left (fun p a => (h1 (fst (fst p)) a, h2 (snd (fst p)) a, h3 (snd p) a))
            l (x, y, z)
  = (fold_left h1 l x, fold_left h2 l y, fold_left h3 l z).
Proof.
  revert x y z. induction l as [|a l IH]; intros x y z; cbn [fold_left fst snd];
    [reflexivity|apply IH].
Qed.

Lemma fold_of_map {X A B} (h : X -> B -> X) (m : A -> B) (l : list A) (x : X) :
  fold_left (fun x0 a => h x0 (m a)) l x = fold_left h (m <$> l) x.
Proof.
  revert x. induction l as [|a l IH]; intros x; [reflexivity|].
  rewrite fmap_cons. cbn [fold_left]. apply IH.
Qed.

Lemma fold_of_bind {X A B} (h : X -> B -> X) (m : A -> list B) (l : list A) (x : X) :
  fold_left (fun x0 a => fold_left h (m a) x0) l x = fold_left h (l ≫= m) x.
Proof.
  revert x. induction l as [|a l IH]; intros x; cbn [fold_left]; [reflexivity|].
  rewrite IH. change ((a :: l) ≫= m) with (m a ++ (l ≫= m)).
  rewrite fold_left_app. reflexivity.
Qed.

(** ** A sequence of writes, some of them skipped *)

Local Notation act :=
  (fun (ec : gmap str Z) (a : str * option Z) =>
     match snd a with
     | Some v => <[fst a := v]> ec
     | None => ec
     end).

Lemma acts_unchanged (l : list (str * option Z)) (ec : gmap str Z) (x : str) :
  (forall a, a ∈ l -> fst a <> x) -> fold_left act l ec !! x = ec !! x.
Proof.
  revert ec. induction l as [|a l IH]; intros ec Hn; cbn [fold_left]; [reflexivity|].
  rewrite IH by (intros a0 Hin; apply Hn, list_elem_of_further, Hin).
  destruct (snd a) as [v|]; [|reflexivity].
  apply lookup_insert_ne, Hn, list_elem_of_here.
Qed.

Lemma acts_written (l : list (str * option Z)) (ec : gmap str Z) (x : str)
    (w : option Z) :
  (exists a, a ∈ l /\ fst a = x) ->
  (forall a, a ∈ l -> fst a = x -> snd a = w) ->
  fold_left act l ec !! x = match w with Some v => Some v | None => ec !! x end.
Proof.
  induction l as [|a l IH] using rev_ind; intros (a0 & Hin & Ha0) Hw.
  { apply not_elem_of_nil in Hin. contradiction. }
  rewrite fold_left_app. cbn [fold_left].
  assert (Hl : forall a1, a1 ∈ l -> fst a1 = x -> snd a1 = w).
  { intros a1 Hin1. apply Hw, elem_of_app. left. exact Hin1. }
  assert (Hrest : fold_left act l ec !! x
                  = match w with Some v => fold_left act l ec !! x | None => ec !! x end).
  { destruct w as [v|]; [reflexivity|].
    destruct (decide (x ∈ l.*1)) as [Hx|Hx].
    - apply list_elem_of_fmap in Hx as (a1 & -> & Hin1).
      exact (IH (ex_intro _ a1 (conj Hin1 eq_refl)) Hl).
    - apply acts_unchanged. intros a1 Hin1 E. apply Hx.
      apply list_elem_of_fmap. exists a1. split; [symmetry; exact E|exact Hin1]. }
  destruct (decide (fst a = x)) as [Ea|Ea].
  - assert (Es : snd a = w).
    { apply Hw; [|exact Ea]. apply elem_of_app. right. apply list_elem_of_here. }
    rewrite Es. destruct w as [v|].
    + rewrite Ea. apply lookup_insert_eq.
    + exact Hrest.
  - assert (Hex : exists a1, a1 ∈ l /\ fst a1 = x).
    { apply elem_of_app in Hin as [Hin|Hin]; [exists a0; split; assumption|].
      apply list_elem_of_singleton in Hin. subst a0. contradiction. }
    destruct (snd a) as [v|].
    + rewrite lookup_insert_ne by exact Ea. exact (IH Hex Hl).
    + exact (IH Hex Hl).
Qed.

Lemma comma_split (p k p' k' : str) :
  comma ∉ p -> comma ∉ p' -> p ++ comma :: k = p' ++ comma :: k' ->
  p = p' /\ k = k'.
Proof.
  revert p'. induction p as [|c p IH]; intros [|c' p'] Hp Hp' E; cbn in E.
  - injection E as ->. split; reflexivity.
  - injection E as <- _. exfalso. apply Hp', list_elem_of_here.
  - injection E as -> _. exfalso. apply Hp, list_elem_of_here.
  - injection E as -> E.
    destruct (IH p') as [-> ->]; [| |exact E|split; reflexivity].
    + intros Hin. apply Hp, list_elem_of_further, Hin.
    + intros Hin. apply Hp', list_elem_of_further, Hin.
Qed.

Lemma comma_inside (p k : str) : comma ∈ p ++ comma :: k.
Proof. apply elem_of_app. right. apply list_elem_of_here. Qed.

Lemma fold_state2 {X S1 S2 A} (f : X * S1 * S2 -> A -> X * S1 * S2)
    (h : X -> A -> X) (s1 : S1) (s2 : S2) (l : list A) (x : X) :
  (forall x0 a, a ∈ l -> f (x0, s1, s2) a = (h x0 a, s1, s2)) ->
  fold_left f l (x, s1, s2) = (fold_left h l x, s1, s2).
Proof.
  revert x. induction l as [|a l IH]; intros x Hf; cbn [fold_left]; [reflexivity|].
  rewrite Hf by apply list_elem_of_here.
  apply IH. intros x0 a0 Hin. apply Hf, list_elem_of_further, Hin.
Qed.

Lemma fold_ext {X A} (f f' : X -> A -> X) (l : list A) (x : X) :
  (forall x0 a, f x0 a = f' x0 a) -> fold_left f l x = fold_left f' l x.
Proof.
  intros Hf. revert x. induction l as [|a l IH]; intros x; cbn [fold_left];
    [reflexivity|]. rewrite Hf. apply IH.
Qed.

(** ** The two overloads of a group *)

Section Group.
Context {F : Type} `{FloatOps F} `{ScoreOps F}.

Local Abbreviation group := (@FieldGroup.t F).

Lemma copy_known (g : group) (k : str) (b : Bitmap.t) :
  bitmap_group_ g !! k = Some b ->
  get_bitmap_copy g k = (Some (Bitmap.copy_ptr Bitmap.new (Some b)), g).
Proof.
  intros E. unfold get_bitmap_copy, get_bitmap, get_editable_bitmap.
  rewrite E. reflexivity.
Qed.

Lemma with_bitmaps_same (g : group) : with_bitmaps g (bitmap_group_ g) = g.
Proof. destruct g. reflexivity. Qed.

Lemma fold_with_bitmaps (f : Bitmap.t -> Bitmap.t) (l : list (str * Bitmap.t))
    (g : group) :
  fold_left (fun g0 kv => with_bitmaps g0 (<[fst kv := f (snd kv)]> (bitmap_group_ g0)))
            l g
  = with_bitmaps g
      (fold_left (fun acc kv => <[fst kv := f (snd kv)]> acc) l (bitmap_group_ g)).
Proof.
  revert g. induction l as [|kv l IH]; intros g; cbn [fold_left].
  - symmetry. apply with_bitmaps_same.
  - rewrite IH. reflexivity.
Qed.

Lemma count_filtered (g : group) (ec : gmap str Z) (eb : gmap str Bitmap.t)
    (valid : Bitmap.t) :
  FieldGroup.wf g -> Bitmap.wf valid ->
  count_field_enums g ec eb (Some valid)
  = (0,
     match rangedmap_ptr_ g with
     | Some _ =>
         <[group_name_ g := fst (Bitmap.get_cached_nbit valid)]>
           (((fun b => card (Bitmap.elems b ∩ Bitmap.elems valid))
               <$> bitmap_group_ g) ∪ ec)
     | None =>
         ((fun b => card (Bitmap.elems b ∩ Bitmap.elems valid))
            <$> bitmap_group_ g) ∪ ec
     end,
     eb ∪ ((fun b => snd (Bitmap.get_cached_nbit (key_bitmap valid b)))
             <$> bitmap_group_ g),
     match rangedmap_ptr_ g with
     | Some _ => Some (snd (Bitmap.get_cached_nbit valid))
     | None => Some valid
     end,
     g).
Proof.
  intros Hg Hv. unfold count_field_enums. rewrite guard_fold.
  rewrite (fold_state _
             (fun p kv =>
                (<[fst kv := fst (Bitmap.get_cached_nbit (key_bitmap valid (snd kv)))]>
                   (fst p),
                 insert_new (fst kv)
                   (snd (Bitmap.get_cached_nbit (key_bitmap valid (snd kv)))) (snd p)))
             g).
  2:{ intros [ec0 eb0] [k b] Hin. apply key_order_elem in Hin.
      cbn [fst snd]. rewrite (copy_known g k b Hin).
      destruct (Bitmap.get_cached_nbit (key_bitmap valid b)) as [n kb]. reflexivity. }
  rewrite (fold_pair_split
             (fun acc kv =>
                <[fst kv := fst (Bitmap.get_cached_nbit (key_bitmap valid (snd kv)))]> acc)
             (fun acc kv =>
                insert_new (fst kv)
                  (snd (Bitmap.get_cached_nbit (key_bitmap valid (snd kv)))) acc)).
  rewrite (fold_insert_map
             (fun b => fst (Bitmap.get_cached_nbit (key_bitmap valid b))))
    by apply key_order_nodup.
  rewrite (fold_insert_new
             (fun b => snd (Bitmap.get_cached_nbit (key_bitmap valid b)))).
  rewrite !key_order_map.
  assert (Ec : (fun b => fst (Bitmap.get_cached_nbit (key_bitmap valid b)))
                 <$> bitmap_group_ g
               = (fun b => card (Bitmap.elems b ∩ Bitmap.elems valid))
                   <$> bitmap_group_ g).
  { apply map_fmap_ext. intros k b E. apply key_bitmap_count; [exact (Hg k b E)|exact Hv]. }
  rewrite Ec.
  destruct (rangedmap_ptr_ g) as [m|]; [|reflexivity].
  destruct (Bitmap.get_cached_nbit valid) as [n v']. reflexivity.
Qed.

Lemma count_unfiltered (g : group) (ec : gmap str Z) (eb : gmap str Bitmap.t) :
  counted g ->
  count_field_enums g ec eb None
  = (0,
     match rangedmap_ptr_ g with
     | Some m =>
         <[group_name_ g := RangedMap.size m]>
           (((fun b => card (Bitmap.elems b)) <$> bitmap_group_ g) ∪ ec)
     | None => ((fun b => card (Bitmap.elems b)) <$> bitmap_group_ g) ∪ ec
     end,
     eb ∪ ((fun b => snd (Bitmap.get_cached_nbit b)) <$> bitmap_group_ g),
     None,
     with_bitmaps g ((fun b => snd (Bitmap.get_cached_nbit b)) <$> bitmap_group_ g)).
Proof.
  intros Hg. unfold count_field_enums. rewrite guard_fold.
  rewrite (fold_ext _
             (fun p kv =>
                (<[fst kv := fst (Bitmap.get_cached_nbit (snd kv))]> (fst (fst p)),
                 insert_new (fst kv) (snd (Bitmap.get_cached_nbit (snd kv)))
                   (snd (fst p)),
                 with_bitmaps (snd p)
                   (<[fst kv := snd (Bitmap.get_cached_nbit (snd kv))]>
                      (bitmap_group_ (snd p)))))).
  2:{ intros [[ec0 eb0] g0] [k b]. cbn [fst snd].
      destruct (Bitmap.get_cached_nbit b) as [n b']. reflexivity. }
  rewrite (fold_triple_split
             (fun acc kv => <[fst kv := fst (Bitmap.get_cached_nbit (snd kv))]> acc)
             (fun acc kv =>
                insert_new (fst kv) (snd (Bitmap.get_cached_nbit (snd kv))) acc)
             (fun g0 kv =>
                with_bitmaps g0
                  (<[fst kv := snd (Bitmap.get_cached_nbit (snd kv))]>
                     (bitmap_group_ g0)))).
  rewrite (fold_insert_map (fun b => fst (Bitmap.get_cached_nbit b)))
    by apply key_order_nodup.
  rewrite (fold_insert_new (fun b => snd (Bitmap.get_cached_nbit b))).
  rewrite (fold_with_bitmaps (fun b => snd (Bitmap.get_cached_nbit b))).
  rewrite (fold_insert_map (fun b => snd (Bitmap.get_cached_nbit b)))
    by apply key_order_nodup.
  rewrite !key_order_map, fmap_union_same.
  assert (Ec : (fun b => fst (Bitmap.get_cached_nbit b)) <$> bitmap_group_ g
               = (fun b => card (Bitmap.elems b)) <$> bitmap_group_ g).
  { apply map_fmap_ext. intros k b E. apply cached_count, (Hg k b E). }
  rewrite Ec. cbn [rangedmap_ptr_ with_bitmaps group_name_].
  destruct (rangedmap_ptr_ g) as [m|]; reflexivity.
Qed.

Local Notation pair_act v p :=
  (fun kv : str * Bitmap.t =>
     (p ++ comma :: fst kv,
      if 0 <? card (Bitmap.elems (snd kv) ∩ Bitmap.elems v)
      then Some (card (Bitmap.elems (snd kv) ∩ Bitmap.elems v))
      else None)).

Local Notation acts g :=
  (fun pv : str * Bitmap.t =>
     (pair_act (snd pv) (fst pv) <$> in_key_order (bitmap_group_ g))
     ++ match rangedmap_ptr_ g with
        | Some _ => [(fst pv, Some (card (Bitmap.elems (snd pv))))]
        | None => []
        end).

Lemma count_joint (g : group) (ec : gmap str Z) (fb : gmap str Bitmap.t) :
  FieldGroup.wf g ->
  (forall p v, fb !! p = Some v ->
     Bitmap.wf v /\ Bitmap.has_nbit_cache_ v = true
     /\ Bitmap.nbit_cache_ v = Bitmap.nbit v) ->
  count_field_enums_joint g ec fb
  = (0, fold_left act (in_key_order fb ≫= acts g) ec, fb, g).
Proof.
  intros Hg Hfb. unfold count_field_enums_joint.
  rewrite (fold_state2 _ (fun ec0 pv => fold_left act (acts g pv) ec0) fb g).
  2:{ intros ec0 [p v] Hin. apply key_order_elem in Hin.
      destruct (Hfb p v Hin) as (Hv & Hc & Hn).
      cbn [fst snd]. rewrite guard_fold.
      rewrite (fold_state _ (fun ec1 kv => act ec1 (pair_act v p kv)) g).
      2:{ intros ec1 [k b] Hk. apply key_order_elem in Hk.
          cbn [fst snd]. rewrite (copy_known g k b Hk).
          rewrite (key_bitmap_count v b (Hg k b Hk) Hv).
          destruct (0 <? card (Bitmap.elems b ∩ Bitmap.elems v)); reflexivity. }
      rewrite (fold_of_map act (pair_act v p)).
      rewrite fold_left_app.
      destruct (rangedmap_ptr_ g) as [m|]; [|reflexivity].
      rewrite (cached_again v Hc), Hn, nbit_card, (insert_id fb p v Hin).
      reflexivity. }
  rewrite (fold_of_bind act (acts g)). reflexivity.
Qed.

Lemma written_pair (g : group) (fb : gmap str Bitmap.t) (ec : gmap str Z)
    (p k : str) (v b : Bitmap.t) :
  (forall q, is_Some (fb !! q) -> comma ∉ q) ->
  fb !! p = Some v -> bitmap_group_ g !! k = Some b ->
  fold_left act (in_key_order fb ≫= acts g) ec !! (p ++ comma :: k)
  = if 0 <? card (Bitmap.elems b ∩ Bitmap.elems v)
    then Some (card (Bitmap.elems b ∩ Bitmap.elems v))
    else ec !! (p ++ comma :: k).
Proof.
  intros Hc Ep Ek.
  rewrite (acts_written _ ec _
             (if 0 <? card (Bitmap.elems b ∩ Bitmap.elems v)
              then Some (card (Bitmap.elems b ∩ Bitmap.elems v)) else None)).
  - destruct (0 <? card (Bitmap.elems b ∩ Bitmap.elems v)); reflexivity.
  - exists (pair_act v p (k, b)). split; [|reflexivity].
    apply list_elem_of_bind. exists (p, v). split; [|apply key_order_elem, Ep].
    apply elem_of_app. left. apply list_elem_of_fmap. exists (k, b).
    split; [reflexivity|apply key_order_elem, Ek].
  - intros a Hin Ea. apply list_elem_of_bind in Hin as ([p' v'] & Hin & Hpv).
    apply key_order_elem in Hpv. cbn [fst snd] in Hin.
    apply elem_of_app in Hin as [Hin|Hin].
    + apply list_elem_of_fmap in Hin as ([k' b'] & -> & Hk').
      apply key_order_elem in Hk'. cbn [fst snd] in Ea |- *.
      apply comma_split in Ea as [-> ->];
        [|apply Hc; eexists; eassumption|apply Hc; eexists; eassumption].
      rewrite Ep in Hpv. injection Hpv as <-.
      rewrite Ek in Hk'. injection Hk' as <-. reflexivity.
    + exfalso. destruct (rangedmap_ptr_ g);
        [|apply not_elem_of_nil in Hin; contradiction].
      apply list_elem_of_singleton in Hin. subst a. cbn [fst] in Ea.
      apply (Hc p'); [eexists; eassumption|]. rewrite Ea. apply comma_inside.
Qed.

Lemma written_prefix (g : group) (fb : gmap str Bitmap.t) (ec : gmap str Z)
    (p : str) (v : Bitmap.t) :
  (forall q, is_Some (fb !! q) -> comma ∉ q) ->
  is_Some (rangedmap_ptr_ g) -> fb !! p = Some v ->
  fold_left act (in_key_order fb ≫= acts g) ec !! p
  = Some (card (Bitmap.elems v)).
Proof.
  intros Hc [m Em] Ep.
  rewrite (acts_written _ ec _ (Some (card (Bitmap.elems v)))); [reflexivity| |].
  - exists (p, Some (card (Bitmap.elems v))). split; [|reflexivity].
    apply list_elem_of_bind. exists (p, v). split; [|apply key_order_elem, Ep].
    apply elem_of_app. right. rewrite Em. apply list_elem_of_here.
  - intros a Hin Ea. apply list_elem_of_bind in Hin as ([p' v'] & Hin & Hpv).
    apply key_order_elem in Hpv. cbn [fst snd] in Hin.
    apply elem_of_app in Hin as [Hin|Hin].
    + exfalso. apply list_elem_of_fmap in Hin as ([k' b'] & -> & Hk').
      cbn [fst] in Ea. apply (Hc p); [eexists; eassumption|].
      rewrite <- Ea. apply comma_inside.
    + rewrite Em in Hin. apply list_elem_of_singleton in Hin. subst a.
      cbn [fst snd] in Ea |- *. subst p'.
      rewrite Ep in Hpv. injection Hpv as <-. reflexivity.
Qed.

Lemma written_other (g : group) (fb : gmap str Bitmap.t) (ec : gmap str Z)
    (x : str) :
  (forall p k, is_Some (fb !! p) -> is_Some (bitmap_group_ g !! k) ->
               x <> p ++ comma :: k) ->
  rangedmap_ptr_ g = None \/ fb !! x = None ->
  fold_left act (in_key_order fb ≫= acts g) ec !! x = ec !! x.
Proof.
  intros Hx Hr. apply acts_unchanged.
  intros a Hin Ea. apply list_elem_of_bind in Hin as ([p' v'] & Hin & Hpv).
  apply key_order_elem in Hpv. cbn [fst snd] in Hin.
  apply elem_of_app in Hin as [Hin|Hin].
  - apply list_elem_of_fmap in Hin as ([k' b'] & -> & Hk').
    apply key_order_elem in Hk'. cbn [fst] in Ea.
    apply (Hx p' k'); [eexists; eassumption|eexists; eassumption|].
    symmetry. exact Ea.
  - destruct Hr as [Hr|Hr].
    + rewrite Hr in Hin. apply not_elem_of_nil in Hin. contradiction.
    + destruct (rangedmap_ptr_ g);
        [|apply not_elem_of_nil in Hin; contradiction].
      apply list_elem_of_singleton in Hin. subst a. cbn [fst] in Ea. subst p'.
      rewrite Hr in Hpv. discriminate.
Qed.

Lemma joint_result (g0 g1 g1' : group) (valid : option Bitmap.t)
    (h h' : Bitmap.t -> Bitmap.t) (ec : gmap str Z) :
  comma_free g0 ->
  (forall p b, bitmap_group_ g0 !! p = Some b ->
     Bitmap.elems (h b) = filtered valid (Bitmap.elems b)) ->
  bitmap_group_ g1' = h' <$> bitmap_group_ g1 ->
  (forall k b, bitmap_group_ g1 !! k = Some b ->
     Bitmap.elems (h' b) = Bitmap.elems b) ->
  rangedmap_ptr_ g1' = rangedmap_ptr_ g1 ->
  joint_counts g0 g1 valid ec
    (fold_left act (in_key_order (h <$> bitmap_group_ g0) ≫= acts g1') ec).
Proof.
  intros Hc Hh Eg Hh' Er.
  assert (Hfree : forall q, is_Some ((h <$> bitmap_group_ g0) !! q) -> comma ∉ q).
  { intros q Hq. apply Hc. rewrite lookup_fmap in Hq.
    apply fmap_is_Some in Hq. exact Hq. }
  assert (Hkeys1 : forall k, is_Some (bitmap_group_ g1' !! k)
                             <-> is_Some (bitmap_group_ g1 !! k)).
  { intros k. rewrite Eg, lookup_fmap. apply fmap_is_Some. }
  constructor.
  - intros p k [b0 E0] [b1 E1].
    rewrite (written_pair g1' _ ec p k (h b0) (h' b1) Hfree).
    + unfold bits. rewrite E0, E1, (Hh p b0 E0), (Hh' k b1 E1).
      rewrite (comm_L (∩) (Bitmap.elems b1)). reflexivity.
    + rewrite lookup_fmap, E0. reflexivity.
    + rewrite Eg, lookup_fmap, E1. reflexivity.
  - intros p Hr [b0 E0].
    rewrite (written_prefix g1' _ ec p (h b0) Hfree).
    + unfold bits. rewrite E0, (Hh p b0 E0). reflexivity.
    + rewrite Er. exact Hr.
    + rewrite lookup_fmap, E0. reflexivity.
  - intros x Hx Hr. apply written_other.
    + intros p k Hp Hk. apply Hx.
      * rewrite lookup_fmap in Hp. apply fmap_is_Some in Hp. exact Hp.
      * apply Hkeys1, Hk.
    + rewrite Er. destruct Hr as [Hr|Hr]; [left; exact Hr|right].
      rewrite lookup_fmap, Hr. reflexivity.
Qed.

(** ** The two overloads of a set *)

Local Notation groups := FieldGroupSet.field_bitmap_groups_map_.
Local Notation cached := (fun b : Bitmap.t => snd (Bitmap.get_cached_nbit b)).

Lemma cached_group_bits (g : group) :
  counted g ->
  forall k, bits (with_bitmaps g (cached <$> bitmap_group_ g)) k = bits g k.
Proof.
  intros Hg k. unfold bits. cbn [bitmap_group_ with_bitmaps].
  rewrite lookup_fmap. destruct (bitmap_group_ g !! k) as [b|] eqn:E; [|reflexivity].
  cbn [fmap option_fmap option_map]. apply cached_bitmap, (Hg k b E).
Qed.

Lemma cached_group_wf (g : group) :
  counted g -> FieldGroup.wf (with_bitmaps g (cached <$> bitmap_group_ g)).
Proof.
  intros Hg k b'. cbn [bitmap_group_ with_bitmaps]. rewrite lookup_fmap.
  destruct (bitmap_group_ g !! k) as [b|] eqn:E; [|discriminate].
  cbn [fmap option_fmap option_map]. intros [= <-].
  destruct (Hg k b E) as [Hw Hc]. apply (cached_bitmap b Hc), Hw.
Qed.

Lemma set_replace_bits (s : @FieldGroupSet.t F) (f : str) (g g' : group) :
  groups s !! f = Some g -> (forall k, bits g' k = bits g k) ->
  forall f' k,
    FieldGroupSet.bits (FieldGroupSet.with_groups s (<[f := g']> (groups s))) f' k
    = FieldGroupSet.bits s f' k.
Proof.
  intros E Hb f' k. unfold FieldGroupSet.bits.
  cbn [FieldGroupSet.field_bitmap_groups_map_ FieldGroupSet.with_groups].
  destruct (decide (f' = f)) as [->|Hne].
  - rewrite lookup_insert_eq, E. apply Hb.
  - rewrite lookup_insert_ne by congruence. reflexivity.
Qed.

Lemma count_one (s : @FieldGroupSet.t F) (f : str) (g : group) (ec : gmap str Z)
    (valid : option Bitmap.t) :
  FieldGroupSet.counted s ->
  (forall v, valid = Some v -> Bitmap.wf v /\ cache_ok v) ->
  groups s !! f = Some g ->
  exists valid' s',
    FieldGroupSet.count_field_enums s f ec valid
    = (0, field_counts g valid ec, valid', s')
    /\ Bitmap.elems <$> valid' = Bitmap.elems <$> valid
    /\ forall f' k, FieldGroupSet.bits s' f' k = FieldGroupSet.bits s f' k.
Proof.
  intros Hs Hv E. unfold FieldGroupSet.count_field_enums. rewrite E.
  assert (Hg : counted g) by exact (Hs f g E).
  assert (Hw : FieldGroup.wf g) by (intros k b Eb; apply (Hg k b Eb)).
  destruct valid as [v|].
  - destruct (Hv v eq_refl) as [Hvw Hvc].
    rewrite (count_filtered g ec ∅ v Hw Hvw). cbv beta iota.
    rewrite (GroupExtras.with_groups_id s f g E).
    unfold field_counts, filtered. destruct (rangedmap_ptr_ g) as [m|].
    + rewrite (cached_count v Hvc). eexists _, s.
      split; [reflexivity|]. split; [|reflexivity].
      cbn [fmap option_fmap option_map]. f_equal. apply cached_bitmap, Hvc.
    + exists (Some v), s. repeat split; reflexivity.
  - rewrite (count_unfiltered g ec ∅ Hg). cbv beta iota.
    eexists None, _. split; [|split].
    + reflexivity.
    + reflexivity.
    + apply (set_replace_bits s f g _ E), cached_group_bits, Hg.
Qed.

Lemma count_two (s : @FieldGroupSet.t F) (f0 f1 : str) (g0 g1 : group)
    (ec : gmap str Z) (valid : option Bitmap.t) :
  FieldGroupSet.counted s ->
  (forall v, valid = Some v -> Bitmap.wf v /\ cache_ok v) ->
  groups s !! f0 = Some g0 -> groups s !! f1 = Some g1 -> comma_free g0 ->
  exists ec' valid' s',
    FieldGroupSet.count_field_enums_fields s [f0; f1] ec valid
    = (0, ec', valid', s')
    /\ joint_counts g0 g1 valid ec ec'
    /\ Bitmap.elems <$> valid' = Bitmap.elems <$> valid
    /\ forall f' k, FieldGroupSet.bits s' f' k = FieldGroupSet.bits s f' k.
Proof.
  intros Hs Hv E0 E1 Hc. unfold FieldGroupSet.count_field_enums_fields.
  rewrite E0, E1.
  assert (Hg0 : counted g0) by exact (Hs f0 g0 E0).
  assert (Hw0 : FieldGroup.wf g0) by (intros k b Eb; apply (Hg0 k b Eb)).
  assert (Hg1 : counted g1) by exact (Hs f1 g1 E1).
  assert (Hw1 : FieldGroup.wf g1) by (intros k b Eb; apply (Hg1 k b Eb)).
  destruct valid as [v|].
  - destruct (Hv v eq_refl) as [Hvw Hvc].
    rewrite (count_filtered g0 ∅ ∅ v Hw0 Hvw). cbv beta iota.
    change (negb (0 =? 0)) with false. cbv iota.
    rewrite (GroupExtras.with_groups_id s f0 g0 E0), E1.
    rewrite (left_id_L ∅ (∪)).
    rewrite (count_joint g1 ec _ Hw1).
    2:{ intros p b'. rewrite lookup_fmap.
        destruct (bitmap_group_ g0 !! p) as [b|] eqn:Eb; [|discriminate].
        cbn [fmap option_fmap option_map]. intros [= <-].
        destruct (key_bitmap_cached v b (Hw0 p b Eb) Hvw) as (W & _ & C & N).
        repeat split; assumption. }
    cbv beta iota. rewrite (GroupExtras.with_groups_id s f1 g1 E1).
    eexists _, _, s. split; [reflexivity|]. split; [|split].
    + apply (joint_result g0 g1 g1 (Some v)
               (fun b => snd (Bitmap.get_cached_nbit (key_bitmap v b))) id).
      * exact Hc.
      * intros p b Eb. apply (key_bitmap_cached v b (Hw0 p b Eb) Hvw).
      * symmetry. apply map_fmap_id.
      * reflexivity.
      * reflexivity.
    + destruct (rangedmap_ptr_ g0); [|reflexivity].
      cbn [fmap option_fmap option_map]. f_equal. apply cached_bitmap, Hvc.
    + reflexivity.
  - rewrite (count_unfiltered g0 ∅ ∅ Hg0). cbv beta iota.
    change (negb (0 =? 0)) with false. cbv iota.
    set (g0' := with_bitmaps g0 (cached <$> bitmap_group_ g0)).
    set (s1 := FieldGroupSet.with_groups s (<[f0 := g0']> (groups s))).
    assert (E0' : groups s1 !! f0 = Some g0') by apply lookup_insert_eq.
    assert (Hg1' : exists (g1' : group) (h' : Bitmap.t -> Bitmap.t),
               groups s1 !! f1 = Some g1'
               /\ bitmap_group_ g1' = h' <$> bitmap_group_ g1
               /\ (forall k b, bitmap_group_ g1 !! k = Some b ->
                     Bitmap.elems (h' b) = Bitmap.elems b)
               /\ rangedmap_ptr_ g1' = rangedmap_ptr_ g1
               /\ FieldGroup.wf g1').
    { destruct (decide (f1 = f0)) as [->|Hne].
      - rewrite E0 in E1. injection E1 as <-. exists g0', cached.
        split; [exact E0'|]. split; [reflexivity|]. split.
        + intros k b Eb. apply cached_bitmap, (Hg0 k b Eb).
        + split; [reflexivity|apply cached_group_wf, Hg0].
      - exists g1, id. split.
        + unfold s1. cbn [FieldGroupSet.field_bitmap_groups_map_ FieldGroupSet.with_groups].
          rewrite lookup_insert_ne by congruence. exact E1.
        + split; [symmetry; apply map_fmap_id|]. split; [reflexivity|].
          split; [reflexivity|exact Hw1]. }
    destruct Hg1' as (g1' & h' & E1' & Eg & Hh' & Er & Hw1').
    rewrite E1', (left_id_L ∅ (∪)).
    rewrite (count_joint g1' ec _ Hw1').
    2:{ intros p b'. rewrite lookup_fmap.
        destruct (bitmap_group_ g0 !! p) as [b|] eqn:Eb; [|discriminate].
        cbn [fmap option_fmap option_map]. intros [= <-].
        destruct (Hg0 p b Eb) as [Hb Hcb].
        destruct (cached_bitmap b Hcb) as (_ & W & C & N).
        split; [exact (W Hb)|]. split; assumption. }
    cbv beta iota. rewrite (GroupExtras.with_groups_id s1 f1 g1' E1'), E0'.
    cbv beta iota.
    change (bitmap_group_ g0') with (cached <$> bitmap_group_ g0).
    assert (Eu : (cached <$> bitmap_group_ g0) ∪ (cached <$> bitmap_group_ g0)
                 = cached <$> bitmap_group_ g0).
    { apply map_eq. intros i. rewrite lookup_union.
      destruct ((cached <$> bitmap_group_ g0) !! i); reflexivity. }
    rewrite Eu.
    change (with_bitmaps g0' (cached <$> bitmap_group_ g0))
      with (with_bitmaps g0' (bitmap_group_ g0')).
    rewrite (with_bitmaps_same g0'), (GroupExtras.with_groups_id s1 f0 g0' E0').
    eexists _, None, s1. split; [reflexivity|]. split; [|split].
    + apply (joint_result g0 g1 g1' None cached h'); try assumption.
      intros p b Eb. apply cached_bitmap, (Hg0 p b Eb).
    + reflexivity.
    + apply (set_replace_bits s f0 g0 g0' E0), cached_group_bits, Hg0.
Qed.

(** X30. [FieldBitmapGroupSet::count_field_enums(fields, enum_count,
    valid_bitmap)] on a set whose bitmaps are well formed with caches that
    are right.  For no field or more than two fields it returns -2, for
    an unknown field -1 (one field), -3 (the first of two) or -4 (the
    second), and changes nothing.  For one known field it returns 0 and
    [enum_count] has, for every key of the field, the number of
    identifiers of the key that pass the filter (all of them without a
    filter), whatever the representation of the bitmaps; for two known
    fields, when no key of the first has a comma, it has for every pair
    of keys the number of identifiers common to both that pass the
    filter, under the two keys joined by a comma, unless that number is
    zero.  Every other count stays, and no key of the set gains or loses
    an identifier. *)
Theorem X30_count_field_enums_counts (s : @FieldGroupSet.t F) (fields : list str)
    (enum_count : gmap str Z) (valid_bitmap : option Bitmap.t) :
  FieldGroupSet.counted s ->
  (forall valid, valid_bitmap = Some valid -> Bitmap.wf valid /\ cache_ok valid) ->
  match fields with
  | [field] =>
      match groups s !! field with
      | None =>
          FieldGroupSet.count_field_enums_fields s [field] enum_count valid_bitmap
          = (-1, enum_count, valid_bitmap, s)
      | Some g =>
          exists valid' s',
            FieldGroupSet.count_field_enums_fields s [field] enum_count valid_bitmap
            = (0, field_counts g valid_bitmap enum_count, valid', s')
            /\ Bitmap.elems <$> valid' = Bitmap.elems <$> valid_bitmap
            /\ forall field' key,
                 FieldGroupSet.bits s' field' key = FieldGroupSet.bits s field' key
      end
  | [field0; field1] =>
      match groups s !! field0, groups s !! field1 with
      | None, _ =>
          FieldGroupSet.count_field_enums_fields s [field0; field1] enum_count
            valid_bitmap
          = (-3, enum_count, valid_bitmap, s)
      | Some _, None =>
          FieldGroupSet.count_field_enums_fields s [field0; field1] enum_count
            valid_bitmap
          = (-4, enum_count, valid_bitmap, s)
      | Some g0, Some g1 =>
          comma_free g0 ->
          exists enum_count' valid' s',
            FieldGroupSet.count_field_enums_fields s [field0; field1] enum_count
              valid_bitmap
            = (0, enum_count', valid', s')
            /\ joint_counts g0 g1 valid_bitmap enum_count enum_count'
            /\ Bitmap.elems <$> valid' = Bitmap.elems <$> valid_bitmap
            /\ forall field' key,
                 FieldGroupSet.bits s' field' key = FieldGroupSet.bits s field' key
      end
  | _ =>
      FieldGroupSet.count_field_enums_fields s fields enum_count valid_bitmap
      = (-2, enum_count, valid_bitmap, s)
  end.
Proof.
  intros Hs Hv. destruct fields as [|f0 [|f1 [|f2 r]]]; [reflexivity| | |reflexivity].
  - destruct (groups s !! f0) as [g|] eqn:E.
    + exact (count_one s f0 g enum_count valid_bitmap Hs Hv E).
    + cbn [FieldGroupSet.count_field_enums_fields].
      unfold FieldGroupSet.count_field_enums. rewrite E. reflexivity.
  - destruct (groups s !! f0) as [g0|] eqn:E0.
    + destruct (groups s !! f1) as [g1|] eqn:E1.
      * intros Hc. exact (count_two s f0 f1 g0 g1 enum_count valid_bitmap Hs Hv E0 E1 Hc).
      * cbn [FieldGroupSet.count_field_enums_fields]. rewrite E0, E1. reflexivity.
    + cbn [FieldGroupSet.count_field_enums_fields]. rewrite E0. reflexivity.
Qed.

End Group.

(** ** The sample fields *)

Lemma sample_bitmap_ok (ids : list Z) :
  Bitmap.wf (FieldGroupSet.sample_bitmap ids)
  /\ cache_ok (FieldGroupSet.sample_bitmap ids).
Proof.
  unfold FieldGroupSet.sample_bitmap. split.
  - apply fold_Set_spec, wf_new.
  - intros Hc. exfalso. revert Hc.
    destruct ids as [|x ids _] using rev_ind; [discriminate|].
    rewrite fold_left_app. cbn [fold_left].
    rewrite BitmapCache.Set_invalidates. discriminate.
Qed.

Lemma sample_color_counted : counted FieldGroupSet.sample_color.
Proof.
  intros key b E. unfold FieldGroupSet.sample_color in E. cbn [bitmap_group_] in E.
  apply lookup_insert_Some in E as [[_ <-]|[_ E]]; [apply sample_bitmap_ok|].
  apply lookup_insert_Some in E as [[_ <-]|[_ E]]; [apply sample_bitmap_ok|].
  rewrite lookup_empty in E. discriminate.
Qed.

Lemma sample_size_counted : counted FieldGroupSet.sample_size.
Proof.
  intros key b E. unfold FieldGroupSet.sample_size in E. cbn [bitmap_group_] in E.
  apply lookup_insert_Some in E as [[_ <-]|[_ E]]; [apply sample_bitmap_ok|].
  apply lookup_insert_Some in E as [[_ <-]|[_ E]]; [apply sample_bitmap_ok|].
  rewrite lookup_empty in E. discriminate.
Qed.

Lemma sample_enum_groups :
  FieldGroupSet.field_bitmap_groups_map_ FieldGroupSet.sample_enum_set
  = <[FieldGroupSet.chars "size" := FieldGroupSet.sample_size]>
      (<[FieldGroupSet.chars "color" := FieldGroupSet.sample_color]> ∅).
Proof. reflexivity. Qed.

Lemma sample_enum_counted : FieldGroupSet.counted FieldGroupSet.sample_enum_set.
Proof.
  intros field g E. rewrite sample_enum_groups in E.
  apply lookup_insert_Some in E as [[_ <-]|[_ E]]; [apply sample_size_counted|].
  apply lookup_insert_Some in E as [[_ <-]|[_ E]]; [apply sample_color_counted|].
  rewrite lookup_empty in E. discriminate.
Qed.

Lemma sample_valid_ok (valid : Bitmap.t) :
  Some FieldGroupSet.sample_valid = Some valid ->
  Bitmap.wf valid /\ cache_ok valid.
Proof. intros [= <-]. apply sample_bitmap_ok. Qed.

Lemma sample_color_free : comma_free FieldGroupSet.sample_color.
Proof.
  intros key [b E]. unfold FieldGroupSet.sample_color in E. cbn [bitmap_group_] in E.
  apply lookup_insert_Some in E as [[<- _]|[_ E]].
  { apply (bool_decide_unpack _). vm_compute. reflexivity. }
  apply lookup_insert_Some in E as [[<- _]|[_ E]].
  { apply (bool_decide_unpack _). vm_compute. reflexivity. }
  rewrite lookup_empty in E. discriminate.
Qed.

Lemma X30_count_field_enums_counts_witness :
  exists enum_count' valid' s',
    FieldGroupSet.count_field_enums_fields FieldGroupSet.sample_enum_set
      [FieldGroupSet.chars "color"; FieldGroupSet.chars "size"] ∅
      (Some FieldGroupSet.sample_valid)
    = (0, enum_count', valid', s')
    /\ enum_count' !! FieldGroupSet.chars "red,l" = Some 1.
Proof.
  pose proof (X30_count_field_enums_counts FieldGroupSet.sample_enum_set
                [FieldGroupSet.chars "color"; FieldGroupSet.chars "size"] ∅
                (Some FieldGroupSet.sample_valid)
                sample_enum_counted sample_valid_ok) as Hx.
  cbv beta iota in Hx.
  assert (E0 : FieldGroupSet.field_bitmap_groups_map_ FieldGroupSet.sample_enum_set
               !! FieldGroupSet.chars "color" = Some FieldGroupSet.sample_color)
    by (vm_compute; reflexivity).
  assert (E1 : FieldGroupSet.field_bitmap_groups_map_ FieldGroupSet.sample_enum_set
               !! FieldGroupSet.chars "size" = Some FieldGroupSet.sample_size)
    by (vm_compute; reflexivity).
  rewrite E0, E1 in Hx.
  destruct (Hx sample_color_free) as (ec' & valid' & s' & E & J & _).
  exists ec', valid', s'. split; [exact E|].
  change (FieldGroupSet.chars "red,l")
    with (FieldGroupSet.chars "red" ++ comma :: FieldGroupSet.chars "l").
  rewrite (joint_pair _ _ _ _ _ J (FieldGroupSet.chars "red") (FieldGroupSet.chars "l")).
  - vm_compute. reflexivity.
  - eexists. vm_compute. reflexivity.
  - eexists. vm_compute. reflexivity.
Defined.

End EnumCounts.
